(** * LSM-Tree: a shallow embedding of the engine and its collaborators

    The development follows the layout of the repository:
    - [consts.h]                       -> [Consts]
    - [skiplist], [memtable]           -> [SkipList], [MemTable]
    - [sst]                            -> [SST], [SSTBuilder]
    - [iterator/iterator.cpp]          -> [SearchItem], [HeapIterator]
    - [sst/concact_iterator],
      [lsm/two_merge_iterator]         -> [ConcactIterator], [TwoMergeIterator]
    - [lsm/engine.cpp]                 -> [LSMEngine]
    - [redis_wrapper/redis_wrapper.cpp]-> [RedisWrapper]

    Conventions.  Keys and values are [string]s compared bytewise
    ([String.compare], the order of [std::string]).  Byte sizes ([size_t])
    are [N]; SST identifiers and levels are [nat]; the signed heap index
    [idx] of a [SearchItem] is [Z].  The two [unordered_map]s of the engine
    are [gmap]s.  A [double] is a binary64 float ([PrimFloat.float]). *)

From stdpp Require Import gmap list strings sorting pretty.
From Stdlib Require Import Ascii ZArith NArith Lia.
From Stdlib Require PrimFloat SpecFloat FloatOps.

(* ================================================================== *)
(** * Part I: the model                                                *)
(* ================================================================== *)

(** ** Configuration constants ([include/consts.h]) *)

(** Modelled from the spec: [consts.h] is not part of the sources at hand;
    section 6 of the specification lists the tunable constants.  They are
    kept abstract. *)
Record Consts := {
  LSM_BLOCK_SIZE : N;
  LSM_PER_MEM_SIZE_LIMIT : N;
  LSM_TOL_MEM_SIZE_LIMIT : N;
  LSM_SST_LEVEL_RATIO : N
}.

Abbreviation KV := (string * string)%type.

(** Bytes occupied by one record: [key.size() + value.size()]. *)
Definition kv_bytes (e : KV) : N :=
  (N.of_nat (String.length e.1) + N.of_nat (String.length e.2))%N.

(** ** SkipList *)

Module SkipList.

(** Modelled from the spec: the skiplist ([skiplist.h], [skiplist.cpp]) is
    not part of the sources at hand.  Section 4.1: "a probabilistic ordered
    map"; of the tower structure only the bottom level matters for the
    contents, so a skiplist is the ascending list of its nodes.  "Search
    descends ..., advancing while the next key is strictly less than the
    target." *)
Definition t := list KV.

Definition empty : t := [].

(** "[put(k,v)] inserts or overwrites". *)
Fixpoint put (k v : string) (l : t) : t :=
  match l with
  | [] => [(k, v)]
  | (k', v') :: l' =>
      if String.ltb k' k then (k', v') :: put k v l'
      else if String.eqb k' k then (k, v) :: l'
      else (k, v) :: (k', v') :: l'
  end.

(** "[get(k)] returns the value if present". *)
Fixpoint get (k : string) (l : t) : option string :=
  match l with
  | [] => None
  | (k', v') :: l' =>
      if String.ltb k' k then get k l'
      else if String.eqb k' k then Some v' else None
  end.

(** "[remove(k)] erases the node (not a tombstone at this layer)". *)
Fixpoint remove (k : string) (l : t) : t :=
  match l with
  | [] => []
  | (k', v') :: l' =>
      if String.ltb k' k then (k', v') :: remove k l'
      else if String.eqb k' k then l' else (k', v') :: l'
  end.

(** The [size] accumulator: "[+|k|+|v|] on insert, [+Delta|v|] on
    overwrite", that is the bytes of the nodes present. *)
Definition get_size (l : t) : N :=
  foldr (fun e acc => (kv_bytes e + acc)%N) 0%N l.

(** "[begin()/end()] yield an ascending sequence of [(k,v)] pairs". *)
Definition flush (l : t) : list KV := l.

End SkipList.

(** ** SST and SSTBuilder *)

(** Modelled from the spec: [sst.h]/[sst.cpp] are not part of the sources at
    hand.  Section 3: an SST is "an immutable, sorted file with unique
    integer [sst_id]"; blocks, index, bloom filter and cache are transparent
    to the reads, so an SST is its identifier and its records in file
    order, together with the path of the file it owns ("SST file handles
    are owned by SST objects"). *)
Record SST := mkSST {
  sst_id : nat;
  sst_file : string;
  sst_entries : list KV
}.

Module Sst.

(** "[get(k)] returns an iterator positioned at [k] (valid) or at [end()]
    if absent": the record found, if any. *)
Definition get (k : string) (s : SST) : option KV :=
  List.find (fun e => String.eqb e.1 k) (sst_entries s).

Definition get_first_key (s : SST) : string :=
  match sst_entries s with
  | [] => EmptyString
  | e :: _ => e.1
  end.

Definition get_last_key (s : SST) : string :=
  match List.last (map Some (sst_entries s)) None with
  | None => EmptyString
  | Some e => e.1
  end.

End Sst.

(** Modelled from the spec: the SST builder is not part of the sources at
    hand.  Section 4.3: "[add(k,v)] appends to the current in-memory block";
    "[estimated_size()] returns the total of finalized blocks plus the open
    block"; "[build(sst_id, path, cache)] ... returns an open SST".  The
    builder is the sequence of records added so far; the byte encoding of
    blocks is not fixed by the specification, so the size estimate is a
    parameter [est] of the records added. *)
Record SSTBuilder := mkBuilder { added : list KV }.

Module Builder.

Definition new : SSTBuilder := mkBuilder [].

Definition add (e : KV) (b : SSTBuilder) : SSTBuilder :=
  mkBuilder (added b ++ [e]).

Definition estimated_size (est : list KV → N) (b : SSTBuilder) : N :=
  est (added b).

Definition build (id : nat) (path : string) (b : SSTBuilder) : SST :=
  mkSST id path (added b).

End Builder.

(** A concrete size estimate, used to run the model: every record pays its
    bytes and a fixed overhead for the two length fields and its offset. *)
Definition default_est (l : list KV) : N :=
  foldr (fun e acc => kv_bytes e + 6 + acc)%N 0%N l.

(** ** MemTable *)

(** Modelled from the spec: [memtable.h]/[memtable.cpp] are not part of the
    sources at hand.  Section 3: "one active (receives writes), zero or more
    frozen (immutable, waiting to flush)".  [frozen_tables] has the table
    frozen last at its front and the oldest at its back. *)
Record MemTable := mkMem {
  current_table : SkipList.t;
  frozen_tables : list SkipList.t
}.

(** [frozen_tables.back()] and [pop_back()]. *)
Fixpoint pop_back {A : Type} (l : list A) : option (list A * A) :=
  match l with
  | [] => None
  | x :: l' =>
      match pop_back l' with
      | None => Some ([], x)
      | Some (r, y) => Some (x :: r, y)
      end
  end.

Module Mem.
Section WithConsts.
Context (cfg : Consts).

Definition empty : MemTable := mkMem SkipList.empty [].

(** "[total_size] equals the sum of byte sizes across all skiplists". *)
Definition get_total_size (m : MemTable) : N :=
  (SkipList.get_size (current_table m)
   + foldr (fun t acc => SkipList.get_size t + acc) 0 (frozen_tables m))%N.

(** "[freeze_current]: moves the active skiplist to the front of the frozen
    list and installs a new empty active." *)
Definition freeze_current (m : MemTable) : MemTable :=
  mkMem SkipList.empty (current_table m :: frozen_tables m).

(** "[put(k,v)]: write to the active skiplist"; "if the active skiplist
    alone exceeds [LSM_PER_MEM_SIZE_LIMIT], the MemTable freezes it before
    accepting more" ("required when [active.size >= ] per-memtable
    watermark"). *)
Definition put (k v : string) (m : MemTable) : MemTable :=
  let m' := mkMem (SkipList.put k v (current_table m)) (frozen_tables m) in
  if (LSM_PER_MEM_SIZE_LIMIT cfg <=? SkipList.get_size (current_table m'))%N
  then freeze_current m' else m'.

(** "[remove(k)]: equivalent to [put(k, empty)] - a tombstone." *)
Definition remove (k : string) (m : MemTable) : MemTable :=
  put k EmptyString m.

Definition put_batch (kvs : list KV) (m : MemTable) : MemTable :=
  foldl (fun m e => put e.1 e.2 m) m kvs.

Definition remove_batch (ks : list string) (m : MemTable) : MemTable :=
  foldl (fun m k => remove k m) m ks.

Fixpoint get_frozen (k : string) (ts : list SkipList.t) : option string :=
  match ts with
  | [] => None
  | t :: ts' =>
      match SkipList.get k t with
      | Some v => Some v
      | None => get_frozen k ts'
      end
  end.

(** "[get(k)]: search active first, then frozen tables from newest-frozen
    to oldest.  Returns the first hit.  A hit with an empty value is
    returned as-is." *)
Definition get (k : string) (m : MemTable) : option string :=
  match SkipList.get k (current_table m) with
  | Some v => Some v
  | None => get_frozen k (frozen_tables m)
  end.

(** "[flush_last(builder, path, sst_id, cache)]: pops the oldest frozen
    skiplist, streams its entries in ascending key order into the builder,
    writes the SST to [path], and returns the opened SST.  Panics if there
    is no frozen table."  [None] is the panic. *)
Definition flush_last (builder : SSTBuilder) (sst_path : string)
    (id : nat) (m : MemTable) : option (SST * MemTable) :=
  match pop_back (frozen_tables m) with
  | None => None
  | Some (rest, t) =>
      let b := foldl (fun b e => Builder.add e b) builder (SkipList.flush t) in
      Some (Builder.build id sst_path b, mkMem (current_table m) rest)
  end.

End WithConsts.
End Mem.

(** ** Iterators *)

(** The cursor interface [BaseIterator] ([is_valid], [is_end], [operator*],
    [operator++]).  [steps_left] is a ghost bound on the number of
    increments a cursor still accepts; loops over a cursor use it as fuel. *)
Class BaseIterator (T : Type) := {
  is_end : T → bool;
  is_valid : T → bool;
  deref : T → KV;
  incr : T → T;
  steps_left : T → nat
}.

(** The loop guard [iter.is_valid() && !iter.is_end()]. *)
Definition live {T} `{BaseIterator T} (it : T) : bool :=
  is_valid it && negb (is_end it).

(** The sequence a cursor yields when it is run to its end. *)
Fixpoint drain_n {T} `{BaseIterator T} (n : nat) (it : T) : list KV :=
  match n with
  | 0 => []
  | S n' => if live it then deref it :: drain_n n' (incr it) else []
  end.

Definition drain {T} `{BaseIterator T} (it : T) : list KV :=
  drain_n (steps_left it) it.

(** *** SearchItem ([src/iterator/iterator.cpp]) *)

Module SearchItem.

Record t := mk {
  key : string;
  value : string;
  idx : Z;
  level : nat
}.

(** [operator<]: by key, then by [idx]. *)
Definition lt (a b : t) : bool :=
  if negb (String.eqb (key a) (key b)) then String.ltb (key a) (key b)
  else (idx a <? idx b)%Z.

(** [operator>]. *)
Definition gt (a b : t) : bool :=
  if negb (String.eqb (key a) (key b)) then String.ltb (key b) (key a)
  else (idx b <? idx a)%Z.

(** [operator==]: compares [idx] and [key] only. *)
Definition eq (a b : t) : bool :=
  (idx a =? idx b)%Z && String.eqb (key a) (key b).

End SearchItem.

(** *** HeapIterator *)

(** Modelled from the spec: the heap iterator is not part of the sources at
    hand; [engine.cpp] builds one from a vector of [SearchItem]s.  Section
    4.5: "min-heap of [SearchItem]"; "on advance, it pops the top and, if the
    popped key equals the next top's key, pops those too (older
    duplicates)".  The [std::priority_queue] under [std::greater] is the list
    of its items in the order in which [pop] would deliver them. *)
Record HeapIterator := mkHeap { items : list SearchItem.t }.

Module Heap.

(** [items.push(x)]: [x] goes behind every item it is greater than. *)
Fixpoint push (x : SearchItem.t) (q : list SearchItem.t) : list SearchItem.t :=
  match q with
  | [] => [x]
  | y :: q' => if SearchItem.gt x y then y :: push x q' else x :: y :: q'
  end.

(** [HeapIterator(item_vec)]. *)
Definition of_items (item_vec : list SearchItem.t) : HeapIterator :=
  mkHeap (foldl (fun q x => push x q) [] item_vec).

Fixpoint pop_key (k : string) (q : list SearchItem.t) : list SearchItem.t :=
  match q with
  | [] => []
  | y :: q' => if String.eqb (SearchItem.key y) k then pop_key k q' else y :: q'
  end.

(** [operator++]. *)
Definition next (h : HeapIterator) : HeapIterator :=
  match items h with
  | [] => h
  | old :: q => mkHeap (pop_key (SearchItem.key old) q)
  end.

Definition top (h : HeapIterator) : KV :=
  match items h with
  | [] => (EmptyString, EmptyString)
  | x :: _ => (SearchItem.key x, SearchItem.value x)
  end.

Definition valid (h : HeapIterator) : bool :=
  match items h with [] => false | _ => true end.

End Heap.

#[export] Instance HeapIterator_iter : BaseIterator HeapIterator := {|
  is_end h := negb (Heap.valid h);
  is_valid := Heap.valid;
  deref := Heap.top;
  incr := Heap.next;
  steps_left h := length (items h)
|}.

(** *** SstIterator *)

(** Modelled from the spec: an SST cursor ("ascending cursor over all
    records") is the SST and the records not yet visited. *)
Record SstIterator := mkSstIter { m_sst : SST; m_rest : list KV }.

Module SstIter.

(** [sst->begin()]. *)
Definition begin (s : SST) : SstIterator := mkSstIter s (sst_entries s).

Definition next (it : SstIterator) : SstIterator :=
  mkSstIter (m_sst it) (tail (m_rest it)).

Definition valid (it : SstIterator) : bool :=
  match m_rest it with [] => false | _ => true end.

Definition cur (it : SstIterator) : KV :=
  match m_rest it with [] => (EmptyString, EmptyString) | e :: _ => e end.

(** Modelled from the spec: "[merge_sst_iterator(vec)] constructs a heap
    iterator over several SST cursors"; "for SST entries the sign is
    negated so that larger [sst_id] (newer) sorts first".  Every cursor is
    run from its position to its end. *)
Definition merge_sst_iterator (iter_vec : list SstIterator) : HeapIterator :=
  Heap.of_items
    (concat (map (fun it =>
       map (fun e => SearchItem.mk e.1 e.2 (- Z.of_nat (sst_id (m_sst it))) 0)
           (m_rest it)) iter_vec)).

End SstIter.

#[export] Instance SstIterator_iter : BaseIterator SstIterator := {|
  is_end it := negb (SstIter.valid it);
  is_valid := SstIter.valid;
  deref := SstIter.cur;
  incr := SstIter.next;
  steps_left it := length (m_rest it)
|}.

(** Modelled from the spec: "[begin()/end()]: merged ascending cursor across
    all skiplists with newest-wins semantics"; "older tables get larger
    [idx]".  The active table has index 0, the frozen tables follow from the
    newest to the oldest. *)
Definition MemTable_items (m : MemTable) : list SearchItem.t :=
  concat (imap (fun i t =>
            map (fun e => SearchItem.mk e.1 e.2 (Z.of_nat i) 0) (SkipList.flush t))
          (current_table m :: frozen_tables m)).

Definition MemTable_begin (m : MemTable) : HeapIterator :=
  Heap.of_items (MemTable_items m).

(** Modelled from the spec: "[iters_monotony_predicate(pred)] returns a
    merged ascending cursor over the sub-range of keys where [pred(k) == 0]";
    the result is empty-handed ([None]) when no skiplist holds such a key. *)
Definition MemTable_iters_monotony_predicate (predicate : string → Z)
    (m : MemTable) : option HeapIterator :=
  match List.filter (fun x => (predicate (SearchItem.key x) =? 0)%Z)
          (MemTable_items m) with
  | [] => None
  | item_vec => Some (Heap.of_items item_vec)
  end.

(** Modelled from the spec: the same sub-range within one SST, as the
    records between the two cursors it returns. *)
Definition sst_iters_monotony_predicate (sst : SST) (predicate : string → Z)
    : option (list KV) :=
  match List.filter (fun e : KV => (predicate e.1 =? 0)%Z) (sst_entries sst) with
  | [] => None
  | range => Some range
  end.

(** *** ConcactIterator *)

(** Modelled from the spec: "concatenates cursors over a sequence of SSTs
    whose key ranges are disjoint and ascending ...: when the current SST's
    cursor ends, advance to the next SST." *)
Record ConcactIterator := mkConcat { cur_iter : list KV; rest_ssts : list SST }.

Module Concat.

(** Move to the next SST while the current cursor is at its end. *)
Fixpoint settle (cur : list KV) (rest : list SST) : ConcactIterator :=
  match cur with
  | [] =>
      match rest with
      | [] => mkConcat [] []
      | s :: rest' => settle (sst_entries s) rest'
      end
  | _ => mkConcat cur rest
  end.

(** [ConcactIterator(ssts)]. *)
Definition make (ssts : list SST) : ConcactIterator := settle [] ssts.

Definition next (it : ConcactIterator) : ConcactIterator :=
  settle (tail (cur_iter it)) (rest_ssts it).

Definition valid (it : ConcactIterator) : bool :=
  match cur_iter it with [] => false | _ => true end.

Definition cur (it : ConcactIterator) : KV :=
  match cur_iter it with [] => (EmptyString, EmptyString) | e :: _ => e end.

End Concat.

#[export] Instance ConcactIterator_iter : BaseIterator ConcactIterator := {|
  is_end it := negb (Concat.valid it);
  is_valid := Concat.valid;
  deref := Concat.cur;
  incr := Concat.next;
  steps_left it :=
    length (cur_iter it) + length (concat (map sst_entries (rest_ssts it)))
|}.

(** *** TwoMergeIterator *)

(** Modelled from the spec: "merges exactly two child cursors A (memtable
    side) and B (SST side).  Contract: when keys are equal, A wins (memtable
    is newer), both advance.  Empty children are handled: an unset/ended
    child behaves as +infinity." *)
Record TwoMergeIterator (A B : Type) := mkTwoMerge { it_a : A; it_b : B }.
Arguments mkTwoMerge {A B} _ _.
Arguments it_a {A B} _.
Arguments it_b {A B} _.

Module TwoMerge.
Section Children.
Context {A B : Type} `{BaseIterator A} `{BaseIterator B}.

(** Does the current record come from A? *)
Definition choose_a (it : TwoMergeIterator A B) : bool :=
  if negb (live (it_a it)) then false
  else if negb (live (it_b it)) then true
  else String.leb (deref (it_a it)).1 (deref (it_b it)).1.

Definition valid (it : TwoMergeIterator A B) : bool :=
  live (it_a it) || live (it_b it).

Definition cur (it : TwoMergeIterator A B) : KV :=
  if choose_a it then deref (it_a it) else deref (it_b it).

(** [operator++]: the side that delivered the record advances; on equal
    keys both do. *)
Definition next (it : TwoMergeIterator A B) : TwoMergeIterator A B :=
  if negb (live (it_a it)) then
    if live (it_b it) then mkTwoMerge (it_a it) (incr (it_b it)) else it
  else if negb (live (it_b it)) then mkTwoMerge (incr (it_a it)) (it_b it)
  else if String.eqb (deref (it_a it)).1 (deref (it_b it)).1
    then mkTwoMerge (incr (it_a it)) (incr (it_b it))
  else if String.ltb (deref (it_a it)).1 (deref (it_b it)).1
    then mkTwoMerge (incr (it_a it)) (it_b it)
  else mkTwoMerge (it_a it) (incr (it_b it)).

End Children.
End TwoMerge.

#[export] Instance TwoMergeIterator_iter {A B} `{BaseIterator A} `{BaseIterator B} :
  BaseIterator (TwoMergeIterator A B) := {|
  is_end it := negb (TwoMerge.valid it);
  is_valid := TwoMerge.valid;
  deref := TwoMerge.cur;
  incr := TwoMerge.next;
  steps_left it := steps_left (it_a it) + steps_left (it_b it)
|}.

(** ** The LSM engine ([src/lsm/engine.cpp]) *)

(** Effects of the engine on the file system and on its registry of SSTs, in
    program order (ghost). *)
Inductive event :=
  | EvBuild (id : nat) (level : nat)   (* [builder.build] wrote the file *)
  | EvDelete (id : nat)                (* [del_sst] unlinked the file *)
  | EvErase (id : nat)                 (* [ssts.erase(id)] *)
  | EvRegister (id : nat).             (* [ssts[id] = sst] *)

#[export] Instance event_eq_dec : EqDecision event.
Proof. solve_decision. Defined.

(** The members of [LSMEngine], the data directory (file name to records of
    the regular files in it) and the ghost [trace]. *)
Record LSMEngine := mkEngine {
  memtable : MemTable;
  ssts : gmap nat SST;
  level_sst_ids : gmap nat (list nat);
  cur_max_sst_id : nat;
  cur_max_level : nat;
  disk : gmap string (list KV);
  trace : list event
}.

(** What ends a call abnormally. *)
Inductive error :=
  | NoFrozenTable            (* the panic of [MemTable::flush_last] *)
  | NullSST (id : nat)       (* [ssts[id]] is a null pointer *)
  | IOError (path : string)  (* a file cannot be read or written *)
  | BadNumber (s : string)   (* [std::stoull] or [std::stoll] throws *)
  | BadIndex (i : nat)       (* a vector is read past its end *)
  | OutOfFuel.               (* the call does not return *)

Inductive result (A : Type) :=
  | Ok (a : A) (st : LSMEngine)
  | Throw (e : error) (st : LSMEngine).
Arguments Ok {A} _ _.
Arguments Throw {A} _ _.

(** Computations on the engine: state passing with exceptions. *)
Definition M (A : Type) := LSMEngine → result A.

Definition ret {A} (a : A) : M A := fun st => Ok a st.
Definition throw {A} (e : error) : M A := fun st => Throw e st.
Definition bind {A B} (m : M A) (f : A → M B) : M B :=
  fun st => match m st with
            | Ok a st' => f a st'
            | Throw e st' => Throw e st'
            end.
Definition gets {A} (f : LSMEngine → A) : M A := fun st => Ok (f st) st.
Definition modify (f : LSMEngine → LSMEngine) : M unit := fun st => Ok tt (f st).

Declare Scope lsm_scope.
Delimit Scope lsm_scope with lsm.
Notation "x <- m ;; k" := (bind m (fun x => k))
  (at level 100, m at next level, right associativity) : lsm_scope.
Notation "m ;;; k" := (bind m (fun _ => k))
  (at level 100, right associativity) : lsm_scope.

Definition state_of {A} (r : result A) : LSMEngine :=
  match r with Ok _ st => st | Throw _ st => st end.

Definition value_of {A} (r : result A) : option A :=
  match r with Ok a _ => Some a | Throw _ _ => None end.

(** Field updates. *)
Definition set_memtable (m : MemTable) (st : LSMEngine) : LSMEngine :=
  mkEngine m (ssts st) (level_sst_ids st) (cur_max_sst_id st)
           (cur_max_level st) (disk st) (trace st).
Definition set_ssts (s : gmap nat SST) (st : LSMEngine) : LSMEngine :=
  mkEngine (memtable st) s (level_sst_ids st) (cur_max_sst_id st)
           (cur_max_level st) (disk st) (trace st).
Definition set_level_sst_ids (l : gmap nat (list nat)) (st : LSMEngine) : LSMEngine :=
  mkEngine (memtable st) (ssts st) l (cur_max_sst_id st)
           (cur_max_level st) (disk st) (trace st).
Definition set_cur_max_sst_id (n : nat) (st : LSMEngine) : LSMEngine :=
  mkEngine (memtable st) (ssts st) (level_sst_ids st) n
           (cur_max_level st) (disk st) (trace st).
Definition set_cur_max_level (n : nat) (st : LSMEngine) : LSMEngine :=
  mkEngine (memtable st) (ssts st) (level_sst_ids st) (cur_max_sst_id st)
           n (disk st) (trace st).
Definition set_disk (d : gmap string (list KV)) (st : LSMEngine) : LSMEngine :=
  mkEngine (memtable st) (ssts st) (level_sst_ids st) (cur_max_sst_id st)
           (cur_max_level st) d (trace st).
Definition log (e : event) (st : LSMEngine) : LSMEngine :=
  mkEngine (memtable st) (ssts st) (level_sst_ids st) (cur_max_sst_id st)
           (cur_max_level st) (disk st) (trace st ++ [e]).

(** [level_sst_ids[level]] read as a value; an absent level reads as the
    empty deque. *)
Definition level_ids (level : nat) (st : LSMEngine) : list nat :=
  default [] (level_sst_ids st !! level).

(** [level_sst_ids[level]] as [operator[]] leaves the map: an absent level is
    inserted with an empty deque. *)
Definition touch_level (level : nat) (st : LSMEngine) : LSMEngine :=
  match level_sst_ids st !! level with
  | Some _ => st
  | None => set_level_sst_ids (<[level := []]> (level_sst_ids st)) st
  end.

Definition set_level (level : nat) (ids : list nat) (st : LSMEngine) : LSMEngine :=
  set_level_sst_ids (<[level := ids]> (level_sst_ids st)) st.

(** [ssts[id]] followed by a dereference. *)
Definition sst_at (id : nat) : M SST :=
  fun st => match ssts st !! id with
            | Some s => Ok s st
            | None => Throw (NullSST id) st
            end.

(** Outcome of the search in one layer: [Hit r] ends [get] with [r]. *)
Inductive lookup :=
  | Hit (r : option string)
  | Miss.

(** Arithmetic on [size_t] wraps modulo [2^64]. *)
Definition size_t_wrap (x : N) : N := (x mod 2 ^ 64)%N.

Fixpoint for_each {A} (f : A → M unit) (l : list A) : M unit :=
  match l with
  | [] => ret tt
  | x :: l' => bind (f x) (fun _ => for_each f l')
  end.

Fixpoint map_m {A B} (f : A → M B) (l : list A) : M (list B) :=
  match l with
  | [] => ret []
  | x :: l' => bind (f x) (fun y => bind (map_m f l') (fun ys => ret (y :: ys)))
  end.

Module Engine.
Section WithConsts.
Context (cfg : Consts).
(** The size estimate of the SST builder and the outcome of writing the
    file of an SST (the environment). *)
Context (est : list KV → N) (build_ok : nat → bool).
Local Open Scope lsm_scope.

(** [get_sst_path]: ["sst_" << setfill('0') << setw(32) << sst_id << '.'
    << target_level], relative to [data_dir]. *)
Definition zero_pad (width : nat) (s : string) : string :=
  String.concat EmptyString (replicate (width - String.length s) "0"%string) +:+ s.

Definition get_sst_path (sst_id target_level : nat) : string :=
  "sst_" +:+ zero_pad 32 (pretty sst_id) +:+ "." +:+ pretty target_level.

(** [builder.build(sst_id, sst_path, block_cache)]: writes the file and
    returns the open SST, or fails with an I/O error. *)
Definition build_sst (b : SSTBuilder) (id level : nat) : M SST :=
  fun st =>
    let path := get_sst_path id level in
    if build_ok id
    then Ok (Builder.build id path b)
            (log (EvBuild id level) (set_disk (<[path := added b]> (disk st)) st))
    else Throw (IOError path) st.

(** [size_t id = cur_max_sst_id++]. *)
Definition mint_sst_id : M nat :=
  fun st => Ok (cur_max_sst_id st) (set_cur_max_sst_id (S (cur_max_sst_id st)) st).

(** [ssts[id] = sst]. *)
Definition register (s : SST) : M unit :=
  modify (fun st => log (EvRegister (sst_id s))
                        (set_ssts (<[sst_id s := s]> (ssts st)) st)).

(** *** [LSMEngine::get] *)

(** [value.size() > 0 ? value : std::nullopt]. *)
Definition not_deleted (value : string) : option string :=
  if (0 <? String.length value)%nat then Some value else None.

(** Step 2: the level-0 SSTs in stored order. *)
Fixpoint get_l0 (key : string) (ids : list nat) : M lookup :=
  match ids with
  | [] => ret Miss
  | sst_id :: ids' =>
      sst <- sst_at sst_id ;;
      match Sst.get key sst with
      | Some e => ret (Hit (not_deleted e.2))
      | None => get_l0 key ids'
      end
  end.

(** Step 3, the [while (left < right)] loop on one level. *)
Fixpoint search_level (fuel : nat) (key : string) (l_sst_ids : list nat)
    (left right : nat) : M lookup :=
  if negb (left <? right)%nat then ret Miss
  else
    match fuel with
    | 0 => throw OutOfFuel
    | S fuel' =>
        let mid := left + (right - left) / 2 in
        match l_sst_ids !! mid with
        | None => throw OutOfFuel
        | Some id =>
            sst <- sst_at id ;;
            if String.leb (Sst.get_first_key sst) key
               && String.leb key (Sst.get_last_key sst)
            then
              match Sst.get key sst with
              | Some e => ret (Hit (not_deleted e.2))
              | None => ret Miss
              end
            else if String.ltb (Sst.get_last_key sst) key
            then search_level fuel' key l_sst_ids (mid + 1) right
            else search_level fuel' key l_sst_ids left mid
        end
    end.

(** Step 3, the [for] loop over the levels. *)
Fixpoint get_levels (key : string) (levels : list nat) : M lookup :=
  match levels with
  | [] => ret Miss
  | level :: levels' =>
      modify (touch_level level) ;;;
      l_sst_ids <- gets (level_ids level) ;;
      r <- search_level (length l_sst_ids) key l_sst_ids 0 (length l_sst_ids) ;;
      match r with
      | Hit v => ret (Hit v)
      | Miss => get_levels key levels'
      end
  end.

Definition get (key : string) : M (option string) :=
  value <- gets (fun st => Mem.get key (memtable st)) ;;
  match value with
  | Some v => ret (not_deleted v)
  | None =>
      modify (touch_level 0) ;;;
      ids <- gets (level_ids 0) ;;
      r <- get_l0 key ids ;;
      match r with
      | Hit v => ret v
      | Miss =>
          top <- gets cur_max_level ;;
          r <- get_levels key (seq 1 top) ;;
          match r with
          | Hit v => ret v
          | Miss => ret None
          end
      end
  end.

(** *** [LSMEngine::get_sst_size] *)

(** [static_cast<size_t>(std::pow(LSM_SST_LEVEL_RATIO, level))].  The
    power is computed on [double]s; the model takes its exact value, which
    is what the code obtains as long as it is below [2^53]. *)
Definition pow_size_t (base : N) (level : nat) : N :=
  (base ^ N.of_nat level)%N.

Definition get_sst_size (level : nat) : N :=
  if (level =? 0)%nat then LSM_PER_MEM_SIZE_LIMIT cfg
  else size_t_wrap (LSM_PER_MEM_SIZE_LIMIT cfg
                    * pow_size_t (LSM_SST_LEVEL_RATIO cfg) level).

(** *** [LSMEngine::gen_sst_from_iter] *)

(** The [while (iter.is_valid() && !iter.is_end())] loop. *)
Fixpoint gen_loop {T} `{BaseIterator T} (fuel : nat) (iter : T)
    (target_sst_size : N) (target_level : nat)
    (new_sst_builder : SSTBuilder) (new_ssts : list SST)
    : M (list SST * SSTBuilder) :=
  if negb (live iter) then ret (new_ssts, new_sst_builder)
  else
    match fuel with
    | 0 => throw OutOfFuel
    | S fuel' =>
        let new_sst_builder := Builder.add (deref iter) new_sst_builder in
        let iter := incr iter in
        if (target_sst_size <=? Builder.estimated_size est new_sst_builder)%N
        then
          sst_id <- mint_sst_id ;;
          new_sst <- build_sst new_sst_builder sst_id target_level ;;
          gen_loop fuel' iter target_sst_size target_level
                   Builder.new (new_ssts ++ [new_sst])
        else
          gen_loop fuel' iter target_sst_size target_level
                   new_sst_builder new_ssts
    end.

Definition gen_sst_from_iter {T} `{BaseIterator T} (iter : T)
    (target_sst_size : N) (target_level : nat) : M (list SST) :=
  r <- gen_loop (steps_left iter) iter target_sst_size target_level
                Builder.new [] ;;
  let '(new_ssts, new_sst_builder) := r in
  if (0 <? Builder.estimated_size est new_sst_builder)%N
  then
    sst_id <- mint_sst_id ;;
    new_sst <- build_sst new_sst_builder sst_id target_level ;;
    ret (new_ssts ++ [new_sst])
  else ret new_ssts.

(** *** Compaction *)

Definition full_l0_l1_compact (l0_ids l1_ids : list nat) : M (list SST) :=
  l0_iters <- map_m (fun id => sst <- sst_at id ;; ret (SstIter.begin sst)) l0_ids ;;
  l1_ssts <- map_m sst_at l1_ids ;;
  let l0_begin := SstIter.merge_sst_iterator l0_iters in
  let old_l1_begin := Concat.make l1_ssts in
  gen_sst_from_iter (mkTwoMerge l0_begin old_l1_begin)
    (size_t_wrap (LSM_PER_MEM_SIZE_LIMIT cfg * LSM_SST_LEVEL_RATIO cfg)) 1.

Definition full_common_compact (lx_ids ly_ids : list nat) (level_y : nat)
    : M (list SST) :=
  lx_iters <- map_m sst_at lx_ids ;;
  ly_iters <- map_m sst_at ly_ids ;;
  let old_lx_begin := Concat.make lx_iters in
  let old_ly_begin := Concat.make ly_iters in
  gen_sst_from_iter (mkTwoMerge old_lx_begin old_ly_begin)
    (get_sst_size level_y) level_y.

(** [ssts[old_sst_id]->del_sst(); ssts.erase(old_sst_id);] *)
Definition del_and_erase (old_sst_id : nat) : M unit :=
  sst <- sst_at old_sst_id ;;
  modify (fun st => log (EvDelete old_sst_id)
                        (set_disk (delete (sst_file sst) (disk st)) st)) ;;;
  modify (fun st => log (EvErase old_sst_id)
                        (set_ssts (delete old_sst_id (ssts st)) st)).

(** [level_sst_ids[level].push_back(id); ssts[id] = new_sst;] *)
Definition add_new_sst (level : nat) (new_sst : SST) : M unit :=
  modify (fun st => set_level level (level_ids level st ++ [sst_id new_sst]) st) ;;;
  register new_sst.

(** The body of [full_compact] after the recursive call. *)
Definition compact_step (src_level : nat) : M unit :=
  modify (touch_level src_level) ;;;
  old_level_id_x <- gets (level_ids src_level) ;;
  modify (touch_level (src_level + 1)) ;;;
  old_level_id_y <- gets (level_ids (src_level + 1)) ;;
  new_ssts <-
    (if (src_level =? 0)%nat
     then full_l0_l1_compact old_level_id_x old_level_id_y
     else full_common_compact old_level_id_x old_level_id_y (src_level + 1)) ;;
  for_each del_and_erase old_level_id_x ;;;
  for_each del_and_erase old_level_id_y ;;;
  modify (set_level src_level []) ;;;
  modify (set_level (src_level + 1) []) ;;;
  modify (fun st => set_cur_max_level (cur_max_level st `max` (src_level + 1)) st) ;;;
  for_each (add_new_sst (src_level + 1)) new_ssts ;;;
  modify (fun st => set_level (src_level + 1)
                      (merge_sort (≤) (level_ids (src_level + 1) st)) st).

(** [full_compact(src_level)].  The recursion climbs while the next level
    is full; [fuel] bounds its depth. *)
Fixpoint full_compact (fuel : nat) (src_level : nat) : M unit :=
  match fuel with
  | 0 => throw OutOfFuel
  | S fuel' =>
      modify (touch_level (src_level + 1)) ;;;
      next_ids <- gets (level_ids (src_level + 1)) ;;
      (if (LSM_SST_LEVEL_RATIO cfg <=? N.of_nat (length next_ids))%N
       then full_compact fuel' (src_level + 1)
       else ret tt) ;;;
      compact_step src_level
  end.

(** *** [LSMEngine::flush], [flush_all] *)

(** [memtable.flush_last(builder, sst_path, new_sst_id, block_cache)]. *)
Definition memtable_flush_last (builder : SSTBuilder) (new_sst_id : nat)
    : M SST :=
  fun st =>
    let sst_path := get_sst_path new_sst_id 0 in
    match Mem.flush_last builder sst_path new_sst_id (memtable st) with
    | None => Throw NoFrozenTable st
    | Some (new_sst, m') =>
        if build_ok new_sst_id
        then Ok new_sst
                (log (EvBuild new_sst_id 0)
                   (set_disk (<[sst_path := sst_entries new_sst]> (disk st))
                      (set_memtable m' st)))
        else Throw (IOError sst_path) (set_memtable m' st)
    end.

Definition flush : M unit :=
  total <- gets (fun st => Mem.get_total_size (memtable st)) ;;
  if (total =? 0)%N then ret tt
  else
    l0 <- gets (fun st => level_sst_ids st !! 0) ;;
    match l0 with
    | Some ids =>
        if (LSM_SST_LEVEL_RATIO cfg <=? N.of_nat (length ids))%N
        then (top <- gets cur_max_level ;; full_compact (S top) 0)
        else ret tt
    | None => ret tt
    end ;;;
    new_sst_id <- mint_sst_id ;;
    let builder := Builder.new in
    new_sst <- memtable_flush_last builder new_sst_id ;;
    register new_sst ;;;
    modify (touch_level 0) ;;;
    modify (fun st => set_level 0 (sst_id new_sst :: level_ids 0 st) st).

(** The [while (memtable.get_total_size() > 0)] loop. *)
Fixpoint flush_all_loop (fuel : nat) : M unit :=
  total <- gets (fun st => Mem.get_total_size (memtable st)) ;;
  if (0 <? total)%N then
    match fuel with
    | 0 => throw OutOfFuel
    | S fuel' => flush ;;; flush_all_loop fuel'
    end
  else ret tt.

Definition flush_all : M unit :=
  n <- gets (fun st => length (frozen_tables (memtable st))) ;;
  flush_all_loop (S n).

(** *** [put], [put_batch], [remove], [remove_batch], [clear] *)

Definition put (key value : string) : M unit :=
  modify (fun st => set_memtable (Mem.put cfg key value (memtable st)) st) ;;;
  total <- gets (fun st => Mem.get_total_size (memtable st)) ;;
  if (LSM_TOL_MEM_SIZE_LIMIT cfg <=? total)%N then flush else ret tt.

Definition put_batch (kvs : list KV) : M unit :=
  modify (fun st => set_memtable (Mem.put_batch cfg kvs (memtable st)) st) ;;;
  total <- gets (fun st => Mem.get_total_size (memtable st)) ;;
  if (LSM_TOL_MEM_SIZE_LIMIT cfg <=? total)%N then flush else ret tt.

Definition remove (key : string) : M unit :=
  modify (fun st => set_memtable (Mem.remove cfg key (memtable st)) st).

Definition remove_batch (keys : list string) : M unit :=
  modify (fun st => set_memtable (Mem.remove_batch cfg keys (memtable st)) st).

Definition clear : M unit :=
  modify (fun st => mkEngine Mem.empty ∅ ∅ (cur_max_sst_id st)
                             (cur_max_level st) ∅ (trace st)).

(** *** [LSMEngine::begin] *)

(** [for (auto iter = sst->begin(); iter != sst->end(); ++iter)
    iter_vec.push_back(iter);] *)
Fixpoint positions (sst : SST) (rest : list KV) : list SstIterator :=
  match rest with
  | [] => []
  | _ :: rest' => mkSstIter sst rest :: positions sst rest'
  end.

Definition begin : M (TwoMergeIterator HeapIterator HeapIterator) :=
  modify (touch_level 0) ;;;
  ids <- gets (level_ids 0) ;;
  iter_vecs <- map_m (fun id => sst <- sst_at id ;;
                                ret (positions sst (sst_entries sst))) ids ;;
  mem_iter <- gets (fun st => MemTable_begin (memtable st)) ;;
  let l0_iter := SstIter.merge_sst_iterator (concat iter_vecs) in
  ret (mkTwoMerge mem_iter l0_iter).

(** *** [LSMEngine::lsm_iters_monotony_predicate] *)

(** The items of one SST within the sub-range, stamped with [-sst_id] and
    the level. *)
Definition range_items (predicate : string → Z) (sst_level sst_id : nat)
    : M (list SearchItem.t) :=
  sst <- sst_at sst_id ;;
  match sst_iters_monotony_predicate sst predicate with
  | None => ret []
  | Some range =>
      ret (map (fun e : KV =>
                  SearchItem.mk e.1 e.2 (- Z.of_nat sst_id) sst_level) range)
  end.

Definition lsm_iters_monotony_predicate (predicate : string → Z)
    : M (option (TwoMergeIterator HeapIterator HeapIterator)) :=
  mem_result <- gets (fun st =>
    MemTable_iters_monotony_predicate predicate (memtable st)) ;;
  levels <- gets (fun st => map_to_list (level_sst_ids st)) ;;
  item_vecs <- map_m (fun l : nat * list nat =>
                        vs <- map_m (range_items predicate l.1) l.2 ;;
                        ret (concat vs)) levels ;;
  let item_vec := concat item_vecs in
  let l0_iter := Heap.of_items item_vec in
  match mem_result, item_vec with
  | None, [] => ret None
  | Some mem_start, _ => ret (Some (mkTwoMerge mem_start l0_iter))
  | None, _ => ret (Some (mkTwoMerge (Heap.of_items []) l0_iter))
  end.

(** *** The constructor *)

(** [std::stoull]: optional white space and sign, then decimal digits up
    to the first other character; [None] when it throws. *)
Fixpoint skip_space (s : string) : string :=
  match s with
  | String c s' => if Ascii.is_space c then skip_space s' else s
  | EmptyString => s
  end.

Fixpoint digits (acc : N) (s : string) : N :=
  match s with
  | String c s' =>
      match Ascii.is_nat c with
      | Some d => digits (acc * 10 + N.of_nat d)%N s'
      | None => acc
      end
  | EmptyString => acc
  end.

Definition stoull (s : string) : option N :=
  let s1 := skip_space s in
  let '(neg, s2) :=
    match s1 with
    | String "+"%char r => (false, r)
    | String "-"%char r => (true, r)
    | _ => (false, s1)
    end in
  match s2 with
  | String c _ =>
      match Ascii.is_nat c with
      | Some _ =>
          let v := digits 0 s2 in
          if (v <? 2 ^ 64)%N
          then Some (if neg then size_t_wrap (2 ^ 64 - v) else v)
          else None
      | None => None
      end
  | EmptyString => None
  end.

(** [SST::open(sst_id, FileObj::open(sst_path), block_cache)]. *)
Definition sst_open (id : nat) (sst_path : string) : M SST :=
  fun st => match disk st !! sst_path with
            | Some recs => Ok (mkSST id sst_path recs) st
            | None => Throw (IOError sst_path) st
            end.

(** The body of the loop over the directory, for a regular file. *)
Definition scan_entry (filename : string) : M unit :=
  if negb (String.eqb (String.substring 0 4 filename) "sst_") then ret tt
  else
    match String.index 0 "." filename with
    | None => ret tt
    | Some dot_pos =>
        if (dot_pos =? String.length filename - 1)%nat then ret tt
        else
          let level_str :=
            String.substring (dot_pos + 1)
              (String.length filename - 1 - dot_pos) filename in
          if String.eqb level_str EmptyString then ret tt
          else
            match stoull level_str with
            | None => throw (BadNumber level_str)
            | Some level =>
                let level := N.to_nat level in
                let id_str := String.substring 4 (dot_pos - 4) filename in
                if String.eqb id_str EmptyString then ret tt
                else
                  match stoull id_str with
                  | None => throw (BadNumber id_str)
                  | Some sst_id =>
                      let sst_id := N.to_nat sst_id in
                      modify (fun st => set_cur_max_sst_id
                                (sst_id `max` cur_max_sst_id st) st) ;;;
                      modify (fun st => set_cur_max_level
                                (level `max` cur_max_level st) st) ;;;
                      let sst_path := get_sst_path sst_id level in
                      sst <- sst_open sst_id sst_path ;;
                      register sst ;;;
                      modify (fun st =>
                        set_level level (level_ids level st ++ [sst_id]) st)
                  end
            end
    end.

(** The loop after the scan: sort every level, reverse level 0. *)
Definition sort_levels (st : LSMEngine) : LSMEngine :=
  set_level_sst_ids
    (map_imap (fun level sst_id_list =>
                 let sorted := merge_sort (≤) sst_id_list in
                 Some (if (level =? 0)%nat then reverse sorted else sorted))
              (level_sst_ids st)) st.

(** Modelled from the spec: [engine.h] is not part of the sources at hand;
    the counters [cur_max_sst_id] and [cur_max_level] start at 0.  A data
    directory that does not exist is created empty. *)
Definition init (dir : gmap string (list KV)) : LSMEngine :=
  mkEngine Mem.empty ∅ ∅ 0 0 dir [].

Definition open (dir : gmap string (list KV)) : result unit :=
  (for_each scan_entry (map fst (map_to_list dir)) ;;;
   modify sort_levels) (init dir).

End WithConsts.
End Engine.

(** ** Configurations used to run the model *)

Module Examples.

(** Watermarks of a few bytes, so that a handful of writes reaches every
    path of the engine. *)
Definition tiny : Consts :=
  {| LSM_BLOCK_SIZE := 4096;
     LSM_PER_MEM_SIZE_LIMIT := 4;
     LSM_TOL_MEM_SIZE_LIMIT := 4;
     LSM_SST_LEVEL_RATIO := 2 |}.

(** Watermarks in the order of magnitude of a deployment. *)
Definition roomy : Consts :=
  {| LSM_BLOCK_SIZE := 4096;
     LSM_PER_MEM_SIZE_LIMIT := 4194304;
     LSM_TOL_MEM_SIZE_LIMIT := 67108864;
     LSM_SST_LEVEL_RATIO := 4 |}.

(** Every file can be written. *)
Definition io_fine (id : nat) : bool := true.

(** A data directory left by an earlier run: one level-0 SST. *)
Definition one_sst_dir : gmap string (list KV) :=
  {[ Engine.get_sst_path 0 0 := [("a", "1")]%string ]}.

End Examples.


(** ** The Redis wrapper: sorted sets *)

(** [consts.h] is not part of the sources at hand: the constants of the
    wrapper are parameters of the model. *)
Record RedisConsts := {
  REDIS_EXPIRE_HEADER : string;
  REDIS_SORTED_SET_PREFIX : string;
  REDIS_SORTED_SET_SCORE_LEN : nat
}.

(** The end of a reply: carriage return, line feed. *)
Definition crlf : string :=
  String (ascii_of_nat 13) (String (ascii_of_nat 10) EmptyString).

Module Redis.
Local Open Scope lsm_scope.
Section WithConsts.
Context (rc : RedisConsts).
Context (cfg : Consts) (est : list KV → N) (build_ok : nat → bool).
(** [std::chrono::system_clock::now()] as a [time_t]. *)
Context (now : Z).

Definition get_explire_key (key : string) : string :=
  REDIS_EXPIRE_HEADER rc +:+ key.

(** [oss << std::setw(REDIS_SORTED_SET_SCORE_LEN) << std::setfill('0')
    << score]. *)
Definition get_zset_key_socre (key score : string) : string :=
  REDIS_SORTED_SET_PREFIX rc +:+ key +:+ "_SCORE_"
    +:+ Engine.zero_pad (REDIS_SORTED_SET_SCORE_LEN rc) score.

Definition get_zset_key_elem (key elem : string) : string :=
  REDIS_SORTED_SET_PREFIX rc +:+ key +:+ "_ELEM_" +:+ elem.

Definition get_zset_key_preffix (key : string) : string :=
  REDIS_SORTED_SET_PREFIX rc +:+ key +:+ "_".

(** [std::stoll]: optional white space and sign, then decimal digits;
    [None] when it throws. *)
Definition stoll (s : string) : option Z :=
  let s1 := Engine.skip_space s in
  let '(neg, s2) :=
    match s1 with
    | String "+"%char r => (false, r)
    | String "-"%char r => (true, r)
    | _ => (false, s1)
    end in
  match s2 with
  | String c _ =>
      match Ascii.is_nat c with
      | Some _ =>
          let v := Z.of_N (Engine.digits 0 s2) in
          let r := if neg then (- v)%Z else v in
          if ((- 2 ^ 63 <=? r) && (r <? 2 ^ 63))%Z then Some r else None
      | None => None
      end
  | EmptyString => None
  end.

Definition is_expired (expire_str : option string) : M bool :=
  match expire_str with
  | None => ret false
  | Some s =>
      match stoll s with
      | Some t => ret (t <? now)%Z
      | None => throw (BadNumber s)
      end
  end.

(** [-elem.compare(0, preffix.size(), preffix)]. *)
Definition prefix_predicate (preffix elem : string) : Z :=
  match String.compare
          (String.substring 0 (String.length preffix) elem) preffix with
  | Lt => 1
  | Eq => 0
  | Gt => -1
  end.

Definition expire_zset_clean (key : string) : M bool :=
  let expire_key := get_explire_key key in
  expire_query <- Engine.get expire_key ;;
  expired <- is_expired expire_query ;;
  if expired : bool then
    Engine.remove cfg key ;;;
    Engine.remove cfg expire_key ;;;
    let preffix := get_zset_key_preffix key in
    result_elem <- Engine.lsm_iters_monotony_predicate
                     (prefix_predicate preffix) ;;
    match result_elem with
    | Some elem_begin =>
        let remove_vec := map fst (drain elem_begin) in
        Engine.remove_batch cfg remove_vec
    | None => ret tt
    end ;;;
    ret true
  else ret false.

(** The loop of [redis_zadd] over [args[i], args[i + 1]] for
    [i = 2, 4, ...]. *)
Fixpoint zadd_loop (key : string) (rest : list string)
    (put_kvs : list KV) (remove_keys : list string) (added_count : nat)
    : M (list KV * list string * nat) :=
  match rest with
  | [] => ret (put_kvs, remove_keys, added_count)
  | [_] => throw (BadIndex (2 + 2 * added_count + 1))
  | score :: elem :: rest' =>
      let key_score := get_zset_key_socre key score in
      let key_elem := get_zset_key_elem key elem in
      query_elem <- Engine.get key_elem ;;
      match query_elem with
      | Some original_score =>
          if String.eqb original_score score
          then zadd_loop key rest' put_kvs remove_keys added_count
          else
            let original_key_score := get_zset_key_socre key original_score in
            zadd_loop key rest'
              (put_kvs ++ [(key_score, elem); (key_elem, score)])
              (remove_keys ++ [original_key_score])
              (S added_count)
      | None =>
          zadd_loop key rest'
            (put_kvs ++ [(key_score, elem); (key_elem, score)])
            remove_keys (S added_count)
      end
  end.

Definition redis_zadd (args : list string) : M string :=
  match args with
  | _ :: key :: rest =>
      expire_zset_clean key ;;;
      let put_kvs : list KV := [] in
      let del_keys : list string := [] in
      let value := get_zset_key_preffix key in
      query <- Engine.get value ;;
      let put_kvs :=
        match query with
        | None => put_kvs ++ [(key, value)]
        | Some _ => put_kvs
        end in
      r <- zadd_loop key rest put_kvs [] 0 ;;
      let '(put_kvs, remove_keys, added_count) := r in
      Engine.remove_batch cfg del_keys ;;;
      Engine.put_batch cfg est build_ok put_kvs ;;;
      ret (":" +:+ pretty added_count +:+ crlf)
  | _ => throw (BadIndex 1)
  end.

End WithConsts.
End Redis.

Module RedisExamples.

Definition consts : RedisConsts :=
  {| REDIS_EXPIRE_HEADER := "REDIS_EXPIRE_";
     REDIS_SORTED_SET_PREFIX := "REDIS_SORTED_SET_";
     REDIS_SORTED_SET_SCORE_LEN := 32 |}.

End RedisExamples.

(** ** The Redis wrapper: strings, hashes and lists *)

(** More constants of [consts.h], parameters of the model as well. *)
Record RedisFormat := {
  REDIS_FIELD_PREFIX : string;
  REDIS_HASH_VALUE_PREFFIX : string;
  REDIS_FIELD_SEPARATOR : ascii;
  REDIS_LIST_SEPARATOR : ascii
}.

(** Conversions between [int] (32 bits, two's complement) and [size_t]. *)
Definition to_int (z : Z) : Z := ((z + 2 ^ 31) mod 2 ^ 32 - 2 ^ 31)%Z.
Definition to_size_t (z : Z) : Z := (z mod 2 ^ 64)%Z.

Module Resp.

(** ["$" + std::to_string(v.size()) + "\r\n" + v + "\r\n"]. *)
Definition bulk (v : string) : string :=
  "$" +:+ pretty (String.length v) +:+ crlf +:+ v +:+ crlf.

Definition nil : string := "$-1" +:+ crlf.

(** [":" + std::to_string(n) + "\r\n"]. *)
Definition int (n : Z) : string := ":" +:+ pretty n +:+ crlf.

Definition ok : string := "+OK" +:+ crlf.

Definition empty_array : string := "*0" +:+ crlf.

End Resp.

Module Wire.

(** The loop [while (std::getline(iss, token, delimiter))
    tokens.push_back(token)]: [token] holds the characters read since the
    last delimiter.  At the end of the input a call that has read nothing
    fails and ends the loop; one that has read characters delivers them. *)
Fixpoint split_from (delimiter : ascii) (token : string) (str : string)
    : list string :=
  match str with
  | EmptyString =>
      match token with
      | EmptyString => []
      | _ => [token]
      end
  | String c str' =>
      if Ascii.eqb c delimiter
      then token :: split_from delimiter EmptyString str'
      else split_from delimiter (token +:+ String c EmptyString) str'
  end.

Definition split (str : string) (delimiter : ascii) : list string :=
  split_from delimiter EmptyString str.

(** [for (i = 0; i < elements.size(); ++i)
      { if (i > 0) oss << delimiter; oss << elements[i]; }]. *)
Fixpoint join_from (i : nat) (elements : list string) (delimiter : ascii)
    : string :=
  match elements with
  | [] => EmptyString
  | e :: rest =>
      (if (0 <? i)%nat then String delimiter EmptyString else EmptyString)
      +:+ e +:+ join_from (S i) rest delimiter
  end.

Definition join (elements : list string) (delimiter : ascii) : string :=
  join_from 0 elements delimiter.

End Wire.

Module RedisMore.
Local Open Scope lsm_scope.
Section WithConsts.
Context (rc : RedisConsts) (rf : RedisFormat).
Context (cfg : Consts) (est : list KV → N) (build_ok : nat → bool).
(** [std::chrono::system_clock::now()] as a [time_t]. *)
Context (now : Z).

(** *** Helper functions *)

(** [field_list.substr(preffix.size(), field_list.size() - preffix.size())]
    on a non-empty value, then the [getline] loop.  [substr] throws when
    the value is shorter than the prefix. *)
Definition get_fileds_from_hash_value (field_list_opt : option string)
    : M (list string) :=
  let field_list := default EmptyString field_list_opt in
  let preffix := REDIS_HASH_VALUE_PREFFIX rf in
  if String.eqb field_list EmptyString
  then ret (Wire.split field_list (REDIS_FIELD_SEPARATOR rf))
  else if (String.length field_list <? String.length preffix)%nat
  then throw (BadIndex (String.length preffix))
  else
    ret (Wire.split
           (String.substring (String.length preffix)
              (String.length field_list - String.length preffix) field_list)
           (REDIS_FIELD_SEPARATOR rf)).

Definition get_hash_value_from_fields (fields : list string) : string :=
  REDIS_HASH_VALUE_PREFFIX rf +:+ Wire.join fields (REDIS_FIELD_SEPARATOR rf).

Definition get_hash_filed_key (key field : string) : string :=
  REDIS_FIELD_PREFIX rf +:+ key +:+ "_" +:+ field.

(** [key.find(REDIS_HASH_VALUE_PREFFIX) == 0]. *)
Definition is_value_hash (key : string) : bool :=
  String.prefix (REDIS_HASH_VALUE_PREFFIX rf) key.

(** A [long long] result; signed overflow is undefined in the source and
    ends the call in the model. *)
Definition long_long (s : string) (z : Z) : M Z :=
  if ((- 2 ^ 63 <=? z) && (z <? 2 ^ 63))%Z then ret z
  else throw (BadNumber s).

(** [std::to_string(now_time_t + std::stoll(seconds_count))]. *)
Definition get_expire_time (seconds_count : string) : M string :=
  match Redis.stoll seconds_count with
  | None => throw (BadNumber seconds_count)
  | Some time_add =>
      t <- long_long seconds_count (now + time_add) ;;
      ret (pretty t)
  end.

(** *** Expiry of hashes and lists *)

Definition expire_hash_clean (key : string) : M bool :=
  let expire_key := Redis.get_explire_key rc key in
  expire_query <- Engine.get expire_key ;;
  expired <- Redis.is_expired now expire_query ;;
  if expired : bool then
    field_list_opt <- Engine.get key ;;
    fileds <- get_fileds_from_hash_value field_list_opt ;;
    for_each (fun field =>
                Engine.remove cfg (get_hash_filed_key key field)) fileds ;;;
    Engine.remove cfg key ;;;
    Engine.remove cfg expire_key ;;;
    ret true
  else ret false.

Definition expire_list_clean (key : string) : M bool :=
  let expire_key := Redis.get_explire_key rc key in
  expire_query <- Engine.get expire_key ;;
  expired <- Redis.is_expired now expire_query ;;
  if expired : bool then
    Engine.remove cfg key ;;;
    Engine.remove cfg expire_key ;;;
    ret true
  else ret false.

(** *** Strings *)

Definition redis_incr (key : string) : M string :=
  original_vale <- Engine.get key ;;
  match original_vale with
  | None =>
      Engine.put cfg est build_ok key "1" ;;;
      ret "1"%string
  | Some v =>
      match Redis.stoll v with
      | None => throw (BadNumber v)
      | Some n =>
          n' <- long_long v (n + 1) ;;
          let new_value := pretty n' in
          Engine.put cfg est build_ok key new_value ;;;
          ret new_value
      end
  end.

Definition redis_decr (key : string) : M string :=
  original_vale <- Engine.get key ;;
  match original_vale with
  | None =>
      Engine.put cfg est build_ok key "-1" ;;;
      ret "-1"%string
  | Some v =>
      match Redis.stoll v with
      | None => throw (BadNumber v)
      | Some n =>
          n' <- long_long v (n - 1) ;;
          let new_value := pretty n' in
          Engine.put cfg est build_ok key new_value ;;;
          ret new_value
      end
  end.

(** The body of the loop of [redis_del] for one key; it returns whether
    the key counted. *)
Definition del_one_key (cur_key : string) : M bool :=
  cur_value <- Engine.get cur_key ;;
  counted <-
    match cur_value with
    | Some v =>
        (if is_value_hash v
         then
           field_list <- get_fileds_from_hash_value cur_value ;;
           for_each (fun field =>
                       Engine.remove cfg (get_hash_filed_key cur_key field))
                    field_list
         else ret tt) ;;;
        Engine.remove cfg cur_key ;;;
        ret true
    | None => ret false
    end ;;
  let expire_key := Redis.get_explire_key rc cur_key in
  expire_query <- Engine.get expire_key ;;
  match expire_query with
  | Some _ => Engine.remove cfg expire_key
  | None => ret tt
  end ;;;
  ret counted.

(** [for (int idx = 1; idx < args.size(); idx++)]. *)
Fixpoint del_loop (keys : list string) (del_count : nat) : M nat :=
  match keys with
  | [] => ret del_count
  | cur_key :: keys' =>
      counted <- del_one_key cur_key ;;
      del_loop keys' (if counted : bool then S del_count else del_count)
  end.

Definition redis_del (args : list string) : M string :=
  del_count <- del_loop (tail args) 0 ;;
  ret (Resp.int (Z.of_nat del_count)).

Definition redis_expire (key seconds_count : string) : M string :=
  let expire_key := Redis.get_explire_key rc key in
  expire_time_str <- get_expire_time seconds_count ;;
  Engine.put cfg est build_ok expire_key expire_time_str ;;;
  ret (Resp.int 1).

Definition redis_set (key value : string) : M string :=
  Engine.put cfg est build_ok key value ;;;
  let expire_key := Redis.get_explire_key rc key in
  expire_query <- Engine.get expire_key ;;
  match expire_query with
  | Some _ => Engine.remove cfg expire_key
  | None => ret tt
  end ;;;
  ret Resp.ok.

Definition redis_get (key : string) : M string :=
  key_query <- Engine.get key ;;
  let expire_key := Redis.get_explire_key rc key in
  expire_query <- Engine.get expire_key ;;
  match key_query, expire_query with
  | Some v, Some _ =>
      expired <- Redis.is_expired now expire_query ;;
      if expired : bool then
        Engine.remove cfg key ;;;
        Engine.remove cfg expire_key ;;;
        ret Resp.nil
      else ret (Resp.bulk v)
  | Some v, None => ret (Resp.bulk v)
  | None, Some _ =>
      Engine.remove cfg expire_key ;;;
      ret Resp.nil
  | None, None => ret Resp.nil
  end.

Definition redis_ttl (key : string) : M string :=
  key_query <- Engine.get key ;;
  let expire_key := Redis.get_explire_key rc key in
  expire_query <- Engine.get expire_key ;;
  match key_query, expire_query with
  | Some _, Some e =>
      expired <- Redis.is_expired now expire_query ;;
      if expired : bool then ret (Resp.int (-2))
      else
        match Redis.stoll e with
        | None => throw (BadNumber e)
        | Some t =>
            d <- long_long e (t - now) ;;
            ret (Resp.int d)
        end
  | Some _, None => ret (Resp.int (-1))
  | None, _ => ret (Resp.int (-1))
  end.

(** *** Hashes *)

Definition redis_hset (key field value : string) : M string :=
  expire_hash_clean key ;;;
  let field_key := get_hash_filed_key key field in
  Engine.put cfg est build_ok field_key value ;;;
  field_list_opt <- Engine.get key ;;
  field_list <- get_fileds_from_hash_value field_list_opt ;;
  (if bool_decide (field ∈ field_list) then ret tt
   else
     let field_list := field_list ++ [field] in
     let new_value := get_hash_value_from_fields field_list in
     Engine.put cfg est build_ok key new_value) ;;;
  ret Resp.ok.

Definition redis_hget (key field : string) : M string :=
  is_expired <- expire_hash_clean key ;;
  if is_expired : bool then ret Resp.nil
  else
    let field_key := get_hash_filed_key key field in
    value_opt <- Engine.get field_key ;;
    match value_opt with
    | Some v => ret (Resp.bulk v)
    | None => ret Resp.nil
    end.

(** [field_list.erase(std::find(...))]: the first occurrence goes. *)
Fixpoint erase_first (x : string) (l : list string) : list string :=
  match l with
  | [] => []
  | y :: l' => if String.eqb y x then l' else y :: erase_first x l'
  end.

Definition redis_hdel (key field : string) : M string :=
  is_expired <- expire_hash_clean key ;;
  if is_expired : bool then ret (Resp.int 0)
  else
    let field_key := get_hash_filed_key key field in
    field_query <- Engine.get field_key ;;
    del_count <-
      match field_query with
      | Some _ => Engine.remove cfg field_key ;;; ret 1%Z
      | None => ret 0%Z
      end ;;
    field_list_opt <- Engine.get key ;;
    field_list <- get_fileds_from_hash_value field_list_opt ;;
    (if bool_decide (field ∈ field_list) then
       let field_list := erase_first field field_list in
       match field_list with
       | [] => Engine.remove cfg key
       | _ =>
           let new_value := get_hash_value_from_fields field_list in
           Engine.put cfg est build_ok key new_value
       end
     else ret tt) ;;;
    ret (Resp.int del_count).

Definition redis_hkeys (key : string) : M string :=
  is_expired <- expire_hash_clean key ;;
  if is_expired : bool then ret Resp.empty_array
  else
    field_list_opt <- Engine.get key ;;
    res_vec <- get_fileds_from_hash_value field_list_opt ;;
    ret (foldl (fun res_str field => res_str +:+ Resp.bulk field)
           ("*" +:+ pretty (length res_vec) +:+ crlf) res_vec).

(** *** Lists *)

Definition redis_lpush (key value : string) : M string :=
  expire_list_clean key ;;;
  list_opt <- Engine.get key ;;
  let list_value := default EmptyString list_opt in
  let list_value :=
    if negb (String.eqb list_value EmptyString)
    then value +:+ String (REDIS_LIST_SEPARATOR rf) EmptyString +:+ list_value
    else value in
  Engine.put cfg est build_ok key list_value ;;;
  ret (Resp.int
         (Z.of_nat (length (Wire.split list_value (REDIS_LIST_SEPARATOR rf))))).

Definition redis_rpush (key value : string) : M string :=
  expire_list_clean key ;;;
  list_opt <- Engine.get key ;;
  let list_value := default EmptyString list_opt in
  let list_value :=
    if negb (String.eqb list_value EmptyString)
    then list_value +:+ String (REDIS_LIST_SEPARATOR rf) EmptyString +:+ value
    else value in
  Engine.put cfg est build_ok key list_value ;;;
  ret (Resp.int
         (Z.of_nat (length (Wire.split list_value (REDIS_LIST_SEPARATOR rf))))).

Definition redis_lpop (key : string) : M string :=
  is_expire <- expire_list_clean key ;;
  if is_expire : bool then ret Resp.nil
  else
    list_opt <- Engine.get key ;;
    match list_opt with
    | None => ret Resp.nil
    | Some list_value =>
        match Wire.split list_value (REDIS_LIST_SEPARATOR rf) with
        | [] => ret Resp.nil
        | value :: elements =>
            match elements with
            | [] => Engine.remove cfg key
            | _ =>
                Engine.put cfg est build_ok key
                  (Wire.join elements (REDIS_LIST_SEPARATOR rf))
            end ;;;
            ret (Resp.bulk value)
        end
    end.

Definition redis_rpop (key : string) : M string :=
  is_expire <- expire_list_clean key ;;
  if is_expire : bool then ret Resp.nil
  else
    list_opt <- Engine.get key ;;
    match list_opt with
    | None => ret Resp.nil
    | Some list_value =>
        match pop_back (Wire.split list_value (REDIS_LIST_SEPARATOR rf)) with
        | None => ret Resp.nil
        | Some (elements, value) =>
            match elements with
            | [] => Engine.remove cfg key
            | _ =>
                Engine.put cfg est build_ok key
                  (Wire.join elements (REDIS_LIST_SEPARATOR rf))
            end ;;;
            ret (Resp.bulk value)
        end
    end.

Definition redis_llen (key : string) : M string :=
  is_expired <- expire_list_clean key ;;
  if is_expired : bool then ret (Resp.int 0)
  else
    list_opt <- Engine.get key ;;
    match list_opt with
    | None => ret (Resp.int 0)
    | Some list_value =>
        ret (Resp.int
               (Z.of_nat
                  (length (Wire.split list_value (REDIS_LIST_SEPARATOR rf)))))
    end.

(** The index arithmetic shared by [redis_lrange] and [redis_zrange], on
    a non-empty vector of [size] elements: [start] and [stop] are [int]s,
    [size] is a [size_t]; the result is the pair of indices of the loop,
    or nothing when [start > stop]. *)
Definition clamp_range (size start stop : Z) : option (Z * Z) :=
  let start :=
    if (start <? 0)%Z then to_int (to_size_t (to_size_t start + size))
    else start in
  let stop :=
    if (stop <? 0)%Z then to_int (to_size_t (to_size_t stop + size))
    else stop in
  let start := if (start <? 0)%Z then 0%Z else start in
  let stop :=
    if (size <=? to_size_t stop)%Z then to_int (to_size_t (size - 1))
    else stop in
  if (stop <? start)%Z then None else Some (start, stop).

(** [for (int i = start; i <= stop; ++i) oss << ... elements[i] ...]. *)
Definition bulks_between (elements : list string) (start stop : Z)
    : M string :=
  items <- map_m (fun i =>
                    match elements !! i with
                    | Some e => ret (Resp.bulk e)
                    | None => throw (BadIndex i)
                    end)
                 (seq (Z.to_nat start) (Z.to_nat (stop - start + 1))) ;;
  ret (String.concat EmptyString items).

Definition redis_lrange (key : string) (start stop : Z) : M string :=
  is_expire <- expire_list_clean key ;;
  if is_expire : bool then ret Resp.empty_array
  else
    list_opt <- Engine.get key ;;
    match list_opt with
    | None => ret Resp.empty_array
    | Some list_value =>
        let elements := Wire.split list_value (REDIS_LIST_SEPARATOR rf) in
        match elements with
        | [] => ret Resp.empty_array
        | _ =>
            match clamp_range (Z.of_nat (length elements)) start stop with
            | None => ret Resp.empty_array
            | Some (start, stop) =>
                body <- bulks_between elements start stop ;;
                ret ("*" +:+ pretty (stop - start + 1)%Z +:+ crlf +:+ body)
            end
        end
    end.

(** *** Sorted sets *)

(** The loop of [redis_zrem] over [args[i]] for [i = 2, 3, ...]. *)
Fixpoint zrem_loop (key : string) (elems : list string) (removed_count : nat)
    : M nat :=
  match elems with
  | [] => ret removed_count
  | elem :: elems' =>
      let key_elem := Redis.get_zset_key_elem rc key elem in
      query_elem <- Engine.get key_elem ;;
      match query_elem with
      | Some score =>
          let key_score := Redis.get_zset_key_socre rc key score in
          Engine.remove cfg key_elem ;;;
          Engine.remove cfg key_score ;;;
          zrem_loop key elems' (S removed_count)
      | None => zrem_loop key elems' removed_count
      end
  end.

Definition redis_zrem (args : list string) : M string :=
  if (length args <? 3)%nat
  then ret ("-ERR wrong number of arguments for 'zrem' command" +:+ crlf)
  else
    match args with
    | _ :: key :: elems =>
        is_expired <- Redis.expire_zset_clean rc cfg now key ;;
        if is_expired : bool then ret (Resp.int 0)
        else
          removed_count <- zrem_loop key elems 0 ;;
          ret (Resp.int (Z.of_nat removed_count))
    | _ => throw (BadIndex 1)
    end.

Definition redis_zscore (key elem : string) : M string :=
  is_expired <- Redis.expire_zset_clean rc cfg now key ;;
  if is_expired : bool then ret Resp.nil
  else
    let key_elem := Redis.get_zset_key_elem rc key elem in
    query_elem <- Engine.get key_elem ;;
    match query_elem with
    | Some score => ret (Resp.bulk score)
    | None => ret Resp.nil
    end.

End WithConsts.
End RedisMore.
(** ** The Redis wrapper: [redis_zincrby] *)

(** [double]: IEEE-754 binary64, with the default rounding to nearest,
    ties to even. *)
Module Double.

Definition double : Set := PrimFloat.float.

(** The conversion of a [long] operand to [double] before the addition. *)
Definition of_long (z : Z) : double :=
  FloatOps.SF2Prim
    (SpecFloat.binary_normalize FloatOps.prec FloatOps.emax z 0 false).

(** The value of a finite [double] with its fraction discarded: the
    truncation toward zero of a conversion to an integer type. *)
Definition truncate (f : double) : option Z :=
  match FloatOps.Prim2SF f with
  | SpecFloat.S754_zero _ => Some 0%Z
  | SpecFloat.S754_finite s m e =>
      let v := Z.shiftl (Z.pos m) e in
      Some (if s : bool then (- v)%Z else v)
  | SpecFloat.S754_infinity _ => None
  | SpecFloat.S754_nan => None
  end.

(** The conversion of a [double] to [uint64_t].  It is defined when the
    truncated value is a [uint64_t], and undefined otherwise: [None]. *)
Definition to_uint64 (f : double) : option Z :=
  match truncate f with
  | Some v => if ((0 <=? v) && (v <? 2 ^ 64))%Z then Some v else None
  | None => None
  end.

(** The [double] nearest to [p / q], for [0 <= p] and [0 < q]. *)
Definition of_ratio (neg : bool) (p q : Z) : double :=
  match p with
  | Z0 => FloatOps.SF2Prim (SpecFloat.S754_zero neg)
  | _ =>
      let '(m, e, l) :=
        SpecFloat.SFdiv_core_binary FloatOps.prec FloatOps.emax p 0 q 0 in
      FloatOps.SF2Prim
        (SpecFloat.binary_round_aux FloatOps.prec FloatOps.emax neg m e l)
  end.



End Double.

Module RedisScore.
Local Open Scope lsm_scope.
Section WithConsts.
Context (rc : RedisConsts).
Context (cfg : Consts) (est : list KV → N) (build_ok : nat → bool).
Context (now : Z).
(** [std::stod] of the standard library: [None] when it throws. *)
Context (stod : string → option Double.double).





End WithConsts.
End RedisScore.

(** ** Vocabulary of the properties *)

(** Keys strictly ascending along a sequence of records. *)
Definition key_lt (a b : KV) : Prop := String.ltb a.1 b.1 = true.

#[export] Instance key_lt_dec : RelDecision key_lt.
Proof. intros a b. unfold key_lt. apply _. Defined.

Definition ascending (l : list KV) : Prop := StronglySorted key_lt l.

(** The value a sequence of records holds for a key: that of the first
    record with this key. *)
Definition kv_lookup (k : string) (l : list KV) : option string :=
  snd <$> List.find (fun e => String.eqb e.1 k) l.

(** The first hit for a key among SSTs consulted in the given order. *)
Fixpoint ssts_lookup (k : string) (ss : list SST) : option string :=
  match ss with
  | [] => None
  | s :: ss' =>
      match Sst.get k s with
      | Some e => Some e.2
      | None => ssts_lookup k ss'
      end
  end.

(** A well-formed memtable: every skiplist is strictly ascending. *)
Definition mem_wf (m : MemTable) : Prop :=
  ascending (current_table m) ∧ Forall ascending (frozen_tables m).

(** A cursor whose ghost bound really decreases with every increment. *)
Class LawfulIterator (T : Type) `{BaseIterator T} := {
  incr_decreases : ∀ it : T, live it = true → steps_left (incr it) < steps_left it
}.

(** The merge of two ascending sequences in which the left one wins on equal
    keys. *)
Fixpoint merge2 (a : list KV) : list KV → list KV :=
  fix go (b : list KV) : list KV :=
    match a, b with
    | [], _ => b
    | _, [] => a
    | x :: a', y :: b' =>
        if String.eqb x.1 y.1 then x :: merge2 a' b'
        else if String.ltb x.1 y.1 then x :: merge2 a' b
        else y :: go b'
    end.

(** [newest k v its]: among the items with key [k] one of least [idx]
    carries the value [v]. *)
Definition newest (k v : string) (its : list SearchItem.t) : Prop :=
  ∃ x, x ∈ its ∧ SearchItem.key x = k ∧ SearchItem.value x = v ∧
       ∀ y, y ∈ its → SearchItem.key y = k → (SearchItem.idx x ≤ SearchItem.idx y)%Z.

(** Items that agree on key and [idx] agree on the value. *)
Definition coherent (its : list SearchItem.t) : Prop :=
  ∀ x y, x ∈ its → y ∈ its →
    SearchItem.key x = SearchItem.key y → SearchItem.idx x = SearchItem.idx y →
    SearchItem.value x = SearchItem.value y.

(** The order of the heap: [a] is not greater than [b]. *)
Definition item_le (a b : SearchItem.t) : Prop := SearchItem.gt a b = false.

(** The value of the first item with key [k] in a queue. *)
Definition item_first (k : string) (q : list SearchItem.t) : option string :=
  SearchItem.value <$> List.find (fun y => String.eqb (SearchItem.key y) k) q.

(** The items contributed to a heap by sources of records, each with the
    [idx] it stamps on its records. *)
Definition source_items (srcs : list (Z * list KV)) : list SearchItem.t :=
  concat (map (fun p => map (fun e => SearchItem.mk e.1 e.2 p.1 0) p.2) srcs).

(** The sources behind the merge of SSTs and behind the cursor of a
    memtable. *)
Definition sst_sources (ss : list SST) : list (Z * list KV) :=
  map (fun s => (- Z.of_nat (sst_id s), sst_entries s)%Z) ss.

Definition mem_sources (m : MemTable) : list (Z * list KV) :=
  imap (fun i t => (Z.of_nat i, t)) (current_table m :: frozen_tables m).

(** Sources listed by growing [idx]. *)
Definition idx_sorted (srcs : list (Z * list KV)) : Prop :=
  StronglySorted (fun a b => (a.1 < b.1)%Z) srcs.

(** ** Vocabulary for the engine *)

(** Two states that differ at most in which empty levels the map
    [level_sst_ids] mentions. *)
Definition same_data (st st' : LSMEngine) : Prop :=
  memtable st' = memtable st ∧ ssts st' = ssts st ∧
  (∀ level, level_ids level st' = level_ids level st) ∧
  cur_max_level st' = cur_max_level st ∧
  cur_max_sst_id st' = cur_max_sst_id st ∧
  disk st' = disk st ∧ trace st' = trace st.

(** The SSTs of a level, in the order of its list of identifiers. *)
Definition level_ssts (level : nat) (st : LSMEngine) : list SST :=
  omap (fun id => ssts st !! id) (level_ids level st).

(** The records of a level, SST after SST. *)
Definition level_records (level : nat) (st : LSMEngine) : list KV :=
  concat (map sst_entries (level_ssts level st)).

(** [k] lies in the key range of [s]. *)
Definition covers (k : string) (s : SST) : bool :=
  String.leb (Sst.get_first_key s) k && String.leb k (Sst.get_last_key s).

(** What [sst.get(k)] delivers as a value. *)
Definition sst_value (k : string) (s : SST) : option string :=
  snd <$> Sst.get k s.

Fixpoint first_some {A : Type} (l : list (option A)) : option A :=
  match l with
  | [] => None
  | Some a :: _ => Some a
  | None :: l' => first_some l'
  end.

(** The lookups of [get] in the order of the specification: the memtable;
    the level-0 SSTs in stored order; for every level from 1 to
    [cur_max_level] the SST whose key range contains the key. *)
Definition consulted (k : string) (st : LSMEngine) : list (option string) :=
  [Mem.get k (memtable st)]
  ++ map (sst_value k) (level_ssts 0 st)
  ++ map (fun level => List.find (covers k) (level_ssts level st) ≫= sst_value k)
         (seq 1 (cur_max_level st)).

(** What the levels must satisfy for [get] to search them: every listed
    identifier is registered, and from level 1 on the SSTs are non-empty
    and their records ascend along the level. *)
Record readable (st : LSMEngine) : Prop := {
  rd_resolve : ∀ level id, id ∈ level_ids level st → is_Some (ssts st !! id);
  rd_levels : ∀ level, 1 ≤ level →
    ascending (level_records level st) ∧
    Forall (fun s => sst_entries s ≠ []) (level_ssts level st)
}.

(** The current value of a key, tombstones included: the first hit from the
    memtable down the levels. *)
Definition view (st : LSMEngine) (k : string) : option string :=
  first_some (Mem.get k (memtable st)
              :: map (fun level => kv_lookup k (level_records level st))
                     (seq 0 (S (cur_max_level st)))).

(** The invariant of the engine. *)
Record engine_wf (st : LSMEngine) : Prop := {
  wf_mem : mem_wf (memtable st);
  wf_resolve : ∀ level id, id ∈ level_ids level st →
    ∃ s, ssts st !! id = Some s ∧ sst_id s = id;
  wf_l0_entries : Forall (fun s => ascending (sst_entries s)) (level_ssts 0 st);
  wf_l0_order : StronglySorted (fun a b => b < a) (level_ids 0 st);
  wf_levels : ∀ level, 1 ≤ level →
    ascending (level_records level st) ∧
    Forall (fun s => sst_entries s ≠ []) (level_ssts level st);
  wf_top : ∀ level, cur_max_level st < level → level_ids level st = [];
  wf_fresh : ∀ level id, id ∈ level_ids level st → id < cur_max_sst_id st;
  wf_nodup : ∀ level, NoDup (level_ids level st);
  wf_disjoint : ∀ l1 l2 id,
    id ∈ level_ids l1 st → id ∈ level_ids l2 st → l1 = l2
}.

(** A hit in a layer ends [get]; its value is reported unless it is the
    tombstone. *)
Definition to_lookup (o : option string) : lookup :=
  match o with
  | Some v => Hit (Engine.not_deleted v)
  | None => Miss
  end.

(** ** The effect of the loops of a compaction, as functions *)

(** The cuts [gen_sst_from_iter] makes in a sequence of records: the open
    builder [cur] is closed as soon as its estimated size reaches
    [target]. *)
Fixpoint chunk_loop (est : list KV → N) (target : N) (l cur : list KV)
    : list (list KV) * list KV :=
  match l with
  | [] => ([], cur)
  | e :: l' =>
      if (target <=? est (cur ++ [e]))%N
      then ((cur ++ [e]) :: (chunk_loop est target l' []).1,
            (chunk_loop est target l' []).2)
      else chunk_loop est target l' (cur ++ [e])
  end.

Definition chunks (est : list KV → N) (target : N) (l : list KV)
    : list (list KV) :=
  let r := chunk_loop est target l [] in
  if (0 <? est r.2)%N then r.1 ++ [r.2] else r.1.

(** The SSTs built from chunks, with consecutive identifiers from [base]. *)
Definition build_all (base level : nat) (cs : list (list KV)) : list SST :=
  imap (fun i c => mkSST (base + i) (Engine.get_sst_path (base + i) level) c) cs.

(** The state after [cur_max_sst_id++] and a successful [build] of [s]. *)
Definition after_build (level : nat) (s : SST) (st : LSMEngine) : LSMEngine :=
  log (EvBuild (sst_id s) level)
    (set_disk (<[sst_file s := sst_entries s]> (disk st))
       (set_cur_max_sst_id (S (sst_id s)) st)).

Definition after_builds (level : nat) (new : list SST) (st : LSMEngine)
    : LSMEngine :=
  foldl (fun st s => after_build level s st) st new.

(** The state after [del_sst] and [erase] of a registered SST. *)
Definition del_one (id : nat) (st : LSMEngine) : LSMEngine :=
  match ssts st !! id with
  | Some s =>
      log (EvErase id)
        (set_ssts (delete id (ssts st))
           (log (EvDelete id) (set_disk (delete (sst_file s) (disk st)) st)))
  | None => st
  end.

Definition del_all (ids : list nat) (st : LSMEngine) : LSMEngine :=
  foldl (fun st id => del_one id st) st ids.

(** The state after [push_back] and registration of a new SST. *)
Definition add_one (level : nat) (s : SST) (st : LSMEngine) : LSMEngine :=
  log (EvRegister (sst_id s))
    (set_ssts (<[sst_id s := s]> (ssts (set_level level (level_ids level st ++ [sst_id s]) st)))
       (set_level level (level_ids level st ++ [sst_id s]) st)).

Definition add_all (level : nat) (new : list SST) (st : LSMEngine) : LSMEngine :=
  foldl (fun st s => add_one level s st) st new.

(** A chunk closed by the size test: it reaches the target and none of its
    shorter non-empty prefixes does. *)
Definition closed_at (est : list KV → N) (target : N) (c : list KV) : Prop :=
  (target ≤ est c)%N ∧
  ∀ p, p `prefix_of` c → p ≠ [] → p ≠ c → (est p < target)%N.

(** A chunk left in the builder when the input ends: no non-empty prefix of
    it reaches the target, and it is built because its size is positive. *)
Definition left_open (est : list KV → N) (target : N) (c : list KV) : Prop :=
  (0 < est c)%N ∧ ∀ p, p `prefix_of` c → p ≠ [] → (est p < target)%N.

(** ** A compaction step, as a function *)

Section Compacted.
Context (cfg : Consts) (est : list KV → N).

(** The records a compaction of [src] into [src + 1] streams into the
    builder. *)
Definition compact_stream (src : nat) (st : LSMEngine) : list KV :=
  if (src =? 0)%nat
  then merge2 (drain (SstIter.merge_sst_iterator
                        (map SstIter.begin (level_ssts 0 st))))
              (level_records 1 st)
  else merge2 (level_records src st) (level_records (src + 1) st).

Definition compact_target (src : nat) : N :=
  if (src =? 0)%nat
  then size_t_wrap (LSM_PER_MEM_SIZE_LIMIT cfg * LSM_SST_LEVEL_RATIO cfg)
  else Engine.get_sst_size cfg (src + 1).

(** The SSTs it builds. *)
Definition compact_new (src : nat) (st : LSMEngine) : list SST :=
  build_all (cur_max_sst_id st) (src + 1)
    (chunks est (compact_target src) (compact_stream src st)).

(** The state it leaves. *)
Definition compacted (src : nat) (st : LSMEngine) : LSMEngine :=
  let new := compact_new src st in
  let st1 := touch_level (src + 1) (touch_level src st) in
  let st2 := after_builds (src + 1) new st1 in
  let st3 := del_all (level_ids (src + 1) st) (del_all (level_ids src st) st2) in
  let st4 :=
    set_cur_max_level (cur_max_level st3 `max` (src + 1))
      (set_level (src + 1) [] (set_level src [] st3)) in
  let st5 := add_all (src + 1) new st4 in
  set_level (src + 1) (merge_sort (≤) (level_ids (src + 1) st5)) st5.

End Compacted.

(** ** Sequences of writes *)

Inductive op :=
  | Put (k v : string)
  | Remove (k : string).

Definition op_key (o : op) : string :=
  match o with Put k _ => k | Remove k => k end.

Section RunOps.
Context (cfg : Consts) (est : list KV → N) (build_ok : nat → bool).

Definition apply_op (o : op) : M unit :=
  match o with
  | Put k v => Engine.put cfg est build_ok k v
  | Remove k => Engine.remove cfg k
  end.

(** The calls of a sequence of writes, one after the other. *)
Definition run (ops : list op) : M unit := for_each apply_op ops.

End RunOps.

(** The last operation of a sequence that is on the key [k]. *)
Definition last_on (k : string) (ops : list op) : option op :=
  last (filter (fun o => op_key o = k) ops).

(** The value an operation writes: a removal writes the tombstone. *)
Definition op_value (o : op) : string :=
  match o with Put _ v => v | Remove _ => EmptyString end.

(** What a reader finds for [k] after the writes [ops] on a fresh engine:
    the value of the last [put] on [k] unless that value is empty; nothing
    after a [remove] and for a key never written. *)
Definition reads_back (k : string) (ops : list op) : option string :=
  match last_on k ops with
  | Some (Put _ v) => if String.eqb v EmptyString then None else Some v
  | Some (Remove _) => None
  | None => None
  end.

(** ** The events of a compaction step *)






(** ** Standing assumptions of the write path *)

(** The conditions under which every write of the engine goes through:
    files can be written; an empty builder has size 0 and a non-empty one a
    positive size; the level ratio is at least 1; a skiplist is frozen no
    later than the memtable as a whole is due for a flush. *)
Record writable (cfg : Consts) (est : list KV → N) (build_ok : nat → bool)
    : Prop := {
  wr_io : ∀ id, build_ok id = true;
  wr_est_nil : est [] = 0%N;
  wr_est_pos : ∀ c, c ≠ [] → (0 < est c)%N;
  wr_ratio : (1 ≤ LSM_SST_LEVEL_RATIO cfg)%N;
  wr_limits : (LSM_PER_MEM_SIZE_LIMIT cfg ≤ LSM_TOL_MEM_SIZE_LIMIT cfg)%N
}.

(** What [get] answers for a key in a state; a call that throws answers
    nothing. *)
Definition answer (st : LSMEngine) (k : string) : option string :=
  match Engine.get k st with
  | Ok r _ => r
  | Throw _ _ => None
  end.

Module MoreExamples.

(** Room for three skiplists of at least 4 bytes before a flush is due. *)
Definition three_tables : Consts :=
  {| LSM_BLOCK_SIZE := 4096;
     LSM_PER_MEM_SIZE_LIMIT := 4;
     LSM_TOL_MEM_SIZE_LIMIT := 12;
     LSM_SST_LEVEL_RATIO := 4 |}.

(** Sample values of the constants of [RedisFormat]. *)
Definition format : RedisFormat :=
  {| REDIS_FIELD_PREFIX := "REDIS_FIELD_";
     REDIS_HASH_VALUE_PREFFIX := "REDIS_HASH_VALUE_";
     REDIS_FIELD_SEPARATOR := "$";
     REDIS_LIST_SEPARATOR := "#" |}.

End MoreExamples.

Module States.

(** Seven writes under [three_tables]: they leave one level-0 SST, two
    frozen tables and an empty active table. *)
Definition seven_writes : list op :=
  [Put "b" "1"; Put "a" "2"; Put "c" "3"; Put "a" "4"; Put "d" "5";
   Remove "c"; Put "a" "7"]%string.

Definition with_frozen : LSMEngine :=
  state_of (run MoreExamples.three_tables default_est Examples.io_fine
              seven_writes (Engine.init ∅)).

(** One more write: the active table holds a record. *)
Definition with_active : LSMEngine :=
  state_of (run MoreExamples.three_tables default_est Examples.io_fine
              (seven_writes ++ [Put "z" "9"]%string) (Engine.init ∅)).

(** Eight writes under [tiny]: they leave SSTs at the levels 0 and 1. *)
Definition eight_writes : list op :=
  [Put "a" "1"; Put "b" "2"; Put "c" "3"; Remove "a"; Put "d" "4";
   Put "b" "5"; Put "e" EmptyString; Put "f" "6"]%string.

Definition two_levels : LSMEngine :=
  state_of (run Examples.tiny default_est Examples.io_fine
              eight_writes (Engine.init ∅)).

(** A string with an expiry record and a counter. *)
Definition redis_writes : list op :=
  [Put "k" "v"; Put "REDIS_EXPIRE_k" "100"; Put "n" "41"; Put "w" "x"]%string.

Definition with_strings : LSMEngine :=
  state_of (run Examples.roomy default_est Examples.io_fine
              redis_writes (Engine.init ∅)).

(** A list of three elements and an expired list. *)
Definition list_writes : list op :=
  [Put "l" "a#b#c"; Put "old" "x#y"; Put "REDIS_EXPIRE_old" "100"]%string.

Definition with_lists : LSMEngine :=
  state_of (run Examples.roomy default_est Examples.io_fine
              list_writes (Engine.init ∅)).

(** A hash of two fields and an expired hash of one field. *)
Definition hash_writes : list op :=
  [Put "h" "REDIS_HASH_VALUE_f$g"; Put "REDIS_FIELD_h_f" "1";
   Put "REDIS_FIELD_h_g" "2"; Put "oh" "REDIS_HASH_VALUE_f";
   Put "REDIS_FIELD_oh_f" "1"; Put "REDIS_EXPIRE_oh" "100"]%string.

Definition with_hashes : LSMEngine :=
  state_of (run Examples.roomy default_est Examples.io_fine
              hash_writes (Engine.init ∅)).

(** A sorted set with the element [a] of score 5. *)
Definition with_zset : LSMEngine :=
  state_of (Redis.redis_zadd RedisExamples.consts Examples.roomy default_est
              Examples.io_fine 0 ["ZADD"; "z"; "5"; "a"]%string
              (Engine.init ∅)).

End States.

(** ** Strings of decimal digits *)

Fixpoint string_forall (P : ascii → bool) (s : string) : bool :=
  match s with
  | EmptyString => true
  | String c s' => P c && string_forall P s'
  end.

Definition is_digit (c : ascii) : bool :=
  match Ascii.is_nat c with Some _ => true | None => false end.

(** A non-empty string of decimal digits. *)
Definition digit_string (s : string) : Prop :=
  s ≠ EmptyString ∧ string_forall is_digit s = true.

(** ** Calls that return *)

(** [returns m st Q]: the call [m] in the state [st] returns normally, with
    a result and a final state that satisfy [Q]. *)
Definition returns {A} (m : M A) (st : LSMEngine)
    (Q : A → LSMEngine → Prop) : Prop :=
  ∃ a st', m st = Ok a st' ∧ Q a st'.

(** The answers of [get] after a write of [v] under [k]: an empty value
    reads as nothing. *)
Definition written (k v : string) (before : string → option string)
    : string → option string :=
  fun k' => if String.eqb k k'
            then (if String.eqb v EmptyString then None else Some v)
            else before k'.

(** ** Encoded lists *)

(** No character of [s] is the delimiter. *)
Definition free_of (d : ascii) (s : string) : bool :=
  string_forall (fun c => negb (Ascii.eqb c d)) s.

(** The vectors that [join] and [split] carry faithfully: no element
    holds the delimiter and the last element, if any, is not empty. *)
Definition splittable (d : ascii) (l : list string) : Prop :=
  Forall (fun s => free_of d s = true) l ∧ last l ≠ Some EmptyString.

(** The string without its last character when that is the delimiter. *)
Fixpoint chop_delimiter (d : ascii) (s : string) : string :=
  match s with
  | EmptyString => EmptyString
  | String c EmptyString => if Ascii.eqb c d then EmptyString else s
  | String c s' => String c (chop_delimiter d s')
  end.

(** ** Stored Redis values *)

(** Elements that are not empty and hold no delimiter. *)
Definition plain (d : ascii) (l : list string) : Prop :=
  Forall (fun e => e ≠ EmptyString ∧ free_of d e = true) l.

(** The key has no expiry record, or one that is not before [now]. *)
Definition unexpired (rc : RedisConsts) (now : Z) (st : LSMEngine) (key : string)
    : Prop :=
  match answer st (Redis.get_explire_key rc key) with
  | None => True
  | Some e => ∃ t, Redis.stoll e = Some t ∧ (now ≤ t)%Z
  end.

(** The key has an expiry record of a time before [now]. *)
Definition lapsed (rc : RedisConsts) (now : Z) (st : LSMEngine)
    (key : string) : Prop :=
  ∃ e t, answer st (Redis.get_explire_key rc key) = Some e
         ∧ Redis.stoll e = Some t ∧ (t < now)%Z.

(** The key holds the list [els]: nothing for the empty list, the joined
    elements otherwise. *)
Definition holds_list (rf : RedisFormat) (st : LSMEngine) (key : string)
    (els : list string) : Prop :=
  plain (REDIS_LIST_SEPARATOR rf) els
  ∧ answer st key
    = match els with
      | [] => None
      | _ => Some (Wire.join els (REDIS_LIST_SEPARATOR rf))
      end.

(** The key holds the hash with the fields [fields]: nothing for no
    field, the encoded field list otherwise. *)
Definition holds_hash (rf : RedisFormat) (st : LSMEngine) (key : string)
    (fields : list string) : Prop :=
  plain (REDIS_FIELD_SEPARATOR rf) fields
  ∧ answer st key
    = match fields with
      | [] => None
      | _ => Some (RedisMore.get_hash_value_from_fields rf fields)
      end.

(** ** The steps of a compaction *)




(** ** The outcome of the loop of [redis_zadd] *)

Section ZaddOutcome.
Context (rc : RedisConsts).
(** What [get] answers while the loop runs: the loop only reads. *)
Context (ans : string → option string).
Context (key : string).

(** [args[2], args[3], ...] for the pairs of a score and an element. *)
Definition zadd_args (pairs : list (string * string)) : list string :=
  flat_map (fun p => [p.1; p.2]) pairs.

(** The pair is not skipped with [continue]: its element is new, or
    stored with another score. *)
Definition zadd_writes (p : string * string) : bool :=
  match ans (Redis.get_zset_key_elem rc key p.2) with
  | Some original_score => negb (String.eqb original_score p.1)
  | None => true
  end.

(** What the loop appends to [put_kvs]. *)
Definition zadd_put_kvs (pairs : list (string * string)) : list KV :=
  flat_map (fun p => [(Redis.get_zset_key_socre rc key p.1, p.2);
                      (Redis.get_zset_key_elem rc key p.2, p.1)])
    (List.filter zadd_writes pairs).

(** What the loop collects in [remove_keys]. *)
Definition zadd_remove_keys (pairs : list (string * string)) : list string :=
  flat_map (fun p =>
              match ans (Redis.get_zset_key_elem rc key p.2) with
              | Some original_score =>
                  if String.eqb original_score p.1 then []
                  else [Redis.get_zset_key_socre rc key original_score]
              | None => []
              end) pairs.

(** The record of the set itself, put when [get] of the prefix finds
    nothing. *)
Definition zadd_set_record : list KV :=
  match ans (Redis.get_zset_key_preffix rc key) with
  | None => [(key, Redis.get_zset_key_preffix rc key)]
  | Some _ => []
  end.

End ZaddOutcome.
(* ================================================================== *)
(** * Part II: properties                                              *)
(* ================================================================== *)

(** ** The order on keys *)

Section KeyOrder.

Lemma compare_refl (a : string) : String.compare a a = Eq.
Proof.
  induction a as [|c a IH]; simpl; [done|].
  unfold Ascii.compare. by rewrite N.compare_refl.
Qed.

Lemma eqb_true (a b : string) : String.eqb a b = true ↔ a = b.
Proof. apply String.eqb_eq. Qed.

Lemma eqb_false (a b : string) : String.eqb a b = false ↔ a ≠ b.
Proof. apply String.eqb_neq. Qed.

Lemma leb_le (a b : string) : String.leb a b = true ↔ String.le a b.
Proof. unfold String.le. by rewrite Is_true_true. Qed.

Lemma ltb_lt (a b : string) :
  String.ltb a b = true ↔ String.le a b ∧ a ≠ b.
Proof.
  unfold String.ltb. rewrite <- leb_le. unfold String.leb.
  destruct (String.compare a b) eqn:E; split; try done.
  - apply String.compare_eq_iff in E. tauto.
  - intros _. split; [done|]. intros ->. by rewrite compare_refl in E.
  - intros [? _]. done.
Qed.

Lemma ltb_irrefl (a : string) : String.ltb a a = false.
Proof. unfold String.ltb. by rewrite compare_refl. Qed.

Lemma leb_refl (a : string) : String.leb a a = true.
Proof. unfold String.leb. by rewrite compare_refl. Qed.

Lemma ltb_trans (a b c : string) :
  String.ltb a b = true → String.ltb b c = true → String.ltb a c = true.
Proof.
  rewrite !ltb_lt. intros [Hab Hne] [Hbc Hne']. split.
  - by etrans.
  - intros ->. apply Hne. by apply (anti_symm String.le).
Qed.

Lemma leb_trans (a b c : string) :
  String.leb a b = true → String.leb b c = true → String.leb a c = true.
Proof. rewrite !leb_le. apply transitivity. Qed.

Lemma ltb_leb_trans (a b c : string) :
  String.ltb a b = true → String.leb b c = true → String.ltb a c = true.
Proof.
  rewrite !ltb_lt, leb_le. intros [Hab Hne] Hbc. split.
  - by etrans.
  - intros ->. apply Hne. by apply (anti_symm String.le).
Qed.

Lemma leb_ltb_trans (a b c : string) :
  String.leb a b = true → String.ltb b c = true → String.ltb a c = true.
Proof.
  rewrite !ltb_lt, leb_le. intros Hab [Hbc Hne]. split.
  - by etrans.
  - intros ->. apply Hne. by apply (anti_symm String.le).
Qed.

Lemma ltb_leb (a b : string) : String.ltb a b = true → String.leb a b = true.
Proof. rewrite ltb_lt, leb_le. tauto. Qed.

Lemma ltb_antisym (a b : string) : String.ltb a b = negb (String.leb b a).
Proof.
  unfold String.ltb, String.leb. rewrite (String.compare_antisym b a).
  by destruct (String.compare a b).
Qed.

Lemma leb_antisym_ltb (a b : string) : String.leb a b = negb (String.ltb b a).
Proof. rewrite ltb_antisym. by destruct (String.leb a b). Qed.

Lemma ltb_neq (a b : string) : String.ltb a b = true → a ≠ b.
Proof. rewrite ltb_lt. tauto. Qed.

Lemma ltb_eqb (a b : string) : String.ltb a b = true → String.eqb a b = false.
Proof. intros H. apply eqb_false. by apply ltb_neq. Qed.

Lemma ltb_asym (a b : string) : String.ltb a b = true → String.ltb b a = false.
Proof.
  intros H. rewrite ltb_antisym. by rewrite (ltb_leb _ _ H).
Qed.

Lemma trichotomy (a b : string) :
  String.ltb a b = true ∨ a = b ∨ String.ltb b a = true.
Proof.
  unfold String.ltb. rewrite (String.compare_antisym b a).
  destruct (String.compare a b) eqn:E; simpl; auto.
  apply String.compare_eq_iff in E. auto.
Qed.

End KeyOrder.

Create HintDb keys discriminated.
#[export] Hint Resolve ltb_trans leb_trans ltb_leb_trans leb_ltb_trans
  ltb_leb leb_refl ltb_neq : keys.

(** ** Lists *)

Section Lists.
Context {A B : Type}.

Lemma elem_of_map (f : A → B) (l : list A) (y : B) :
  y ∈ map f l ↔ ∃ x, y = f x ∧ x ∈ l.
Proof.
  rewrite list_elem_of_In, in_map_iff. split.
  - intros (x & <- & Hx). exists x. by rewrite list_elem_of_In.
  - intros (x & -> & Hx). exists x. by rewrite <- list_elem_of_In.
Qed.

Lemma elem_of_concat (x : A) (ls : list (list A)) :
  x ∈ concat ls ↔ ∃ l, x ∈ l ∧ l ∈ ls.
Proof.
  rewrite list_elem_of_In, in_concat. split.
  - intros (l & Hl & Hx). exists l. by rewrite !list_elem_of_In.
  - intros (l & Hx & Hl). exists l. by rewrite <- !list_elem_of_In.
Qed.

End Lists.

(** ** Records, skiplists and the memtable *)

Section Records.

Lemma ascending_cons (e : KV) (l : list KV) :
  ascending (e :: l) ↔ ascending l ∧ Forall (key_lt e) l.
Proof. unfold ascending. rewrite StronglySorted_cons. tauto. Qed.

Lemma ascending_nil : ascending [].
Proof. constructor. Qed.

Lemma kv_lookup_nil (k : string) : kv_lookup k [] = None.
Proof. done. Qed.

Lemma kv_lookup_cons (k : string) (e : KV) (l : list KV) :
  kv_lookup k (e :: l) = if String.eqb e.1 k then Some e.2 else kv_lookup k l.
Proof. unfold kv_lookup. simpl. by destruct (String.eqb e.1 k). Qed.

Lemma kv_lookup_app (k : string) (l1 l2 : list KV) :
  kv_lookup k (l1 ++ l2) =
    match kv_lookup k l1 with Some v => Some v | None => kv_lookup k l2 end.
Proof.
  induction l1 as [|e l1 IH]; [done|].
  rewrite <- app_comm_cons, !kv_lookup_cons.
  by destruct (String.eqb e.1 k).
Qed.

Lemma kv_lookup_Some (k v : string) (l : list KV) :
  kv_lookup k l = Some v → (k, v) ∈ l.
Proof.
  induction l as [|[k' v'] l IH]; [done|].
  rewrite kv_lookup_cons. simpl.
  destruct (String.eqb k' k) eqn:E.
  - apply eqb_true in E as ->. intros [= ->]. left.
  - intros H. right. auto.
Qed.

Lemma kv_lookup_None (k : string) (l : list KV) :
  kv_lookup k l = None ↔ ∀ v, (k, v) ∉ l.
Proof.
  induction l as [|[k' v'] l IH].
  - split; [|done]. intros _ v H. by apply elem_of_nil in H.
  - rewrite kv_lookup_cons. simpl. destruct (String.eqb k' k) eqn:E.
    + apply eqb_true in E as ->. split; [done|].
      intros H. exfalso. apply (H v'). left.
    + apply eqb_false in E. rewrite IH. split.
      * intros H v [[= -> ->]|Hin]%elem_of_cons; [done|]. by apply (H v).
      * intros H v Hin. apply (H v). by right.
Qed.

(** Below the first key of an ascending sequence nothing is found. *)
Lemma kv_lookup_below (k : string) (l : list KV) :
  Forall (fun e => String.ltb k e.1 = true) l → kv_lookup k l = None.
Proof.
  induction 1 as [|e l He _ IH]; [done|].
  rewrite kv_lookup_cons, IH.
  apply ltb_neq in He. apply eqb_false in He.
  rewrite String.eqb_sym in He. by rewrite He.
Qed.

Lemma ascending_lookup_elem (k v : string) (l : list KV) :
  ascending l → (k, v) ∈ l → kv_lookup k l = Some v.
Proof.
  induction l as [|[k' v'] l IH]; intros Hasc Hin.
  - by apply elem_of_nil in Hin.
  - apply ascending_cons in Hasc as [Hasc Hall].
    rewrite kv_lookup_cons. simpl.
    apply elem_of_cons in Hin as [[= -> ->]|Hin].
    + by rewrite String.eqb_refl.
    + rewrite Forall_forall in Hall. specialize (Hall _ Hin).
      unfold key_lt in Hall. simpl in Hall.
      rewrite (ltb_eqb _ _ Hall). auto.
Qed.

(** On an ascending sequence the search of the skiplist finds what
    [kv_lookup] finds. *)
Lemma skiplist_get_lookup (k : string) (l : SkipList.t) :
  ascending l → SkipList.get k l = kv_lookup k l.
Proof.
  induction l as [|[k' v'] l IH]; intros Hasc; [done|].
  apply ascending_cons in Hasc as [Hasc Hall].
  simpl. rewrite kv_lookup_cons. simpl.
  destruct (String.ltb k' k) eqn:Hlt.
  - rewrite (ltb_eqb _ _ Hlt). auto.
  - destruct (String.eqb k' k) eqn:Heq; [done|].
    symmetry. apply kv_lookup_below.
    eapply Forall_impl; [exact Hall|]. intros e He. unfold key_lt in He.
    simpl in He. eapply leb_ltb_trans; [|exact He].
    destruct (trichotomy k k') as [H|[->|H]]; [by apply ltb_leb| apply leb_refl|].
    congruence.
Qed.

Lemma skiplist_put_elems (k v : string) (l : SkipList.t) (e : KV) :
  e ∈ SkipList.put k v l → e = (k, v) ∨ e ∈ l.
Proof.
  induction l as [|[k' v'] l IH]; simpl.
  - intros ->%list_elem_of_singleton. by left.
  - destruct (String.ltb k' k).
    + intros [->|H]%elem_of_cons; [right; left|].
      destruct (IH H); [by left|right; by right].
    + destruct (String.eqb k' k).
      * intros [->|H]%elem_of_cons; [by left|right; by right].
      * intros [->|H]%elem_of_cons; [by left|by right].
Qed.

Lemma skiplist_put_ascending (k v : string) (l : SkipList.t) :
  ascending l → ascending (SkipList.put k v l).
Proof.
  induction l as [|[k' v'] l IH]; intros Hasc; simpl.
  - apply ascending_cons. split; [constructor|constructor].
  - pose proof Hasc as Hasc'.
    apply ascending_cons in Hasc as [Hasc Hall].
    destruct (String.ltb k' k) eqn:Hlt.
    + apply ascending_cons. split; [auto|].
      apply Forall_forall. intros e [->|He]%skiplist_put_elems; [done|].
      rewrite Forall_forall in Hall. auto.
    + destruct (String.eqb k' k) eqn:Heq.
      * apply eqb_true in Heq as ->. apply ascending_cons. done.
      * apply ascending_cons. split; [done|].
        assert (String.ltb k k' = true) as Hk.
        { destruct (trichotomy k k') as [H|[->|H]]; [done| |congruence].
          by rewrite String.eqb_refl in Heq. }
        constructor; [done|].
        eapply Forall_impl; [exact Hall|]. intros e He.
        unfold key_lt in *. simpl in *. eauto with keys.
Qed.

Lemma skiplist_get_put (k v k' : string) (l : SkipList.t) :
  ascending l →
  SkipList.get k' (SkipList.put k v l) =
    if String.eqb k k' then Some v else SkipList.get k' l.
Proof.
  intros Hasc.
  rewrite (skiplist_get_lookup _ (SkipList.put k v l))
    by (by apply skiplist_put_ascending).
  rewrite (skiplist_get_lookup _ l) by done.
  clear Hasc. induction l as [|[k0 v0] l IH]; simpl.
  - by rewrite kv_lookup_cons.
  - destruct (String.ltb k0 k) eqn:Hlt.
    + rewrite !kv_lookup_cons, IH. simpl.
      destruct (String.eqb k0 k') eqn:E; [|done].
      apply eqb_true in E as ->. by rewrite String.eqb_sym, (ltb_eqb _ _ Hlt).
    + destruct (String.eqb k0 k) eqn:Heq.
      * apply eqb_true in Heq as ->. rewrite !kv_lookup_cons. simpl.
        by destruct (String.eqb k k').
      * by rewrite !kv_lookup_cons.
Qed.

End Records.

Section MemTableFacts.
Context (cfg : Consts).

Lemma pop_back_app {A} (l : list A) (x : A) :
  pop_back (l ++ [x]) = Some (l, x).
Proof.
  induction l as [|y l IH]; [done|]. simpl. by rewrite IH.
Qed.

Lemma pop_back_Some {A} (l r : list A) (x : A) :
  pop_back l = Some (r, x) ↔ l = r ++ [x].
Proof.
  split; [|intros ->; apply pop_back_app].
  revert r. induction l as [|y l IH]; intros r; [done|]. simpl.
  destruct (pop_back l) as [[r' x']|] eqn:E.
  - intros [= <- <-]. by rewrite (IH r' eq_refl).
  - intros [= <- <-]. destruct l as [|z l]; [done|].
    simpl in E. by destruct (pop_back l) as [[??]|].
Qed.

Lemma pop_back_None {A} (l : list A) : pop_back l = None ↔ l = [].
Proof.
  split; [|by intros ->]. destruct l as [|y l]; [done|].
  simpl. by destruct (pop_back l) as [[??]|].
Qed.

Lemma mem_wf_empty : mem_wf Mem.empty.
Proof. split; constructor. Qed.

Lemma mem_wf_put (k v : string) (m : MemTable) :
  mem_wf m → mem_wf (Mem.put cfg k v m).
Proof.
  intros [Hc Hf]. unfold Mem.put. simpl.
  pose proof (skiplist_put_ascending k v _ Hc) as Hc'.
  destruct (_ <=? _)%N; split; simpl; auto using ascending_nil.
Qed.

Lemma mem_wf_put_batch (kvs : list KV) (m : MemTable) :
  mem_wf m → mem_wf (Mem.put_batch cfg kvs m).
Proof.
  unfold Mem.put_batch. revert m.
  induction kvs as [|e kvs IH]; intros m Hm; simpl; auto using mem_wf_put.
Qed.

Lemma mem_wf_remove_batch (ks : list string) (m : MemTable) :
  mem_wf m → mem_wf (Mem.remove_batch cfg ks m).
Proof.
  unfold Mem.remove_batch, Mem.remove. revert m.
  induction ks as [|e ks IH]; intros m Hm; simpl; auto using mem_wf_put.
Qed.

(** Reading the memtable after a write. *)
Lemma mem_get_put (k v k' : string) (m : MemTable) :
  mem_wf m →
  Mem.get k' (Mem.put cfg k v m) =
    if String.eqb k k' then Some v else Mem.get k' m.
Proof.
  intros [Hc Hf]. unfold Mem.put, Mem.get. simpl.
  destruct (_ <=? _)%N; simpl; rewrite skiplist_get_put by done;
    by destruct (String.eqb k k').
Qed.

Lemma get_frozen_app (k : string) (ts1 ts2 : list SkipList.t) :
  Mem.get_frozen k (ts1 ++ ts2) =
    match Mem.get_frozen k ts1 with
    | Some v => Some v
    | None => Mem.get_frozen k ts2
    end.
Proof.
  induction ts1 as [|t ts1 IH]; [done|]. simpl.
  by destruct (SkipList.get k t).
Qed.

(** A write that brings the memtable to the total watermark leaves a
    frozen table behind, provided the per-table watermark is not above the
    total one. *)
Lemma mem_put_frozen (k v : string) (m : MemTable) :
  (LSM_PER_MEM_SIZE_LIMIT cfg ≤ LSM_TOL_MEM_SIZE_LIMIT cfg)%N →
  (LSM_TOL_MEM_SIZE_LIMIT cfg ≤ Mem.get_total_size (Mem.put cfg k v m))%N →
  frozen_tables (Mem.put cfg k v m) ≠ [].
Proof.
  intros Hle. unfold Mem.put.
  destruct (_ <=? _)%N eqn:E; [done|]. simpl.
  apply N.leb_gt in E. unfold Mem.get_total_size. cbn [current_table frozen_tables] in *.
  intros Htot Hnil. rewrite Hnil in Htot. cbn [foldr] in Htot. lia.
Qed.

Lemma flush_last_Some (b : SSTBuilder) (path : string) (id : nat)
    (m : MemTable) (s : SST) (m' : MemTable) :
  Mem.flush_last b path id m = Some (s, m') ↔
  ∃ rest t,
    frozen_tables m = rest ++ [t] ∧
    s = mkSST id path (added b ++ t) ∧
    m' = mkMem (current_table m) rest.
Proof.
  unfold Mem.flush_last.
  assert (∀ t, added (foldl (fun b e => Builder.add e b) b t) = added b ++ t)
    as Hadd.
  { intros t. revert b. induction t as [|e t IH]; intros b; simpl.
    - by rewrite app_nil_r.
    - rewrite IH. simpl. by rewrite <- app_assoc. }
  destruct (pop_back (frozen_tables m)) as [[rest t]|] eqn:E.
  - apply pop_back_Some in E. split.
    + intros [= <- <-]. exists rest, t. unfold Builder.build.
      by rewrite Hadd.
    + intros (rest' & t' & Hfr & -> & ->). rewrite E in Hfr.
      apply app_inj_tail in Hfr as [-> ->].
      unfold Builder.build, SkipList.flush. by rewrite Hadd.
  - apply pop_back_None in E. split; [done|].
    intros (rest' & t' & Hfr & _). rewrite E in Hfr. by destruct rest'.
Qed.

Lemma flush_last_None (b : SSTBuilder) (path : string) (id : nat)
    (m : MemTable) :
  Mem.flush_last b path id m = None ↔ frozen_tables m = [].
Proof.
  unfold Mem.flush_last.
  destruct (pop_back (frozen_tables m)) as [[rest t]|] eqn:E.
  - apply pop_back_Some in E. split; [done|]. intros H. rewrite H in E.
    by destruct rest.
  - by apply pop_back_None in E.
Qed.

End MemTableFacts.

(** ** Cursors *)

Section Cursors.
Context {T : Type} `{LawfulIterator T}.

Lemma drain_n_enough (n : nat) (it : T) :
  steps_left it ≤ n → drain_n n it = drain it.
Proof.
  unfold drain. revert it.
  induction (lt_wf n) as [n _ IH]. intros it Hn.
  destruct n as [|n].
  - by replace (steps_left it) with 0 by lia.
  - simpl. destruct (steps_left it) as [|m] eqn:Hm; simpl.
    + destruct (live it) eqn:Hl; [|done].
      apply incr_decreases in Hl. lia.
    + destruct (live it) eqn:Hl; [|done].
      pose proof (incr_decreases it Hl) as Hd.
      f_equal. rewrite (IH n) by lia. rewrite (IH m); [done|lia|lia].
Qed.

(** Running a cursor: its record, then the run of the incremented
    cursor. *)
Lemma drain_unfold (it : T) :
  drain it = if live it then deref it :: drain (incr it) else [].
Proof.
  unfold drain at 1. destruct (steps_left it) as [|n] eqn:Hn; simpl.
  - destruct (live it) eqn:Hl; [|done].
    apply incr_decreases in Hl. lia.
  - destruct (live it) eqn:Hl; [|done].
    pose proof (incr_decreases it Hl). f_equal. apply drain_n_enough. lia.
Qed.

End Cursors.

(** *** The two-way merge *)

Section Merge2.

Lemma merge2_nil_l (b : list KV) : merge2 [] b = b.
Proof. by destruct b. Qed.

Lemma merge2_nil_r (a : list KV) : merge2 a [] = a.
Proof. by destruct a. Qed.

Lemma merge2_cons (x y : KV) (a b : list KV) :
  merge2 (x :: a) (y :: b) =
    if String.eqb x.1 y.1 then x :: merge2 a b
    else if String.ltb x.1 y.1 then x :: merge2 a (y :: b)
    else y :: merge2 (x :: a) b.
Proof. done. Qed.

Lemma merge2_elem (a b : list KV) (e : KV) :
  e ∈ merge2 a b → e ∈ a ∨ e ∈ b.
Proof.
  revert b. induction a as [|x a IHa]; intros b.
  { rewrite merge2_nil_l. auto. }
  induction b as [|y b IHb].
  { rewrite merge2_nil_r. auto. }
  rewrite merge2_cons.
  destruct (String.eqb x.1 y.1); [|destruct (String.ltb x.1 y.1)].
  - intros [->|Hin]%elem_of_cons; [left; left|].
    destruct (IHa _ Hin); [left|right]; by right.
  - intros [->|Hin]%elem_of_cons; [left; left|].
    destruct (IHa _ Hin); [left; by right|by right].
  - intros [->|Hin]%elem_of_cons; [right; left|].
    destruct (IHb Hin); [by left|right; by right].
Qed.

Lemma merge2_ascending (a b : list KV) :
  ascending a → ascending b → ascending (merge2 a b).
Proof.
  revert b. induction a as [|x a IHa]; intros b Ha Hb.
  { by rewrite merge2_nil_l. }
  induction b as [|y b IHb].
  { by rewrite merge2_nil_r. }
  rewrite merge2_cons.
  pose proof Ha as Ha'. pose proof Hb as Hb'.
  apply ascending_cons in Ha as [Ha Hxa]. apply ascending_cons in Hb as [Hb Hyb].
  rewrite Forall_forall in Hxa, Hyb.
  destruct (String.eqb x.1 y.1) eqn:Heq; [|destruct (String.ltb x.1 y.1) eqn:Hlt].
  - apply eqb_true in Heq. apply ascending_cons. split; [auto|].
    apply Forall_forall. intros e [He|He]%merge2_elem; [auto|].
    unfold key_lt. rewrite Heq. by apply Hyb.
  - apply ascending_cons. split; [auto|].
    apply Forall_forall. intros e [He|He]%merge2_elem; [auto|].
    apply elem_of_cons in He as [->|He]; [done|].
    unfold key_lt in *. eauto with keys.
  - assert (String.ltb y.1 x.1 = true) as Hyx.
    { destruct (trichotomy x.1 y.1) as [?|[E|?]]; [congruence| |done].
      rewrite E, String.eqb_refl in Heq. done. }
    apply ascending_cons. split; [auto|].
    apply Forall_forall. intros e [He|He]%merge2_elem; [|auto].
    apply elem_of_cons in He as [->|He]; [done|].
    unfold key_lt in *. eauto with keys.
Qed.

(** The left sequence wins: a key is looked up on the left first. *)
Lemma merge2_lookup (k : string) (a b : list KV) :
  ascending a → ascending b →
  kv_lookup k (merge2 a b) =
    match kv_lookup k a with Some v => Some v | None => kv_lookup k b end.
Proof.
  revert b. induction a as [|x a IHa]; intros b Ha Hb.
  { by rewrite merge2_nil_l. }
  induction b as [|y b IHb].
  { rewrite merge2_nil_r. by destruct (kv_lookup k (x :: a)). }
  rewrite merge2_cons.
  pose proof Ha as Ha'. pose proof Hb as Hb'.
  apply ascending_cons in Ha as [Ha Hxa]. apply ascending_cons in Hb as [Hb Hyb].
  destruct (String.eqb x.1 y.1) eqn:Heq; [|destruct (String.ltb x.1 y.1) eqn:Hlt].
  - apply eqb_true in Heq. rewrite !kv_lookup_cons, IHa by done.
    rewrite <- Heq. destruct (String.eqb x.1 k) eqn:E; [done|].
    done.
  - rewrite !kv_lookup_cons, IHa by done. rewrite !kv_lookup_cons.
    by destruct (String.eqb x.1 k).
  - assert (String.ltb y.1 x.1 = true) as Hyx.
    { destruct (trichotomy x.1 y.1) as [?|[E|?]]; [congruence| |done].
      rewrite E, String.eqb_refl in Heq. done. }
    rewrite (kv_lookup_cons k y), IHb by done.
    rewrite (kv_lookup_cons k y b).
    destruct (String.eqb y.1 k) eqn:E; [|done].
    apply eqb_true in E as <-.
    rewrite kv_lookup_below; [done|].
    constructor; [done|].
    eapply Forall_impl; [exact Hxa|]. intros e He.
    unfold key_lt in He. eauto with keys.
Qed.

End Merge2.

Section TwoMergeFacts.
Context {A B : Type} `{LawfulIterator A} `{LawfulIterator B}.

Lemma two_merge_live (it : TwoMergeIterator A B) :
  live it = live (it_a it) || live (it_b it).
Proof.
  unfold live at 1. simpl. unfold TwoMerge.valid.
  by destruct (live (it_a it) || live (it_b it)).
Qed.

#[export] Instance two_merge_lawful : LawfulIterator (TwoMergeIterator A B).
Proof.
  constructor. intros [a b]. rewrite two_merge_live. simpl.
  unfold TwoMerge.next. simpl.
  destruct (live a) eqn:Ha, (live b) eqn:Hb; simpl; try done.
  - pose proof (incr_decreases a Ha). pose proof (incr_decreases b Hb).
    destruct (String.eqb _ _); [simpl; lia|].
    destruct (String.ltb _ _); simpl; lia.
  - pose proof (incr_decreases a Ha). lia.
  - pose proof (incr_decreases b Hb). lia.
Qed.

(** The two-merge cursor yields the merge of what its children yield. *)
Lemma two_merge_drain (a : A) (b : B) :
  drain (mkTwoMerge a b) = merge2 (drain a) (drain b).
Proof.
  remember (steps_left a + steps_left b) as n eqn:Hn.
  revert a b Hn. induction (lt_wf n) as [n _ IH]. intros a b ->.
  rewrite drain_unfold, two_merge_live.
  change (deref (mkTwoMerge a b)) with (TwoMerge.cur (mkTwoMerge a b)).
  change (incr (mkTwoMerge a b)) with (TwoMerge.next (mkTwoMerge a b)).
  rewrite (drain_unfold a), (drain_unfold b).
  unfold TwoMerge.cur, TwoMerge.choose_a, TwoMerge.next.
  cbn [it_a it_b].
  destruct (live a) eqn:Ha, (live b) eqn:Hb; cbn [negb orb]; try done.
  - pose proof (incr_decreases a Ha). pose proof (incr_decreases b Hb).
    rewrite merge2_cons.
    destruct (String.eqb (deref a).1 (deref b).1) eqn:Heq.
    + apply eqb_true in Heq. rewrite Heq, leb_refl.
      f_equal. eapply IH; [|done]. lia.
    + destruct (String.ltb (deref a).1 (deref b).1) eqn:Hlt.
      * rewrite (ltb_leb _ _ Hlt). f_equal.
        rewrite (IH (steps_left (incr a) + steps_left b)) by (done || lia).
        by rewrite (drain_unfold b), Hb.
      * assert (String.leb (deref a).1 (deref b).1 = false) as ->.
        { rewrite leb_antisym_ltb.
          destruct (trichotomy (deref a).1 (deref b).1) as [?|[E|E]];
            [congruence| |by rewrite E].
          rewrite E, String.eqb_refl in Heq. done. }
        f_equal.
        rewrite (IH (steps_left a + steps_left (incr b))) by (done || lia).
        by rewrite (drain_unfold a), Ha.
  - pose proof (incr_decreases a Ha). rewrite merge2_nil_r. f_equal.
    rewrite (IH (steps_left (incr a) + steps_left b)) by (done || lia).
    rewrite (drain_unfold b), Hb. apply merge2_nil_r.
  - pose proof (incr_decreases b Hb). rewrite merge2_nil_l. f_equal.
    rewrite (IH (steps_left a + steps_left (incr b))) by (done || lia).
    rewrite (drain_unfold a), Ha. apply merge2_nil_l.
Qed.

End TwoMergeFacts.

(** *** The concatenating cursor *)

Section ConcatFacts.

Lemma settle_spec (cur : list KV) (rest : list SST) :
  cur_iter (Concat.settle cur rest)
    ++ concat (map sst_entries (rest_ssts (Concat.settle cur rest)))
  = cur ++ concat (map sst_entries rest)
  ∧ (cur_iter (Concat.settle cur rest) = [] →
     rest_ssts (Concat.settle cur rest) = []).
Proof.
  revert cur. induction rest as [|s rest IH]; intros cur.
  - destruct cur; simpl; done.
  - destruct cur as [|e cur]; simpl; [|done]. apply IH.
Qed.

#[export] Instance concat_lawful : LawfulIterator ConcactIterator.
Proof.
  constructor. intros [cur rest]. unfold live. simpl.
  unfold Concat.valid, Concat.next. simpl.
  destruct cur as [|e cur]; [done|]. intros _. simpl.
  destruct (settle_spec cur rest) as [Heq _].
  apply (f_equal length) in Heq. rewrite !length_app in Heq. lia.
Qed.

Lemma concat_drain_settled (it : ConcactIterator) :
  (cur_iter it = [] → rest_ssts it = []) →
  drain it = cur_iter it ++ concat (map sst_entries (rest_ssts it)).
Proof.
  remember (steps_left it) as n eqn:Hn. revert it Hn.
  induction (lt_wf n) as [n _ IH]. intros [cur rest] -> Hinv.
  rewrite drain_unfold. unfold live. simpl in *.
  unfold Concat.valid, Concat.cur, Concat.next. simpl.
  destruct cur as [|e cur]; simpl.
  - by rewrite Hinv.
  - f_equal. destruct (settle_spec cur rest) as [Heq Hinv'].
    rewrite <- Heq. eapply IH; [|done|done].
    apply (f_equal length) in Heq. rewrite !length_app in Heq.
    cbn [length]. lia.
Qed.

(** The concatenating cursor yields the records of its SSTs in order. *)
Lemma concat_drain (ss : list SST) :
  drain (Concat.make ss) = concat (map sst_entries ss).
Proof.
  unfold Concat.make. destruct (settle_spec [] ss) as [Heq Hinv].
  by rewrite concat_drain_settled.
Qed.

End ConcatFacts.

(** *** The heap *)

Section HeapFacts.
Import SearchItem.

Lemma item_le_iff (a b : SearchItem.t) :
  item_le a b ↔
  String.ltb (key a) (key b) = true ∨ (key a = key b ∧ (idx a ≤ idx b)%Z).
Proof.
  unfold item_le, gt.
  destruct (String.eqb (key a) (key b)) eqn:E; simpl.
  - apply eqb_true in E. rewrite E, ltb_irrefl, Z.ltb_ge.
    split; [intros; by right|]. by intros [?|[_ ?]].
  - apply eqb_false in E. split.
    + intros Hlt. left.
      destruct (trichotomy (key a) (key b)) as [?|[?|?]]; [done|done|congruence].
    + intros [Hlt|[? _]]; [by apply ltb_asym|done].
Qed.

Lemma item_le_trans (a b c : SearchItem.t) :
  item_le a b → item_le b c → item_le a c.
Proof.
  rewrite !item_le_iff.
  intros [H1|[H1 H1']] [H2|[H2 H2']].
  - left. eauto with keys.
  - left. by rewrite <- H2.
  - left. by rewrite H1.
  - right. split; [congruence|lia].
Qed.

Lemma gt_item_le (a b : SearchItem.t) : gt a b = true → item_le b a.
Proof.
  rewrite item_le_iff. unfold gt.
  destruct (String.eqb (key a) (key b)) eqn:E; simpl.
  - apply eqb_true in E. rewrite Z.ltb_lt. intros. right. split; [done|lia].
  - auto.
Qed.

Lemma push_elem (x y : SearchItem.t) (q : list SearchItem.t) :
  y ∈ Heap.push x q ↔ y = x ∨ y ∈ q.
Proof.
  induction q as [|z q IH]; simpl.
  - rewrite list_elem_of_singleton, elem_of_nil. tauto.
  - destruct (gt x z); rewrite !elem_of_cons; [rewrite IH|]; tauto.
Qed.

Lemma push_sorted (x : SearchItem.t) (q : list SearchItem.t) :
  StronglySorted item_le q → StronglySorted item_le (Heap.push x q).
Proof.
  induction q as [|z q IH]; intros Hq; simpl.
  - repeat constructor.
  - apply StronglySorted_cons in Hq as [Hz Hq].
    destruct (gt x z) eqn:E.
    + apply StronglySorted_cons. split; [|auto].
      apply Forall_forall. intros y [->|Hy]%push_elem.
      * by apply gt_item_le.
      * rewrite Forall_forall in Hz. auto.
    + apply StronglySorted_cons. split.
      * constructor; [done|]. eapply Forall_impl; [exact Hz|].
        intros y Hy. by eapply item_le_trans.
      * apply StronglySorted_cons. done.
Qed.

Lemma of_items_sorted (l : list SearchItem.t) :
  StronglySorted item_le (items (Heap.of_items l)).
Proof.
  unfold Heap.of_items. simpl.
  assert (∀ q, StronglySorted item_le q →
               StronglySorted item_le (foldl (fun q x => Heap.push x q) q l)) as Hgen.
  { induction l as [|x l IH]; intros q Hq; simpl; [done|].
    apply IH. by apply push_sorted. }
  apply Hgen. constructor.
Qed.

Lemma of_items_elem (l : list SearchItem.t) (y : SearchItem.t) :
  y ∈ items (Heap.of_items l) ↔ y ∈ l.
Proof.
  unfold Heap.of_items. simpl.
  assert (∀ q, y ∈ foldl (fun q x => Heap.push x q) q l ↔ y ∈ q ∨ y ∈ l) as Hgen.
  { induction l as [|x l IH]; intros q; simpl.
    - rewrite elem_of_nil. tauto.
    - rewrite IH, push_elem, elem_of_cons. tauto. }
  rewrite Hgen, elem_of_nil. tauto.
Qed.

Lemma pop_key_spec (x : SearchItem.t) (q : list SearchItem.t) :
  StronglySorted item_le (x :: q) →
  ∃ pre,
    q = pre ++ Heap.pop_key (key x) q ∧
    Forall (fun y => key y = key x) pre ∧
    Forall (fun y => String.ltb (key x) (key y) = true) (Heap.pop_key (key x) q).
Proof.
  induction q as [|z q IH]; intros Hs.
  - exists []. simpl. auto.
  - apply StronglySorted_cons in Hs as [Hx Hs].
    apply Forall_cons in Hx as [Hxz Hx].
    simpl. destruct (String.eqb (key z) (key x)) eqn:E.
    + apply eqb_true in E.
      destruct IH as (pre & Hq & Hpre & Hpost).
      { apply StronglySorted_cons. split; [done|].
        by apply StronglySorted_cons in Hs as [_ ?]. }
      exists (z :: pre). simpl. split; [by rewrite <- Hq|]. split; [|done].
      by constructor.
    + apply eqb_false in E. exists []. simpl. split; [done|]. split; [done|].
      apply item_le_iff in Hxz as [Hlt|[? _]]; [|congruence].
      constructor; [done|].
      apply StronglySorted_cons in Hs as [Hz _].
      eapply Forall_impl; [exact Hz|]. intros y Hy. simpl in Hy.
      apply item_le_iff in Hy as [?|[<- _]]; eauto with keys.
Qed.

#[export] Instance heap_lawful : LawfulIterator HeapIterator.
Proof.
  constructor. intros [q]. unfold live. simpl. unfold Heap.valid, Heap.next.
  simpl. destruct q as [|x q]; [done|]. intros _. simpl.
  assert (∀ k q, length (Heap.pop_key k q) ≤ length q) as Hlen.
  { intros k. induction q0 as [|z q0 IH]; simpl; [done|].
    destruct (String.eqb _ _); simpl; lia. }
  specialize (Hlen (key x) q). lia.
Qed.

End HeapFacts.

Section HeapDrain.
Import SearchItem.

Lemma heap_live (h : HeapIterator) : live h = Heap.valid h.
Proof. unfold live. simpl. by destruct (Heap.valid h). Qed.

Lemma heap_drain_cons (x : SearchItem.t) (q : list SearchItem.t) :
  drain (mkHeap (x :: q)) =
    (key x, value x) :: drain (mkHeap (Heap.pop_key (key x) q)).
Proof. by rewrite drain_unfold, heap_live. Qed.

Lemma heap_drain_nil : drain (mkHeap []) = [].
Proof. done. Qed.

Lemma item_first_cons (k : string) (x : SearchItem.t) (q : list SearchItem.t) :
  item_first k (x :: q) =
    if String.eqb (key x) k then Some (value x) else item_first k q.
Proof. unfold item_first. simpl. by destruct (String.eqb (key x) k). Qed.

Lemma item_first_app (k : string) (q1 q2 : list SearchItem.t) :
  item_first k (q1 ++ q2) =
    match item_first k q1 with Some v => Some v | None => item_first k q2 end.
Proof.
  induction q1 as [|x q1 IH]; [done|].
  rewrite <- app_comm_cons, !item_first_cons, IH.
  by destruct (String.eqb (key x) k).
Qed.

Lemma item_first_None (k : string) (q : list SearchItem.t) :
  item_first k q = None ↔ ∀ y, y ∈ q → key y ≠ k.
Proof.
  induction q as [|x q IH].
  - split; [|done]. intros _ y Hy. by apply elem_of_nil in Hy.
  - rewrite item_first_cons. destruct (String.eqb (key x) k) eqn:E.
    + apply eqb_true in E. split; [done|]. intros Hn. exfalso.
      apply (Hn x); [left|done].
    + apply eqb_false in E. rewrite IH. split.
      * intros Hn y [->|Hy]%elem_of_cons; auto.
      * intros Hn y Hy. apply Hn. by right.
Qed.

(** What a sorted heap yields: ascending keys, and for every key the value
    of the first item with that key. *)
Lemma heap_drain_sorted (q : list SearchItem.t) :
  StronglySorted item_le q →
  ascending (drain (mkHeap q)) ∧
  (∀ e, e ∈ drain (mkHeap q) → ∃ y, y ∈ q ∧ key y = e.1) ∧
  (∀ k, kv_lookup k (drain (mkHeap q)) = item_first k q).
Proof.
  remember (length q) as n eqn:Hn. revert q Hn.
  induction (lt_wf n) as [n _ IH]. intros q -> Hs.
  destruct q as [|x q].
  { rewrite heap_drain_nil. split; [constructor|]. split; [|done].
    intros e He. by apply elem_of_nil in He. }
  rewrite heap_drain_cons.
  destruct (pop_key_spec x q Hs) as (pre & Hq & Hpre & Hpost).
  remember (Heap.pop_key (key x) q) as q' eqn:Hq'. clear Hq'.
  assert (StronglySorted item_le q') as Hs'.
  { apply StronglySorted_cons in Hs as [_ Hs]. rewrite Hq in Hs.
    by apply StronglySorted_app_1_r in Hs. }
  assert (length q' < length (x :: q)) as Hlen.
  { rewrite Hq. simpl. rewrite length_app. lia. }
  destruct (IH _ Hlen q' eq_refl Hs') as (Hasc & Hsub & Hlook).
  split; [|split].
  - apply ascending_cons. split; [done|].
    apply Forall_forall. intros e He. destruct (Hsub e He) as (y & Hy & Hk).
    rewrite Forall_forall in Hpost. unfold key_lt. simpl. rewrite <- Hk. auto.
  - intros e [->|He]%elem_of_cons.
    + exists x. split; [left|done].
    + destruct (Hsub e He) as (y & Hy & Hk). exists y. split; [|done].
      right. rewrite Hq. apply elem_of_app. by right.
  - intros k. rewrite kv_lookup_cons, item_first_cons, Hlook. simpl.
    destruct (String.eqb (key x) k) eqn:E; [done|].
    rewrite Hq, item_first_app.
    assert (item_first k pre = None) as ->; [|done].
    apply item_first_None. intros y Hy. rewrite Forall_forall in Hpre.
    rewrite (Hpre y Hy). by apply eqb_false.
Qed.

Lemma item_first_newest (k v : string) (q : list SearchItem.t) :
  StronglySorted item_le q → item_first k q = Some v → newest k v q.
Proof.
  induction q as [|x q IH]; intros Hs; [done|].
  apply StronglySorted_cons in Hs as [Hx Hs].
  rewrite item_first_cons. destruct (String.eqb (key x) k) eqn:E.
  - apply eqb_true in E. intros [= <-]. exists x.
    split; [left|]. split; [done|]. split; [done|].
    intros y [->|Hy]%elem_of_cons Hk; [lia|].
    rewrite Forall_forall in Hx. specialize (Hx y Hy).
    apply item_le_iff in Hx as [Hlt|[_ ?]]; [|done].
    apply ltb_neq in Hlt. congruence.
  - intros Hf. destruct (IH Hs Hf) as (z & Hz & Hkz & Hvz & Hmin).
    exists z. split; [by right|]. split; [done|]. split; [done|].
    intros y [->|Hy]%elem_of_cons Hk; [|auto].
    apply eqb_false in E. done.
Qed.

Lemma newest_perm (k v : string) (q l : list SearchItem.t) :
  (∀ y, y ∈ q ↔ y ∈ l) → newest k v q → newest k v l.
Proof.
  intros Hql (x & Hx & Hk & Hv & Hmin). exists x.
  split; [by apply Hql|]. split; [done|]. split; [done|].
  intros y Hy. apply Hmin. by apply Hql.
Qed.

Lemma newest_unique (k v v' : string) (l : list SearchItem.t) :
  coherent l → newest k v l → newest k v' l → v = v'.
Proof.
  intros Hc (x & Hx & Hk & Hv & Hmin) (x' & Hx' & Hk' & Hv' & Hmin').
  rewrite <- Hv, <- Hv'. apply Hc; [done|done|congruence|].
  specialize (Hmin x' Hx' Hk'). specialize (Hmin' x Hx Hk). lia.
Qed.

(** The heap built from a coherent vector of items yields ascending keys,
    every key of the vector, and for each the value of least [idx]. *)
Lemma heap_of_items_spec (l : list SearchItem.t) :
  coherent l →
  ascending (drain (Heap.of_items l)) ∧
  (∀ k v, kv_lookup k (drain (Heap.of_items l)) = Some v ↔ newest k v l) ∧
  (∀ k, kv_lookup k (drain (Heap.of_items l)) = None ↔
        ∀ y, y ∈ l → key y ≠ k).
Proof.
  intros Hc.
  pose proof (of_items_sorted l) as Hs.
  pose proof (of_items_elem l) as Hel.
  destruct (Heap.of_items l) as [q]. simpl in *.
  destruct (heap_drain_sorted q Hs) as (Hasc & _ & Hlook).
  split; [done|].
  assert (∀ k, item_first k q = None ↔ ∀ y, y ∈ l → key y ≠ k) as Hnone.
  { intros k. rewrite item_first_None. split; intros Hn y Hy; apply Hn;
      by apply Hel. }
  split.
  - intros k v. rewrite Hlook. split.
    + intros Hf. eapply newest_perm; [exact Hel|]. by apply item_first_newest.
    + intros Hn. destruct (item_first k q) as [v'|] eqn:Hf.
      * f_equal. eapply newest_unique; [exact Hc| |exact Hn].
        eapply newest_perm; [exact Hel|]. by apply item_first_newest.
      * exfalso. destruct Hn as (x & Hx & Hk & _).
        pose proof (proj1 (Hnone k) Hf) as Hf'. by apply (Hf' x).
  - intros k. by rewrite Hlook.
Qed.

End HeapDrain.

(** *** Heaps over sources of records *)

Section Sources.
Import SearchItem.

Lemma source_items_elem (srcs : list (Z * list KV)) (y : SearchItem.t) :
  y ∈ source_items srcs ↔
  ∃ p e, p ∈ srcs ∧ e ∈ p.2 ∧ y = mk e.1 e.2 p.1 0.
Proof.
  unfold source_items. rewrite elem_of_concat. split.
  - intros (l & Hy & Hl). apply elem_of_map in Hl as (p & -> & Hp).
    apply elem_of_map in Hy as (e & -> & He). eauto.
  - intros (p & e & Hp & He & ->).
    exists (map (fun e => mk e.1 e.2 p.1 0) p.2). split.
    + apply elem_of_map. exists e. split; [done|exact He].
    + apply elem_of_map. by exists p.
Qed.

Lemma sources_coherent (srcs : list (Z * list KV)) :
  idx_sorted srcs → Forall (fun p => ascending p.2) srcs →
  coherent (source_items srcs).
Proof.
  intros Hs Ha x y Hx Hy Hk Hi.
  apply source_items_elem in Hx as (p & e & Hp & He & ->).
  apply source_items_elem in Hy as (p' & e' & Hp' & He' & ->).
  simpl in *.
  assert (p = p') as <-.
  { clear -Hs Hp Hp' Hi. induction Hs as [|a l _ IH Hall]; [by apply elem_of_nil in Hp|].
    rewrite Forall_forall in Hall.
    apply elem_of_cons in Hp as [->|Hp], Hp' as [->|Hp']; auto.
    - specialize (Hall _ Hp'). lia.
    - specialize (Hall _ Hp). lia. }
  rewrite Forall_forall in Ha. specialize (Ha p Hp).
  destruct e as [k v], e' as [k' v']. simpl in *. subst k'.
  pose proof (ascending_lookup_elem _ _ _ Ha He) as H1.
  pose proof (ascending_lookup_elem _ _ _ Ha He') as H2.
  congruence.
Qed.

Lemma sources_lookup_newest (srcs : list (Z * list KV)) (k v : string) :
  idx_sorted srcs →
  kv_lookup k (concat (map snd srcs)) = Some v →
  newest k v (source_items srcs).
Proof.
  induction srcs as [|[i es] srcs IH]; intros Hs; [done|].
  apply StronglySorted_cons in Hs as [Hi Hs]. simpl.
  rewrite kv_lookup_app.
  destruct (kv_lookup k es) as [v0|] eqn:E.
  - intros [= ->]. apply kv_lookup_Some in E.
    exists (mk k v i 0). split.
    { apply source_items_elem. exists (i, es), (k, v). split; [left|done]. }
    split; [done|]. split; [done|].
    intros y (p & e & Hp & He & ->)%source_items_elem _. simpl.
    apply elem_of_cons in Hp as [->|Hp]; [simpl; lia|].
    rewrite Forall_forall in Hi. specialize (Hi p Hp). simpl in Hi. lia.
  - intros Hl. destruct (IH Hs Hl) as (x & Hx & Hk & Hv & Hmin).
    exists x. split.
    { apply source_items_elem in Hx as (p & e & Hp & He & ->).
      apply source_items_elem. exists p, e. split; [by right|done]. }
    split; [done|]. split; [done|].
    intros y (p & e & Hp & He & ->)%source_items_elem Hky. simpl in *.
    apply elem_of_cons in Hp as [->|Hp].
    + exfalso. simpl in He. rewrite kv_lookup_None in E.
      apply (E e.2). destruct e. simpl in *. by subst.
    + apply (Hmin (mk e.1 e.2 p.1 0)); [|done].
      apply source_items_elem. eauto.
Qed.

Lemma sources_lookup_none (srcs : list (Z * list KV)) (k : string) :
  kv_lookup k (concat (map snd srcs)) = None →
  ∀ y, y ∈ source_items srcs → key y ≠ k.
Proof.
  intros Hn y (p & e & Hp & He & ->)%source_items_elem. simpl. intros <-.
  rewrite kv_lookup_None in Hn. apply (Hn e.2).
  apply elem_of_concat. exists p.2. split; [by destruct e|].
  apply elem_of_map. eauto.
Qed.

(** The heap over sources whose [idx] grows along the list yields, for
    every key, what the first source holding the key has for it. *)
Lemma heap_sources (l : list SearchItem.t) (srcs : list (Z * list KV)) :
  (∀ y, y ∈ l ↔ y ∈ source_items srcs) →
  idx_sorted srcs → Forall (fun p => ascending p.2) srcs →
  ascending (drain (Heap.of_items l)) ∧
  ∀ k, kv_lookup k (drain (Heap.of_items l))
       = kv_lookup k (concat (map snd srcs)).
Proof.
  intros Hl Hs Ha.
  assert (coherent l) as Hc.
  { intros x y Hx Hy. apply (sources_coherent srcs Hs Ha); by apply Hl. }
  destruct (heap_of_items_spec l Hc) as (Hasc & Hsome & Hnone).
  split; [done|]. intros k.
  destruct (kv_lookup k (concat (map snd srcs))) as [v|] eqn:E.
  - apply Hsome. eapply newest_perm; [|by apply sources_lookup_newest].
    intros y. symmetry. apply Hl.
  - apply Hnone. intros y Hy. eapply sources_lookup_none; [exact E|].
    by apply Hl.
Qed.

End Sources.

(** ** The engine: writes, flushes and the constructor *)

Section EngineBasics.
Context (cfg : Consts) (est : list KV → N) (build_ok : nat → bool).

Lemma level_ids_touch (l l' : nat) (st : LSMEngine) :
  level_ids l (touch_level l' st) = level_ids l st.
Proof.
  unfold touch_level, level_ids.
  destruct (level_sst_ids st !! l') eqn:E; [done|]. simpl.
  destruct (decide (l = l')) as [->|Hne].
  - by rewrite lookup_insert_eq, E.
  - by rewrite lookup_insert_ne.
Qed.

Lemma level_ids_set_level (l l' : nat) (ids : list nat) (st : LSMEngine) :
  level_ids l (set_level l' ids st) = if decide (l = l') then ids else level_ids l st.
Proof.
  unfold set_level, level_ids. simpl.
  destruct (decide (l = l')) as [->|Hne].
  - by rewrite lookup_insert_eq.
  - by rewrite lookup_insert_ne.
Qed.

(** [put] is [remove]'s update of the memtable followed by the check of
    the total watermark. *)
Lemma put_tombstone_unfold (k : string) (st : LSMEngine) :
  Engine.put cfg est build_ok k EmptyString st =
    let st' := state_of (Engine.remove cfg k st) in
    if (LSM_TOL_MEM_SIZE_LIMIT cfg <=? Mem.get_total_size (memtable st'))%N
    then Engine.flush cfg est build_ok st'
    else Ok tt st'.
Proof.
  unfold Engine.put, Engine.remove, Mem.remove, bind, modify, gets, ret.
  simpl. by destruct (_ <=? _)%N.
Qed.

(** With no frozen table, a non-empty memtable and level 0 below the
    fan-out, [flush] reaches the panic of [flush_last]. *)
Lemma flush_panics_without_frozen (st : LSMEngine) :
  frozen_tables (memtable st) = [] →
  (0 < Mem.get_total_size (memtable st))%N →
  (N.of_nat (length (level_ids 0 st)) < LSM_SST_LEVEL_RATIO cfg)%N →
  ∃ st', Engine.flush cfg est build_ok st = Throw NoFrozenTable st'.
Proof.
  intros Hfr Htot Hl0. unfold Engine.flush, bind, gets. simpl.
  destruct (N.eqb_spec (Mem.get_total_size (memtable st)) 0) as [E|_]; [lia|].
  unfold level_ids in Hl0.
  destruct (level_sst_ids st !! 0) as [ids|] eqn:E0; simpl in *.
  - destruct (N.leb_spec (LSM_SST_LEVEL_RATIO cfg) (N.of_nat (length ids))); [lia|].
    unfold ret, Engine.mint_sst_id, Engine.memtable_flush_last. simpl.
    destruct (Mem.flush_last _ _ _ _) as [[??]|] eqn:E; [|eauto].
    apply flush_last_Some in E as (rest & t & Hf & _).
    rewrite Hfr in Hf. by destruct rest.
  - unfold ret, Engine.mint_sst_id, Engine.memtable_flush_last. simpl.
    destruct (Mem.flush_last _ _ _ _) as [[??]|] eqn:E; [|eauto].
    apply flush_last_Some in E as (rest & t & Hf & _).
    rewrite Hfr in Hf. by destruct rest.
Qed.

End EngineBasics.

(** ** [get] *)

Section SameData.

Lemma same_data_refl (st : LSMEngine) : same_data st st.
Proof. by repeat split. Qed.

Lemma same_data_trans (st1 st2 st3 : LSMEngine) :
  same_data st1 st2 → same_data st2 st3 → same_data st1 st3.
Proof.
  intros (?&?&Ha&?&?&?&?) (?&?&Hb&?&?&?&?).
  repeat split; congruence.
Qed.

Lemma same_data_touch (level : nat) (st : LSMEngine) :
  same_data st (touch_level level st).
Proof.
  repeat split; try (unfold touch_level; by destruct (level_sst_ids st !! level)).
  intros l. apply level_ids_touch.
Qed.

Lemma same_data_level_ssts (st st' : LSMEngine) (level : nat) :
  same_data st st' → level_ssts level st' = level_ssts level st.
Proof. intros (_&Hs&Hl&_). unfold level_ssts. by rewrite Hs, Hl. Qed.

Lemma same_data_level_records (st st' : LSMEngine) (level : nat) :
  same_data st st' → level_records level st' = level_records level st.
Proof. intros H. unfold level_records. by rewrite (same_data_level_ssts st). Qed.

Lemma same_data_consulted (st st' : LSMEngine) (k : string) :
  same_data st st' → consulted k st' = consulted k st.
Proof.
  intros H. pose proof H as (Hm&_&_&Hc&_). unfold consulted.
  rewrite Hm, Hc, (same_data_level_ssts st st' 0 H). do 2 f_equal.
  apply map_ext. intros l. by rewrite (same_data_level_ssts st st' l H).
Qed.

Lemma same_data_view (st st' : LSMEngine) (k : string) :
  same_data st st' → view st' k = view st k.
Proof.
  intros H. pose proof H as (Hm&_&_&Hc&_). unfold view.
  rewrite Hm, Hc. do 2 f_equal.
  apply map_ext. intros l. by rewrite (same_data_level_records st st' l H).
Qed.

Lemma same_data_readable (st st' : LSMEngine) :
  same_data st st' → readable st → readable st'.
Proof.
  intros H [Hr Hl]. pose proof H as (_&Hs&Hi&_). split.
  - intros l id. rewrite Hi, Hs. apply Hr.
  - intros l Hl1. rewrite (same_data_level_records st st' l H),
      (same_data_level_ssts st st' l H). by apply Hl.
Qed.

Lemma same_data_wf (st st' : LSMEngine) :
  same_data st st' → engine_wf st → engine_wf st'.
Proof.
  intros H [W1 W2 W3 W4 W5 W6 W7 W8 W9].
  pose proof H as (Hm&Hs&Hi&Hc&Hx&_). split.
  - by rewrite Hm.
  - intros l id. rewrite Hi, Hs. apply W2.
  - by rewrite (same_data_level_ssts st st' 0 H).
  - by rewrite Hi.
  - intros l Hl1. rewrite (same_data_level_records st st' l H),
      (same_data_level_ssts st st' l H). by apply W5.
  - intros l. rewrite Hi, Hc. apply W6.
  - intros l id. rewrite Hi, Hx. apply W7.
  - intros l. rewrite Hi. apply W8.
  - intros l1 l2 id. rewrite !Hi. apply W9.
Qed.

Lemma wf_readable (st : LSMEngine) : engine_wf st → readable st.
Proof.
  intros W. split.
  - intros l id Hid. destruct (wf_resolve st W l id Hid) as (s & Hs & _). eauto.
  - apply (wf_levels st W).
Qed.

End SameData.

Section Ranges.

Lemma first_some_app {A} (l1 l2 : list (option A)) :
  first_some (l1 ++ l2) =
    match first_some l1 with Some v => Some v | None => first_some l2 end.
Proof. induction l1 as [|[a|] l1 IH]; simpl; auto. Qed.

Lemma omap_Forall2 {A B} (f : A → option B) (l : list A) :
  (∀ x, x ∈ l → is_Some (f x)) →
  Forall2 (fun x y => f x = Some y) l (omap f l).
Proof.
  induction l as [|x l IH]; intros Hall; simpl; [constructor|].
  destruct (Hall x) as [y Hy]; [left|]. rewrite Hy. constructor; [done|].
  apply IH. intros z Hz. apply Hall. by right.
Qed.

Lemma level_ssts_resolve (level : nat) (st : LSMEngine) :
  (∀ id, id ∈ level_ids level st → is_Some (ssts st !! id)) →
  Forall2 (fun id s => ssts st !! id = Some s)
          (level_ids level st) (level_ssts level st).
Proof. apply omap_Forall2. Qed.

Lemma sst_get_Some (k : string) (s : SST) (e : KV) :
  Sst.get k s = Some e → e ∈ sst_entries s ∧ e.1 = k.
Proof.
  unfold Sst.get. intros H. apply find_some in H as [Hin Heq].
  split; [by apply list_elem_of_In|by apply eqb_true].
Qed.

Lemma sst_value_lookup (k : string) (s : SST) :
  sst_value k s = kv_lookup k (sst_entries s).
Proof. done. Qed.

Lemma ssts_lookup_records (k : string) (ss : list SST) :
  ssts_lookup k ss = kv_lookup k (concat (map sst_entries ss)).
Proof.
  induction ss as [|s ss IH]; [done|]. simpl.
  rewrite kv_lookup_app, <- IH. unfold kv_lookup.
  unfold Sst.get. by destruct (List.find _ (sst_entries s)).
Qed.

Lemma ascending_app_inv (l1 l2 : list KV) :
  ascending (l1 ++ l2) →
  ascending l1 ∧ ascending l2 ∧ ∀ x y, x ∈ l1 → y ∈ l2 → key_lt x y.
Proof.
  unfold ascending. rewrite StronglySorted_app. tauto.
Qed.

Lemma ascending_concat_inv (ls : list (list KV)) :
  ascending (concat ls) →
  (∀ l, l ∈ ls → ascending l) ∧
  (∀ i j li lj x y, i < j → ls !! i = Some li → ls !! j = Some lj →
     x ∈ li → y ∈ lj → key_lt x y).
Proof.
  induction ls as [|l ls IH]; simpl; intros Hasc.
  - split; [intros l Hl; by apply elem_of_nil in Hl|].
    intros i j li lj x y _ Hi. by rewrite lookup_nil in Hi.
  - apply ascending_app_inv in Hasc as (Hl & Hls & Hcross).
    destruct (IH Hls) as [IH1 IH2]. split.
    + intros l' [->|Hl']%elem_of_cons; auto.
    + intros i j li lj x y Hij Hi Hj Hx Hy.
      destruct j as [|j]; [lia|]. simpl in Hj. destruct i as [|i].
      * simpl in Hi. injection Hi as <-. apply Hcross; [done|].
        apply elem_of_concat. exists lj. split; [done|].
        by eapply list_elem_of_lookup_2.
      * simpl in Hi. eapply (IH2 i j); eauto. lia.
Qed.

(** The first and the last key of a non-empty ascending SST bound its
    keys. *)
Lemma first_key_bound (s : SST) :
  ascending (sst_entries s) → sst_entries s ≠ [] →
  (∃ e, e ∈ sst_entries s ∧ Sst.get_first_key s = e.1) ∧
  ∀ e, e ∈ sst_entries s → String.leb (Sst.get_first_key s) e.1 = true.
Proof.
  unfold Sst.get_first_key. destruct (sst_entries s) as [|e0 l]; [done|].
  intros Hasc _. apply ascending_cons in Hasc as [_ Hall]. split.
  - exists e0. split; [left|done].
  - intros e [->|He]%elem_of_cons; [apply leb_refl|].
    rewrite Forall_forall in Hall. apply ltb_leb. by apply Hall.
Qed.

Lemma last_key_bound (s : SST) :
  ascending (sst_entries s) → sst_entries s ≠ [] →
  (∃ e, e ∈ sst_entries s ∧ Sst.get_last_key s = e.1) ∧
  ∀ e, e ∈ sst_entries s → String.leb e.1 (Sst.get_last_key s) = true.
Proof.
  unfold Sst.get_last_key.
  destruct (sst_entries s) as [|e0 l0 _] using rev_ind; [done|].
  intros Hasc _.
  rewrite map_app. simpl. rewrite last_last.
  apply ascending_app_inv in Hasc as (_ & _ & Hcross). split.
  - exists e0. split; [|done]. apply elem_of_app. right. left.
  - intros e [He|He]%elem_of_app.
    + apply ltb_leb. apply Hcross; [done|left].
    + apply list_elem_of_singleton in He as ->. apply leb_refl.
Qed.

Lemma find_at {A} (p : A → bool) (l : list A) (i : nat) (x : A) :
  l !! i = Some x → p x = true →
  (∀ j y, j < i → l !! j = Some y → p y = false) →
  List.find p l = Some x.
Proof.
  revert i. induction l as [|a l IH]; intros i Hi Hp Hbefore.
  - by rewrite lookup_nil in Hi.
  - destruct i as [|i]; simpl in *.
    + injection Hi as ->. by rewrite Hp.
    + rewrite (Hbefore 0 a) by (done || lia).
      apply (IH i); [done|done|]. intros j y Hj Hy.
      apply (Hbefore (S j) y); [lia|done].
Qed.

Lemma find_none {A} (p : A → bool) (l : list A) :
  (∀ j y, l !! j = Some y → p y = false) → List.find p l = None.
Proof.
  induction l as [|a l IH]; intros Hall; [done|]. simpl.
  rewrite (Hall 0 a) by done. apply IH. intros j y Hy. by apply (Hall (S j)).
Qed.

End Ranges.

Section GetLevel.
Context (st : LSMEngine) (key : string) (ids : list nat) (ss : list SST).
Context (Hres : Forall2 (fun id s => ssts st !! id = Some s) ids ss).
Context (Hasc : ascending (concat (map sst_entries ss))).
Context (Hne : Forall (fun s => sst_entries s ≠ []) ss).

Lemma level_sst_ok (i : nat) (s : SST) :
  ss !! i = Some s → ascending (sst_entries s) ∧ sst_entries s ≠ [].
Proof.
  intros Hi. split.
  - apply (proj1 (ascending_concat_inv _ Hasc)).
    apply elem_of_map. exists s. split; [done|]. by eapply list_elem_of_lookup_2.
  - rewrite Forall_forall in Hne. apply Hne. by eapply list_elem_of_lookup_2.
Qed.

Lemma level_first_le_last (i : nat) (s : SST) :
  ss !! i = Some s →
  String.leb (Sst.get_first_key s) (Sst.get_last_key s) = true.
Proof.
  intros Hi. destruct (level_sst_ok i s Hi) as [Ha Hn].
  destruct (first_key_bound s Ha Hn) as [_ Hf].
  destruct (last_key_bound s Ha Hn) as [(e & He & ->) _]. by apply Hf.
Qed.

Lemma level_ranges_ordered (i j : nat) (si sj : SST) :
  i < j → ss !! i = Some si → ss !! j = Some sj →
  String.ltb (Sst.get_last_key si) (Sst.get_first_key sj) = true.
Proof.
  intros Hij Hi Hj.
  destruct (level_sst_ok i si Hi) as [Hai Hni].
  destruct (level_sst_ok j sj Hj) as [Haj Hnj].
  destruct (last_key_bound si Hai Hni) as [(x & Hx & ->) _].
  destruct (first_key_bound sj Haj Hnj) as [(y & Hy & ->) _].
  apply (proj2 (ascending_concat_inv _ Hasc) i j (sst_entries si) (sst_entries sj));
    try done.
  - by rewrite list_lookup_fmap, Hi.
  - by rewrite list_lookup_fmap, Hj.
Qed.

Lemma sst_at_resolved (i id : nat) (s : SST) :
  ids !! i = Some id → ss !! i = Some s → sst_at id st = Ok s st.
Proof.
  intros Hi Hs. unfold sst_at.
  rewrite Forall2_lookup in Hres. specialize (Hres i).
  rewrite Hi, Hs in Hres. inversion Hres as [?? Heq|]; subst. by rewrite Heq.
Qed.

(** The binary search on a level delivers what the SST covering the key
    holds. *)
Lemma search_level_spec (fuel left right : nat) :
  left ≤ right → right ≤ length ss → right - left ≤ fuel →
  (∀ i s, i < left → ss !! i = Some s →
          String.ltb (Sst.get_last_key s) key = true) →
  (∀ i s, right ≤ i → ss !! i = Some s →
          String.ltb key (Sst.get_first_key s) = true) →
  Engine.search_level fuel key ids left right st
  = Ok (to_lookup (List.find (covers key) ss ≫= sst_value key)) st.
Proof.
  revert left right. induction fuel as [|fuel IH]; intros left right Hlr Hr Hf Hlo Hhi.
  - simpl. assert (left = right) as -> by lia.
    rewrite Nat.ltb_irrefl. simpl. unfold ret. do 2 f_equal.
    rewrite find_none; [done|]. intros j s Hj. unfold covers.
    destruct (decide (j < right)).
    + rewrite (leb_antisym_ltb key), (Hlo j s) by done. simpl. apply andb_false_r.
    + rewrite (leb_antisym_ltb _ key), (Hhi j s) by (done || lia). done.
  - cbn [Engine.search_level].
    destruct (Nat.ltb_spec left right) as [Hlt|Hge]; cbn [negb].
    2: { assert (left = right) as -> by lia. unfold ret. do 2 f_equal.
         rewrite find_none; [done|]. intros j s Hj. unfold covers.
         destruct (decide (j < right)).
         + rewrite (leb_antisym_ltb key), (Hlo j s) by done. simpl.
           apply andb_false_r.
         + rewrite (leb_antisym_ltb _ key), (Hhi j s) by (done || lia). done. }
    set (mid := left + (right - left) / 2).
    assert (left ≤ mid ∧ mid < right) as [Hlm Hmr].
    { subst mid. pose proof (Nat.Div0.div_le_upper_bound (right - left) 2 (right - left)).
      assert ((right - left) / 2 < right - left).
      { apply Nat.div_lt; lia. }
      lia. }
    destruct (lookup_lt_is_Some_2 ss mid) as [s Hs]; [lia|].
    destruct (lookup_lt_is_Some_2 ids mid) as [id Hid].
    { rewrite (Forall2_length _ _ _ Hres). lia. }
    rewrite Hid. unfold bind. rewrite (sst_at_resolved mid id s Hid Hs).
    fold (covers key s). destruct (covers key s) eqn:Hcov.
    + rewrite (find_at (covers key) ss mid s Hs Hcov).
      * simpl. unfold sst_value. by destruct (Sst.get key s).
      * intros j y Hj Hy. unfold covers.
        apply andb_true_iff in Hcov as [Hc1 _].
        pose proof (level_ranges_ordered j mid y s Hj Hy Hs) as Hord.
        rewrite (leb_antisym_ltb key). 
        rewrite (ltb_leb_trans _ _ _ Hord Hc1). simpl. apply andb_false_r.
    + destruct (String.ltb (Sst.get_last_key s) key) eqn:Hlast.
      * apply IH; [lia|lia|lia| |done].
        intros i si Hi Hsi. destruct (decide (i = mid)) as [->|Hne'].
        { rewrite Hs in Hsi. by injection Hsi as <-. }
        pose proof (level_ranges_ordered i mid si s ltac:(lia) Hsi Hs) as Hord.
        pose proof (level_first_le_last mid s Hs) as Hfl.
        eauto with keys.
      * assert (String.ltb key (Sst.get_first_key s) = true) as Hfirst.
        { unfold covers in Hcov. rewrite (leb_antisym_ltb key), Hlast in Hcov.
          simpl in Hcov. rewrite andb_true_r in Hcov.
          rewrite ltb_antisym. by rewrite Hcov. }
        apply IH; [lia|lia|lia|done|].
        intros i si Hi Hsi. destruct (decide (i = mid)) as [->|Hne'].
        { rewrite Hs in Hsi. by injection Hsi as <-. }
        pose proof (level_ranges_ordered mid i s si ltac:(lia) Hs Hsi) as Hord.
        pose proof (level_first_le_last mid s Hs) as Hfl.
        eauto with keys.
Qed.

End GetLevel.

Section GetSpec.

Lemma get_l0_spec (key : string) (st : LSMEngine) (ids : list nat) (ss : list SST) :
  Forall2 (fun id s => ssts st !! id = Some s) ids ss →
  Engine.get_l0 key ids st
  = Ok (to_lookup (first_some (map (sst_value key) ss))) st.
Proof.
  induction 1 as [|id s ids ss Hs _ IH]; [done|].
  simpl. unfold bind, sst_at. rewrite Hs. unfold sst_value at 1.
  destruct (Sst.get key s) as [e|]; [done|]. exact IH.
Qed.

Lemma get_levels_spec (key : string) (levels : list nat) (st : LSMEngine) :
  readable st → Forall (fun level => 1 ≤ level) levels →
  ∃ st',
    Engine.get_levels key levels st
    = Ok (to_lookup (first_some
            (map (fun level => List.find (covers key) (level_ssts level st)
                               ≫= sst_value key) levels))) st'
    ∧ same_data st st'.
Proof.
  intros Hrd Hlv. revert st Hrd.
  induction Hlv as [|level levels Hl1 _ IH]; intros st Hrd.
  { exists st. split; [done|apply same_data_refl]. }
  pose proof (same_data_touch level st) as Hsd.
  pose proof (same_data_readable _ _ Hsd Hrd) as Hrd'.
  cbn [Engine.get_levels]. unfold bind at 1. unfold modify at 1.
  unfold bind at 1. unfold gets at 1.
  set (st1 := touch_level level st) in *.
  destruct Hrd' as [Hres Hlev]. destruct (Hlev level Hl1) as [Hasc Hne].
  unfold bind at 1.
  rewrite (search_level_spec st1 key (level_ids level st1) (level_ssts level st1));
    try done.
  - cbn [map first_some]. rewrite <- (same_data_level_ssts st st1 level Hsd).
    destruct (List.find (covers key) (level_ssts level st1) ≫= sst_value key)
      as [v|] eqn:E.
    + exists st1. done.
    + cbn [to_lookup].
      destruct (IH st1) as (st' & Heq & Hsd'); [by split|].
      exists st'. split; [|by eapply same_data_trans].
      rewrite Heq. do 3 f_equal. apply map_ext. intros l.
      by rewrite (same_data_level_ssts st st1 l Hsd).
  - apply level_ssts_resolve. intros id. apply Hres.
  - lia.
  - rewrite (Forall2_length _ _ _ (level_ssts_resolve level st1 (Hres level))). lia.
  - lia.
  - intros i s Hi. lia.
  - intros i s Hi Hs. apply lookup_lt_Some in Hs.
    rewrite (Forall2_length _ _ _ (level_ssts_resolve level st1 (Hres level))) in Hi.
    lia.
Qed.

(** [get] reports the first hit among the lookups it makes in order, and
    reports a tombstone as the absence of a value. *)
Lemma get_spec (key : string) (st : LSMEngine) :
  readable st →
  ∃ st',
    Engine.get key st
    = Ok (first_some (consulted key st) ≫= Engine.not_deleted) st'
    ∧ same_data st st'.
Proof.
  intros Hrd. unfold Engine.get, consulted.
  unfold bind at 1. unfold gets at 1. cbn [app first_some].
  destruct (Mem.get key (memtable st)) as [v|] eqn:Hm.
  { exists st. split; [done|apply same_data_refl]. }
  pose proof (same_data_touch 0 st) as Hsd.
  pose proof (same_data_readable _ _ Hsd Hrd) as Hrd'.
  unfold bind at 1. unfold modify at 1. unfold bind at 1. unfold gets at 1.
  set (st1 := touch_level 0 st) in *.
  unfold bind at 1.
  rewrite (get_l0_spec key st1 (level_ids 0 st1) (level_ssts 0 st1))
    by (apply level_ssts_resolve; intros id; apply (rd_resolve _ Hrd')).
  rewrite first_some_app, <- (same_data_level_ssts st st1 0 Hsd).
  destruct (first_some (map (sst_value key) (level_ssts 0 st1))) as [v|].
  { exists st1. done. }
  cbn [to_lookup]. unfold bind at 1. unfold gets at 1. unfold bind at 1.
  destruct (get_levels_spec key (seq 1 (cur_max_level st1)) st1 Hrd')
    as (st' & Heq & Hsd').
  { apply Forall_forall. intros l Hl%list_elem_of_In%in_seq. lia. }
  rewrite Heq. exists st'. split; [|by eapply same_data_trans].
  destruct Hsd as (_&_&_&Hc&_). rewrite Hc.
  assert (map (fun level => List.find (covers key) (level_ssts level st1)
                            ≫= sst_value key) (seq 1 (cur_max_level st))
          = map (fun level => List.find (covers key) (level_ssts level st)
                              ≫= sst_value key) (seq 1 (cur_max_level st))) as ->.
  { apply map_ext. intros l.
    by rewrite (same_data_level_ssts st st1 l (same_data_touch 0 st)). }
  by destruct (first_some (map _ (seq 1 (cur_max_level st)))).
Qed.

End GetSpec.

(** ** The loops of the write path *)

(** Expose the plumbing of the monad. *)
Ltac mred := unfold bind, ret, gets, modify, throw in *.

Section Loops.
Context (cfg : Consts) (est : list KV → N) (build_ok : nat → bool).
Context (Hio : ∀ id, build_ok id = true).

Lemma map_m_sst_at (st : LSMEngine) (ids : list nat) (ss : list SST) :
  Forall2 (fun id s => ssts st !! id = Some s) ids ss →
  map_m sst_at ids st = Ok ss st.
Proof.
  induction 1 as [|id s ids ss Hs _ IH]; [done|].
  simpl. unfold bind, sst_at. rewrite Hs. fold (@sst_at). by rewrite IH.
Qed.

Lemma map_m_sst_begin (st : LSMEngine) (ids : list nat) (ss : list SST) :
  Forall2 (fun id s => ssts st !! id = Some s) ids ss →
  map_m (fun id => bind (sst_at id) (fun sst => ret (SstIter.begin sst))) ids st
  = Ok (map SstIter.begin ss) st.
Proof.
  induction 1 as [|id s ids ss Hs _ IH]; [done|].
  simpl. mred. unfold sst_at at 1. rewrite Hs. by rewrite IH.
Qed.

Lemma for_each_add (level : nat) (new : list SST) (st : LSMEngine) :
  for_each (Engine.add_new_sst level) new st = Ok tt (add_all level new st).
Proof.
  revert st. induction new as [|s new IH]; intros st; [done|].
  simpl. unfold Engine.add_new_sst at 1, Engine.register. mred.
  by rewrite IH.
Qed.

Lemma for_each_del (ids : list nat) (st : LSMEngine) :
  NoDup ids → (∀ id, id ∈ ids → is_Some (ssts st !! id)) →
  for_each (Engine.del_and_erase) ids st = Ok tt (del_all ids st).
Proof.
  intros Hnd. revert st. induction Hnd as [|id ids Hnotin _ IH]; intros st Hres; [done|].
  simpl. unfold Engine.del_and_erase at 1. mred. unfold sst_at at 1.
  destruct (Hres id) as [s Hs]; [left|].
  rewrite Hs. unfold del_one. rewrite Hs. apply IH.
  intros id' Hid'. simpl. rewrite lookup_delete_ne; [apply Hres; by right|].
  intros ->. done.
Qed.

End Loops.

Section GenSst.
Context (cfg : Consts) (est : list KV → N) (build_ok : nat → bool).
Context (Hio : ∀ id, build_ok id = true).

Lemma build_all_cons (base level : nat) (c : list KV) (cs : list (list KV)) :
  build_all base level (c :: cs)
  = mkSST base (Engine.get_sst_path base level) c :: build_all (S base) level cs.
Proof.
  unfold build_all. simpl. rewrite Nat.add_0_r. f_equal.
  apply imap_ext. intros i x _. simpl. by rewrite Nat.add_succ_r.
Qed.

Lemma build_all_app (base level : nat) (cs1 cs2 : list (list KV)) :
  build_all base level (cs1 ++ cs2)
  = build_all base level cs1 ++ build_all (base + length cs1) level cs2.
Proof.
  revert base. induction cs1 as [|c cs1 IH]; intros base.
  - cbn [app length]. by rewrite Nat.add_0_r.
  - rewrite <- app_comm_cons, !build_all_cons, IH. cbn [length].
    rewrite <- app_comm_cons. do 3 f_equal. lia.
Qed.

Lemma build_all_entries (base level : nat) (cs : list (list KV)) :
  map sst_entries (build_all base level cs) = cs.
Proof.
  revert base. induction cs as [|c cs IH]; intros base; [done|].
  rewrite build_all_cons. cbn [map sst_entries]. by rewrite IH.
Qed.

Lemma build_all_ids (base level : nat) (cs : list (list KV)) :
  map sst_id (build_all base level cs) = seq base (length cs).
Proof.
  revert base. induction cs as [|c cs IH]; intros base; [done|].
  rewrite build_all_cons. cbn [map sst_id length seq]. by rewrite IH.
Qed.

Lemma build_all_length (base level : nat) (cs : list (list KV)) :
  length (build_all base level cs) = length cs.
Proof. unfold build_all. by rewrite length_imap. Qed.

Lemma build_all_lookup (base level i : nat) (cs : list (list KV)) (s : SST) :
  build_all base level cs !! i = Some s ↔
  ∃ c, cs !! i = Some c ∧
       s = mkSST (base + i) (Engine.get_sst_path (base + i) level) c.
Proof.
  unfold build_all. rewrite list_lookup_imap.
  destruct (cs !! i) as [c|]; simpl.
  - split; [intros [= <-]; eauto|]. by intros (c' & [= <-] & ->).
  - split; [done|]. by intros (c' & ? & _).
Qed.

Lemma build_sst_ok (b : SSTBuilder) (id level : nat) (st : LSMEngine) :
  Engine.build_sst build_ok b id level st
  = Ok (Builder.build id (Engine.get_sst_path id level) b)
       (log (EvBuild id level)
          (set_disk (<[Engine.get_sst_path id level := added b]> (disk st)) st)).
Proof. unfold Engine.build_sst. by rewrite Hio. Qed.

Context {T : Type} `{LawfulIterator T}.

Lemma gen_loop_spec (fuel : nat) (iter : T) (target : N) (level : nat)
    (builder : SSTBuilder) (acc : list SST) (st : LSMEngine) :
  steps_left iter ≤ fuel →
  Engine.gen_loop est build_ok fuel iter target level builder acc st
  = Ok (acc ++ build_all (cur_max_sst_id st) level
                 (chunk_loop est target (drain iter) (added builder)).1,
        mkBuilder (chunk_loop est target (drain iter) (added builder)).2)
       (after_builds level
          (build_all (cur_max_sst_id st) level
             (chunk_loop est target (drain iter) (added builder)).1) st).
Proof.
  revert iter builder acc st.
  induction fuel as [|fuel IH]; intros iter builder acc st Hfuel.
  - cbn [Engine.gen_loop]. rewrite drain_unfold.
    destruct (live iter) eqn:Hl.
    { apply incr_decreases in Hl. lia. }
    cbn. rewrite app_nil_r. by destruct builder.
  - cbn [Engine.gen_loop]. rewrite drain_unfold.
    destruct (live iter) eqn:Hl; cbn [negb].
    2: { cbn. rewrite app_nil_r. by destruct builder. }
    pose proof (incr_decreases iter Hl) as Hdec.
    cbn [chunk_loop]. unfold Builder.estimated_size, Builder.add. cbn [added].
    destruct (target <=? est (added builder ++ [deref iter]))%N.
    + unfold bind at 1. unfold Engine.mint_sst_id at 1.
      unfold bind at 1. rewrite build_sst_ok.
      rewrite IH by lia. cbn [fst snd added Builder.new].
      rewrite build_all_cons. cbn [after_builds foldl].
      unfold Builder.build. cbn [added].
      rewrite <- app_assoc. reflexivity.
    + rewrite IH by lia. reflexivity.
Qed.

Lemma after_builds_fields (level : nat) (new : list SST) (st : LSMEngine) :
  memtable (after_builds level new st) = memtable st ∧
  ssts (after_builds level new st) = ssts st ∧
  level_sst_ids (after_builds level new st) = level_sst_ids st ∧
  cur_max_level (after_builds level new st) = cur_max_level st ∧
  trace (after_builds level new st)
    = trace st ++ map (fun s => EvBuild (sst_id s) level) new.
Proof.
  revert st. induction new as [|s new IH]; intros st.
  - simpl. by rewrite app_nil_r.
  - cbn [after_builds foldl]. fold (after_builds level new (after_build level s st)).
    destruct (IH (after_build level s st)) as (-> & -> & -> & -> & ->).
    simpl. by rewrite <- app_assoc.
Qed.

Lemma after_builds_app (level : nat) (a b : list SST) (st : LSMEngine) :
  after_builds level (a ++ b) st = after_builds level b (after_builds level a st).
Proof. unfold after_builds. apply foldl_app. Qed.

Lemma after_builds_cur_max (level base : nat) (cs : list (list KV))
    (st : LSMEngine) :
  cur_max_sst_id st = base →
  cur_max_sst_id (after_builds level (build_all base level cs) st)
  = base + length cs.
Proof.
  revert base st. induction cs as [|c cs IH]; intros base st Hb.
  - simpl. lia.
  - rewrite build_all_cons. cbn [after_builds foldl].
    fold (after_builds level (build_all (S base) level cs)
            (after_build level (mkSST base (Engine.get_sst_path base level) c) st)).
    rewrite IH by done. simpl. lia.
Qed.

Lemma gen_sst_from_iter_spec (iter : T) (target : N) (level : nat)
    (st : LSMEngine) :
  Engine.gen_sst_from_iter est build_ok iter target level st
  = Ok (build_all (cur_max_sst_id st) level (chunks est target (drain iter)))
       (after_builds level
          (build_all (cur_max_sst_id st) level (chunks est target (drain iter)))
          st).
Proof.
  unfold Engine.gen_sst_from_iter. unfold bind at 1.
  rewrite gen_loop_spec by done. cbn [added Builder.new app].
  unfold chunks, Builder.estimated_size. cbn [added].
  set (r := chunk_loop est target (drain iter) []).
  destruct (0 <? est r.2)%N; [|done].
  unfold bind at 1. unfold Engine.mint_sst_id at 1. unfold bind at 1.
  rewrite build_sst_ok. unfold ret.
  rewrite build_all_app, after_builds_app.
  rewrite (after_builds_cur_max level (cur_max_sst_id st) r.1 st eq_refl).
  rewrite (build_all_cons _ level r.2 []).
  change (build_all (S (cur_max_sst_id st + length r.1)) level []) with (@nil SST).
  reflexivity.
Qed.

End GenSst.

Section Chunks.
Context (est : list KV → N) (target : N).

Lemma prefix_snoc_inv {A} (p l : list A) (x : A) :
  p `prefix_of` l ++ [x] → p = l ++ [x] ∨ p `prefix_of` l.
Proof.
  intros [k Hk]. destruct k as [|y k _] using rev_ind.
  - left. by rewrite app_nil_r in Hk.
  - right. rewrite app_assoc in Hk. apply app_inj_tail in Hk as [-> _].
    by exists k.
Qed.

Lemma chunk_loop_spec (l cur : list KV) :
  (∀ p, p `prefix_of` cur → p ≠ [] → (est p < target)%N) →
  Forall (closed_at est target) (chunk_loop est target l cur).1 ∧
  (∀ p, p `prefix_of` (chunk_loop est target l cur).2 → p ≠ [] →
        (est p < target)%N) ∧
  concat (chunk_loop est target l cur).1 ++ (chunk_loop est target l cur).2
    = cur ++ l ∧
  Forall (fun c => c ≠ []) (chunk_loop est target l cur).1.
Proof.
  revert cur. induction l as [|e l IH]; intros cur Hcur.
  - simpl. by rewrite app_nil_r.
  - cbn [chunk_loop]. destruct (N.leb_spec target (est (cur ++ [e]))) as [Hge|Hlt].
    + destruct (IH []) as (IH1 & IH2 & IH3 & IH4).
      { intros p Hp Hne. apply prefix_nil_inv in Hp. done. }
      cbn [fst snd]. split; [|split; [done|split]].
      * constructor; [|done]. split; [done|].
        intros p Hp Hne Hneq. apply prefix_snoc_inv in Hp as [->|Hp]; [done|].
        by apply Hcur.
      * cbn [concat]. rewrite <- (app_assoc (cur ++ [e])), IH3.
        by rewrite <- app_assoc.
      * constructor; [|done]. by destruct cur.
    + destruct (IH (cur ++ [e])) as (IH1 & IH2 & IH3 & IH4).
      { intros p Hp Hne. apply prefix_snoc_inv in Hp as [->|Hp]; [done|].
        by apply Hcur. }
      split; [done|]. split; [done|]. split; [|done].
      rewrite IH3. by rewrite <- app_assoc.
Qed.

(** The chunks partition the input up to a remainder of estimated size 0;
    all but the last are closed by the size test. *)
Lemma chunks_spec (l : list KV) :
  (∃ dropped, concat (chunks est target l) ++ dropped = l ∧
              (dropped = [] ∨ est dropped = 0%N)) ∧
  (∀ i c, chunks est target l !! i = Some c →
          S i < length (chunks est target l) → closed_at est target c) ∧
  (∀ c, last (chunks est target l) = Some c →
        closed_at est target c ∨ left_open est target c).
Proof.
  unfold chunks.
  destruct (chunk_loop_spec l []) as (H1 & H2 & H3 & _).
  { intros p Hp Hne. apply prefix_nil_inv in Hp. done. }
  simpl in H3. set (r := chunk_loop est target l []) in *.
  destruct (N.ltb_spec 0 (est r.2)) as [Hpos|Hzero].
  - split; [|split].
    + exists []. split; [|by left]. rewrite app_nil_r, concat_app. simpl.
      by rewrite app_nil_r.
    + intros i c Hi Hlen. rewrite length_app in Hlen. simpl in Hlen.
      rewrite lookup_app_l in Hi by lia.
      rewrite Forall_forall in H1. apply H1. by eapply list_elem_of_lookup_2.
    + intros c. rewrite last_snoc. intros [= <-]. right. by split.
  - split; [|split].
    + exists r.2. split; [done|right; lia].
    + intros i c Hi _. rewrite Forall_forall in H1. apply H1.
      by eapply list_elem_of_lookup_2.
    + intros c Hc. left. rewrite Forall_forall in H1. apply H1.
      apply last_Some in Hc as [l' ->]. apply elem_of_app. right. left.
Qed.

End Chunks.

Section ChunksExact.
Context (est : list KV → N) (target : N).
Context (Hest_nil : est [] = 0%N).
Context (Hest_pos : ∀ c, c ≠ [] → (0 < est c)%N).

(** With a size estimate that is positive exactly on non-empty builders, no
    record is dropped and no chunk is empty. *)
Lemma chunks_exact (l : list KV) :
  concat (chunks est target l) = l ∧ Forall (fun c => c ≠ []) (chunks est target l).
Proof.
  unfold chunks.
  destruct (chunk_loop_spec est target l []) as (_ & _ & H3 & H4).
  { intros p Hp Hne. apply prefix_nil_inv in Hp. done. }
  simpl in H3. set (r := chunk_loop est target l []) in *.
  destruct (N.ltb_spec 0 (est r.2)) as [Hpos|Hzero].
  - split.
    + rewrite concat_app. simpl. by rewrite app_nil_r.
    + apply Forall_app. split; [done|]. constructor; [|done].
      intros E. rewrite E, Hest_nil in Hpos. lia.
  - assert (r.2 = []) as E.
    { destruct r.2 as [|e t] eqn:E; [done|].
      specialize (Hest_pos (e :: t) ltac:(done)). lia. }
    rewrite E, app_nil_r in H3. done.
Qed.

End ChunksExact.

Section Targets.
Context (cfg : Consts).

Lemma size_t_wrap_small (x : N) : (x < 2 ^ 64)%N → size_t_wrap x = x.
Proof. intros. unfold size_t_wrap. by apply N.mod_small. Qed.

Lemma get_sst_size_0 : Engine.get_sst_size cfg 0 = LSM_PER_MEM_SIZE_LIMIT cfg.
Proof. done. Qed.

(** Where the product fits in [size_t], the target size of a level is the
    per-memtable limit times the fan-out to the power of the level. *)
Lemma get_sst_size_pow (level : nat) :
  1 ≤ level →
  (LSM_PER_MEM_SIZE_LIMIT cfg * LSM_SST_LEVEL_RATIO cfg ^ N.of_nat level < 2 ^ 64)%N →
  Engine.get_sst_size cfg level
  = (LSM_PER_MEM_SIZE_LIMIT cfg * LSM_SST_LEVEL_RATIO cfg ^ N.of_nat level)%N.
Proof.
  intros Hl Hfit. unfold Engine.get_sst_size, Engine.pow_size_t.
  destruct (Nat.eqb_spec level 0) as [->|_]; [lia|].
  by apply size_t_wrap_small.
Qed.

Lemma l0_l1_target_pow :
  (LSM_PER_MEM_SIZE_LIMIT cfg * LSM_SST_LEVEL_RATIO cfg ^ 1 < 2 ^ 64)%N →
  size_t_wrap (LSM_PER_MEM_SIZE_LIMIT cfg * LSM_SST_LEVEL_RATIO cfg)
  = (LSM_PER_MEM_SIZE_LIMIT cfg * LSM_SST_LEVEL_RATIO cfg ^ 1)%N.
Proof.
  rewrite N.pow_1_r. intros. by apply size_t_wrap_small.
Qed.

End Targets.

(** ** Compaction *)

Section CompactStep.
Context (cfg : Consts) (est : list KV → N) (build_ok : nat → bool).
Context (Hio : ∀ id, build_ok id = true).

Lemma after_builds_same_ssts (level : nat) (new : list SST) (st : LSMEngine) :
  ssts (after_builds level new st) = ssts st.
Proof. by destruct (after_builds_fields level new st) as (_ & ? & _). Qed.

Lemma after_builds_level_ids (level l : nat) (new : list SST) (st : LSMEngine) :
  level_ids l (after_builds level new st) = level_ids l st.
Proof.
  unfold level_ids.
  by destruct (after_builds_fields level new st) as (_ & _ & -> & _).
Qed.

Lemma del_one_fields (id : nat) (st : LSMEngine) :
  memtable (del_one id st) = memtable st ∧
  ssts (del_one id st) = delete id (ssts st) ∧
  level_sst_ids (del_one id st) = level_sst_ids st ∧
  cur_max_level (del_one id st) = cur_max_level st ∧
  cur_max_sst_id (del_one id st) = cur_max_sst_id st.
Proof.
  unfold del_one. destruct (ssts st !! id) eqn:E; simpl; [done|].
  by rewrite delete_id.
Qed.

Lemma del_all_fields (ids : list nat) (st : LSMEngine) :
  memtable (del_all ids st) = memtable st ∧
  (∀ id, ssts (del_all ids st) !! id
         = if decide (id ∈ ids) then None else ssts st !! id) ∧
  level_sst_ids (del_all ids st) = level_sst_ids st ∧
  cur_max_level (del_all ids st) = cur_max_level st ∧
  cur_max_sst_id (del_all ids st) = cur_max_sst_id st.
Proof.
  revert st. induction ids as [|i ids IH]; intros st.
  - simpl. split_and!; try done;
      intros id; by rewrite decide_False by apply not_elem_of_nil.
  - cbn [del_all foldl]. fold (del_all ids (del_one i st)).
    destruct (IH (del_one i st)) as (-> & Hs & -> & -> & ->).
    destruct (del_one_fields i st) as (-> & Hd & -> & -> & ->).
    split_and!; try done. intros id. rewrite Hs, Hd.
    destruct (decide (id ∈ ids)) as [Hin|Hnin].
    + rewrite decide_True; [done|by right].
    + destruct (decide (id = i)) as [->|Hne].
      * rewrite decide_True by left. apply lookup_delete_eq.
      * rewrite decide_False; [by apply lookup_delete_ne|].
        intros [?|?]%elem_of_cons; done.
Qed.

Lemma add_one_fields (level : nat) (s : SST) (st : LSMEngine) :
  memtable (add_one level s st) = memtable st ∧
  ssts (add_one level s st) = <[sst_id s := s]> (ssts st) ∧
  (∀ l, level_ids l (add_one level s st)
        = if decide (l = level) then level_ids level st ++ [sst_id s]
          else level_ids l st) ∧
  cur_max_level (add_one level s st) = cur_max_level st ∧
  cur_max_sst_id (add_one level s st) = cur_max_sst_id st.
Proof.
  unfold add_one. simpl. split_and!; try done. intros l.
  change (level_ids l (set_level level (level_ids level st ++ [sst_id s]) st)
          = if decide (l = level) then level_ids level st ++ [sst_id s]
            else level_ids l st).
  apply level_ids_set_level.
Qed.

Lemma add_all_fields (level : nat) (new : list SST) (st : LSMEngine) :
  memtable (add_all level new st) = memtable st ∧
  ssts (add_all level new st)
    = foldl (fun m s => <[sst_id s := s]> m) (ssts st) new ∧
  (∀ l, level_ids l (add_all level new st)
        = if decide (l = level) then level_ids level st ++ map sst_id new
          else level_ids l st) ∧
  cur_max_level (add_all level new st) = cur_max_level st ∧
  cur_max_sst_id (add_all level new st) = cur_max_sst_id st.
Proof.
  revert st. induction new as [|s new IH]; intros st.
  - simpl. split_and!; try done;
      intros l; rewrite app_nil_r; by destruct (decide (l = level)) as [->|?].
  - cbn [add_all foldl]. fold (add_all level new (add_one level s st)).
    destruct (IH (add_one level s st)) as (-> & -> & Hl & -> & ->).
    destruct (add_one_fields level s st) as (-> & -> & Hl1 & -> & ->).
    split_and!; try done. intros l. rewrite Hl, !Hl1.
    destruct (decide (l = level)) as [->|?].
    + rewrite decide_True by done. cbn [map]. by rewrite <- app_assoc.
    + done.
Qed.

Lemma foldl_insert_lookup (new : list SST) (m : gmap nat SST) (id : nat) :
  NoDup (map sst_id new) →
  foldl (fun m s => <[sst_id s := s]> m) m new !! id
  = match List.find (fun s => Nat.eqb (sst_id s) id) new with
    | Some s => Some s
    | None => m !! id
    end.
Proof.
  revert m. induction new as [|s new IH]; intros m Hnd; [done|].
  cbn [map] in Hnd. apply NoDup_cons in Hnd as [Hnotin Hnd].
  cbn [foldl List.find]. rewrite IH by done.
  destruct (Nat.eqb_spec (sst_id s) id) as [<-|Hne].
  - rewrite find_none.
    + apply lookup_insert_eq.
    + intros j y Hy. apply Nat.eqb_neq. intros E. apply Hnotin.
      apply elem_of_map. exists y. split; [done|]. by eapply list_elem_of_lookup_2.
  - destruct (List.find _ new); [done|]. by apply lookup_insert_ne.
Qed.

Lemma merge_sort_seq (base n : nat) : merge_sort (≤) (seq base n) = seq base n.
Proof.
  assert (Sorted (≤) (seq base n)) as Hs.
  { revert base. induction n as [|n IH]; intros base; simpl; [constructor|].
    constructor; [apply IH|]. destruct n; simpl; constructor. lia. }
  eapply (Sorted_unique (≤)); [| exact Hs |apply merge_sort_Permutation].
  apply Sorted_merge_sort. apply _.
Qed.

(** A compaction step computes [compacted], provided the identifiers of the
    two levels are registered and pairwise distinct. *)
Lemma compact_step_eq (src : nat) (st : LSMEngine) :
  (∀ level id, id ∈ level_ids level st → is_Some (ssts st !! id)) →
  NoDup (level_ids src st ++ level_ids (src + 1) st) →
  Engine.compact_step cfg est build_ok src st = Ok tt (compacted cfg est src st).
Proof.
  intros Hres Hnd.
  pose proof (same_data_trans _ _ _ (same_data_touch src st)
                (same_data_touch (src + 1) (touch_level src st))) as Hsd.
  set (st1 := touch_level (src + 1) (touch_level src st)) in *.
  pose proof Hsd as (_ & Hssts & Hids & _).
  assert (Forall2 (fun id s => ssts st1 !! id = Some s)
            (level_ids src st) (level_ssts src st)) as HX.
  { rewrite Hssts. apply level_ssts_resolve. apply Hres. }
  assert (Forall2 (fun id s => ssts st1 !! id = Some s)
            (level_ids (src + 1) st) (level_ssts (src + 1) st)) as HY.
  { rewrite Hssts. apply level_ssts_resolve. apply Hres. }
  unfold Engine.compact_step.
  unfold bind at 1. unfold modify at 1. unfold bind at 1. unfold gets at 1.
  unfold bind at 1. unfold modify at 1. unfold bind at 1. unfold gets at 1.
  rewrite level_ids_touch. fold st1. rewrite (Hids (src + 1)).
  assert ((if (src =? 0)%nat
           then Engine.full_l0_l1_compact cfg est build_ok
                  (level_ids src st) (level_ids (src + 1) st)
           else Engine.full_common_compact cfg est build_ok
                  (level_ids src st) (level_ids (src + 1) st) (src + 1)) st1
          = Ok (compact_new cfg est src st)
               (after_builds (src + 1) (compact_new cfg est src st) st1)) as Hgen.
  { unfold compact_new, compact_stream, compact_target.
    destruct (Nat.eqb_spec src 0) as [->|Hne].
    - unfold Engine.full_l0_l1_compact. unfold bind at 1.
      rewrite (map_m_sst_begin st1 _ _ HX). unfold bind at 1.
      rewrite (map_m_sst_at st1 _ _ HY).
      rewrite (gen_sst_from_iter_spec est build_ok Hio).
      rewrite two_merge_drain, concat_drain.
      destruct Hsd as (_ & _ & _ & _ & -> & _). reflexivity.
    - unfold Engine.full_common_compact. unfold bind at 1.
      rewrite (map_m_sst_at st1 _ _ HX). unfold bind at 1.
      rewrite (map_m_sst_at st1 _ _ HY).
      rewrite (gen_sst_from_iter_spec est build_ok Hio).
      rewrite two_merge_drain, !concat_drain.
      destruct Hsd as (_ & _ & _ & _ & -> & _). reflexivity. }
  unfold bind at 1. rewrite Hgen. clear Hgen.
  set (new := compact_new cfg est src st) in *.
  set (st2 := after_builds (src + 1) new st1) in *.
  apply NoDup_app in Hnd as (HndX & Hdisj & HndY).
  unfold bind at 1. rewrite for_each_del; [|done|].
  2: { intros id Hid. unfold st2. rewrite after_builds_same_ssts, Hssts.
       by eapply Hres. }
  unfold bind at 1. rewrite for_each_del; [|done|].
  2: { intros id Hid.
       destruct (del_all_fields (level_ids src st) st2) as (_ & -> & _).
       rewrite decide_False by (intros Hin; by apply (Hdisj id)).
       unfold st2. rewrite after_builds_same_ssts, Hssts. by eapply Hres. }
  unfold bind at 1. unfold modify at 1.
  unfold bind at 1. unfold modify at 1.
  unfold bind at 1. unfold modify at 1.
  unfold bind at 1. rewrite for_each_add. unfold modify.
  reflexivity.
Qed.

End CompactStep.

Section CompactedFields.
Context (cfg : Consts) (est : list KV → N).

Lemma level_ids_set_cur_max_level (l n : nat) (st : LSMEngine) :
  level_ids l (set_cur_max_level n st) = level_ids l st.
Proof. done. Qed.

Lemma compact_new_ids (src : nat) (st : LSMEngine) :
  map sst_id (compact_new cfg est src st)
  = seq (cur_max_sst_id st) (length (compact_new cfg est src st)).
Proof.
  unfold compact_new. by rewrite build_all_ids, build_all_length.
Qed.

(** The fields of the state a compaction step leaves. *)
Lemma compacted_fields (src : nat) (st : LSMEngine) :
  let new := compact_new cfg est src st in
  let st' := compacted cfg est src st in
  memtable st' = memtable st ∧
  cur_max_level st' = cur_max_level st `max` (src + 1) ∧
  cur_max_sst_id st' = cur_max_sst_id st + length new ∧
  (∀ l, level_ids l st'
        = if decide (l = src) then []
          else if decide (l = src + 1) then map sst_id new
          else level_ids l st) ∧
  (∀ id, ssts st' !! id
         = match List.find (fun s => Nat.eqb (sst_id s) id) new with
           | Some s => Some s
           | None =>
               if decide (id ∈ level_ids src st ++ level_ids (src + 1) st)
               then None else ssts st !! id
           end).
Proof.
  intros new st'. subst st'. unfold compacted. fold new.
  pose proof (same_data_trans _ _ _ (same_data_touch src st)
                (same_data_touch (src + 1) (touch_level src st))) as Hsd.
  set (st1 := touch_level (src + 1) (touch_level src st)) in *.
  destruct Hsd as (Hm1 & Hs1 & Hl1 & Hc1 & Hx1 & _).
  set (st2 := after_builds (src + 1) new st1).
  destruct (after_builds_fields (src + 1) new st1) as (Hm2 & Hs2 & Hli2 & Hc2 & _).
  fold st2 in Hm2, Hs2, Hli2, Hc2.
  assert (cur_max_sst_id st2 = cur_max_sst_id st + length new) as Hx2.
  { unfold st2, new, compact_new. rewrite build_all_length.
    apply after_builds_cur_max. done. }
  set (st3a := del_all (level_ids src st) st2).
  destruct (del_all_fields (level_ids src st) st2) as (Hm3a & Hs3a & Hli3a & Hc3a & Hx3a).
  fold st3a in Hm3a, Hs3a, Hli3a, Hc3a, Hx3a.
  set (st3 := del_all (level_ids (src + 1) st) st3a).
  destruct (del_all_fields (level_ids (src + 1) st) st3a)
    as (Hm3 & Hs3 & Hli3 & Hc3 & Hx3).
  fold st3 in Hm3, Hs3, Hli3, Hc3, Hx3.
  set (st4 := set_cur_max_level (cur_max_level st3 `max` (src + 1))
                (set_level (src + 1) [] (set_level src [] st3))).
  assert (∀ l, level_ids l st4
               = if decide (l = src + 1) then []
                 else if decide (l = src) then [] else level_ids l st) as Hl4.
  { intros l. unfold st4. rewrite level_ids_set_cur_max_level, !level_ids_set_level.
    destruct (decide (l = src + 1)); [done|]. destruct (decide (l = src)); [done|].
    unfold level_ids. rewrite Hli3, Hli3a, Hli2. apply Hl1. }
  set (st5 := add_all (src + 1) new st4).
  destruct (add_all_fields (src + 1) new st4) as (Hm5 & Hs5 & Hl5 & Hc5 & Hx5).
  fold st5 in Hm5, Hs5, Hl5, Hc5, Hx5.
  assert (level_ids (src + 1) st5 = map sst_id new) as Hl5new.
  { rewrite Hl5, decide_True by done. rewrite Hl4, decide_True by done. done. }
  split_and!.
  - simpl. rewrite Hm5. unfold st4. simpl. by rewrite Hm3, Hm3a, Hm2.
  - simpl. rewrite Hc5. unfold st4. simpl. by rewrite Hc3, Hc3a, Hc2, Hc1.
  - simpl. rewrite Hx5. unfold st4. simpl. by rewrite Hx3, Hx3a.
  - intros l. rewrite level_ids_set_level, Hl5new.
    assert (merge_sort (≤) (map sst_id new) = map sst_id new) as ->.
    { unfold new. rewrite compact_new_ids. apply merge_sort_seq. }
    destruct (decide (l = src + 1)) as [->|Hne1].
    + rewrite decide_False by lia. done.
    + rewrite Hl5, decide_False by done. rewrite Hl4, decide_False by done.
      by destruct (decide (l = src)).
  - intros id. simpl. rewrite Hs5.
    rewrite foldl_insert_lookup.
    2: { unfold new. rewrite compact_new_ids. apply NoDup_seq. }
    destruct (List.find _ new); [done|].
    unfold st4. simpl. rewrite Hs3, Hs3a, Hs2, Hs1.
    destruct (decide (id ∈ level_ids (src + 1) st)) as [Hy|Hy].
    + rewrite decide_True; [done|]. apply elem_of_app. by right.
    + destruct (decide (id ∈ level_ids src st)) as [Hx|Hx].
      * rewrite decide_True; [done|]. apply elem_of_app. by left.
      * rewrite decide_False; [done|]. intros [?|?]%elem_of_app; done.
Qed.

End CompactedFields.

Section MergeOfLevels.

Lemma level_ssts_ids (level : nat) (st : LSMEngine) :
  engine_wf st → map sst_id (level_ssts level st) = level_ids level st.
Proof.
  intros W. unfold level_ssts.
  assert (∀ id, id ∈ level_ids level st →
            ∃ s, ssts st !! id = Some s ∧ sst_id s = id) as Hres.
  { intros id. apply (wf_resolve st W). }
  induction (level_ids level st) as [|id ids IH]; [done|].
  destruct (Hres id) as (s & Hs & Hid); [left|].
  simpl. rewrite Hs. simpl. rewrite Hid. f_equal. apply IH.
  intros id' Hid'. apply Hres. by right.
Qed.

Lemma level_ssts_length (level : nat) (st : LSMEngine) :
  engine_wf st → length (level_ssts level st) = length (level_ids level st).
Proof. intros W. by rewrite <- (level_ssts_ids level st W), length_map. Qed.

Lemma merge_sst_iterator_sources (ss : list SST) :
  SstIter.merge_sst_iterator (map SstIter.begin ss)
  = Heap.of_items (source_items (sst_sources ss)).
Proof.
  unfold SstIter.merge_sst_iterator, source_items, sst_sources.
  by rewrite !map_map.
Qed.

Lemma sst_sources_records (ss : list SST) :
  concat (map snd (sst_sources ss)) = concat (map sst_entries ss).
Proof. unfold sst_sources. by rewrite map_map. Qed.

Lemma sst_sources_sorted (ss : list SST) :
  StronglySorted (fun a b => b < a) (map sst_id ss) → idx_sorted (sst_sources ss).
Proof.
  unfold idx_sorted, sst_sources.
  induction ss as [|s ss IH]; simpl; intros Hs; [constructor|].
  apply StronglySorted_cons in Hs as [Hall Hs].
  apply StronglySorted_cons. split; [|auto].
  apply Forall_forall. intros p (s' & -> & Hs')%elem_of_map. simpl.
  rewrite Forall_forall in Hall.
  assert (sst_id s' < sst_id s); [|lia].
  apply Hall. apply elem_of_map. eauto.
Qed.

(** The heap over the level-0 SSTs, newest first, yields for every key what
    the first SST holding the key has for it. *)
Lemma l0_heap_spec (ss : list SST) :
  StronglySorted (fun a b => b < a) (map sst_id ss) →
  Forall (fun s => ascending (sst_entries s)) ss →
  ascending (drain (SstIter.merge_sst_iterator (map SstIter.begin ss))) ∧
  ∀ k, kv_lookup k (drain (SstIter.merge_sst_iterator (map SstIter.begin ss)))
       = kv_lookup k (concat (map sst_entries ss)).
Proof.
  intros Hs Ha. rewrite merge_sst_iterator_sources, <- sst_sources_records.
  apply heap_sources; [done|by apply sst_sources_sorted|].
  unfold sst_sources. apply Forall_forall.
  intros p (s & -> & Hin)%elem_of_map. simpl.
  rewrite Forall_forall in Ha. by apply Ha.
Qed.

Context (cfg : Consts) (est : list KV → N).

(** The stream of a compaction ascends and holds, for every key, the value
    of the upper level if it has one, else that of the lower level. *)
Lemma compact_stream_spec (src : nat) (st : LSMEngine) :
  engine_wf st →
  ascending (compact_stream src st) ∧
  ∀ k, kv_lookup k (compact_stream src st)
       = match kv_lookup k (level_records src st) with
         | Some v => Some v
         | None => kv_lookup k (level_records (src + 1) st)
         end.
Proof.
  intros W. unfold compact_stream.
  destruct (Nat.eqb_spec src 0) as [->|Hne].
  - destruct (l0_heap_spec (level_ssts 0 st)) as [Ha Hl].
    { rewrite (level_ssts_ids 0 st W). apply (wf_l0_order st W). }
    { apply (wf_l0_entries st W). }
    destruct (wf_levels st W 1 ltac:(lia)) as [Hb _].
    split; [by apply merge2_ascending|].
    intros k. rewrite merge2_lookup by done. by rewrite Hl.
  - destruct (wf_levels st W src ltac:(lia)) as [Ha _].
    destruct (wf_levels st W (src + 1) ltac:(lia)) as [Hb _].
    split; [by apply merge2_ascending|].
    intros k. by rewrite merge2_lookup.
Qed.

End MergeOfLevels.

Section CompactedInvariant.
Context (cfg : Consts) (est : list KV → N).

Lemma omap_map_all {A B} (f : A → option B) (g : B → A) (l : list B) :
  (∀ y, y ∈ l → f (g y) = Some y) → omap f (map g l) = l.
Proof.
  induction l as [|y l IH]; intros Hall; [done|].
  simpl. rewrite (Hall y) by left. f_equal. apply IH.
  intros z Hz. apply Hall. by right.
Qed.

Lemma omap_ext_in {A B} (f g : A → option B) (l : list A) :
  (∀ x, x ∈ l → f x = g x) → omap f l = omap g l.
Proof.
  induction l as [|x l IH]; intros Hall; [done|].
  simpl. rewrite (Hall x) by left.
  assert (omap f l = omap g l) as IH'.
  { apply IH. intros z Hz. apply Hall. by right. }
  destruct (g x); [f_equal|]; exact IH'.
Qed.

Lemma find_by_id (new : list SST) (s : SST) :
  NoDup (map sst_id new) → s ∈ new →
  List.find (fun s' => Nat.eqb (sst_id s') (sst_id s)) new = Some s.
Proof.
  induction new as [|a new IH]; intros Hnd Hin; [by apply elem_of_nil in Hin|].
  cbn [map] in Hnd. apply NoDup_cons in Hnd as [Hnotin Hnd]. simpl.
  apply elem_of_cons in Hin as [->|Hin].
  - by rewrite Nat.eqb_refl.
  - destruct (Nat.eqb_spec (sst_id a) (sst_id s)) as [E|_]; [|auto].
    exfalso. apply Hnotin. rewrite E. apply elem_of_map. eauto.
Qed.

Lemma find_by_id_fresh (new : list SST) (id : nat) :
  (∀ s, s ∈ new → sst_id s ≠ id) →
  List.find (fun s' => Nat.eqb (sst_id s') id) new = None.
Proof.
  intros Hall. apply find_none. intros j y Hy. apply Nat.eqb_neq.
  apply Hall. by eapply list_elem_of_lookup_2.
Qed.

Lemma compact_new_fresh (src : nat) (st : LSMEngine) (s : SST) :
  s ∈ compact_new cfg est src st →
  cur_max_sst_id st ≤ sst_id s
  ∧ sst_id s < cur_max_sst_id st + length (compact_new cfg est src st).
Proof.
  intros Hin.
  assert (sst_id s ∈ map sst_id (compact_new cfg est src st)) as Hid.
  { apply elem_of_map. eauto. }
  rewrite compact_new_ids in Hid. apply list_elem_of_In, in_seq in Hid. lia.
Qed.

(** The SSTs of the levels after a compaction step. *)
Lemma compacted_level_ssts (src : nat) (st : LSMEngine) :
  engine_wf st →
  level_ssts src (compacted cfg est src st) = [] ∧
  level_ssts (src + 1) (compacted cfg est src st) = compact_new cfg est src st ∧
  ∀ l, l ≠ src → l ≠ src + 1 →
       level_ssts l (compacted cfg est src st) = level_ssts l st.
Proof.
  intros W.
  destruct (compacted_fields cfg est src st) as (_ & _ & _ & Hl & Hs).
  unfold level_ssts. split_and!.
  - rewrite Hl, decide_True by done. done.
  - rewrite Hl, decide_False by lia. rewrite decide_True by done.
    apply omap_map_all. intros s Hin. rewrite Hs.
    rewrite find_by_id; [done| |done].
    rewrite compact_new_ids. apply NoDup_seq.
  - intros l Hne Hne1. rewrite Hl, !decide_False by done.
    apply omap_ext_in. intros id Hid. rewrite Hs.
    rewrite find_by_id_fresh.
    + rewrite decide_False; [done|].
      intros [Hx|Hy]%elem_of_app.
      * by apply Hne, (wf_disjoint st W l src id).
      * by apply Hne1, (wf_disjoint st W l (src + 1) id).
    + intros s Hin E. apply compact_new_fresh in Hin as [Hge _].
      pose proof (wf_fresh st W l id Hid). lia.
Qed.

End CompactedInvariant.

Section CompactedRecords.
Context (cfg : Consts) (est : list KV → N).
Context (Hest_nil : est [] = 0%N).
Context (Hest_pos : ∀ c, c ≠ [] → (0 < est c)%N).

Lemma compact_new_records (src : nat) (st : LSMEngine) :
  concat (map sst_entries (compact_new cfg est src st)) = compact_stream src st
  ∧ Forall (fun s => sst_entries s ≠ []) (compact_new cfg est src st).
Proof.
  unfold compact_new.
  destruct (chunks_exact est (compact_target cfg src) Hest_nil Hest_pos
              (compact_stream src st)) as [Hc Hne].
  rewrite build_all_entries. split; [done|].
  apply Forall_forall. intros s Hs.
  apply list_elem_of_lookup in Hs as [i Hi].
  apply build_all_lookup in Hi as (c & Hc' & ->). simpl.
  rewrite Forall_forall in Hne. apply Hne. by eapply list_elem_of_lookup_2.
Qed.

Lemma compacted_level_records (src : nat) (st : LSMEngine) :
  engine_wf st →
  level_records src (compacted cfg est src st) = [] ∧
  level_records (src + 1) (compacted cfg est src st) = compact_stream src st ∧
  ∀ l, l ≠ src → l ≠ src + 1 →
       level_records l (compacted cfg est src st) = level_records l st.
Proof.
  intros W. destruct (compacted_level_ssts cfg est src st W) as (H1 & H2 & H3).
  unfold level_records. rewrite H1, H2. split_and!; [done| |].
  - apply compact_new_records.
  - intros l ? ?. by rewrite H3.
Qed.

End CompactedRecords.

Section CompactedCases.
Context (cfg : Consts) (est : list KV → N).

Lemma compacted_level_cases (src : nat) (st : LSMEngine) (l id : nat) :
  id ∈ level_ids l (compacted cfg est src st) →
  (l = src + 1 ∧ ∃ s, s ∈ compact_new cfg est src st ∧ sst_id s = id)
  ∨ (l ≠ src ∧ l ≠ src + 1 ∧ id ∈ level_ids l st).
Proof.
  destruct (compacted_fields cfg est src st) as (_ & _ & _ & Hl & _).
  rewrite Hl. destruct (decide (l = src)) as [->|Hne].
  { intros Hin. by apply elem_of_nil in Hin. }
  destruct (decide (l = src + 1)) as [->|Hne1].
  - intros (s & -> & Hs)%elem_of_map. left. eauto.
  - intros Hin. right. done.
Qed.

End CompactedCases.

Section CompactedWf.
Context (cfg : Consts) (est : list KV → N).
Context (Hest_nil : est [] = 0%N).
Context (Hest_pos : ∀ c, c ≠ [] → (0 < est c)%N).

Lemma compacted_wf (src : nat) (st : LSMEngine) :
  engine_wf st → engine_wf (compacted cfg est src st).
Proof.
  intros W.
  destruct (compacted_fields cfg est src st) as (Hm & Hc & Hx & Hl & Hs).
  destruct (compacted_level_ssts cfg est src st W) as (Hs0 & Hs1 & Hs2).
  destruct (compacted_level_records cfg est Hest_nil Hest_pos src st W)
    as (Hr0 & Hr1 & Hr2).
  cbv zeta in *.
  split.
  - rewrite Hm. apply (wf_mem st W).
  - intros l id Hin.
    apply compacted_level_cases in Hin as [(-> & s & Hin & <-)|(Hne & Hne1 & Hin)].
    + exists s. split; [|done]. rewrite Hs, find_by_id; [done| |done].
      rewrite compact_new_ids. apply NoDup_seq.
    + rewrite Hs, find_by_id_fresh.
      * rewrite decide_False; [by apply (wf_resolve st W l)|].
        intros [Hx'|Hy']%elem_of_app.
        -- by apply Hne, (wf_disjoint st W l src id).
        -- by apply Hne1, (wf_disjoint st W l (src + 1) id).
      * intros s Hs' E. apply compact_new_fresh in Hs' as [Hge _].
        pose proof (wf_fresh st W l id Hin). lia.
  - destruct (decide (src = 0)) as [->|Hne].
    + rewrite Hs0. constructor.
    + rewrite Hs2 by lia. apply (wf_l0_entries st W).
  - rewrite Hl. destruct (decide (0 = src)); [constructor|].
    rewrite decide_False by lia. apply (wf_l0_order st W).
  - intros l Hl1. destruct (decide (l = src)) as [->|Hne].
    { rewrite Hr0, Hs0. split; constructor. }
    destruct (decide (l = src + 1)) as [->|Hne1].
    + rewrite Hr1, Hs1. split.
      * apply (compact_stream_spec src st W).
      * apply (compact_new_records cfg est Hest_nil Hest_pos).
    + rewrite Hr2, Hs2 by done. by apply (wf_levels st W).
  - intros l Hgt. rewrite Hc in Hgt. rewrite Hl, !decide_False by lia.
    apply (wf_top st W). lia.
  - intros l id Hin. rewrite Hx.
    apply compacted_level_cases in Hin as [(-> & s & Hin & <-)|(Hne & Hne1 & Hin)].
    + by apply (compact_new_fresh cfg est) in Hin as [_ ?].
    + pose proof (wf_fresh st W l id Hin). lia.
  - intros l. rewrite Hl. destruct (decide (l = src)); [constructor|].
    destruct (decide (l = src + 1)).
    + rewrite compact_new_ids. apply NoDup_seq.
    + apply (wf_nodup st W).
  - intros l1 l2 id H1 H2.
    apply compacted_level_cases in H1 as [(-> & s1 & Hin1 & <-)|(Hne & Hne1 & Hin1)];
    apply compacted_level_cases in H2 as [(-> & s2 & Hin2 & E2)|(Hne' & Hne1' & Hin2)];
      try done.
    + apply compact_new_fresh in Hin1 as [Hge _].
      pose proof (wf_fresh st W l2 _ Hin2). lia.
    + apply compact_new_fresh in Hin2 as [Hge _].
      pose proof (wf_fresh st W l1 _ Hin1). lia.
    + by apply (wf_disjoint st W l1 l2 id).
Qed.

End CompactedWf.

Section ViewFacts.

Lemma first_some_none {A} (l : list (option A)) :
  Forall (fun o => o = None) l → first_some l = None.
Proof. induction 1 as [|o l -> _ IH]; [done|]. exact IH. Qed.

Lemma level_records_empty (level : nat) (st : LSMEngine) :
  level_ids level st = [] → level_records level st = [].
Proof. intros E. unfold level_records, level_ssts. by rewrite E. Qed.

(** Levels above [cur_max_level] hold nothing: the view may be taken over
    any larger range of levels. *)
Lemma view_extend (st : LSMEngine) (k : string) (n : nat) :
  engine_wf st → cur_max_level st < n →
  view st k
  = first_some (Mem.get k (memtable st)
                :: map (fun level => kv_lookup k (level_records level st))
                       (seq 0 n)).
Proof.
  intros W Hn. unfold view.
  replace n with (S (cur_max_level st) + (n - S (cur_max_level st))) by lia.
  rewrite seq_app, map_app.
  change (?a :: (?l1 ++ ?l2)) with ((a :: l1) ++ l2).
  rewrite (first_some_app (_ :: _)).
  rewrite (first_some_none (map _ (seq (0 + S (cur_max_level st)) _))).
  - by destruct (first_some _).
  - apply Forall_forall. intros o (l & -> & Hl%list_elem_of_In%in_seq)%elem_of_map.
    rewrite level_records_empty; [done|]. apply (wf_top st W). lia.
Qed.

Lemma first_some_shift {A} (f f' : nat → option A) (src n : nat) :
  src + 1 < n →
  f' src = None →
  f' (src + 1) = match f src with Some v => Some v | None => f (src + 1) end →
  (∀ l, l ≠ src → l ≠ src + 1 → f' l = f l) →
  first_some (map f' (seq 0 n)) = first_some (map f (seq 0 n)).
Proof.
  intros Hn H0 H1 Hother.
  replace n with (src + (2 + (n - src - 2))) by lia.
  rewrite !seq_app, !map_app, !first_some_app. cbn [seq map first_some app].
  rewrite Nat.add_0_l.
  assert (map f' (seq 0 src) = map f (seq 0 src)) as ->.
  { apply map_ext_in. intros l Hl%in_seq. apply Hother; lia. }
  destruct (first_some (map f (seq 0 src))); [done|].
  assert (map f' (seq (src + 2) (n - src - 2))
          = map f (seq (src + 2) (n - src - 2))) as Htail.
  { apply map_ext_in. intros l Hl%in_seq. apply Hother; lia. }
  replace (S src) with (src + 1) by lia.
  rewrite H0, H1. replace (S (src + 1)) with (src + 2) by lia.
  rewrite Htail. by destruct (f src), (f (src + 1)).
Qed.

End ViewFacts.

Section CompactedView.
Context (cfg : Consts) (est : list KV → N).
Context (Hest_nil : est [] = 0%N).
Context (Hest_pos : ∀ c, c ≠ [] → (0 < est c)%N).

(** A compaction step changes the value of no key. *)
Lemma compacted_view (src : nat) (st : LSMEngine) (k : string) :
  engine_wf st → view (compacted cfg est src st) k = view st k.
Proof.
  intros W.
  pose proof (compacted_wf cfg est Hest_nil Hest_pos src st W) as W'.
  destruct (compacted_fields cfg est src st) as (Hm & Hc & _).
  destruct (compacted_level_records cfg est Hest_nil Hest_pos src st W)
    as (Hr0 & Hr1 & Hr2).
  cbv zeta in *.
  set (n := S (cur_max_level st `max` (src + 1))).
  rewrite (view_extend _ k n W') by (rewrite Hc; unfold n; lia).
  rewrite (view_extend st k n W) by (unfold n; lia).
  rewrite Hm. cbn [first_some].
  destruct (Mem.get k (memtable st)); [done|].
  apply (first_some_shift _ _ src n).
  - unfold n. lia.
  - by rewrite Hr0.
  - rewrite Hr1. apply (compact_stream_spec src st W).
  - intros l ? ?. by rewrite Hr2.
Qed.

End CompactedView.

Section FullCompact.
Context (cfg : Consts) (est : list KV → N) (build_ok : nat → bool).
Context (Hio : ∀ id, build_ok id = true).
Context (Hest_nil : est [] = 0%N).
Context (Hest_pos : ∀ c, c ≠ [] → (0 < est c)%N).
Context (Hratio : (1 ≤ LSM_SST_LEVEL_RATIO cfg)%N).

Lemma wf_compact_nodup (src : nat) (st : LSMEngine) :
  engine_wf st → NoDup (level_ids src st ++ level_ids (src + 1) st).
Proof.
  intros W. apply NoDup_app. split_and!; try apply (wf_nodup st W).
  intros id Hx Hy. pose proof (wf_disjoint st W _ _ id Hx Hy). lia.
Qed.

Lemma compact_step_spec (src : nat) (st : LSMEngine) :
  engine_wf st →
  Engine.compact_step cfg est build_ok src st = Ok tt (compacted cfg est src st)
  ∧ engine_wf (compacted cfg est src st)
  ∧ (∀ k, view (compacted cfg est src st) k = view st k)
  ∧ memtable (compacted cfg est src st) = memtable st
  ∧ level_ids src (compacted cfg est src st) = [].
Proof.
  intros W. split_and!.
  - apply compact_step_eq; [done| |by apply wf_compact_nodup].
    intros l id Hid. destruct (wf_resolve st W l id Hid) as (s & -> & _). eauto.
  - by apply compacted_wf.
  - intros k. by apply compacted_view.
  - apply (compacted_fields cfg est src st).
  - destruct (compacted_fields cfg est src st) as (_ & _ & _ & Hl & _).
    by rewrite Hl, decide_True.
Qed.

(** [full_compact] returns, keeps the invariant and the value of every key,
    and empties the source level. *)
Lemma full_compact_spec (fuel src : nat) (st : LSMEngine) :
  engine_wf st → 0 < fuel → cur_max_level st < src + fuel →
  ∃ st',
    Engine.full_compact cfg est build_ok fuel src st = Ok tt st'
    ∧ engine_wf st'
    ∧ (∀ k, view st' k = view st k)
    ∧ memtable st' = memtable st
    ∧ level_ids src st' = [].
Proof.
  revert src st. induction fuel as [|fuel IH]; intros src st W Hfuel Hcml; [lia|].
  cbn [Engine.full_compact].
  unfold bind at 1. unfold modify at 1. unfold bind at 1. unfold gets at 1.
  pose proof (same_data_touch (src + 1) st) as Hsd.
  pose proof (same_data_wf _ _ Hsd W) as W1.
  set (st1 := touch_level (src + 1) st) in *.
  assert (∀ k, view st1 k = view st k) as Hv1.
  { intros k. by apply same_data_view. }
  assert (memtable st1 = memtable st) as Hm1 by apply Hsd.
  assert (cur_max_level st1 = cur_max_level st) as Hc1 by apply Hsd.
  unfold bind at 1.
  destruct (N.leb_spec (LSM_SST_LEVEL_RATIO cfg)
              (N.of_nat (length (level_ids (src + 1) st1)))) as [Hfull|Hnot].
  - assert (src + 1 ≤ cur_max_level st1) as Hle.
    { destruct (decide (src + 1 ≤ cur_max_level st1)) as [|Hgt]; [done|].
      rewrite (wf_top st1 W1 (src + 1)) in Hfull by lia. simpl in Hfull. lia. }
    destruct (IH (src + 1) st1 W1) as (st2 & Heq & W2 & Hv2 & Hm2 & _); [lia|lia|].
    rewrite Heq.
    destruct (compact_step_spec src st2 W2) as (Hstep & W3 & Hv3 & Hm3 & Hl3).
    rewrite Hstep. eexists. split; [done|]. split_and!; try done.
    + intros k. by rewrite Hv3, Hv2, Hv1.
    + by rewrite Hm3, Hm2.
  - unfold ret.
    destruct (compact_step_spec src st1 W1) as (Hstep & W3 & Hv3 & Hm3 & Hl3).
    rewrite Hstep. eexists. split; [done|]. split_and!; try done.
    + intros k. by rewrite Hv3, Hv1.
    + by rewrite Hm3.
Qed.

End FullCompact.

(** ** Flushing and writing *)

Section FlushSpec.
Context (build_ok : nat → bool).
Context (Hio : ∀ id, build_ok id = true).

Lemma mem_get_flush_last (k : string) (c : SkipList.t)
    (rest : list SkipList.t) (t : SkipList.t) :
  ascending t →
  Mem.get k (mkMem c (rest ++ [t]))
  = match Mem.get k (mkMem c rest) with
    | Some v => Some v
    | None => kv_lookup k t
    end.
Proof.
  intros Ht. unfold Mem.get. simpl. rewrite get_frozen_app. simpl.
  rewrite (skiplist_get_lookup k t Ht).
  destruct (SkipList.get k c); [done|].
  destruct (Mem.get_frozen k rest); [done|]. by destruct (kv_lookup k t).
Qed.

(** The step of [flush] after the optional compaction: the oldest frozen
    table becomes the newest level-0 SST. *)
Lemma flush_tail_spec (st : LSMEngine) :
  engine_wf st → frozen_tables (memtable st) ≠ [] →
  ∃ st',
    bind Engine.mint_sst_id (fun new_sst_id =>
      bind (Engine.memtable_flush_last build_ok Builder.new new_sst_id)
        (fun new_sst =>
           bind (Engine.register new_sst) (fun _ =>
           bind (modify (touch_level 0)) (fun _ =>
             modify (fun st => set_level 0 (sst_id new_sst :: level_ids 0 st) st)))))
      st = Ok tt st'
    ∧ engine_wf st' ∧ (∀ k, view st' k = view st k).
Proof.
  intros W Hfr.
  destruct (pop_back (frozen_tables (memtable st))) as [[rest t]|] eqn:Efr.
  2: { by apply pop_back_None in Efr. }
  apply pop_back_Some in Efr. clear Hfr.
  unfold bind at 1. unfold Engine.mint_sst_id at 1.
  unfold bind at 1. unfold Engine.memtable_flush_last at 1.
  cbn [memtable set_cur_max_sst_id].
  set (id := cur_max_sst_id st).
  assert (Mem.flush_last Builder.new (Engine.get_sst_path id 0) id (memtable st)
          = Some (mkSST id (Engine.get_sst_path id 0) t,
                  mkMem (current_table (memtable st)) rest)) as ->.
  { apply flush_last_Some. exists rest, t. done. }
  rewrite Hio. unfold Engine.register, modify, bind.
  eexists. split; [reflexivity|].
  set (new := mkSST id (Engine.get_sst_path id 0) t).
  destruct (wf_mem st W) as [Hcur Hfrz]. rewrite Efr in Hfrz.
  pose proof (proj1 (Forall_app ascending rest [t]) Hfrz) as [Hrest Ht].
  pose proof (proj1 (Forall_singleton ascending t) Ht) as Ht'.
  clear Ht Hfrz. rename Ht' into Ht.
  match goal with
  | |- engine_wf (set_level 0 _ (touch_level 0 ?s)) ∧ _ => set (st0 := s)
  end.
  destruct (same_data_touch 0 st0) as (Hm0 & Hs0 & Hl0 & Hc0 & Hx0 & _).
  set (st' := set_level 0 (sst_id new :: level_ids 0 (touch_level 0 st0))
                (touch_level 0 st0)).
  assert (memtable st' = mkMem (current_table (memtable st)) rest) as Hm'.
  { unfold st'. simpl. by rewrite Hm0. }
  assert (ssts st' = <[id := new]> (ssts st)) as Hs'.
  { unfold st'. simpl. by rewrite Hs0. }
  assert (cur_max_level st' = cur_max_level st) as Hc'.
  { unfold st'. simpl. by rewrite Hc0. }
  assert (cur_max_sst_id st' = S id) as Hx'.
  { unfold st'. simpl. by rewrite Hx0. }
  assert (∀ l, level_ids l st'
               = if decide (l = 0) then id :: level_ids 0 st else level_ids l st)
    as Hl'.
  { intros l. unfold st'. rewrite level_ids_set_level.
    destruct (decide (l = 0)) as [->|?].
    - f_equal. rewrite level_ids_touch. done.
    - rewrite level_ids_touch. done. }
  clear Hm0 Hs0 Hl0 Hc0 Hx0. clearbody st'. clear st0.
  assert (∀ l i, i ∈ level_ids l st → ssts st' !! i = ssts st !! i) as Hold.
  { intros l i Hi. rewrite Hs'. apply lookup_insert_ne.
    pose proof (wf_fresh st W l i Hi). unfold id. lia. }
  assert (∀ l, level_ssts l st'
               = if decide (l = 0) then new :: level_ssts 0 st
                 else level_ssts l st) as Hss'.
  { intros l. unfold level_ssts. rewrite Hl'.
    destruct (decide (l = 0)) as [->|?].
    - simpl. rewrite Hs', lookup_insert_eq. f_equal.
      apply omap_ext_in. intros i Hi. rewrite <- Hs'. by apply (Hold 0).
    - apply omap_ext_in. intros i Hi. by apply (Hold l). }
  split.
  - split.
    + rewrite Hm'. by split.
    + intros l i. rewrite Hl'. destruct (decide (l = 0)) as [->|?].
      * intros [->|Hi]%elem_of_cons.
        -- exists new. by rewrite Hs', lookup_insert_eq.
        -- rewrite (Hold 0 i Hi). by apply (wf_resolve st W 0).
      * intros Hi. rewrite (Hold l i Hi). by apply (wf_resolve st W l).
    + rewrite Hss'. simpl. constructor; [done|apply (wf_l0_entries st W)].
    + rewrite Hl'. simpl. apply StronglySorted_cons. split; [|apply (wf_l0_order st W)].
      apply Forall_forall. intros i Hi. apply (wf_fresh st W 0 i Hi).
    + intros l Hl1. unfold level_records. rewrite Hss', decide_False by lia.
      by apply (wf_levels st W).
    + intros l Hgt. rewrite Hl', decide_False by lia. apply (wf_top st W). lia.
    + intros l i. rewrite Hl', Hx'. destruct (decide (l = 0)) as [->|?].
      * intros [->|Hi]%elem_of_cons; [lia|].
        pose proof (wf_fresh st W 0 i Hi). unfold id. lia.
      * intros Hi. pose proof (wf_fresh st W l i Hi). unfold id. lia.
    + intros l. rewrite Hl'. destruct (decide (l = 0)) as [->|?];
        [|apply (wf_nodup st W)].
      apply NoDup_cons. split; [|apply (wf_nodup st W)].
      intros Hi. pose proof (wf_fresh st W 0 id Hi). unfold id in *. lia.
    + intros l1 l2 i. rewrite !Hl'.
      destruct (decide (l1 = 0)) as [->|?], (decide (l2 = 0)) as [->|?]; try done.
      * intros [->|Hi]%elem_of_cons Hi2.
        -- pose proof (wf_fresh st W l2 _ Hi2). unfold id in *. lia.
        -- by apply (wf_disjoint st W 0 l2 i).
      * intros Hi1 [->|Hi]%elem_of_cons.
        -- pose proof (wf_fresh st W l1 _ Hi1). unfold id in *. lia.
        -- by apply (wf_disjoint st W l1 0 i).
      * apply (wf_disjoint st W).
  - intros k. unfold view. rewrite Hc', Hm'.
    replace (memtable st) with (mkMem (current_table (memtable st)) (rest ++ [t]))
      by (destruct (memtable st); simpl in *; by subst).
    rewrite mem_get_flush_last by done.
    cbn [seq map first_some].
    unfold level_records at 1 3. rewrite Hss'. simpl.
    rewrite kv_lookup_app.
    assert (map (fun level => kv_lookup k (level_records level st'))
                (seq 1 (cur_max_level st))
            = map (fun level => kv_lookup k (level_records level st))
                  (seq 1 (cur_max_level st))) as ->.
    { apply map_ext_in. intros l Hl%in_seq. unfold level_records.
      rewrite Hss', decide_False by lia. done. }
    destruct (Mem.get k _); [done|].
    by destruct (kv_lookup k t).
Qed.

End FlushSpec.

Section FlushOk.
Context (cfg : Consts) (est : list KV → N) (build_ok : nat → bool).
Context (Hio : ∀ id, build_ok id = true).
Context (Hest_nil : est [] = 0%N).
Context (Hest_pos : ∀ c, c ≠ [] → (0 < est c)%N).
Context (Hratio : (1 ≤ LSM_SST_LEVEL_RATIO cfg)%N).

(** [flush] with a frozen table at hand returns, keeps the invariant and
    changes the value of no key. *)
Lemma flush_spec (st : LSMEngine) :
  engine_wf st → frozen_tables (memtable st) ≠ [] →
  ∃ st',
    Engine.flush cfg est build_ok st = Ok tt st'
    ∧ engine_wf st' ∧ (∀ k, view st' k = view st k).
Proof.
  intros W Hfr. unfold Engine.flush.
  unfold bind at 1. unfold gets at 1.
  destruct (Mem.get_total_size (memtable st) =? 0)%N.
  { exists st. done. }
  unfold bind at 1. unfold gets at 1. unfold bind at 1.
  assert (∃ st1,
    match level_sst_ids st !! 0 with
    | Some ids =>
        if (LSM_SST_LEVEL_RATIO cfg <=? N.of_nat (length ids))%N
        then bind (gets cur_max_level)
               (fun top => Engine.full_compact cfg est build_ok (S top) 0)
        else ret tt
    | None => ret tt
    end st = Ok tt st1
    ∧ engine_wf st1 ∧ (∀ k, view st1 k = view st k)
    ∧ memtable st1 = memtable st) as (st1 & -> & W1 & Hv1 & Hm1).
  { destruct (level_sst_ids st !! 0) as [ids|]; [|by exists st].
    destruct (_ <=? _)%N; [|by exists st].
    unfold bind, gets.
    destruct (full_compact_spec cfg est build_ok Hio Hest_nil Hest_pos Hratio
                (S (cur_max_level st)) 0 st W) as (st1 & Heq & W1 & Hv1 & Hm1 & _);
      [lia|lia|].
    exists st1. done. }
  destruct (flush_tail_spec build_ok Hio st1 W1) as (st' & Heq & W' & Hv').
  { by rewrite Hm1. }
  exists st'. split; [exact Heq|]. split; [done|].
  intros k. by rewrite Hv', Hv1.
Qed.

End FlushOk.

Section MemtableUpdate.

Lemma wf_set_memtable (m : MemTable) (st : LSMEngine) :
  engine_wf st → mem_wf m → engine_wf (set_memtable m st).
Proof. intros [W1 W2 W3 W4 W5 W6 W7 W8 W9] Hm. by split. Qed.

Lemma view_set_memtable (m : MemTable) (st : LSMEngine) (k : string) :
  (Mem.get k m = None → Mem.get k (memtable st) = None) →
  view (set_memtable m st) k
  = match Mem.get k m with Some v => Some v | None => view st k end.
Proof.
  intros Hcase. unfold view. cbn [first_some memtable set_memtable cur_max_level].
  change (map (fun level => kv_lookup k (level_records level (set_memtable m st))))
    with (map (fun level => kv_lookup k (level_records level st))).
  destruct (Mem.get k m) as [v|] eqn:E; [done|].
  by rewrite Hcase.
Qed.

End MemtableUpdate.

Section WriteSpec.
Context (cfg : Consts) (est : list KV → N) (build_ok : nat → bool).
Context (Hio : ∀ id, build_ok id = true).
Context (Hest_nil : est [] = 0%N).
Context (Hest_pos : ∀ c, c ≠ [] → (0 < est c)%N).
Context (Hratio : (1 ≤ LSM_SST_LEVEL_RATIO cfg)%N).
Context (Hlimits : (LSM_PER_MEM_SIZE_LIMIT cfg ≤ LSM_TOL_MEM_SIZE_LIMIT cfg)%N).

Lemma view_after_mem_put (k v k' : string) (st : LSMEngine) :
  engine_wf st →
  view (set_memtable (Mem.put cfg k v (memtable st)) st) k'
  = if String.eqb k k' then Some v else view st k'.
Proof using cfg.
  intros W. pose proof (mem_get_put cfg k v k' _ (wf_mem st W)) as Hg.
  rewrite view_set_memtable.
  - rewrite Hg. destruct (String.eqb k k'); [done|].
    unfold view. cbn [first_some]. by destruct (Mem.get k' (memtable st)).
  - rewrite Hg. by destruct (String.eqb k k').
Qed.

(** [put(k, v)] returns, keeps the invariant and sets the value of [k] to
    [v], leaving the other keys as they are. *)
Lemma put_spec (k v : string) (st : LSMEngine) :
  engine_wf st →
  ∃ st',
    Engine.put cfg est build_ok k v st = Ok tt st'
    ∧ engine_wf st'
    ∧ (∀ k', view st' k' = if String.eqb k k' then Some v else view st k').
Proof using All.
  intros W. unfold Engine.put.
  unfold bind at 1. unfold modify at 1. unfold bind at 1. unfold gets at 1.
  set (st1 := set_memtable (Mem.put cfg k v (memtable st)) st).
  assert (engine_wf st1) as W1.
  { apply wf_set_memtable; [done|]. apply mem_wf_put, (wf_mem st W). }
  assert (∀ k', view st1 k' = if String.eqb k k' then Some v else view st k') as Hv1.
  { intros k'. by apply view_after_mem_put. }
  destruct (N.leb_spec (LSM_TOL_MEM_SIZE_LIMIT cfg)
              (Mem.get_total_size (memtable st1))) as [Hfull|Hnot].
  - destruct (flush_spec cfg est build_ok Hio Hest_nil Hest_pos Hratio st1 W1)
      as (st' & Heq & W' & Hv').
    { by apply mem_put_frozen. }
    exists st'. split; [done|]. split; [done|].
    intros k'. by rewrite Hv', Hv1.
  - exists st1. done.
Qed.

(** [remove(k)] returns, keeps the invariant and sets the value of [k] to
    the tombstone. *)
Lemma remove_spec (k : string) (st : LSMEngine) :
  engine_wf st →
  ∃ st',
    Engine.remove cfg k st = Ok tt st'
    ∧ engine_wf st'
    ∧ (∀ k', view st' k'
             = if String.eqb k k' then Some EmptyString else view st k').
Proof using cfg.
  intros W. unfold Engine.remove, modify, Mem.remove.
  eexists. split; [done|]. split.
  - apply wf_set_memtable; [done|]. apply mem_wf_put, (wf_mem st W).
  - intros k'. by apply view_after_mem_put.
Qed.

End WriteSpec.

(** ** Reads and sequences of writes *)

Section ReadView.

Lemma l0_first_some (k : string) (ss : list SST) (rest : list (option string)) :
  first_some (map (sst_value k) ss ++ rest)
  = first_some (kv_lookup k (concat (map sst_entries ss)) :: rest).
Proof.
  induction ss as [|s ss IH]; [done|].
  cbn [map concat app]. rewrite kv_lookup_app, sst_value_lookup.
  cbn [first_some]. destruct (kv_lookup k (sst_entries s)); [done|].
  rewrite IH. done.
Qed.

(** Along a level whose records ascend, the SST whose key range contains
    the key holds what the whole level holds for it. *)
Lemma level_find_lookup (k : string) (ss : list SST) :
  ascending (concat (map sst_entries ss)) →
  Forall (fun s => sst_entries s ≠ []) ss →
  List.find (covers k) ss ≫= sst_value k
  = kv_lookup k (concat (map sst_entries ss)).
Proof.
  induction ss as [|s ss IH]; intros Hasc Hne; [done|].
  cbn [map concat] in *.
  apply Forall_cons in Hne as [Hs Hne].
  apply ascending_app_inv in Hasc as (Has & Hrest & Hcross).
  destruct (first_key_bound s Has Hs) as [_ Hfirst].
  destruct (last_key_bound s Has Hs) as [(el & Hel & Hlast) Hlast_le].
  rewrite kv_lookup_app. cbn [List.find].
  destruct (covers k s) eqn:Hc.
  - cbn. rewrite sst_value_lookup.
    destruct (kv_lookup k (sst_entries s)) as [v|] eqn:E; [done|].
    symmetry. apply kv_lookup_below, Forall_forall. intros y Hy.
    apply andb_prop in Hc as [_ Hk].
    specialize (Hcross el y Hel Hy). unfold key_lt in Hcross.
    rewrite <- Hlast in Hcross. eauto using leb_ltb_trans.
  - rewrite (IH Hrest Hne).
    destruct (kv_lookup k (sst_entries s)) as [v|] eqn:E; [|done].
    exfalso. apply kv_lookup_Some in E.
    pose proof (Hfirst _ E) as H1. pose proof (Hlast_le _ E) as H2.
    cbn in H1, H2. unfold covers in Hc. by rewrite H1, H2 in Hc.
Qed.

(** The lookups of [get] find the current value of the key. *)
Lemma consulted_view (k : string) (st : LSMEngine) :
  readable st → first_some (consulted k st) = view st k.
Proof.
  intros R. unfold consulted, view.
  cbn [app first_some]. destruct (Mem.get k (memtable st)); [done|].
  rewrite l0_first_some. change (seq 0 (S (cur_max_level st)))
    with (0 :: seq 1 (cur_max_level st)).
  cbn [map]. unfold level_records at 1. do 2 f_equal.
  apply map_ext_in. intros level Hin. apply in_seq in Hin.
  destruct (rd_levels st R level) as [Hasc Hne]; [lia|].
  by apply level_find_lookup.
Qed.

End ReadView.

Section RunSpec.
Context (cfg : Consts) (est : list KV → N) (build_ok : nat → bool).
Context (Hio : ∀ id, build_ok id = true).
Context (Hest_nil : est [] = 0%N).
Context (Hest_pos : ∀ c, c ≠ [] → (0 < est c)%N).
Context (Hratio : (1 ≤ LSM_SST_LEVEL_RATIO cfg)%N).
Context (Hlimits : (LSM_PER_MEM_SIZE_LIMIT cfg ≤ LSM_TOL_MEM_SIZE_LIMIT cfg)%N).

Lemma apply_op_spec (o : op) (st : LSMEngine) :
  engine_wf st →
  ∃ st',
    apply_op cfg est build_ok o st = Ok tt st'
    ∧ engine_wf st'
    ∧ (∀ k, view st' k
            = if String.eqb (op_key o) k then Some (op_value o) else view st k).
Proof using All.
  intros W. destruct o as [k v|k]; cbn [apply_op op_key op_value].
  - by apply put_spec.
  - by apply remove_spec.
Qed.

Lemma last_on_cons (k : string) (o : op) (ops : list op) :
  last_on k (o :: ops)
  = match last_on k ops with
    | Some o' => Some o'
    | None => if String.eqb (op_key o) k then Some o else None
    end.
Proof.
  unfold last_on. rewrite filter_cons.
  destruct (decide (op_key o = k)) as [->|Hne].
  - rewrite String.eqb_refl, last_cons.
    by destruct (last (filter _ ops)).
  - apply eqb_false in Hne. rewrite Hne.
    by destruct (last (filter _ ops)).
Qed.

(** A sequence of writes returns, keeps the invariant, and leaves for every
    key the value of the last write on it. *)
Lemma run_spec (ops : list op) (st : LSMEngine) :
  engine_wf st →
  ∃ st',
    run cfg est build_ok ops st = Ok tt st'
    ∧ engine_wf st'
    ∧ (∀ k, view st' k
            = match last_on k ops with
              | Some o => Some (op_value o)
              | None => view st k
              end).
Proof using All.
  revert st. induction ops as [|o ops IH]; intros st W.
  - exists st. done.
  - destruct (apply_op_spec o st W) as (st1 & E1 & W1 & V1).
    destruct (IH st1 W1) as (st2 & E2 & W2 & V2).
    exists st2. split.
    { unfold run in *. cbn [for_each]. unfold bind. by rewrite E1. }
    split; [done|]. intros k.
    rewrite V2, last_on_cons, V1.
    by destruct (last_on k ops), (String.eqb (op_key o) k).
Qed.

End RunSpec.

Section Fresh.

Lemma init_wf (dir : gmap string (list KV)) : engine_wf (Engine.init dir).
Proof.
  split; unfold level_ssts, level_records, level_ids; cbn;
    try (intros; rewrite ?lookup_empty in *; cbn in *);
    try by (constructor || (exfalso; eapply not_elem_of_nil; eauto)).
  - apply mem_wf_empty.
  - split; constructor.
Qed.

Lemma init_view (dir : gmap string (list KV)) (k : string) :
  view (Engine.init dir) k = None.
Proof. done. Qed.

Lemma not_deleted_eqb (v : string) :
  Engine.not_deleted v = if String.eqb v EmptyString then None else Some v.
Proof. by destruct v. Qed.

Lemma default_est_nil : default_est [] = 0%N.
Proof. done. Qed.

Lemma default_est_pos (c : list KV) : c ≠ [] → (0 < default_est c)%N.
Proof. destruct c as [|e c]; [done|]. intros _. cbn. lia. Qed.

End Fresh.

(** ** The order of the events of a compaction step *)

Section BuildPhase.
Context (cfg : Consts) (est : list KV → N) (build_ok : nat → bool).

Lemma bind_unfold {A B} (m : M A) (f : A → M B) (st : LSMEngine) :
  bind m f st
  = match m st with Ok a st' => f a st' | Throw e st' => Throw e st' end.
Proof. done. Qed.











Section Loop.
Context {T : Type} `{BaseIterator T}.



End Loop.


End BuildPhase.

Section RemovalPhase.





End RemovalPhase.

Section StepEvents.
Context (cfg : Consts) (est : list KV → N) (build_ok : nat → bool).



End StepEvents.
(** ** The steps of [full_compact] *)

Section Steps.
Context (cfg : Consts) (est : list KV → N) (build_ok : nat → bool).




End Steps.

(** ** The merged cursors *)

Section MemCursor.

Lemma imap_items_sources (g : nat → Z) (l : list (list KV)) :
  concat (imap (fun i t =>
            map (fun e => SearchItem.mk e.1 e.2 (g i) 0) (SkipList.flush t)) l)
  = source_items (imap (fun i t => (g i, t)) l).
Proof.
  revert g. induction l as [|t l IH]; intros g; [done|].
  cbn [imap concat]. unfold source_items. cbn [map concat]. f_equal.
  apply (IH (g ∘ S)).
Qed.

Lemma mem_items_sources (m : MemTable) :
  MemTable_items m = source_items (mem_sources m).
Proof. apply (imap_items_sources Z.of_nat). Qed.

Lemma imap_sources_sorted (n : nat) (l : list (list KV)) :
  idx_sorted (imap (fun i t => (Z.of_nat (n + i), t)) l).
Proof.
  revert n. induction l as [|t l IH]; intros n; [constructor|].
  cbn [imap]. constructor.
  - assert (imap ((fun i t => (Z.of_nat (n + i), t)) ∘ S) l
            = imap (fun i t => (Z.of_nat (S n + i), t)) l) as ->.
    { apply imap_ext. intros i x _. cbn. do 2 f_equal. lia. }
    apply IH.
  - apply Forall_forall. intros p Hp.
    apply elem_of_lookup_imap in Hp as (i & x & -> & _). cbn. lia.
Qed.

Lemma mem_sources_sorted (m : MemTable) : idx_sorted (mem_sources m).
Proof. apply (imap_sources_sorted 0). Qed.

Lemma imap_sources_snd (g : nat → Z) (l : list (list KV)) :
  map snd (imap (fun i t => (g i, t)) l) = l.
Proof.
  revert g. induction l as [|t l IH]; intros g; [done|].
  cbn [imap map]. f_equal. apply (IH (g ∘ S)).
Qed.

Lemma get_frozen_lookup (k : string) (ts : list SkipList.t) :
  Forall ascending ts → Mem.get_frozen k ts = kv_lookup k (concat ts).
Proof.
  induction 1 as [|t ts Ht _ IH]; [done|].
  cbn [Mem.get_frozen concat]. rewrite kv_lookup_app, IH.
  by rewrite (skiplist_get_lookup k t Ht).
Qed.

Lemma mem_get_lookup (k : string) (m : MemTable) :
  mem_wf m →
  Mem.get k m = kv_lookup k (concat (current_table m :: frozen_tables m)).
Proof.
  intros [Hcur Hfrz]. unfold Mem.get. cbn [concat].
  rewrite kv_lookup_app, (skiplist_get_lookup k _ Hcur).
  by rewrite (get_frozen_lookup k _ Hfrz).
Qed.

(** The cursor of the memtable ascends strictly and pairs every key with
    the value [get] finds for it: the active table wins over the frozen
    ones, a frozen table over those frozen before it. *)
Lemma mem_begin_spec (m : MemTable) :
  mem_wf m →
  ascending (drain (MemTable_begin m))
  ∧ ∀ k, kv_lookup k (drain (MemTable_begin m)) = Mem.get k m.
Proof.
  intros W. unfold MemTable_begin.
  destruct (heap_sources (MemTable_items m) (mem_sources m)) as [Hasc Hlk].
  - intros y. by rewrite mem_items_sources.
  - apply mem_sources_sorted.
  - destruct W as [Hcur Hfrz].
    apply Forall_forall. intros p Hp.
    assert (p.2 ∈ map snd (mem_sources m)) as Hin.
    { apply elem_of_map. by exists p. }
    unfold mem_sources in Hin. rewrite imap_sources_snd in Hin.
    apply elem_of_cons in Hin as [->|Hin]; [done|].
    by eapply Forall_forall in Hfrz.
  - split; [done|]. intros k. rewrite Hlk, (mem_get_lookup k m W).
    unfold mem_sources. by rewrite imap_sources_snd.
Qed.

End MemCursor.

Section SstCursor.

(** The items a vector of SST cursors brings to the heap. *)
Lemma merge_items_app (l1 l2 : list SstIterator) :
  SstIter.merge_sst_iterator (l1 ++ l2)
  = Heap.of_items
      (concat (map (fun it =>
          map (fun e => SearchItem.mk e.1 e.2 (- Z.of_nat (sst_id (m_sst it))) 0)
              (m_rest it)) l1)
       ++ concat (map (fun it =>
          map (fun e => SearchItem.mk e.1 e.2 (- Z.of_nat (sst_id (m_sst it))) 0)
              (m_rest it)) l2)).
Proof. unfold SstIter.merge_sst_iterator. by rewrite map_app, concat_app. Qed.

Lemma positions_items (s : SST) (rest : list KV) (y : SearchItem.t) :
  y ∈ concat (map (fun it =>
         map (fun e => SearchItem.mk e.1 e.2 (- Z.of_nat (sst_id (m_sst it))) 0)
             (m_rest it)) (Engine.positions s rest))
  ↔ y ∈ map (fun e => SearchItem.mk e.1 e.2 (- Z.of_nat (sst_id s)) 0) rest.
Proof.
  induction rest as [|e rest IH]; [done|].
  cbn [Engine.positions map concat m_sst m_rest].
  rewrite elem_of_app, IH. cbn [map]. rewrite !elem_of_cons. tauto.
Qed.

Lemma all_positions_items (ss : list SST) (y : SearchItem.t) :
  y ∈ concat (map (fun it =>
         map (fun e => SearchItem.mk e.1 e.2 (- Z.of_nat (sst_id (m_sst it))) 0)
             (m_rest it))
         (concat (map (fun s => Engine.positions s (sst_entries s)) ss)))
  ↔ y ∈ source_items (sst_sources ss).
Proof.
  induction ss as [|s ss IH]; [done|].
  cbn [map concat]. rewrite map_app, concat_app, elem_of_app, IH.
  rewrite positions_items. unfold source_items, sst_sources.
  cbn [map concat fst snd]. by rewrite elem_of_app.
Qed.

(** Among level-0 SSTs listed by descending identifier, the first record
    for a key is that of the SST with the largest identifier holding the
    key. *)
Lemma l0_lookup_largest_id (ss : list SST) (k v : string) :
  StronglySorted (fun a b => b < a) (map sst_id ss) →
  Forall (fun s => ascending (sst_entries s)) ss →
  kv_lookup k (concat (map sst_entries ss)) = Some v
  ↔ ∃ s, s ∈ ss ∧ (k, v) ∈ sst_entries s
         ∧ ∀ s' v', s' ∈ ss → (k, v') ∈ sst_entries s' → sst_id s' ≤ sst_id s.
Proof.
  induction ss as [|s ss IH]; intros Hsort Hasc.
  - cbn. split; [done|]. intros (s & Hs & _). by apply elem_of_nil in Hs.
  - cbn [map concat] in *.
    apply StronglySorted_cons in Hsort as [Hlt Hsort].
    apply Forall_cons in Hasc as [Has Hasc].
    assert (∀ s', s' ∈ ss → sst_id s' < sst_id s) as Hbelow.
    { intros s' Hs'. eapply Forall_forall in Hlt; [exact Hlt|].
      apply elem_of_map. by exists s'. }
    rewrite kv_lookup_app.
    destruct (kv_lookup k (sst_entries s)) as [v0|] eqn:E.
    + split.
      * intros [= <-]. exists s. split; [left|].
        split; [by apply kv_lookup_Some|].
        intros s' v' [->|Hs']%elem_of_cons _; [done|].
        specialize (Hbelow s' Hs'). lia.
      * intros (s1 & [->|Hs1]%elem_of_cons & Hin & Hmax).
        -- rewrite (ascending_lookup_elem k v _ Has Hin) in E. congruence.
        -- specialize (Hbelow s1 Hs1).
           assert (sst_id s ≤ sst_id s1); [|lia].
           apply (Hmax s v0); [left|by apply kv_lookup_Some].
    + rewrite (IH Hsort Hasc). split.
      * intros (s1 & Hs1 & Hin & Hmax). exists s1. split; [by right|].
        split; [done|]. intros s' v' [->|Hs']%elem_of_cons Hin'.
        -- exfalso. by eapply (proj1 (kv_lookup_None k (sst_entries s))).
        -- by eapply Hmax.
      * intros (s1 & [->|Hs1]%elem_of_cons & Hin & Hmax).
        -- exfalso. by eapply (proj1 (kv_lookup_None k (sst_entries s))).
        -- exists s1. split; [done|]. split; [done|].
           intros s' v' Hs' Hin'. apply (Hmax s' v'); [by right|done].
Qed.

End SstCursor.

Section BeginSpec.

Lemma map_m_sst_positions (st : LSMEngine) (ids : list nat) (ss : list SST) :
  Forall2 (fun id s => ssts st !! id = Some s) ids ss →
  map_m (fun id => bind (sst_at id)
           (fun sst => ret (Engine.positions sst (sst_entries sst)))) ids st
  = Ok (map (fun s => Engine.positions s (sst_entries s)) ss) st.
Proof.
  induction 1 as [|id s ids ss Hs _ IH]; [done|].
  simpl. mred. unfold sst_at at 1. rewrite Hs. by rewrite IH.
Qed.

Lemma begin_eq (st : LSMEngine) :
  (∀ id, id ∈ level_ids 0 st → is_Some (ssts st !! id)) →
  Engine.begin st
  = Ok (mkTwoMerge (MemTable_begin (memtable st))
          (SstIter.merge_sst_iterator
             (concat (map (fun s => Engine.positions s (sst_entries s))
                        (level_ssts 0 st)))))
       (touch_level 0 st).
Proof.
  intros Hres. unfold Engine.begin.
  rewrite bind_unfold. unfold modify at 1.
  rewrite bind_unfold. unfold gets at 1. rewrite level_ids_touch.
  rewrite bind_unfold, (map_m_sst_positions _ _ (level_ssts 0 st)).
  - unfold bind, gets, ret.
    by destruct (same_data_touch 0 st) as (-> & _).
  - destruct (same_data_touch 0 st) as (_ & -> & _).
    by apply level_ssts_resolve.
Qed.

(** The heap over all the positions of the level-0 SSTs. *)
Lemma l0_positions_spec (ss : list SST) :
  StronglySorted (fun a b => b < a) (map sst_id ss) →
  Forall (fun s => ascending (sst_entries s)) ss →
  ascending (drain (SstIter.merge_sst_iterator
                      (concat (map (fun s => Engine.positions s (sst_entries s))
                                 ss))))
  ∧ ∀ k, kv_lookup k (drain (SstIter.merge_sst_iterator
                      (concat (map (fun s => Engine.positions s (sst_entries s))
                                 ss))))
         = kv_lookup k (concat (map sst_entries ss)).
Proof.
  intros Hsort Hasc. unfold SstIter.merge_sst_iterator.
  rewrite <- sst_sources_records.
  apply heap_sources.
  - apply all_positions_items.
  - by apply sst_sources_sorted.
  - unfold sst_sources. apply Forall_forall. intros p Hp.
    apply elem_of_map in Hp as (s & -> & Hs). cbn.
    by eapply Forall_forall in Hasc.
Qed.

End BeginSpec.

(** ** The sorted sets of the Redis wrapper *)

Section ZsetKeys.
Context (rc : RedisConsts).

Lemma string_length_app (s1 s2 : string) :
  String.length (s1 +:+ s2) = String.length s1 + String.length s2.
Proof.
  induction s1 as [|c s1 IH]; [done|].
  change (S (String.length (s1 +:+ s2))
          = S (String.length s1 + String.length s2)).
  by rewrite IH.
Qed.

Lemma zset_score_key_not_elem_key (key score elem : string) :
  Redis.get_zset_key_socre rc key score ≠ Redis.get_zset_key_elem rc key elem.
Proof.
  unfold Redis.get_zset_key_socre, Redis.get_zset_key_elem. intros E.
  apply String.app_inj in E. apply String.app_inj in E.
  cbn in E. discriminate E.
Qed.

Lemma zset_score_key_not_set_key (key score : string) :
  Redis.get_zset_key_socre rc key score ≠ key.
Proof.
  unfold Redis.get_zset_key_socre. intros E.
  apply (f_equal String.length) in E.
  rewrite !string_length_app in E. cbn in E. lia.
Qed.

End ZsetKeys.

Section BatchSpec.
Context (cfg : Consts) (est : list KV → N) (build_ok : nat → bool).
Context (Hio : ∀ id, build_ok id = true).
Context (Hest_nil : est [] = 0%N).
Context (Hest_pos : ∀ c, c ≠ [] → (0 < est c)%N).
Context (Hratio : (1 ≤ LSM_SST_LEVEL_RATIO cfg)%N).
Context (Hlimits : (LSM_PER_MEM_SIZE_LIMIT cfg ≤ LSM_TOL_MEM_SIZE_LIMIT cfg)%N).

Lemma put_batch_snoc (kvs : list KV) (e : KV) (m : MemTable) :
  Mem.put_batch cfg (kvs ++ [e]) m
  = Mem.put cfg e.1 e.2 (Mem.put_batch cfg kvs m).
Proof. unfold Mem.put_batch. by rewrite foldl_app. Qed.

(** After a batch the memtable holds for a key the value of the last pair
    of the batch on this key. *)
Lemma mem_get_put_batch (kvs : list KV) (k : string) (m : MemTable) :
  mem_wf m →
  Mem.get k (Mem.put_batch cfg kvs m)
  = match kv_lookup k (reverse kvs) with
    | Some v => Some v
    | None => Mem.get k m
    end.
Proof using cfg.
  intros W. induction kvs as [|e kvs IH] using rev_ind; [done|].
  rewrite put_batch_snoc, reverse_app. cbn [reverse app].
  change (reverse [e]) with [e]. cbn [app].
  rewrite kv_lookup_cons, mem_get_put by by apply mem_wf_put_batch.
  destruct (String.eqb e.1 k); [done|]. exact IH.
Qed.

Lemma view_after_put_batch (kvs : list KV) (k : string) (st : LSMEngine) :
  engine_wf st →
  view (set_memtable (Mem.put_batch cfg kvs (memtable st)) st) k
  = match kv_lookup k (reverse kvs) with
    | Some v => Some v
    | None => view st k
    end.
Proof using cfg.
  intros W. pose proof (mem_get_put_batch kvs k _ (wf_mem st W)) as Hg.
  rewrite view_set_memtable.
  - rewrite Hg. destruct (kv_lookup k (reverse kvs)); [done|].
    unfold view. cbn [first_some]. by destruct (Mem.get k (memtable st)).
  - rewrite Hg. by destruct (kv_lookup k (reverse kvs)).
Qed.

(** [put_batch] of at least one pair returns, keeps the invariant and
    sets every key of the batch to the value of its last pair. *)
Lemma put_batch_spec (kvs : list KV) (st : LSMEngine) :
  engine_wf st → kvs ≠ [] →
  ∃ st',
    Engine.put_batch cfg est build_ok kvs st = Ok tt st'
    ∧ engine_wf st'
    ∧ ∀ k, view st' k
           = match kv_lookup k (reverse kvs) with
             | Some v => Some v
             | None => view st k
             end.
Proof using All.
  intros W Hne. unfold Engine.put_batch.
  unfold bind at 1. unfold modify at 1. unfold bind at 1. unfold gets at 1.
  set (st1 := set_memtable (Mem.put_batch cfg kvs (memtable st)) st).
  assert (engine_wf st1) as W1.
  { apply wf_set_memtable; [done|]. apply mem_wf_put_batch, (wf_mem st W). }
  assert (∀ k, view st1 k
               = match kv_lookup k (reverse kvs) with
                 | Some v => Some v
                 | None => view st k
                 end) as Hv1.
  { intros k. by apply view_after_put_batch. }
  destruct (N.leb_spec (LSM_TOL_MEM_SIZE_LIMIT cfg)
              (Mem.get_total_size (memtable st1))) as [Hfull|Hnot].
  - destruct (flush_spec cfg est build_ok Hio Hest_nil Hest_pos Hratio st1 W1)
      as (st' & Heq & W' & Hv').
    { destruct kvs as [|e kvs _] using rev_ind; [done|].
      subst st1. cbn [memtable set_memtable] in *.
      rewrite put_batch_snoc in *. by apply mem_put_frozen. }
    exists st'. split; [done|]. split; [done|].
    intros k. by rewrite Hv', Hv1.
  - exists st1. done.
Qed.

End BatchSpec.

Section GetView.

(** [get] returns the current value of the key unless it is the
    tombstone. *)
Lemma get_view (k : string) (st : LSMEngine) :
  engine_wf st →
  ∃ st', Engine.get k st = Ok (view st k ≫= Engine.not_deleted) st'
         ∧ same_data st st'.
Proof.
  intros W. destruct (get_spec k st (wf_readable st W)) as (st' & E & Hs).
  exists st'. split; [|done].
  by rewrite E, (consulted_view k st (wf_readable st W)).
Qed.

Lemma remove_batch_nil (cfg : Consts) (st : LSMEngine) :
  Engine.remove_batch cfg [] st = Ok tt st.
Proof. by destruct st. Qed.

End GetView.

Section ZaddSpec.
Context (rc : RedisConsts).
Context (cfg : Consts) (est : list KV → N) (build_ok : nat → bool).
Context (now : Z).

Lemma get_value_view (k : string) (st : LSMEngine) (r : option string) :
  engine_wf st →
  value_of (Engine.get k st) = Some r ↔ view st k ≫= Engine.not_deleted = r.
Proof.
  intros W. destruct (get_view k st W) as (st' & -> & _). cbn.
  split; congruence.
Qed.

Lemma not_deleted_Some (v r : string) :
  Engine.not_deleted v = Some r → v = r ∧ Engine.not_deleted r = Some r.
Proof.
  unfold Engine.not_deleted. destruct (0 <? String.length v) eqn:E; [|done].
  intros [= <-]. by rewrite E.
Qed.

(** Without an expiry on the key, [expire_zset_clean] only reads. *)
Lemma expire_zset_clean_idle (key : string) (st : LSMEngine) :
  engine_wf st →
  view st (Redis.get_explire_key rc key) ≫= Engine.not_deleted = None →
  ∃ st', Redis.expire_zset_clean rc cfg now key st = Ok false st'
         ∧ same_data st st'.
Proof.
  intros W Hnone. unfold Redis.expire_zset_clean.
  destruct (get_view (Redis.get_explire_key rc key) st W) as (st' & E & Hs).
  rewrite bind_unfold, E, Hnone. exists st'. done.
Qed.

(** One pair [score, elem] whose element has another score: the key of
    the old score is collected in [remove_keys]. *)
Lemma zadd_loop_rescore (key score elem original_score : string)
    (put_kvs : list KV) (remove_keys : list string) (added_count : nat)
    (st : LSMEngine) :
  engine_wf st →
  view st (Redis.get_zset_key_elem rc key elem) ≫= Engine.not_deleted
    = Some original_score →
  original_score ≠ score →
  ∃ st',
    Redis.zadd_loop rc key [score; elem] put_kvs remove_keys added_count st
    = Ok (put_kvs ++ [(Redis.get_zset_key_socre rc key score, elem);
                      (Redis.get_zset_key_elem rc key elem, score)],
          remove_keys ++ [Redis.get_zset_key_socre rc key original_score],
          S added_count) st'
    ∧ same_data st st'.
Proof.
  intros W Hq Hne. cbn [Redis.zadd_loop].
  destruct (get_view (Redis.get_zset_key_elem rc key elem) st W)
    as (st' & E & Hs).
  rewrite bind_unfold, E, Hq.
  apply eqb_false in Hne. rewrite Hne. exists st'. done.
Qed.

End ZaddSpec.

(** ** Further properties of the engine *)

Section Writable.

Lemma roomy_writable :
  writable Examples.roomy default_est Examples.io_fine.
Proof.
  split; try done.
  - apply default_est_pos.
Qed.

Lemma tiny_writable :
  writable Examples.tiny default_est Examples.io_fine.
Proof.
  split; try done.
  - apply default_est_pos.
Qed.

(** In a well-formed state the answer of [get] is the current value of the
    key unless that is the tombstone. *)
Lemma answer_view (st : LSMEngine) (k : string) :
  engine_wf st → answer st k = view st k ≫= Engine.not_deleted.
Proof.
  intros W. unfold answer. by destruct (get_view k st W) as (st' & -> & _).
Qed.

Lemma answer_same_data (st st' : LSMEngine) (k : string) :
  engine_wf st → same_data st st' → answer st' k = answer st k.
Proof.
  intros W S. rewrite !answer_view; [|done|by eapply same_data_wf].
  by rewrite (same_data_view _ _ _ S).
Qed.

End Writable.

Section FlushDetail.
Context (cfg : Consts) (est : list KV → N) (build_ok : nat → bool).
Context (Wr : writable cfg est build_ok).

(** The state the last steps of [flush] leave. *)
Lemma flush_tail_fields (st : LSMEngine) (rest : list SkipList.t)
    (t : SkipList.t) :
  frozen_tables (memtable st) = rest ++ [t] →
  ∃ st',
    bind Engine.mint_sst_id (fun new_sst_id =>
      bind (Engine.memtable_flush_last build_ok Builder.new new_sst_id)
        (fun new_sst =>
           bind (Engine.register new_sst) (fun _ =>
           bind (modify (touch_level 0)) (fun _ =>
             modify (fun st => set_level 0 (sst_id new_sst :: level_ids 0 st) st)))))
      st = Ok tt st'
    ∧ memtable st' = mkMem (current_table (memtable st)) rest
    ∧ level_ids 0 st' = cur_max_sst_id st :: level_ids 0 st
    ∧ ssts st'
      = <[cur_max_sst_id st :=
            mkSST (cur_max_sst_id st)
              (Engine.get_sst_path (cur_max_sst_id st) 0) t]> (ssts st)
    ∧ cur_max_sst_id st' = S (cur_max_sst_id st)
    ∧ trace st' = trace st ++ [EvBuild (cur_max_sst_id st) 0;
                               EvRegister (cur_max_sst_id st)].
Proof using Wr.
  intros Efr.
  unfold bind at 1. unfold Engine.mint_sst_id at 1.
  unfold bind at 1. unfold Engine.memtable_flush_last at 1.
  cbn [memtable set_cur_max_sst_id].
  set (id := cur_max_sst_id st).
  assert (Mem.flush_last Builder.new (Engine.get_sst_path id 0) id (memtable st)
          = Some (mkSST id (Engine.get_sst_path id 0) t,
                  mkMem (current_table (memtable st)) rest)) as ->.
  { apply flush_last_Some. exists rest, t. done. }
  rewrite (wr_io _ _ _ Wr). unfold Engine.register, modify, bind.
  eexists. split; [reflexivity|].
  match goal with
  | |- memtable (set_level 0 _ (touch_level 0 ?s)) = _ ∧ _ => set (st0 := s)
  end.
  destruct (same_data_touch 0 st0) as (Hm0 & Hs0 & Hl0 & Hc0 & Hx0 & Hd0 & Ht0).
  split_and!.
  - cbn. by rewrite Hm0.
  - rewrite level_ids_set_level, decide_True by done.
    by rewrite level_ids_touch.
  - cbn. by rewrite Hs0.
  - cbn. by rewrite Hx0.
  - cbn. rewrite Ht0. cbn. by rewrite <- app_assoc.
Qed.

(** [flush] with data in the memtable and a frozen table at hand: the
    oldest frozen table leaves the memtable and becomes the SST at the
    head of level 0. *)
Lemma flush_detail (st : LSMEngine) (rest : list SkipList.t)
    (t : SkipList.t) :
  engine_wf st → frozen_tables (memtable st) = rest ++ [t] →
  (0 < Mem.get_total_size (memtable st))%N →
  ∃ st',
    Engine.flush cfg est build_ok st = Ok tt st'
    ∧ engine_wf st' ∧ (∀ k, view st' k = view st k)
    ∧ memtable st' = mkMem (current_table (memtable st)) rest
    ∧ ∃ s, head (level_ssts 0 st') = Some s ∧ sst_entries s = t
           ∧ ∀ id, id ∈ level_ids 0 st' → id ≤ sst_id s.
Proof using Wr.
  intros W Efr Hpos. destruct Wr as [Hio Hest_nil Hest_pos Hratio Hlimits].
  unfold Engine.flush.
  unfold bind at 1. unfold gets at 1.
  rewrite (proj2 (N.eqb_neq _ _)) by lia.
  unfold bind at 1. unfold gets at 1. unfold bind at 1.
  assert (∃ st1,
    match level_sst_ids st !! 0 with
    | Some ids =>
        if (LSM_SST_LEVEL_RATIO cfg <=? N.of_nat (length ids))%N
        then bind (gets cur_max_level)
               (fun top => Engine.full_compact cfg est build_ok (S top) 0)
        else ret tt
    | None => ret tt
    end st = Ok tt st1
    ∧ engine_wf st1 ∧ (∀ k, view st1 k = view st k)
    ∧ memtable st1 = memtable st) as (st1 & -> & W1 & Hv1 & Hm1).
  { destruct (level_sst_ids st !! 0) as [ids|]; [|by exists st].
    destruct (_ <=? _)%N; [|by exists st].
    unfold bind, gets.
    destruct (full_compact_spec cfg est build_ok Hio Hest_nil Hest_pos Hratio
                (S (cur_max_level st)) 0 st W) as (st1 & Heq & W1 & Hv1 & Hm1 & _);
      [lia|lia|].
    exists st1. done. }
  destruct (flush_tail_spec build_ok Hio st1 W1) as (st' & Heq & W' & Hv').
  { rewrite Hm1, Efr. by destruct rest. }
  destruct (flush_tail_fields st1 rest t) as (st2 & Heq2 & Hm2 & Hl2 & Hs2 & _).
  { by rewrite Hm1. }
  rewrite Heq in Heq2. injection Heq2 as <-.
  exists st'. split; [exact Heq|]. split; [done|].
  split; [intros k; by rewrite Hv', Hv1|].
  split; [by rewrite Hm2, Hm1|].
  eexists. unfold level_ssts. rewrite Hl2. cbn [omap list_omap].
  rewrite Hs2, lookup_insert_eq. cbn. split; [done|]. split; [done|].
  intros id [->|Hid]%elem_of_cons; [done|].
  pose proof (wf_fresh st1 W1 0 id Hid). cbn. lia.
Qed.

End FlushDetail.

Section FlushAll.
Context (cfg : Consts) (est : list KV → N) (build_ok : nat → bool).
Context (Wr : writable cfg est build_ok).

Lemma total_size_frozen_nil (m : MemTable) :
  frozen_tables m = [] →
  Mem.get_total_size m = SkipList.get_size (current_table m).
Proof. unfold Mem.get_total_size. intros ->. cbn. lia. Qed.

Lemma total_size_ge_current (m : MemTable) :
  (SkipList.get_size (current_table m) ≤ Mem.get_total_size m)%N.
Proof. unfold Mem.get_total_size. lia. Qed.

(** [flush] with data in the memtable and no frozen table panics, after
    the compaction of level 0 if that was due. *)
Lemma flush_panics (st : LSMEngine) :
  engine_wf st → frozen_tables (memtable st) = [] →
  (0 < Mem.get_total_size (memtable st))%N →
  ∃ st', Engine.flush cfg est build_ok st = Throw NoFrozenTable st'.
Proof using Wr.
  intros W Efr Hpos. destruct Wr as [Hio Hest_nil Hest_pos Hratio Hlimits].
  unfold Engine.flush.
  unfold bind at 1. unfold gets at 1.
  rewrite (proj2 (N.eqb_neq _ _)) by lia.
  unfold bind at 1. unfold gets at 1. unfold bind at 1.
  assert (∃ st1,
    match level_sst_ids st !! 0 with
    | Some ids =>
        if (LSM_SST_LEVEL_RATIO cfg <=? N.of_nat (length ids))%N
        then bind (gets cur_max_level)
               (fun top => Engine.full_compact cfg est build_ok (S top) 0)
        else ret tt
    | None => ret tt
    end st = Ok tt st1
    ∧ memtable st1 = memtable st) as (st1 & -> & Hm1).
  { destruct (level_sst_ids st !! 0) as [ids|]; [|by exists st].
    destruct (_ <=? _)%N; [|by exists st].
    unfold bind, gets.
    destruct (full_compact_spec cfg est build_ok Hio Hest_nil Hest_pos Hratio
                (S (cur_max_level st)) 0 st W) as (st1 & Heq & W1 & Hv1 & Hm1 & _);
      [lia|lia|].
    exists st1. done. }
  unfold bind at 1. unfold Engine.mint_sst_id at 1.
  unfold bind at 1. unfold Engine.memtable_flush_last at 1.
  cbn [memtable set_cur_max_sst_id].
  destruct (Mem.flush_last _ _ _ (memtable st1)) as [[??]|] eqn:E; [|eauto].
  apply flush_last_Some in E as (rest & t & Hf & _).
  rewrite Hm1, Efr in Hf. by destruct rest.
Qed.

(** With an empty active table the loop of [flush_all] writes the frozen
    tables out until the memtable is empty. *)
Lemma flush_all_loop_drains (fuel : nat) (st : LSMEngine) :
  engine_wf st →
  SkipList.get_size (current_table (memtable st)) = 0%N →
  length (frozen_tables (memtable st)) < fuel →
  ∃ st',
    Engine.flush_all_loop cfg est build_ok fuel st = Ok tt st'
    ∧ engine_wf st' ∧ (∀ k, view st' k = view st k)
    ∧ Mem.get_total_size (memtable st') = 0%N
    ∧ current_table (memtable st') = current_table (memtable st).
Proof using Wr.
  revert st. induction fuel as [|fuel IH]; intros st W Hcur Hlen; [lia|].
  cbn [Engine.flush_all_loop]. rewrite bind_unfold. unfold gets at 1.
  destruct (N.ltb_spec 0 (Mem.get_total_size (memtable st))) as [Hpos|Hzero].
  2: { exists st. split_and!; try done. lia. }
  destruct (frozen_tables (memtable st)) as [|t0 ts] eqn:Efr using rev_ind.
  { rewrite (total_size_frozen_nil _ Efr) in Hpos. lia. }
  clear IHts.
  destruct (flush_detail cfg est build_ok Wr st ts t0 W Efr Hpos)
    as (st1 & E1 & W1 & V1 & M1 & _).
  rewrite bind_unfold, E1.
  destruct (IH st1 W1) as (st' & E' & W' & V' & T' & C').
  { by rewrite M1. }
  { rewrite M1. cbn. rewrite length_app in Hlen. cbn in Hlen. lia. }
  exists st'. split_and!; try done.
  - intros k. by rewrite V', V1.
  - by rewrite C', M1.
Qed.

(** With data in the active table the loop of [flush_all] ends in the
    panic of [flush_last], once the frozen tables are written out. *)
Lemma flush_all_loop_panics (fuel : nat) (st : LSMEngine) :
  engine_wf st →
  (0 < SkipList.get_size (current_table (memtable st)))%N →
  length (frozen_tables (memtable st)) < fuel →
  ∃ st', Engine.flush_all_loop cfg est build_ok fuel st
         = Throw NoFrozenTable st'.
Proof using Wr.
  revert st. induction fuel as [|fuel IH]; intros st W Hcur Hlen; [lia|].
  cbn [Engine.flush_all_loop]. rewrite bind_unfold. unfold gets at 1.
  pose proof (total_size_ge_current (memtable st)) as Hge.
  rewrite (proj2 (N.ltb_lt _ _)) by lia.
  destruct (frozen_tables (memtable st)) as [|t0 ts] eqn:Efr using rev_ind.
  { destruct (flush_panics st W Efr) as (st' & E); [lia|].
    rewrite bind_unfold, E. eauto. }
  clear IHts.
  destruct (flush_detail cfg est build_ok Wr st ts t0 W Efr)
    as (st1 & E1 & W1 & V1 & M1 & _); [lia|].
  rewrite bind_unfold, E1.
  apply (IH st1 W1).
  - by rewrite M1.
  - rewrite M1. cbn. rewrite length_app in Hlen. cbn in Hlen. lia.
Qed.

End FlushAll.

Section ClearAndBatch.
Context (cfg : Consts).

Lemma three_tables_writable :
  writable MoreExamples.three_tables default_est Examples.io_fine.
Proof.
  split; try done.
  - apply default_est_pos.
Qed.

Lemma cleared_wf (n top : nat) (tr : list event) :
  engine_wf (mkEngine Mem.empty ∅ ∅ n top ∅ tr).
Proof.
  split; unfold level_ssts, level_records, level_ids; cbn;
    try (intros; rewrite ?lookup_empty in *; cbn in *);
    try by (constructor || (exfalso; eapply not_elem_of_nil; eauto)).
  - apply mem_wf_empty.
  - split; constructor.
Qed.

Lemma cleared_view (n top : nat) (tr : list event) (k : string) :
  view (mkEngine Mem.empty ∅ ∅ n top ∅ tr) k = None.
Proof.
  unfold view. cbn [memtable first_some]. change (Mem.get k Mem.empty) with
    (@None string). apply first_some_none, Forall_forall.
  intros o (l & -> & _)%elem_of_map. done.
Qed.

Lemma remove_batch_as_put_batch (ks : list string) (m : MemTable) :
  Mem.remove_batch cfg ks m
  = Mem.put_batch cfg (map (fun k => (k, EmptyString)) ks) m.
Proof.
  unfold Mem.remove_batch, Mem.put_batch, Mem.remove. revert m.
  induction ks as [|k ks IH]; intros m; [done|]. cbn. apply IH.
Qed.

Lemma tombstones_lookup (ks : list string) (k : string) :
  kv_lookup k (reverse (map (fun k => (k, EmptyString)) ks))
  = if decide (k ∈ ks) then Some EmptyString else None.
Proof.
  induction ks as [|k' ks IH]; [done|].
  cbn [map]. rewrite reverse_cons, kv_lookup_app, IH.
  rewrite kv_lookup_cons, kv_lookup_nil. cbn [fst snd].
  destruct (decide (k ∈ ks)) as [Hin|Hnin].
  - rewrite decide_True; [done|by right].
  - destruct (String.eqb k' k) eqn:E.
    + apply eqb_true in E as ->. rewrite decide_True; [done|left].
    + apply eqb_false in E. rewrite decide_False; [done|].
      intros [->|?]%elem_of_cons; done.
Qed.

(** [remove_batch] only writes tombstones into the memtable. *)
Lemma remove_batch_spec (ks : list string) (st : LSMEngine) :
  engine_wf st →
  ∃ st',
    Engine.remove_batch cfg ks st = Ok tt st'
    ∧ engine_wf st'
    ∧ (∀ k, view st' k
            = if decide (k ∈ ks) then Some EmptyString else view st k)
    ∧ ssts st' = ssts st ∧ level_sst_ids st' = level_sst_ids st
    ∧ disk st' = disk st ∧ trace st' = trace st
    ∧ cur_max_sst_id st' = cur_max_sst_id st.
Proof.
  intros W. unfold Engine.remove_batch, modify. eexists. split; [done|].
  split_and!; try done.
  - apply wf_set_memtable; [done|]. apply mem_wf_remove_batch, (wf_mem st W).
  - intros k. rewrite remove_batch_as_put_batch.
    rewrite (view_after_put_batch cfg _ k st W), tombstones_lookup.
    by destruct (decide (k ∈ ks)).
Qed.

End ClearAndBatch.

Section ExampleStates.

Lemma run_wf (cfg : Consts) (est : list KV → N) (build_ok : nat → bool)
    (ops : list op) (st : LSMEngine) :
  writable cfg est build_ok → engine_wf st →
  engine_wf (state_of (run cfg est build_ok ops st)).
Proof.
  intros [H1 H2 H3 H4 H5] W.
  destruct (run_spec cfg est build_ok H1 H2 H3 H4 H5 ops st W)
    as (st' & -> & W' & _).
  exact W'.
Qed.

Lemma with_frozen_wf : engine_wf States.with_frozen.
Proof. apply run_wf; [apply three_tables_writable|apply init_wf]. Qed.

Lemma with_active_wf : engine_wf States.with_active.
Proof. apply run_wf; [apply three_tables_writable|apply init_wf]. Qed.

Lemma two_levels_wf : engine_wf States.two_levels.
Proof. apply run_wf; [apply tiny_writable|apply init_wf]. Qed.

End ExampleStates.

Section MoreExampleStates.

Lemma with_strings_wf : engine_wf States.with_strings.
Proof. apply run_wf; [apply roomy_writable|apply init_wf]. Qed.

Lemma with_lists_wf : engine_wf States.with_lists.
Proof. apply run_wf; [apply roomy_writable|apply init_wf]. Qed.

Lemma with_hashes_wf : engine_wf States.with_hashes.
Proof. apply run_wf; [apply roomy_writable|apply init_wf]. Qed.

End MoreExampleStates.

(** ** File names of SSTs and their parsing *)

Section Digits.

Lemma is_nat_pretty_char (d : N) :
  (d < 10)%N → Ascii.is_nat (pretty_N_char d) = Some (N.to_nat d).
Proof.
  intros H.
  assert (d = 0 ∨ d = 1 ∨ d = 2 ∨ d = 3 ∨ d = 4 ∨ d = 5 ∨ d = 6 ∨ d = 7
          ∨ d = 8 ∨ d = 9)%N as Hd by lia.
  repeat (destruct Hd as [->|Hd]; [reflexivity|]). by subst.
Qed.

Lemma digit_not_special (c : ascii) :
  is_digit c = true →
  Ascii.is_space c = false ∧ c ≠ "+"%char ∧ c ≠ "-"%char ∧ c ≠ "."%char.
Proof.
  destruct c as [[] [] [] [] [] [] [] []]; cbn; intros H; try done.
Qed.

Lemma string_forall_app (P : ascii → bool) (s1 s2 : string) :
  string_forall P (s1 +:+ s2) = string_forall P s1 && string_forall P s2.
Proof.
  induction s1 as [|c s1 IH]; [done|].
  change (P c && string_forall P (s1 +:+ s2)
          = P c && string_forall P s1 && string_forall P s2).
  rewrite IH. by rewrite andb_assoc.
Qed.

Lemma string_forall_impl (P Q : ascii → bool) (s : string) :
  (∀ c, P c = true → Q c = true) →
  string_forall P s = true → string_forall Q s = true.
Proof.
  intros HPQ. induction s as [|c s IH]; [done|]. cbn.
  intros [H1 H2]%andb_prop. by rewrite (HPQ c H1), IH.
Qed.

(** The digits of [x] in front of [s], read back. *)
Lemma digits_pretty_go (x : N) :
  ∃ m : N, ∀ acc s,
    Engine.digits acc (pretty_N_go x s) = Engine.digits (acc * 10 ^ m + x) s.
Proof.
  induction x as [x IH] using (well_founded_induction N.lt_wf_0).
  destruct (decide (x = 0%N)) as [->|Hx].
  - exists 0%N. intros acc s. rewrite pretty_N_go_0. f_equal. lia.
  - destruct (IH (x / 10)%N) as [m Hm].
    { apply N.div_lt; lia. }
    exists (m + 1)%N. intros acc s.
    rewrite pretty_N_go_step by lia. rewrite Hm. cbn [Engine.digits].
    rewrite is_nat_pretty_char by (apply N.mod_lt; lia).
    f_equal. rewrite N2Nat.id, N.pow_add_r.
    pose proof (N.div_mod x 10 ltac:(lia)). lia.
Qed.

Lemma all_digits_pretty_go (x : N) (s : string) :
  string_forall is_digit s = true →
  string_forall is_digit (pretty_N_go x s) = true.
Proof.
  revert s. induction x as [x IH] using (well_founded_induction N.lt_wf_0).
  intros s Hs. destruct (decide (x = 0%N)) as [->|Hx].
  - by rewrite pretty_N_go_0.
  - rewrite pretty_N_go_step by lia. apply IH.
    + apply N.div_lt; lia.
    + cbn. rewrite Hs, andb_true_r. unfold is_digit.
      by rewrite is_nat_pretty_char by (apply N.mod_lt; lia).
Qed.

Lemma pretty_go_nonempty (x : N) (s : string) :
  s ≠ EmptyString → pretty_N_go x s ≠ EmptyString.
Proof.
  revert s. induction x as [x IH] using (well_founded_induction N.lt_wf_0).
  intros s Hs. destruct (decide (x = 0%N)) as [->|Hx].
  - by rewrite pretty_N_go_0.
  - rewrite pretty_N_go_step by lia. apply IH; [apply N.div_lt; lia|done].
Qed.

Lemma pretty_N_digit_string (x : N) : digit_string (pretty x).
Proof.
  unfold pretty, pretty_N. destruct (decide (x = 0%N)) as [->|Hx]; [done|].
  split.
  - rewrite pretty_N_go_step by lia. by apply pretty_go_nonempty.
  - by apply all_digits_pretty_go.
Qed.

Lemma digits_pretty_N (x : N) : Engine.digits 0 (pretty x) = x.
Proof.
  unfold pretty, pretty_N. destruct (decide (x = 0%N)) as [->|Hx]; [done|].
  destruct (digits_pretty_go x) as [m Hm]. rewrite Hm. cbn. lia.
Qed.

Lemma pretty_nat_digit_string (n : nat) : digit_string (pretty n).
Proof. apply pretty_N_digit_string. Qed.

Lemma digits_pretty_nat (n : nat) :
  Engine.digits 0 (pretty n) = N.of_nat n.
Proof. apply digits_pretty_N. Qed.

(** [std::stoull] on a string of digits. *)
Lemma stoull_digit_string (s : string) :
  digit_string s → (Engine.digits 0 s < 2 ^ 64)%N →
  Engine.stoull s = Some (Engine.digits 0 s).
Proof.
  intros [Hne Hall] Hlt. destruct s as [|c s]; [done|].
  cbn in Hall. apply andb_prop in Hall as [Hc Hs].
  destruct (digit_not_special c Hc) as (Hsp & Hplus & Hminus & _).
  unfold Engine.stoull. cbn [Engine.skip_space]. rewrite Hsp.
  assert ((match String c s with
           | String "+"%char r => (false, r)
           | String "-"%char r => (true, r)
           | _ => (false, String c s)
           end) = (false, String c s)) as ->.
  { destruct c as [[] [] [] [] [] [] [] []]; done. }
  unfold is_digit in Hc. destruct (Ascii.is_nat c) eqn:E; [|done].
  by rewrite (proj2 (N.ltb_lt _ _) Hlt).
Qed.

End Digits.

Section Substrings.

Lemma substring_0_0 (s : string) : String.substring 0 0 s = EmptyString.
Proof. by destruct s. Qed.

Lemma substring_whole (s : string) :
  String.substring 0 (String.length s) s = s.
Proof. induction s as [|c s IH]; [done|]. cbn. by rewrite IH. Qed.

Lemma substring_prefix (p s : string) :
  String.substring 0 (String.length p) (p +:+ s) = p.
Proof.
  induction p as [|c p IH]; [apply substring_0_0|].
  change (String c (String.substring 0 (String.length p) (p +:+ s))
          = String c p).
  by rewrite IH.
Qed.

Lemma substring_skip (p s : string) (n m : nat) :
  String.substring (String.length p + n) m (p +:+ s) = String.substring n m s.
Proof.
  induction p as [|c p IH]; [done|].
  change (String.substring (String.length p + n) m (p +:+ s)
          = String.substring n m s).
  exact IH.
Qed.

Lemma index_first_dot (p s : string) :
  string_forall (fun c => negb (Ascii.eqb c ".")) p = true →
  String.index 0 "." (p +:+ String "." s) = Some (String.length p).
Proof.
  induction p as [|c p IH]; intros Hp.
  - cbn. by destruct s.
  - cbn in Hp. apply andb_prop in Hp as [Hc Hp].
    apply negb_true_iff, Ascii.eqb_neq in Hc.
    change (String.index 0 "." (String c (p +:+ String "." s))
            = Some (S (String.length p))).
    cbn [String.index String.prefix].
    destruct (ascii_dec "." c) as [<-|_]; [done|].
    by rewrite (IH Hp).
Qed.

Lemma zeros_digits (k : nat) (s : string) :
  Engine.digits 0 (String.concat EmptyString (replicate k "0"%string) +:+ s)
  = Engine.digits 0 s.
Proof.
  induction k as [|k IH]; [done|].
  cbn [replicate]. destruct k as [|k]; [done|].
  cbn [replicate String.concat] in *. exact IH.
Qed.

Lemma zeros_all_digits (k : nat) :
  string_forall is_digit
    (String.concat EmptyString (replicate k "0"%string)) = true.
Proof.
  induction k as [|k IH]; [done|].
  cbn [replicate]. destruct k as [|k]; [done|].
  cbn [replicate String.concat] in *. exact IH.
Qed.

Lemma zero_pad_digit_string (w : nat) (s : string) :
  digit_string s → digit_string (Engine.zero_pad w s).
Proof.
  intros [Hne Hall]. unfold Engine.zero_pad. split.
  - destruct (String.concat _ _); [done|discriminate].
  - by rewrite string_forall_app, zeros_all_digits, Hall.
Qed.

Lemma zero_pad_digits (w : nat) (s : string) :
  Engine.digits 0 (Engine.zero_pad w s) = Engine.digits 0 s.
Proof. apply zeros_digits. Qed.

End Substrings.

Section OwnNames.

Lemma string_app_assoc (a b c : string) : (a +:+ b) +:+ c = a +:+ (b +:+ c).
Proof.
  induction a as [|x a IH]; [done|].
  change (String x ((a +:+ b) +:+ c) = String x (a +:+ (b +:+ c))).
  by rewrite IH.
Qed.

Lemma digit_string_length (s : string) :
  digit_string s → 1 ≤ String.length s.
Proof. intros [Hne _]. destruct s; [done|cbn; lia]. Qed.

Lemma digit_string_no_dot (s : string) :
  digit_string s →
  string_forall (fun c => negb (Ascii.eqb c ".")) s = true.
Proof.
  intros [_ Hall]. eapply string_forall_impl; [|exact Hall].
  intros c Hc. destruct (digit_not_special c Hc) as (_ & _ & _ & Hdot).
  by apply negb_true_iff, Ascii.eqb_neq.
Qed.

(** The parts of a file name written by [get_sst_path], as the constructor
    cuts them out. *)
Lemma sst_path_parts (id level : nat) :
  let filename := Engine.get_sst_path id level in
  let pad := Engine.zero_pad 32 (pretty id) in
  String.substring 0 4 filename = "sst_"%string
  ∧ String.index 0 "." filename = Some (4 + String.length pad)
  ∧ String.length filename
    = 4 + String.length pad + 1 + String.length (pretty level)
  ∧ String.substring (4 + String.length pad + 1)
      (String.length (pretty level)) filename = pretty level
  ∧ String.substring 4 (String.length pad) filename = pad.
Proof.
  intros filename pad.
  assert (filename = "sst_" +:+ (pad +:+ String "." (pretty level))) as E1
    by done.
  assert (filename = ("sst_" +:+ pad) +:+ String "." (pretty level)) as E2.
  { by rewrite string_app_assoc. }
  pose proof (zero_pad_digit_string 32 _ (pretty_nat_digit_string id)) as Hpad.
  fold pad in Hpad.
  split_and!.
  - rewrite E1. apply (substring_prefix "sst_").
  - rewrite E2, index_first_dot.
    + by rewrite string_length_app.
    + rewrite string_forall_app. rewrite (digit_string_no_dot pad Hpad). done.
  - rewrite E2, !string_length_app. cbn. lia.
  - rewrite E2.
    replace (4 + String.length pad + 1)
      with (String.length ("sst_" +:+ pad) + 1)
      by (rewrite string_length_app; cbn; lia).
    rewrite substring_skip. cbn [String.substring]. apply substring_whole.
  - rewrite E1. change 4 with (String.length "sst_" + 0).
    rewrite substring_skip. apply substring_prefix.
Qed.

(** The constructor reads a file name written by [get_sst_path] back into
    the identifier and the level it was written for. *)
Lemma scan_entry_own_name (id level : nat) (recs : list KV) (st : LSMEngine) :
  (N.of_nat id < 2 ^ 64)%N → (N.of_nat level < 2 ^ 64)%N →
  disk st !! Engine.get_sst_path id level = Some recs →
  ∃ st',
    Engine.scan_entry (Engine.get_sst_path id level) st = Ok tt st'
    ∧ ssts st'
      = <[id := mkSST id (Engine.get_sst_path id level) recs]> (ssts st)
    ∧ (∀ l, level_ids l st'
            = if decide (l = level) then level_ids level st ++ [id]
              else level_ids l st)
    ∧ cur_max_sst_id st' = id `max` cur_max_sst_id st
    ∧ cur_max_level st' = level `max` cur_max_level st
    ∧ memtable st' = memtable st ∧ disk st' = disk st.
Proof.
  intros Hid Hlevel Hfile.
  destruct (sst_path_parts id level) as (P1 & P2 & P3 & P4 & P5).
  pose proof (pretty_nat_digit_string level) as Dl.
  pose proof (zero_pad_digit_string 32 _ (pretty_nat_digit_string id)) as Dp.
  pose proof (digit_string_length _ Dl) as Ll.
  pose proof (digit_string_length _ Dp) as Lp.
  unfold Engine.scan_entry.
  rewrite P1. cbn [String.eqb Ascii.eqb Bool.eqb negb andb].
  rewrite P2, P3.
  rewrite (proj2 (Nat.eqb_neq _ _)) by lia.
  replace (4 + String.length (Engine.zero_pad 32 (pretty id)) + 1
           + String.length (pretty level) - 1
           - (4 + String.length (Engine.zero_pad 32 (pretty id))))
    with (String.length (pretty level)) by lia.
  rewrite P4.
  rewrite (proj2 (String.eqb_neq _ _)) by apply Dl.
  rewrite (stoull_digit_string _ Dl), digits_pretty_nat
    by (rewrite digits_pretty_nat; exact Hlevel).
  replace (4 + String.length (Engine.zero_pad 32 (pretty id)) - 4)
    with (String.length (Engine.zero_pad 32 (pretty id))) by lia.
  rewrite P5.
  rewrite (proj2 (String.eqb_neq _ _)) by apply Dp.
  rewrite (stoull_digit_string _ Dp), zero_pad_digits, digits_pretty_nat
    by (rewrite zero_pad_digits, digits_pretty_nat; exact Hid).
  rewrite !Nat2N.id.
  unfold bind, modify, Engine.sst_open, Engine.register.
  cbn [disk set_cur_max_level set_cur_max_sst_id]. rewrite Hfile.
  eexists. split; [reflexivity|].
  split_and!; try done.
  intros l. by rewrite level_ids_set_level.
Qed.

End OwnNames.

Section PathInjective.

Lemma pretty_from_digits (a b : nat) :
  @pretty nat _ a = @pretty nat _ b → a = b.
Proof. apply pretty_nat_inj. Qed.

Lemma sst_path_inj (id1 level1 id2 level2 : nat) :
  Engine.get_sst_path id1 level1 = Engine.get_sst_path id2 level2 →
  id1 = id2 ∧ level1 = level2.
Proof.
  intros E.
  destruct (sst_path_parts id1 level1) as (_ & A2 & A3 & A4 & A5).
  destruct (sst_path_parts id2 level2) as (_ & B2 & B3 & B4 & B5).
  cbn zeta in *. rewrite E in A2, A3, A4, A5.
  assert (String.length (Engine.zero_pad 32 (pretty id1))
          = String.length (Engine.zero_pad 32 (pretty id2))) as Hlen.
  { rewrite A2 in B2. injection B2. lia. }
  assert (String.length (@pretty nat _ level1)
          = String.length (@pretty nat _ level2)) as Hlen2 by lia.
  rewrite Hlen in A5. rewrite A5 in B5.
  rewrite Hlen, Hlen2 in A4. rewrite A4 in B4.
  split.
  - apply Nat2N.inj. rewrite <- !digits_pretty_nat.
    rewrite <- (zero_pad_digits 32 (pretty id1)).
    rewrite <- (zero_pad_digits 32 (pretty id2)). by rewrite B5.
  - by apply pretty_from_digits.
Qed.

End PathInjective.
(** ** Other file names in the data directory *)

Section OtherNames.

(** The parts of a file name [sst_<digits>.<digits>], as the constructor
    cuts them out. *)
Lemma entry_parts (id_str level_str : string) :
  digit_string id_str → digit_string level_str →
  let filename := "sst_" +:+ id_str +:+ "." +:+ level_str in
  String.substring 0 4 filename = "sst_"%string
  ∧ String.index 0 "." filename = Some (4 + String.length id_str)
  ∧ String.length filename
    = 4 + String.length id_str + 1 + String.length level_str
  ∧ String.substring (4 + String.length id_str + 1)
      (String.length level_str) filename = level_str
  ∧ String.substring 4 (String.length id_str) filename = id_str.
Proof.
  intros Hid Hlevel filename.
  assert (filename = "sst_" +:+ (id_str +:+ String "." level_str)) as E1
    by done.
  assert (filename = ("sst_" +:+ id_str) +:+ String "." level_str) as E2.
  { by rewrite string_app_assoc. }
  split_and!.
  - rewrite E1. apply (substring_prefix "sst_").
  - rewrite E2, index_first_dot.
    + by rewrite string_length_app.
    + rewrite string_forall_app.
      rewrite (digit_string_no_dot id_str Hid). done.
  - rewrite E2, !string_length_app. cbn. lia.
  - rewrite E2.
    replace (4 + String.length id_str + 1)
      with (String.length ("sst_" +:+ id_str) + 1)
      by (rewrite string_length_app; cbn; lia).
    rewrite substring_skip. cbn [String.substring]. apply substring_whole.
  - rewrite E1. change 4 with (String.length "sst_" + 0).
    rewrite substring_skip. apply substring_prefix.
Qed.

(** The loop of the constructor on an entry [sst_<digits>.<digits>]: the
    numbers are parsed and the file of the name that [get_sst_path] makes
    of them is opened. *)
Lemma scan_entry_digits (id_str level_str : string) (st : LSMEngine) :
  digit_string id_str → digit_string level_str →
  (Engine.digits 0 id_str < 2 ^ 64)%N →
  (Engine.digits 0 level_str < 2 ^ 64)%N →
  let id := N.to_nat (Engine.digits 0 id_str) in
  let level := N.to_nat (Engine.digits 0 level_str) in
  Engine.scan_entry ("sst_" +:+ id_str +:+ "." +:+ level_str) st
  = match disk st !! Engine.get_sst_path id level with
    | Some recs =>
        Ok tt
          (set_level level (level_ids level st ++ [id])
             (log (EvRegister id)
                (set_ssts
                   (<[id := mkSST id (Engine.get_sst_path id level) recs]>
                      (ssts st))
                   (set_cur_max_level (level `max` cur_max_level st)
                      (set_cur_max_sst_id (id `max` cur_max_sst_id st)
                         st)))))
    | None =>
        Throw (IOError (Engine.get_sst_path id level))
          (set_cur_max_level (level `max` cur_max_level st)
             (set_cur_max_sst_id (id `max` cur_max_sst_id st) st))
    end.
Proof.
  intros Di Dl Hid Hlevel id level.
  destruct (entry_parts id_str level_str Di Dl) as (P1 & P2 & P3 & P4 & P5).
  pose proof (digit_string_length _ Dl) as Ll.
  pose proof (digit_string_length _ Di) as Li.
  unfold Engine.scan_entry.
  rewrite P1. cbn [String.eqb Ascii.eqb Bool.eqb negb andb].
  rewrite P2, P3.
  rewrite (proj2 (Nat.eqb_neq _ _)) by lia.
  replace (4 + String.length id_str + 1 + String.length level_str - 1
           - (4 + String.length id_str))
    with (String.length level_str) by lia.
  rewrite P4.
  rewrite (proj2 (String.eqb_neq _ _)) by apply Dl.
  rewrite (stoull_digit_string _ Dl) by done.
  replace (4 + String.length id_str - 4) with (String.length id_str) by lia.
  rewrite P5.
  rewrite (proj2 (String.eqb_neq _ _)) by apply Di.
  rewrite (stoull_digit_string _ Di) by done.
  fold id level.
  unfold bind, modify, Engine.sst_open, Engine.register.
  cbn [disk set_cur_max_level set_cur_max_sst_id].
  by destruct (disk st !! Engine.get_sst_path id level).
Qed.

(** Entries that the loop passes over. *)
Lemma scan_entry_skips (filename : string) (st : LSMEngine) :
  String.substring 0 4 filename ≠ "sst_"%string
  ∨ String.index 0 "." filename = None
  ∨ String.index 0 "." filename = Some (String.length filename - 1) →
  Engine.scan_entry filename st = Ok tt st.
Proof.
  unfold Engine.scan_entry. intros [H|[H|H]].
  - by rewrite (proj2 (String.eqb_neq _ _) H).
  - rewrite H. by destruct (negb _).
  - rewrite H, Nat.eqb_refl. by destruct (negb _).
Qed.

End OtherNames.

(** ** [split] and [join] *)

Section Wire.
Context (d : ascii).

Lemma string_app_nil_r (s : string) : s +:+ EmptyString = s.
Proof.
  induction s as [|c s IH]; [done|].
  change (String c (s +:+ EmptyString) = String c s). by rewrite IH.
Qed.

Lemma string_app_nil_l (s : string) : EmptyString +:+ s = s.
Proof. done. Qed.

Lemma string_app_cons (c : ascii) (s t : string) :
  String c s +:+ t = String c (s +:+ t).
Proof. done. Qed.

Lemma string_app_snoc (s t : string) (c : ascii) :
  (s +:+ String c EmptyString) +:+ t = s +:+ String c t.
Proof. by rewrite string_app_assoc. Qed.

(** [split] on a string free of the delimiter, in front of a rest. *)
Lemma split_from_free (token e rest : string) :
  free_of d e = true →
  Wire.split_from d token (e +:+ String d rest)
  = (token +:+ e) :: Wire.split_from d EmptyString rest.
Proof.
  revert token. induction e as [|c e IH]; intros token He.
  - rewrite string_app_nil_l. cbn [Wire.split_from]. rewrite Ascii.eqb_refl.
    by rewrite string_app_nil_r.
  - unfold free_of in He. cbn [string_forall] in He.
    apply andb_prop in He as [Hc He]. apply negb_true_iff in Hc.
    rewrite string_app_cons. cbn [Wire.split_from]. rewrite Hc.
    rewrite (IH _ He). by rewrite string_app_snoc.
Qed.

Lemma split_from_free_end (token e : string) :
  free_of d e = true → token +:+ e ≠ EmptyString →
  Wire.split_from d token e = [token +:+ e].
Proof.
  revert token. induction e as [|c e IH]; intros token He Hne.
  - rewrite string_app_nil_r in *. cbn [Wire.split_from]. by destruct token.
  - unfold free_of in He. cbn [string_forall] in He.
    apply andb_prop in He as [Hc He]. apply negb_true_iff in Hc.
    cbn [Wire.split_from]. rewrite Hc.
    rewrite (IH _ He); rewrite string_app_snoc; done.
Qed.

Lemma join_from_cons (i : nat) (e : string) (rest : list string) :
  Wire.join_from (S i) (e :: rest) d
  = String d (e +:+ Wire.join_from (S (S i)) rest d).
Proof. done. Qed.

Lemma join_from_succ (i : nat) (l : list string) :
  Wire.join_from (S (S i)) l d = Wire.join_from 1 l d.
Proof.
  revert i. induction l as [|e l IH]; intros i; [done|].
  rewrite !join_from_cons. by rewrite !IH.
Qed.

(** [join] as a recursion on the vector. *)
Lemma join_cons (e : string) (rest : list string) :
  Wire.join (e :: rest) d = e +:+ Wire.join_from 1 rest d.
Proof. done. Qed.

Lemma join_from_1_cons (e : string) (rest : list string) :
  Wire.join_from 1 (e :: rest) d = String d (e +:+ Wire.join_from 1 rest d).
Proof. by rewrite join_from_cons, join_from_succ. Qed.

Lemma split_join_from (token : string) (l : list string) :
  splittable d l → l ≠ [] →
  Wire.split_from d token (Wire.join_from 1 l d)
  = token :: l.
Proof.
  intros [Hfree Hlast] Hne. revert token Hlast.
  induction Hfree as [|e l He Hl IH]; intros token Hlast; [done|].
  rewrite join_from_1_cons. cbn [Wire.split_from]. rewrite Ascii.eqb_refl.
  f_equal. destruct l as [|e' l].
  - cbn. rewrite string_app_nil_r.
    apply (split_from_free_end EmptyString e He).
    rewrite string_app_nil_l. intros ->. by apply Hlast.
  - rewrite join_from_1_cons, (split_from_free EmptyString e _ He). cbn.
    f_equal.
    specialize (IH ltac:(done) EmptyString Hlast).
    rewrite join_from_1_cons in IH. cbn [Wire.split_from] in IH.
    rewrite Ascii.eqb_refl in IH. by injection IH.
Qed.

(** Round trip: a splittable vector is read back from its encoding. *)
Lemma split_join (l : list string) :
  splittable d l → Wire.split (Wire.join l d) d = l.
Proof.
  intros Hs. pose proof Hs as [Hfree Hlast].
  destruct l as [|e l]; [done|].
  rewrite join_cons. unfold Wire.split.
  apply Forall_cons in Hfree as [He Hl].
  destruct l as [|e' l].
  - cbn. rewrite string_app_nil_r.
    apply (split_from_free_end EmptyString e He).
    rewrite string_app_nil_l. intros ->. by apply Hlast.
  - rewrite join_from_1_cons, (split_from_free EmptyString e _ He). cbn.
    f_equal.
    pose proof (split_join_from EmptyString (e' :: l)) as H.
    rewrite join_from_1_cons in H. cbn [Wire.split_from] in H.
    rewrite Ascii.eqb_refl in H.
    assert (splittable d (e' :: l)) as Hs' by (split; done).
    specialize (H Hs' ltac:(done)). by injection H.
Qed.

End Wire.

Section Chop.
Context (d : ascii).

Lemma free_of_app (s t : string) :
  free_of d (s +:+ t) = free_of d s && free_of d t.
Proof. apply string_forall_app. Qed.

Lemma chop_free (s : string) :
  free_of d s = true → chop_delimiter d s = s.
Proof.
  induction s as [|c s IH]; [done|]. unfold free_of. cbn [string_forall].
  intros [Hc Hs]%andb_prop. apply negb_true_iff in Hc.
  cbn [chop_delimiter]. destruct s as [|c' s]; [by rewrite Hc|].
  by rewrite (IH Hs).
Qed.

Lemma chop_app (p s : string) :
  s ≠ EmptyString →
  chop_delimiter d (p +:+ s) = p +:+ chop_delimiter d s.
Proof.
  intros Hs. induction p as [|c p IH]; [done|].
  rewrite !string_app_cons. cbn [chop_delimiter].
  destruct (p +:+ s) as [|c' r] eqn:E.
  - destruct p; [by rewrite string_app_nil_l in E|discriminate E].
  - by rewrite IH.
Qed.

Lemma chop_snoc (p : string) :
  free_of d p = true →
  chop_delimiter d (p +:+ String d EmptyString) = p.
Proof.
  induction p as [|c p IH]; intros Hp.
  - rewrite string_app_nil_l. cbn. by rewrite Ascii.eqb_refl.
  - unfold free_of in Hp. cbn [string_forall] in Hp.
    apply andb_prop in Hp as [Hc Hp].
    rewrite string_app_cons. cbn [chop_delimiter].
    destruct (p +:+ String d EmptyString) as [|c' r] eqn:E.
    + destruct p; [by rewrite string_app_nil_l in E|discriminate E].
    + by rewrite (IH Hp).
Qed.

Lemma split_from_nil (token s : string) :
  Wire.split_from d token s = [] → token = EmptyString ∧ s = EmptyString.
Proof.
  revert token. induction s as [|c s IH]; intros token.
  - cbn. by destruct token.
  - cbn [Wire.split_from]. destruct (Ascii.eqb c d); [done|].
    intros H. apply IH in H as [H _]. by destruct token.
Qed.

Lemma join_from_1_join (l : list string) :
  Wire.join_from 1 l d
  = match l with [] => EmptyString | _ => String d (Wire.join l d) end.
Proof.
  destruct l as [|e l]; [done|]. by rewrite join_from_1_cons, join_cons.
Qed.

(** Round trip the other way: [split] forgets one delimiter at the end of
    the string and nothing else. *)
Lemma join_split_from (token s : string) :
  free_of d token = true →
  Wire.join (Wire.split_from d token s) d = chop_delimiter d (token +:+ s).
Proof.
  revert token. induction s as [|c s IH]; intros token Ht.
  - rewrite string_app_nil_r. rewrite (chop_free _ Ht).
    cbn [Wire.split_from]. destruct token; [done|].
    rewrite join_cons. apply string_app_nil_r.
  - cbn [Wire.split_from]. destruct (Ascii.eqb c d) eqn:Ec.
    + apply Ascii.eqb_eq in Ec as ->.
      rewrite join_cons, join_from_1_join.
      destruct (Wire.split_from d EmptyString s) as [|x l] eqn:E.
      * apply split_from_nil in E as [_ ->].
        by rewrite string_app_nil_r, chop_snoc.
      * rewrite <- E, (IH EmptyString) by done.
        rewrite string_app_nil_l. rewrite chop_app by done.
        cbn [chop_delimiter]. destruct s as [|c' s]; [done|]. done.
    + rewrite IH.
      * by rewrite string_app_snoc.
      * rewrite free_of_app, Ht. unfold free_of. cbn. by rewrite Ec.
Qed.

Lemma join_split (s : string) :
  Wire.join (Wire.split s d) d = chop_delimiter d s.
Proof. apply (join_split_from EmptyString s). done. Qed.

End Chop.

Section RoundTrips.
Context (d : ascii).

Lemma split_from_empty_last (token e : string) (l : list string) :
  Forall (fun s => free_of d s = true) (e :: l) →
  Wire.split_from d token (e +:+ Wire.join_from 1 (l ++ [EmptyString]) d)
  = (token +:+ e) :: l.
Proof.
  revert token e. induction l as [|y l IH]; intros token e H;
    apply Forall_cons in H as [He Hl]; cbn [app]; rewrite join_from_1_cons.
  - cbn [Wire.join_from]. rewrite string_app_nil_l.
    by rewrite (split_from_free d token e _ He).
  - rewrite (split_from_free d token e _ He), (IH _ _ Hl).
    by rewrite string_app_nil_l.
Qed.

Lemma join_from_1_app (l : list string) (e : string) :
  Wire.join_from 1 (l ++ [e]) d = Wire.join_from 1 l d +:+ String d e.
Proof.
  induction l as [|x l IH].
  - cbn [app]. rewrite join_from_1_cons. cbn [Wire.join_from].
    by rewrite string_app_nil_r, string_app_nil_l.
  - cbn [app]. rewrite !join_from_1_cons, IH, string_app_cons.
    by rewrite string_app_assoc.
Qed.

Lemma join_snoc (l : list string) (e : string) :
  l ≠ [] → Wire.join (l ++ [e]) d = Wire.join l d +:+ String d e.
Proof.
  destruct l as [|x l]; [done|]. intros _. cbn [app].
  by rewrite !join_cons, join_from_1_app, string_app_assoc.
Qed.

(** An empty last element is lost. *)
Lemma split_join_empty_last (l : list string) :
  Forall (fun s => free_of d s = true) l →
  Wire.split (Wire.join (l ++ [EmptyString]) d) d = l.
Proof.
  intros H. destruct l as [|e l]; [done|].
  cbn [app]. rewrite join_cons. unfold Wire.split.
  by rewrite (split_from_empty_last _ _ _ H), string_app_nil_l.
Qed.

(** The encoding of a splittable vector is empty for the empty vector
    only. *)
Lemma join_empty (l : list string) :
  splittable d l → Wire.join l d = EmptyString → l = [].
Proof.
  intros Hs E. rewrite <- (split_join d l Hs). by rewrite E.
Qed.

End RoundTrips.

Section HashValue.
Context (rf : RedisFormat).

Lemma substring_after (p s : string) :
  String.substring (String.length p)
    (String.length (p +:+ s) - String.length p) (p +:+ s) = s.
Proof.
  rewrite string_length_app.
  replace (String.length p + String.length s - String.length p)
    with (String.length s) by lia.
  rewrite <- (Nat.add_0_r (String.length p)) at 1.
  by rewrite substring_skip, substring_whole.
Qed.

Lemma hash_value_round_trip (fields : list string) (st : LSMEngine) :
  splittable (REDIS_FIELD_SEPARATOR rf) fields →
  RedisMore.get_fileds_from_hash_value rf
    (Some (RedisMore.get_hash_value_from_fields rf fields)) st
  = Ok fields st.
Proof.
  intros Hs. unfold RedisMore.get_fileds_from_hash_value,
    RedisMore.get_hash_value_from_fields. cbn [default from_option]. unfold id.
  destruct (String.eqb _ EmptyString) eqn:E.
  - apply String.eqb_eq in E. rewrite E.
    assert (Wire.join fields (REDIS_FIELD_SEPARATOR rf) = EmptyString) as J.
    { destruct (REDIS_HASH_VALUE_PREFFIX rf); [|done].
      by rewrite string_app_nil_l in E. }
    by rewrite (join_empty _ _ Hs J).
  - rewrite (proj2 (Nat.ltb_ge _ _)) by (rewrite string_length_app; lia).
    by rewrite substring_after, split_join.
Qed.

End HashValue.

(** ** The engine as a store of answers *)

Section Returns.

Lemma returns_ret {A} (a : A) (st : LSMEngine) (Q : A → LSMEngine → Prop) :
  Q a st → returns (ret a) st Q.
Proof. intros H. by exists a, st. Qed.

Lemma returns_bind {A B} (m : M A) (f : A → M B) (st : LSMEngine)
    (Q : B → LSMEngine → Prop) :
  returns m st (fun a st' => returns (f a) st' Q) → returns (bind m f) st Q.
Proof.
  intros (a & st' & E & b & st'' & E' & HQ).
  exists b, st''. split; [|done]. by rewrite bind_unfold, E.
Qed.

Lemma returns_weaken {A} (m : M A) (st : LSMEngine)
    (Q Q' : A → LSMEngine → Prop) :
  returns m st Q → (∀ a st', Q a st' → Q' a st') → returns m st Q'.
Proof. intros (a & st' & E & HQ) H. exists a, st'. eauto. Qed.

Lemma returns_for_each {A} (f : A → M unit) (l : list A)
    (I : LSMEngine → Prop) (st : LSMEngine) :
  I st →
  (∀ x s, x ∈ l → I s → returns (f x) s (fun _ s' => I s')) →
  returns (for_each f l) st (fun _ s' => I s').
Proof.
  revert st. induction l as [|x l IH]; intros st Hst Hf.
  - by apply returns_ret.
  - cbn [for_each]. apply returns_bind.
    eapply returns_weaken; [apply Hf; [left|done]|].
    intros [] s' Hs'. cbn beta in *. apply IH; [done|].
    intros y s Hy. apply Hf. by right.
Qed.

End Returns.

Section Store.
Context (cfg : Consts) (est : list KV → N) (build_ok : nat → bool).
Context (Wr : writable cfg est build_ok).

(** [get] answers and changes no answer. *)
Lemma returns_get (k : string) (st : LSMEngine)
    (Q : option string → LSMEngine → Prop) :
  engine_wf st →
  (∀ st', engine_wf st' → (∀ k', answer st' k' = answer st k') →
          Q (answer st k) st') →
  returns (Engine.get k) st Q.
Proof.
  intros W HQ. destruct (get_view k st W) as (st' & E & S).
  exists (answer st k), st'. split.
  - by rewrite E, answer_view.
  - apply HQ; [by eapply same_data_wf|].
    intros k'. by apply answer_same_data.
Qed.

(** [put(k, v)] makes [get(k)] answer [v], unless [v] is empty. *)
Lemma returns_put (k v : string) (st : LSMEngine)
    (Q : unit → LSMEngine → Prop) :
  engine_wf st →
  (∀ st', engine_wf st' →
          (∀ k', answer st' k' = written k v (answer st) k') → Q tt st') →
  returns (Engine.put cfg est build_ok k v) st Q.
Proof using Wr.
  intros W HQ. destruct Wr as [H1 H2 H3 H4 H5].
  destruct (put_spec cfg est build_ok H1 H2 H3 H4 H5 k v st W)
    as (st' & E & W' & V).
  exists tt, st'. split; [done|]. apply HQ; [done|].
  intros k'. rewrite !answer_view, V by done. unfold written.
  destruct (String.eqb k k'); [|by rewrite answer_view].
  cbn. apply not_deleted_eqb.
Qed.

(** [remove(k)] makes [get(k)] answer nothing. *)
Lemma returns_remove (k : string) (st : LSMEngine)
    (Q : unit → LSMEngine → Prop) :
  engine_wf st →
  (∀ st', engine_wf st' →
          (∀ k', answer st' k' = written k EmptyString (answer st) k') →
          Q tt st') →
  returns (Engine.remove cfg k) st Q.
Proof.
  intros W HQ.
  destruct (remove_spec cfg k st W) as (st' & E & W' & V).
  exists tt, st'. split; [done|]. apply HQ; [done|].
  intros k'. rewrite !answer_view, V by done. unfold written.
  destruct (String.eqb k k'); [done|]. by rewrite answer_view.
Qed.

End Store.

(** A call that throws after a first call that returns. *)
Lemma bind_throws {A B} (m : M A) (f : A → M B) (st : LSMEngine) (e : error) :
  returns m st (fun a st' => ∃ st'', f a st' = Throw e st'') →
  ∃ st'', bind m f st = Throw e st''.
Proof.
  intros (a & st' & E & st'' & E'). exists st''. by rewrite bind_unfold, E.
Qed.

(** ** Decimal numbers read back *)

Section Signed.

Lemma digit_string_head (s : string) :
  digit_string s → ∃ c s', s = String c s' ∧ is_digit c = true.
Proof.
  intros [Hne Hall]. destruct s as [|c s]; [done|].
  cbn in Hall. apply andb_prop in Hall as [Hc _]. eauto.
Qed.

Lemma stoll_digits (s : string) :
  digit_string s → (Z.of_N (Engine.digits 0 s) < 2 ^ 63)%Z →
  Redis.stoll s = Some (Z.of_N (Engine.digits 0 s)).
Proof.
  intros Hs Hlt. destruct (digit_string_head s Hs) as (c & s' & -> & Hc).
  destruct (digit_not_special c Hc) as (Hsp & Hplus & Hminus & _).
  unfold Redis.stoll. cbn [Engine.skip_space]. rewrite Hsp.
  assert ((match String c s' with
           | String "+"%char r => (false, r)
           | String "-"%char r => (true, r)
           | _ => (false, String c s')
           end) = (false, String c s')) as ->.
  { destruct c as [[] [] [] [] [] [] [] []]; done. }
  unfold is_digit in Hc. destruct (Ascii.is_nat c) eqn:E; [|done].
  rewrite (proj2 (Z.ltb_lt _ _) Hlt), andb_true_r.
  rewrite (proj2 (Z.leb_le _ _)); [done|]. lia.
Qed.

Lemma stoll_minus_digits (s : string) :
  digit_string s → (- 2 ^ 63 ≤ - Z.of_N (Engine.digits 0 s))%Z →
  Redis.stoll (String "-" s) = Some (- Z.of_N (Engine.digits 0 s))%Z.
Proof.
  intros Hs Hge. destruct (digit_string_head s Hs) as (c & s' & -> & Hc).
  unfold Redis.stoll. cbn [Engine.skip_space].
  change (Ascii.is_space "-") with false. cbn match.
  unfold is_digit in Hc. destruct (Ascii.is_nat c) eqn:E; [|done].
  rewrite (proj2 (Z.leb_le _ _) Hge). cbn [andb].
  rewrite (proj2 (Z.ltb_lt _ _)); [done|]. lia.
Qed.

(** [std::stoll] reads back what [std::to_string] prints of a
    [long long]. *)
Lemma stoll_pretty (z : Z) :
  (- 2 ^ 63 ≤ z < 2 ^ 63)%Z → Redis.stoll (pretty z) = Some z.
Proof.
  intros Hz. destruct z as [|p|p].
  - done.
  - change (pretty (Z.pos p)) with (pretty (N.pos p)).
    rewrite stoll_digits.
    + by rewrite digits_pretty_N.
    + apply pretty_N_digit_string.
    + rewrite digits_pretty_N. cbn. lia.
  - change (pretty (Z.neg p)) with (String "-" (pretty (N.pos p))).
    rewrite stoll_minus_digits.
    + by rewrite digits_pretty_N.
    + apply pretty_N_digit_string.
    + rewrite digits_pretty_N. cbn. lia.
Qed.

Lemma pretty_Z_nonempty (z : Z) : @pretty Z _ z ≠ EmptyString.
Proof.
  destruct z as [|p|p]; [done| |done].
  change (pretty (Z.pos p)) with (pretty (N.pos p)).
  apply pretty_N_digit_string.
Qed.

End Signed.

(** ** The string commands of the Redis wrapper *)

Section RedisStrings.
Context (rc : RedisConsts) (rf : RedisFormat).
Context (cfg : Consts) (est : list KV → N) (build_ok : nat → bool).
Context (Wr : writable cfg est build_ok).
Context (now : Z).

Lemma written_same (k v : string) (f : string → option string) :
  written k v f k = if String.eqb v EmptyString then None else Some v.
Proof. unfold written. by rewrite String.eqb_refl. Qed.

Lemma written_other (k v k' : string) (f : string → option string) :
  k ≠ k' → written k v f k' = f k'.
Proof. intros H. unfold written. by rewrite (proj2 (String.eqb_neq _ _) H). Qed.

(** [redis_set]: the value is stored and an expiry of the key is
    dropped. *)
Lemma redis_set_spec (key value : string) (st : LSMEngine) :
  engine_wf st →
  Redis.get_explire_key rc key ≠ key →
  returns (RedisMore.redis_set rc cfg est build_ok key value) st
    (fun reply st' =>
       reply = Resp.ok ∧ engine_wf st'
       ∧ answer st' key
         = (if String.eqb value EmptyString then None else Some value)
       ∧ answer st' (Redis.get_explire_key rc key) = None
       ∧ ∀ k, k ≠ key → k ≠ Redis.get_explire_key rc key →
              answer st' k = answer st k).
Proof using Wr.
  intros W Hne. unfold RedisMore.redis_set.
  apply returns_bind, (returns_put cfg est build_ok Wr); [done|].
  intros st1 W1 A1. apply returns_bind, returns_get; [done|].
  intros st2 W2 A2.
  destruct (answer st1 (Redis.get_explire_key rc key)) as [e|] eqn:Ee.
  - apply returns_bind, returns_remove; [done|].
    intros st3 W3 A3. apply returns_ret. split_and!; try done.
    + rewrite A3, written_other, A2, A1, written_same by done. done.
    + by rewrite A3, written_same.
    + intros k Hk Hk'. rewrite A3, written_other, A2, A1, written_other; done.
  - apply returns_bind, returns_ret, returns_ret. split_and!; try done.
    + by rewrite A2, A1, written_same.
    + by rewrite A2.
    + intros k Hk Hk'. rewrite A2, A1, written_other; done.
Qed.

(** [redis_get] of a key without expiry. *)
Lemma redis_get_plain (key : string) (st : LSMEngine) :
  engine_wf st →
  answer st (Redis.get_explire_key rc key) = None →
  returns (RedisMore.redis_get rc cfg now key) st
    (fun reply st' =>
       reply = match answer st key with
               | Some v => Resp.bulk v
               | None => Resp.nil
               end
       ∧ engine_wf st' ∧ ∀ k, answer st' k = answer st k).
Proof.
  intros W He. unfold RedisMore.redis_get.
  apply returns_bind, returns_get; [done|]. intros st1 W1 A1.
  apply returns_bind, returns_get; [done|]. intros st2 W2 A2.
  rewrite A1, He.
  destruct (answer st key); apply returns_ret; split_and!; try done;
    intros k; by rewrite A2, A1.
Qed.

End RedisStrings.

Section RedisExpiry.
Context (rc : RedisConsts) (rf : RedisFormat).
Context (cfg : Consts) (est : list KV → N) (build_ok : nat → bool).
Context (Wr : writable cfg est build_ok).
Context (now : Z).

Lemma returns_is_expired (e : string) (t : Z) (st : LSMEngine)
    (Q : bool → LSMEngine → Prop) :
  Redis.stoll e = Some t → Q (t <? now)%Z st →
  returns (Redis.is_expired now (Some e)) st Q.
Proof.
  intros E HQ. unfold Redis.is_expired. rewrite E. by apply returns_ret.
Qed.

Lemma returns_long_long (s : string) (z : Z) (st : LSMEngine)
    (Q : Z → LSMEngine → Prop) :
  (- 2 ^ 63 ≤ z < 2 ^ 63)%Z → Q z st →
  returns (RedisMore.long_long s z) st Q.
Proof.
  intros Hz HQ. unfold RedisMore.long_long.
  rewrite (proj2 (Z.leb_le _ _)), (proj2 (Z.ltb_lt _ _)) by lia.
  by apply returns_ret.
Qed.

Lemma stoll_range (s : string) (z : Z) :
  Redis.stoll s = Some z → (- 2 ^ 63 ≤ z < 2 ^ 63)%Z.
Proof.
  unfold Redis.stoll.
  destruct (match Engine.skip_space s with
            | String "+"%char r => (false, r)
            | String "-"%char r => (true, r)
            | _ => (false, Engine.skip_space s)
            end) as [neg s2].
  destruct s2 as [|c s2]; [done|].
  destruct (Ascii.is_nat c); [|done].
  destruct (_ && _) eqn:E; [|done].
  intros [= <-]. apply andb_prop in E as [H1 H2].
  apply Z.leb_le in H1. apply Z.ltb_lt in H2. done.
Qed.

(** [redis_get] of a key with an expiry. *)
Lemma redis_get_expiring (key v e : string) (t : Z) (st : LSMEngine) :
  engine_wf st →
  Redis.get_explire_key rc key ≠ key →
  answer st key = Some v →
  answer st (Redis.get_explire_key rc key) = Some e →
  Redis.stoll e = Some t →
  returns (RedisMore.redis_get rc cfg now key) st
    (fun reply st' =>
       engine_wf st'
       ∧ (∀ k, k ≠ key → k ≠ Redis.get_explire_key rc key →
               answer st' k = answer st k)
       ∧ if (t <? now)%Z
         then reply = Resp.nil ∧ answer st' key = None
              ∧ answer st' (Redis.get_explire_key rc key) = None
         else reply = Resp.bulk v ∧ answer st' key = Some v
              ∧ answer st' (Redis.get_explire_key rc key) = Some e).
Proof.
  intros W Hne Hk He Ht. unfold RedisMore.redis_get.
  apply returns_bind, returns_get; [done|]. intros st1 W1 A1.
  apply returns_bind, returns_get; [done|]. intros st2 W2 A2.
  rewrite A1, Hk, He.
  apply returns_bind, (returns_is_expired e t); [done|].
  destruct (t <? now)%Z.
  - apply returns_bind, returns_remove; [done|]. intros st3 W3 A3.
    apply returns_bind, returns_remove; [done|]. intros st4 W4 A4.
    apply returns_ret. split_and!; try done.
    + intros k H1 H2.
      rewrite A4, written_other, A3, written_other, A2, A1; done.
    + rewrite A4, written_other, A3, written_same; done.
    + by rewrite A4, written_same.
  - apply returns_ret. split_and!; try done.
    + intros k _ _. by rewrite A2, A1.
    + by rewrite A2, A1.
    + by rewrite A2, A1.
Qed.

(** [redis_expire] stores the time of expiry. *)
Lemma redis_expire_spec (key seconds_count : string) (t : Z)
    (st : LSMEngine) :
  engine_wf st →
  Redis.stoll seconds_count = Some t →
  (- 2 ^ 63 ≤ now + t < 2 ^ 63)%Z →
  returns (RedisMore.redis_expire rc cfg est build_ok now key seconds_count) st
    (fun reply st' =>
       reply = Resp.int 1 ∧ engine_wf st'
       ∧ answer st' (Redis.get_explire_key rc key) = Some (pretty (now + t)%Z)
       ∧ ∀ k, k ≠ Redis.get_explire_key rc key → answer st' k = answer st k).
Proof using Wr.
  intros W Hs Hr. unfold RedisMore.redis_expire.
  apply returns_bind. unfold RedisMore.get_expire_time. rewrite Hs.
  apply returns_bind, returns_long_long; [done|]. apply returns_ret.
  apply returns_bind, (returns_put cfg est build_ok Wr); [done|].
  intros st1 W1 A1. apply returns_ret. split_and!; try done.
  - rewrite A1, written_same.
    by rewrite (proj2 (String.eqb_neq _ _) (pretty_Z_nonempty _)).
  - intros k Hk. by rewrite A1, written_other.
Qed.

(** [redis_ttl] only reads. *)
Lemma redis_ttl_expiring (key v e : string) (t : Z) (st : LSMEngine) :
  engine_wf st →
  answer st key = Some v →
  answer st (Redis.get_explire_key rc key) = Some e →
  Redis.stoll e = Some t →
  (0 ≤ now)%Z →
  returns (RedisMore.redis_ttl rc now key) st
    (fun reply st' =>
       engine_wf st' ∧ (∀ k, answer st' k = answer st k)
       ∧ reply = if (t <? now)%Z then Resp.int (-2) else Resp.int (t - now)).
Proof.
  intros W Hk He Ht Hnow. unfold RedisMore.redis_ttl.
  apply returns_bind, returns_get; [done|]. intros st1 W1 A1.
  apply returns_bind, returns_get; [done|]. intros st2 W2 A2.
  assert (∀ k, answer st2 k = answer st k) as A
    by (intros k; by rewrite A2, A1).
  rewrite A1, Hk, He.
  apply returns_bind, (returns_is_expired e t); [done|].
  destruct (t <? now)%Z eqn:Elt.
  - by apply returns_ret.
  - rewrite Ht. pose proof (stoll_range _ _ Ht). apply Z.ltb_ge in Elt.
    apply returns_bind, returns_long_long; [lia|]. by apply returns_ret.
Qed.

Lemma redis_ttl_plain (key : string) (st : LSMEngine) :
  engine_wf st →
  answer st key = None ∨ answer st (Redis.get_explire_key rc key) = None →
  returns (RedisMore.redis_ttl rc now key) st
    (fun reply st' =>
       engine_wf st' ∧ (∀ k, answer st' k = answer st k)
       ∧ reply = Resp.int (-1)).
Proof.
  intros W H. unfold RedisMore.redis_ttl.
  apply returns_bind, returns_get; [done|]. intros st1 W1 A1.
  apply returns_bind, returns_get; [done|]. intros st2 W2 A2.
  assert (∀ k, answer st2 k = answer st k) as A
    by (intros k; by rewrite A2, A1).
  rewrite A1.
  destruct H as [-> | ->]; [|destruct (answer st key)]; by apply returns_ret.
Qed.

(** [redis_incr] and [redis_decr] on a stored number. *)
Lemma redis_incr_number (key v : string) (n : Z) (st : LSMEngine) :
  engine_wf st →
  answer st key = Some v → Redis.stoll v = Some n → (n + 1 < 2 ^ 63)%Z →
  returns (RedisMore.redis_incr cfg est build_ok key) st
    (fun reply st' =>
       reply = pretty (n + 1)%Z ∧ engine_wf st'
       ∧ answer st' key = Some (pretty (n + 1)%Z)
       ∧ ∀ k, k ≠ key → answer st' k = answer st k).
Proof using Wr.
  intros W Hk Hv Hn. unfold RedisMore.redis_incr.
  apply returns_bind, returns_get; [done|]. intros st1 W1 A1.
  rewrite Hk, Hv. pose proof (stoll_range _ _ Hv).
  apply returns_bind, returns_long_long; [lia|].
  apply returns_bind, (returns_put cfg est build_ok Wr); [done|].
  intros st2 W2 A2. apply returns_ret. split_and!; try done.
  - rewrite A2, written_same.
    by rewrite (proj2 (String.eqb_neq _ _) (pretty_Z_nonempty _)).
  - intros k Hne. by rewrite A2, written_other, A1.
Qed.

Lemma redis_decr_number (key v : string) (n : Z) (st : LSMEngine) :
  engine_wf st →
  answer st key = Some v → Redis.stoll v = Some n → (- 2 ^ 63 ≤ n - 1)%Z →
  returns (RedisMore.redis_decr cfg est build_ok key) st
    (fun reply st' =>
       reply = pretty (n - 1)%Z ∧ engine_wf st'
       ∧ answer st' key = Some (pretty (n - 1)%Z)
       ∧ ∀ k, k ≠ key → answer st' k = answer st k).
Proof using Wr.
  intros W Hk Hv Hn. unfold RedisMore.redis_decr.
  apply returns_bind, returns_get; [done|]. intros st1 W1 A1.
  rewrite Hk, Hv. pose proof (stoll_range _ _ Hv).
  apply returns_bind, returns_long_long; [lia|].
  apply returns_bind, (returns_put cfg est build_ok Wr); [done|].
  intros st2 W2 A2. apply returns_ret. split_and!; try done.
  - rewrite A2, written_same.
    by rewrite (proj2 (String.eqb_neq _ _) (pretty_Z_nonempty _)).
  - intros k Hne. by rewrite A2, written_other, A1.
Qed.

Lemma redis_incr_missing (key : string) (st : LSMEngine) :
  engine_wf st → answer st key = None →
  returns (RedisMore.redis_incr cfg est build_ok key) st
    (fun reply st' =>
       reply = "1"%string ∧ engine_wf st' ∧ answer st' key = Some "1"%string
       ∧ ∀ k, k ≠ key → answer st' k = answer st k).
Proof using Wr.
  intros W Hk. unfold RedisMore.redis_incr.
  apply returns_bind, returns_get; [done|]. intros st1 W1 A1. rewrite Hk.
  apply returns_bind, (returns_put cfg est build_ok Wr); [done|].
  intros st2 W2 A2. apply returns_ret. split_and!; try done.
  - by rewrite A2, written_same.
  - intros k Hne. by rewrite A2, written_other, A1.
Qed.

Lemma redis_decr_missing (key : string) (st : LSMEngine) :
  engine_wf st → answer st key = None →
  returns (RedisMore.redis_decr cfg est build_ok key) st
    (fun reply st' =>
       reply = "-1"%string ∧ engine_wf st' ∧ answer st' key = Some "-1"%string
       ∧ ∀ k, k ≠ key → answer st' k = answer st k).
Proof using Wr.
  intros W Hk. unfold RedisMore.redis_decr.
  apply returns_bind, returns_get; [done|]. intros st1 W1 A1. rewrite Hk.
  apply returns_bind, (returns_put cfg est build_ok Wr); [done|].
  intros st2 W2 A2. apply returns_ret. split_and!; try done.
  - by rewrite A2, written_same.
  - intros k Hne. by rewrite A2, written_other, A1.
Qed.

Lemma redis_incr_not_a_number (key v : string) (st : LSMEngine) :
  engine_wf st → answer st key = Some v → Redis.stoll v = None →
  ∃ st', RedisMore.redis_incr cfg est build_ok key st
         = Throw (BadNumber v) st'
         ∧ ∀ k, answer st' k = answer st k.
Proof.
  intros W Hk Hv. unfold RedisMore.redis_incr.
  destruct (get_view key st W) as (st1 & E & S).
  exists st1. rewrite bind_unfold, E.
  assert (view st key ≫= Engine.not_deleted = Some v) as ->
    by (by rewrite <- answer_view, Hk).
  rewrite Hv. split; [done|]. intros k. by apply answer_same_data.
Qed.

(** The expiry record of a key is another key. *)
Lemma expire_key_neq (key : string) :
  REDIS_EXPIRE_HEADER rc ≠ EmptyString → Redis.get_explire_key rc key ≠ key.
Proof.
  intros Hh E. apply (f_equal String.length) in E.
  unfold Redis.get_explire_key in E. rewrite string_length_app in E.
  destruct (REDIS_EXPIRE_HEADER rc); [done|]. cbn in E. lia.
Qed.

End RedisExpiry.
(** ** The list commands of the Redis wrapper *)

Section Plain.
Context (d : ascii).

Lemma plain_splittable (l : list string) : plain d l → splittable d l.
Proof.
  intros H. split.
  - eapply Forall_impl; [exact H|]. by intros e [_ ?].
  - intros Hl. apply last_Some in Hl as [l' ->].
    apply Forall_app in H as [_ H]. apply Forall_cons in H as [[H _] _].
    done.
Qed.

Lemma plain_join_nonempty (l : list string) :
  plain d l → l ≠ [] → Wire.join l d ≠ EmptyString.
Proof.
  intros H Hl E. apply Hl. eapply join_empty; [|exact E].
  by apply plain_splittable.
Qed.

Lemma plain_snoc (l : list string) (e : string) :
  plain d l → e ≠ EmptyString → free_of d e = true → plain d (l ++ [e]).
Proof.
  intros H He Hf. apply Forall_app. split; [done|]. by repeat constructor.
Qed.

Lemma plain_cons (l : list string) (e : string) :
  plain d l → e ≠ EmptyString → free_of d e = true → plain d (e :: l).
Proof. intros H He Hf. by constructor. Qed.

Lemma join_one (e : string) : Wire.join [e] d = e.
Proof.
  rewrite join_cons. cbn [Wire.join_from]. apply string_app_nil_r.
Qed.

Lemma join_cons_cons (e : string) (l : list string) :
  l ≠ [] → Wire.join (e :: l) d = e +:+ String d (Wire.join l d).
Proof.
  intros Hl. rewrite join_cons, join_from_1_join. by destruct l.
Qed.

End Plain.

Section Liveness.
Context (rc : RedisConsts) (rf : RedisFormat).
Context (cfg : Consts) (est : list KV → N) (build_ok : nat → bool).
Context (now : Z).

Lemma returns_is_expired_unexpired (st0 st : LSMEngine) (key : string)
    (Q : bool → LSMEngine → Prop) :
  unexpired rc now st0 key → Q false st →
  returns (Redis.is_expired now (answer st0 (Redis.get_explire_key rc key)))
    st Q.
Proof.
  unfold unexpired, Redis.is_expired. intros L HQ.
  destruct (answer st0 _) as [e|]; [|by apply returns_ret].
  destruct L as (t & -> & Ht). apply returns_ret.
  by rewrite (proj2 (Z.ltb_ge _ _) Ht).
Qed.

(** A key that is not expired: [expire_list_clean] reads only. *)
Lemma expire_list_clean_unexpired (key : string) (st : LSMEngine)
    (Q : bool → LSMEngine → Prop) :
  engine_wf st → unexpired rc now st key →
  (∀ st', engine_wf st' → (∀ k, answer st' k = answer st k) → Q false st') →
  returns (RedisMore.expire_list_clean rc cfg now key) st Q.
Proof.
  intros W L HQ. unfold RedisMore.expire_list_clean.
  apply returns_bind, returns_get; [done|]. intros st1 W1 A1.
  apply returns_bind, returns_is_expired_unexpired; [done|].
  apply returns_ret. by apply HQ.
Qed.

(** An expired key: [expire_list_clean] removes the key and the expiry
    record. *)
Lemma expire_list_clean_lapsed (key : string) (st : LSMEngine)
    (Q : bool → LSMEngine → Prop) :
  engine_wf st → lapsed rc now st key →
  (∀ st', engine_wf st' →
          (∀ k, answer st' k
                = written (Redis.get_explire_key rc key) EmptyString
                    (written key EmptyString (answer st)) k) →
          Q true st') →
  returns (RedisMore.expire_list_clean rc cfg now key) st Q.
Proof.
  intros W (e & t & He & Ht & Hlt) HQ. unfold RedisMore.expire_list_clean.
  apply returns_bind, returns_get; [done|]. intros st1 W1 A1. rewrite He.
  apply returns_bind, (returns_is_expired now e t); [done|].
  rewrite (proj2 (Z.ltb_lt _ _) Hlt).
  apply returns_bind, returns_remove; [done|]. intros st2 W2 A2.
  apply returns_bind, returns_remove; [done|]. intros st3 W3 A3.
  apply returns_ret. apply HQ; [done|]. intros k. rewrite A3.
  unfold written. destruct (String.eqb _ k); [done|].
  rewrite A2. unfold written. by rewrite A1.
Qed.

End Liveness.

Section Lists.
Context (rc : RedisConsts) (rf : RedisFormat).
Context (cfg : Consts) (est : list KV → N) (build_ok : nat → bool).
Context (Wr : writable cfg est build_ok).
Context (now : Z).

Local Abbreviation sep := (REDIS_LIST_SEPARATOR rf).

Lemma holds_list_value (st : LSMEngine) (key : string) (els : list string) :
  holds_list rf st key els →
  default EmptyString (answer st key) = Wire.join els sep.
Proof. intros [_ ->]. by destruct els. Qed.

Lemma holds_list_split (st : LSMEngine) (key v : string)
    (els : list string) :
  holds_list rf st key els → answer st key = Some v →
  Wire.split v sep = els ∧ els ≠ [].
Proof.
  intros [Hp E] Hv. rewrite E in Hv. destruct els as [|x els]; [done|].
  injection Hv as <-. split; [|done].
  by apply split_join, plain_splittable.
Qed.

Lemma holds_list_frame (st st' : LSMEngine) (key : string)
    (els : list string) :
  holds_list rf st key els → answer st' key = answer st key →
  holds_list rf st' key els.
Proof. intros [Hp E] A. split; [done|]. by rewrite A. Qed.

(** [redis_rpush] and [redis_lpush] on a list that is not expired. *)
Lemma redis_rpush_unexpired (key value : string) (els : list string)
    (st : LSMEngine) :
  engine_wf st → unexpired rc now st key → holds_list rf st key els →
  value ≠ EmptyString → free_of sep value = true →
  returns (RedisMore.redis_rpush rc rf cfg est build_ok now key value) st
    (fun reply st' =>
       reply = Resp.int (Z.of_nat (length els + 1)) ∧ engine_wf st'
       ∧ holds_list rf st' key (els ++ [value])
       ∧ ∀ k, k ≠ key → answer st' k = answer st k).
Proof using Wr.
  intros W L H Hv Hf. unfold RedisMore.redis_rpush.
  apply returns_bind, expire_list_clean_unexpired; [done..|].
  intros st1 W1 A1. apply returns_bind, returns_get; [done|].
  intros st2 W2 A2. rewrite A1, (holds_list_value _ _ _ H).
  destruct H as [Hp E].
  assert (plain sep (els ++ [value])) as Hp' by by apply plain_snoc.
  assert ((if negb (String.eqb (Wire.join els sep) EmptyString)
           then Wire.join els sep +:+ String sep EmptyString +:+ value
           else value) = Wire.join (els ++ [value]) sep) as ->.
  { destruct els as [|x els].
    - cbn [app]. by rewrite join_one.
    - rewrite (proj2 (String.eqb_neq _ _)) by by apply plain_join_nonempty.
      cbn [negb]. rewrite join_snoc by done.
      by rewrite string_app_cons, string_app_nil_l. }
  apply returns_bind, (returns_put cfg est build_ok Wr); [done|].
  intros st3 W3 A3. apply returns_ret. split_and!; try done.
  - rewrite split_join by by apply plain_splittable.
    by rewrite length_app.
  - split; [done|]. rewrite A3, written_same.
    rewrite (proj2 (String.eqb_neq _ _))
      by (apply plain_join_nonempty; [done|by destruct els]).
    by destruct els.
  - intros k Hk. by rewrite A3, written_other, A2, A1.
Qed.

Lemma redis_lpush_unexpired (key value : string) (els : list string)
    (st : LSMEngine) :
  engine_wf st → unexpired rc now st key → holds_list rf st key els →
  value ≠ EmptyString → free_of sep value = true →
  returns (RedisMore.redis_lpush rc rf cfg est build_ok now key value) st
    (fun reply st' =>
       reply = Resp.int (Z.of_nat (length els + 1)) ∧ engine_wf st'
       ∧ holds_list rf st' key (value :: els)
       ∧ ∀ k, k ≠ key → answer st' k = answer st k).
Proof using Wr.
  intros W L H Hv Hf. unfold RedisMore.redis_lpush.
  apply returns_bind, expire_list_clean_unexpired; [done..|].
  intros st1 W1 A1. apply returns_bind, returns_get; [done|].
  intros st2 W2 A2. rewrite A1, (holds_list_value _ _ _ H).
  destruct H as [Hp E].
  assert (plain sep (value :: els)) as Hp' by by apply plain_cons.
  assert ((if negb (String.eqb (Wire.join els sep) EmptyString)
           then value +:+ String sep EmptyString +:+ Wire.join els sep
           else value) = Wire.join (value :: els) sep) as ->.
  { destruct els as [|x els].
    - by rewrite join_one.
    - rewrite (proj2 (String.eqb_neq _ _)) by by apply plain_join_nonempty.
      cbn [negb]. rewrite (join_cons_cons _ value (x :: els)) by done.
      by rewrite string_app_cons, string_app_nil_l. }
  apply returns_bind, (returns_put cfg est build_ok Wr); [done|].
  intros st3 W3 A3. apply returns_ret. split_and!; try done.
  - rewrite split_join by by apply plain_splittable.
    cbn [length]. f_equal. lia.
  - split; [done|]. rewrite A3, written_same.
    by rewrite (proj2 (String.eqb_neq _ _))
      by (by apply plain_join_nonempty).
  - intros k Hk. by rewrite A3, written_other, A2, A1.
Qed.

(** The write of [redis_lpop] and [redis_rpop]. *)
Lemma returns_store_list (key : string) (els : list string)
    (st : LSMEngine) (Q : unit → LSMEngine → Prop) :
  engine_wf st → plain sep els →
  (∀ st', engine_wf st' → holds_list rf st' key els →
          (∀ k, k ≠ key → answer st' k = answer st k) → Q tt st') →
  returns (match els with
           | [] => Engine.remove cfg key
           | _ => Engine.put cfg est build_ok key (Wire.join els sep)
           end) st Q.
Proof using Wr.
  intros W Hp HQ. destruct els as [|x els].
  - apply returns_remove; [done|]. intros st' W' A'. apply HQ; [done|..].
    + split; [done|]. by rewrite A', written_same.
    + intros k Hk. by rewrite A', written_other.
  - apply (returns_put cfg est build_ok Wr); [done|]. intros st' W' A'.
    apply HQ; [done|..].
    + split; [done|]. rewrite A', written_same.
      by rewrite (proj2 (String.eqb_neq _ _))
        by (by apply plain_join_nonempty).
    + intros k Hk. by rewrite A', written_other.
Qed.

Lemma redis_lpop_unexpired (key : string) (els : list string) (st : LSMEngine) :
  engine_wf st → unexpired rc now st key → holds_list rf st key els →
  returns (RedisMore.redis_lpop rc rf cfg est build_ok now key) st
    (fun reply st' =>
       reply = match els with [] => Resp.nil | x :: _ => Resp.bulk x end
       ∧ engine_wf st' ∧ holds_list rf st' key (tail els)
       ∧ ∀ k, k ≠ key → answer st' k = answer st k).
Proof using Wr.
  intros W L H. unfold RedisMore.redis_lpop.
  apply returns_bind, expire_list_clean_unexpired; [done..|].
  intros st1 W1 A1. apply returns_bind, returns_get; [done|].
  intros st2 W2 A2. rewrite A1.
  assert (∀ k, answer st2 k = answer st k) as A
    by (intros k; by rewrite A2, A1).
  destruct (answer st key) as [v|] eqn:Ev.
  - destruct (holds_list_split _ _ _ _ H Ev) as [-> Hne].
    destruct els as [|x els]; [done|]. destruct H as [Hp _].
    apply Forall_cons in Hp as [_ Hp].
    apply returns_bind, returns_store_list; [done..|].
    intros st3 W3 H3 A3. apply returns_ret. split_and!; try done.
    intros k Hk. by rewrite A3, A.
  - destruct H as [Hp E]. rewrite Ev in E. destruct els; [|done].
    apply returns_ret. split_and!; try done.
    split; [done|]. by rewrite A, Ev.
Qed.

Lemma redis_rpop_unexpired (key : string) (els : list string) (st : LSMEngine) :
  engine_wf st → unexpired rc now st key → holds_list rf st key els →
  returns (RedisMore.redis_rpop rc rf cfg est build_ok now key) st
    (fun reply st' =>
       reply = match last els with None => Resp.nil | Some x => Resp.bulk x end
       ∧ engine_wf st' ∧ holds_list rf st' key (removelast els)
       ∧ ∀ k, k ≠ key → answer st' k = answer st k).
Proof using Wr.
  intros W L H. unfold RedisMore.redis_rpop.
  apply returns_bind, expire_list_clean_unexpired; [done..|].
  intros st1 W1 A1. apply returns_bind, returns_get; [done|].
  intros st2 W2 A2. rewrite A1.
  assert (∀ k, answer st2 k = answer st k) as A
    by (intros k; by rewrite A2, A1).
  destruct (answer st key) as [v|] eqn:Ev.
  - destruct (holds_list_split _ _ _ _ H Ev) as [-> Hne].
    destruct (exists_last Hne) as (init & x & ->).
    rewrite pop_back_app, last_snoc, removelast_last.
    destruct H as [Hp _]. apply Forall_app in Hp as [Hp _].
    apply returns_bind, returns_store_list; [done..|].
    intros st3 W3 H3 A3. apply returns_ret. split_and!; try done.
    intros k Hk. by rewrite A3, A.
  - destruct H as [Hp E]. rewrite Ev in E. destruct els; [|done].
    apply returns_ret. split_and!; try done.
    split; [done|]. by rewrite A, Ev.
Qed.

Lemma redis_llen_unexpired (key : string) (els : list string) (st : LSMEngine) :
  engine_wf st → unexpired rc now st key → holds_list rf st key els →
  returns (RedisMore.redis_llen rc rf cfg now key) st
    (fun reply st' =>
       reply = Resp.int (Z.of_nat (length els))
       ∧ engine_wf st' ∧ ∀ k, answer st' k = answer st k).
Proof.
  intros W L H. unfold RedisMore.redis_llen.
  apply returns_bind, expire_list_clean_unexpired; [done..|].
  intros st1 W1 A1. apply returns_bind, returns_get; [done|].
  intros st2 W2 A2. rewrite A1.
  assert (∀ k, answer st2 k = answer st k) as A
    by (intros k; by rewrite A2, A1).
  destruct (answer st key) as [v|] eqn:Ev.
  - destruct (holds_list_split _ _ _ _ H Ev) as [-> Hne].
    by apply returns_ret.
  - destruct H as [Hp E]. rewrite Ev in E. destruct els; [|done].
    by apply returns_ret.
Qed.

End Lists.

Section Ranges.

Lemma to_size_t_int (x : Z) :
  (- 2 ^ 31 ≤ x < 2 ^ 31)%Z →
  to_size_t x = if (x <? 0)%Z then (x + 2 ^ 64)%Z else x.
Proof.
  intros Hx. unfold to_size_t. destruct (x <? 0)%Z eqn:E.
  - apply Z.ltb_lt in E. symmetry. apply (Z.mod_unique _ _ (-1)); lia.
  - apply Z.ltb_ge in E. apply Z.mod_small. lia.
Qed.

Lemma to_int_to_size_t (x : Z) :
  (- 2 ^ 31 ≤ x < 2 ^ 31)%Z → to_int (to_size_t x) = x.
Proof.
  intros Hx. rewrite to_size_t_int by done. unfold to_int.
  destruct (x <? 0)%Z eqn:E.
  - apply Z.ltb_lt in E.
    rewrite <- (Z.mod_unique (x + 2 ^ 64 + 2 ^ 31) (2 ^ 32) (2 ^ 32)
                  (x + 2 ^ 31)); lia.
  - apply Z.ltb_ge in E. rewrite Z.mod_small; lia.
Qed.

Lemma to_size_t_add (a b : Z) :
  to_size_t (to_size_t a + b) = to_size_t (a + b).
Proof. unfold to_size_t. by rewrite Zplus_mod_idemp_l. Qed.

(** The indices of [redis_lrange] in closed form. *)
Lemma clamp_range_spec (size start stop : Z) :
  (0 < size < 2 ^ 31)%Z →
  (- 2 ^ 31 ≤ start < 2 ^ 31)%Z →
  (- 2 ^ 31 ≤ stop < 2 ^ 31)%Z →
  RedisMore.clamp_range size start stop
  = let lo := if (start <? 0)%Z then Z.max 0 (start + size) else start in
    let hi0 := if (stop <? 0)%Z then (stop + size)%Z else stop in
    let hi := if ((hi0 <? 0) || (size <=? hi0))%Z then (size - 1)%Z
              else hi0 in
    if (hi <? lo)%Z then None else Some (lo, hi).
Proof.
  intros Hsize Hstart Hstop. unfold RedisMore.clamp_range. cbv zeta.
  rewrite !to_size_t_add.
  assert ((if (start <? 0)%Z then to_int (to_size_t (start + size))
           else start)
          = if (start <? 0)%Z then (start + size)%Z else start) as ->.
  { destruct (start <? 0)%Z eqn:E; [|done].
    apply Z.ltb_lt in E. apply to_int_to_size_t. lia. }
  assert ((if (stop <? 0)%Z then to_int (to_size_t (stop + size))
           else stop)
          = if (stop <? 0)%Z then (stop + size)%Z else stop) as ->.
  { destruct (stop <? 0)%Z eqn:E; [|done].
    apply Z.ltb_lt in E. apply to_int_to_size_t. lia. }
  set (hi0 := if (stop <? 0)%Z then (stop + size)%Z else stop).
  assert (- 2 ^ 31 ≤ hi0 < 2 ^ 31)%Z as Hhi0.
  { unfold hi0. destruct (stop <? 0)%Z eqn:E; [|lia].
    apply Z.ltb_lt in E. lia. }
  rewrite (to_size_t_int hi0) by done.
  rewrite (to_int_to_size_t (size - 1)) by lia.
  assert (((if (start <? 0)%Z then (start + size)%Z else start) <? 0)%Z
          = ((start <? 0)%Z && (start + size <? 0)%Z)) as Elo.
  { destruct (start <? 0)%Z eqn:E; [done|]. cbn [andb]. done. }
  rewrite Elo.
  assert ((if ((start <? 0) && (start + size <? 0))%Z then 0%Z
           else if (start <? 0)%Z then (start + size)%Z else start)
          = if (start <? 0)%Z then Z.max 0 (start + size) else start) as ->.
  { destruct (start <? 0)%Z; [|done]. cbn [andb].
    destruct (start + size <? 0)%Z eqn:E.
    - apply Z.ltb_lt in E. lia.
    - apply Z.ltb_ge in E. lia. }
  assert ((size <=? (if (hi0 <? 0)%Z then (hi0 + 2 ^ 64)%Z else hi0))%Z
          = ((hi0 <? 0) || (size <=? hi0))%Z) as ->.
  { destruct (hi0 <? 0)%Z eqn:E; [|done]. cbn [orb].
    apply Z.ltb_lt in E. apply Z.leb_le. lia. }
  done.
Qed.

(** The indices stay within the vector. *)
Lemma clamp_range_bounds (size start stop lo hi : Z) :
  (0 < size < 2 ^ 31)%Z →
  (- 2 ^ 31 ≤ start < 2 ^ 31)%Z →
  (- 2 ^ 31 ≤ stop < 2 ^ 31)%Z →
  RedisMore.clamp_range size start stop = Some (lo, hi) →
  (0 ≤ lo ≤ hi ∧ hi < size)%Z.
Proof.
  intros Hsize Hstart Hstop. rewrite clamp_range_spec by done. cbv zeta.
  set (lo' := if (start <? 0)%Z then _ else _).
  set (hi0 := if (stop <? 0)%Z then _ else _).
  set (hi' := if (_ || _)%Z then _ else _).
  assert (0 ≤ lo')%Z by (unfold lo'; destruct (Z.ltb_spec start 0); lia).
  assert (hi' < size)%Z.
  { unfold hi'. destruct (Z.ltb_spec hi0 0); cbn [orb]; [lia|].
    destruct (Z.leb_spec size hi0); lia. }
  destruct (Z.ltb_spec hi' lo'); [done|]. intros [= <- <-]. lia.
Qed.

Lemma map_m_lookup (elements : list string) (n len : nat)
    (st : LSMEngine) :
  n + len ≤ length elements →
  map_m (fun i => match elements !! i with
                  | Some e => ret (Resp.bulk e)
                  | None => throw (BadIndex i)
                  end) (seq n len) st
  = Ok (map Resp.bulk (take len (drop n elements))) st.
Proof.
  revert n. induction len as [|len IH]; intros n Hn; [done|].
  cbn [seq map_m]. rewrite bind_unfold.
  destruct (lookup_lt_is_Some_2 elements n ltac:(lia)) as [e He].
  rewrite He. cbn. rewrite bind_unfold, IH by lia. cbn.
  by rewrite (drop_S _ _ _ He).
Qed.

Lemma bulks_between_spec (elements : list string) (lo hi : Z)
    (st : LSMEngine) :
  (0 ≤ lo ≤ hi)%Z → (hi < Z.of_nat (length elements))%Z →
  RedisMore.bulks_between elements lo hi st
  = Ok (String.concat EmptyString
          (map Resp.bulk (take (Z.to_nat (hi - lo + 1))
                            (drop (Z.to_nat lo) elements)))) st.
Proof.
  intros H1 H2. unfold RedisMore.bulks_between.
  rewrite bind_unfold, map_m_lookup by lia. done.
Qed.

End Ranges.

Section ListRange.
Context (rc : RedisConsts) (rf : RedisFormat).
Context (cfg : Consts) (now : Z).

Lemma redis_lrange_unexpired (key : string) (els : list string)
    (start stop : Z) (st : LSMEngine) :
  engine_wf st → unexpired rc now st key → holds_list rf st key els →
  els ≠ [] →
  (Z.of_nat (length els) < 2 ^ 31)%Z →
  (- 2 ^ 31 ≤ start < 2 ^ 31)%Z →
  (- 2 ^ 31 ≤ stop < 2 ^ 31)%Z →
  returns (RedisMore.redis_lrange rc rf cfg now key start stop) st
    (fun reply st' =>
       engine_wf st' ∧ (∀ k, answer st' k = answer st k)
       ∧ reply
         = match RedisMore.clamp_range (Z.of_nat (length els)) start stop
           with
           | None => Resp.empty_array
           | Some (lo, hi) =>
               "*" +:+ pretty (hi - lo + 1)%Z +:+ crlf
               +:+ String.concat EmptyString
                     (map Resp.bulk (take (Z.to_nat (hi - lo + 1))
                                       (drop (Z.to_nat lo) els)))
           end).
Proof.
  intros W L H Hne Hsize Hstart Hstop. unfold RedisMore.redis_lrange.
  apply returns_bind, expire_list_clean_unexpired; [done..|].
  intros st1 W1 A1. apply returns_bind, returns_get; [done|].
  intros st2 W2 A2. rewrite A1.
  assert (∀ k, answer st2 k = answer st k) as A
    by (intros k; by rewrite A2, A1).
  destruct (answer st key) as [v|] eqn:Ev.
  2: { destruct H as [Hp E]. rewrite Ev in E. by destruct els. }
  destruct (holds_list_split _ _ _ _ _ H Ev) as [-> _].
  destruct els as [|x l]; [done|]. cbv iota.
  destruct (RedisMore.clamp_range _ start stop) as [[lo hi]|] eqn:Ec.
  - assert (0 < Z.of_nat (length (x :: l)) < 2 ^ 31)%Z as Hsize'
      by (split; [cbn [length]; lia|done]).
    destruct (clamp_range_bounds _ _ _ _ _ Hsize' Hstart Hstop Ec)
      as [Hlo Hhi].
    eexists _, st2. split.
    + rewrite bind_unfold, bulks_between_spec by done. reflexivity.
    + done.
  - by apply returns_ret.
Qed.

End ListRange.

Section ExpiredLists.
Context (rc : RedisConsts) (rf : RedisFormat).
Context (cfg : Consts) (est : list KV → N) (build_ok : nat → bool).
Context (Wr : writable cfg est build_ok).
Context (now : Z).

Lemma written_twice_first (k1 k2 : string) (f : string → option string) :
  written k1 EmptyString (written k2 EmptyString f) k2 = None.
Proof.
  unfold written. rewrite (String.eqb_refl k2).
  by destruct (String.eqb k1 k2).
Qed.

Lemma written_twice_other (k1 k2 k : string) (f : string → option string) :
  k ≠ k1 → k ≠ k2 →
  written k1 EmptyString (written k2 EmptyString f) k = f k.
Proof. intros H1 H2. rewrite !written_other; done. Qed.

Lemma redis_llen_lapsed (key : string) (st : LSMEngine) :
  engine_wf st → lapsed rc now st key →
  returns (RedisMore.redis_llen rc rf cfg now key) st
    (fun reply st' =>
       reply = Resp.int 0 ∧ engine_wf st'
       ∧ answer st' key = None
       ∧ answer st' (Redis.get_explire_key rc key) = None
       ∧ ∀ k, k ≠ key → k ≠ Redis.get_explire_key rc key →
              answer st' k = answer st k).
Proof.
  intros W L. unfold RedisMore.redis_llen.
  apply returns_bind, expire_list_clean_lapsed; [done..|].
  intros st1 W1 A1. apply returns_ret. split_and!; try done.
  - by rewrite A1, written_twice_first.
  - by rewrite A1, written_same.
  - intros k H1 H2. by rewrite A1, written_twice_other.
Qed.

Lemma redis_rpush_lapsed (key value : string) (st : LSMEngine) :
  engine_wf st → lapsed rc now st key →
  Redis.get_explire_key rc key ≠ key →
  value ≠ EmptyString → free_of (REDIS_LIST_SEPARATOR rf) value = true →
  returns (RedisMore.redis_rpush rc rf cfg est build_ok now key value) st
    (fun reply st' =>
       reply = Resp.int 1 ∧ engine_wf st'
       ∧ holds_list rf st' key [value]
       ∧ answer st' (Redis.get_explire_key rc key) = None
       ∧ ∀ k, k ≠ key → k ≠ Redis.get_explire_key rc key →
              answer st' k = answer st k).
Proof using Wr.
  intros W L Hne Hv Hf. unfold RedisMore.redis_rpush.
  apply returns_bind, expire_list_clean_lapsed; [done..|].
  intros st1 W1 A1. apply returns_bind, returns_get; [done|].
  intros st2 W2 A2. rewrite A1, written_twice_first.
  cbn [default from_option negb String.eqb].
  apply returns_bind, (returns_put cfg est build_ok Wr); [done|].
  intros st3 W3 A3. apply returns_ret. split_and!; try done.
  - unfold Wire.split.
    rewrite <- (string_app_nil_l value) at 1.
    rewrite split_from_free_end; [done..|].
    by rewrite string_app_nil_l.
  - split; [by repeat constructor|].
    rewrite A3, written_same, join_one.
    by rewrite (proj2 (String.eqb_neq _ _) Hv).
  - by rewrite A3, written_other, A2, A1, written_same.
  - intros k H1 H2.
    by rewrite A3, written_other, A2, A1, written_twice_other.
Qed.

End ExpiredLists.
(** ** The hash commands of the Redis wrapper *)

Section HashKeys.
Context (rc : RedisConsts) (rf : RedisFormat).

(** The key of a field is not the key of its hash. *)
Lemma hash_field_key_neq (key field : string) :
  RedisMore.get_hash_filed_key rf key field ≠ key.
Proof.
  intros E. apply (f_equal String.length) in E.
  unfold RedisMore.get_hash_filed_key in E.
  rewrite !string_length_app in E. cbn in E. lia.
Qed.

Lemma hash_value_nonempty (fields : list string) :
  plain (REDIS_FIELD_SEPARATOR rf) fields → fields ≠ [] →
  RedisMore.get_hash_value_from_fields rf fields ≠ EmptyString.
Proof.
  intros Hp Hne E. apply (plain_join_nonempty _ _ Hp Hne).
  unfold RedisMore.get_hash_value_from_fields in E.
  destruct (REDIS_HASH_VALUE_PREFFIX rf); [|done].
  by rewrite string_app_nil_l in E.
Qed.

Lemma plain_erase_first (d : ascii) (x : string) (l : list string) :
  plain d l → plain d (RedisMore.erase_first x l).
Proof.
  induction 1 as [|y l Hy Hl IH]; [constructor|].
  cbn [RedisMore.erase_first]. destruct (String.eqb y x); [done|].
  by constructor.
Qed.

(** Decoding the value of a key that holds a hash. *)
Lemma returns_fields (st0 st : LSMEngine) (key : string)
    (fields : list string) (Q : list string → LSMEngine → Prop) :
  holds_hash rf st0 key fields → Q fields st →
  returns (RedisMore.get_fileds_from_hash_value rf (answer st0 key)) st Q.
Proof.
  intros [Hp E] HQ. rewrite E. destruct fields as [|f fields].
  - by apply returns_ret.
  - exists (f :: fields), st. split; [|done].
    by apply hash_value_round_trip, plain_splittable.
Qed.

End HashKeys.

Section Hashes.
Context (rc : RedisConsts) (rf : RedisFormat).
Context (cfg : Consts) (est : list KV → N) (build_ok : nat → bool).
Context (Wr : writable cfg est build_ok).
Context (now : Z).

Local Abbreviation fsep := (REDIS_FIELD_SEPARATOR rf).

(** A hash that is not expired: [expire_hash_clean] reads only. *)
Lemma expire_hash_clean_unexpired (key : string) (st : LSMEngine)
    (Q : bool → LSMEngine → Prop) :
  engine_wf st → unexpired rc now st key →
  (∀ st', engine_wf st' → (∀ k, answer st' k = answer st k) → Q false st') →
  returns (RedisMore.expire_hash_clean rc rf cfg now key) st Q.
Proof.
  intros W L HQ. unfold RedisMore.expire_hash_clean.
  apply returns_bind, returns_get; [done|]. intros st1 W1 A1.
  apply returns_bind, returns_is_expired_unexpired; [done|].
  apply returns_ret. by apply HQ.
Qed.

(** The write of the field list in [redis_hset] and [redis_hdel]. *)
Lemma returns_store_hash (key : string) (fields : list string)
    (st : LSMEngine) (Q : unit → LSMEngine → Prop) :
  engine_wf st → plain fsep fields →
  (∀ st', engine_wf st' → holds_hash rf st' key fields →
          (∀ k, k ≠ key → answer st' k = answer st k) → Q tt st') →
  returns (match fields with
           | [] => Engine.remove cfg key
           | _ => Engine.put cfg est build_ok key
                    (RedisMore.get_hash_value_from_fields rf fields)
           end) st Q.
Proof using Wr.
  intros W Hp HQ. destruct fields as [|x fields].
  - apply returns_remove; [done|]. intros st' W' A'. apply HQ; [done|..].
    + split; [done|]. by rewrite A', written_same.
    + intros k Hk. by rewrite A', written_other.
  - apply (returns_put cfg est build_ok Wr); [done|]. intros st' W' A'.
    apply HQ; [done|..].
    + split; [done|]. rewrite A', written_same.
      by rewrite (proj2 (String.eqb_neq _ _))
        by (by apply hash_value_nonempty).
    + intros k Hk. by rewrite A', written_other.
Qed.

Lemma redis_hset_unexpired (key field value : string)
    (fields : list string) (st : LSMEngine) :
  engine_wf st → unexpired rc now st key → holds_hash rf st key fields →
  field ≠ EmptyString → free_of fsep field = true →
  returns (RedisMore.redis_hset rc rf cfg est build_ok now key field value)
    st
    (fun reply st' =>
       reply = Resp.ok ∧ engine_wf st'
       ∧ holds_hash rf st' key
           (if bool_decide (field ∈ fields) then fields
            else fields ++ [field])
       ∧ answer st' (RedisMore.get_hash_filed_key rf key field)
         = (if String.eqb value EmptyString then None else Some value)
       ∧ ∀ k, k ≠ key → k ≠ RedisMore.get_hash_filed_key rf key field →
              answer st' k = answer st k).
Proof using Wr.
  intros W L H Hfld Hfree. unfold RedisMore.redis_hset.
  pose proof (hash_field_key_neq rf key field) as Hne.
  apply returns_bind, expire_hash_clean_unexpired; [done..|].
  intros st1 W1 A1.
  apply returns_bind, (returns_put cfg est build_ok Wr); [done|].
  intros st2 W2 A2. apply returns_bind, returns_get; [done|].
  intros st3 W3 A3.
  assert (answer st2 key = answer st key) as Ek
    by (by rewrite A2, written_other, A1).
  assert (holds_hash rf st2 key fields) as H2
    by (destruct H as [Hp E]; split; [done|by rewrite Ek]).
  apply returns_bind, (returns_fields rf st2 st3 key fields _ H2).
  destruct (bool_decide (field ∈ fields)) eqn:Ein.
  - apply returns_bind, returns_ret, returns_ret. split_and!; try done.
    + destruct H as [Hp E]. split; [done|]. by rewrite A3, Ek.
    + by rewrite A3, A2, written_same.
    + intros k H1 H2'. by rewrite A3, A2, written_other, A1.
  - destruct H as [Hp E].
    assert (plain fsep (fields ++ [field])) as Hp' by by apply plain_snoc.
    assert (fields ++ [field] ≠ []) as Hne' by by destruct fields.
    pose proof (returns_store_hash key (fields ++ [field]) st3) as Hs.
    destruct (fields ++ [field]) as [|f0 fs] eqn:Efs; [done|].
    apply returns_bind, Hs; [done..|].
    intros st4 W4 H4 A4. apply returns_ret. split_and!; try done.
    + by rewrite A4, A3, A2, written_same.
    + intros k H1 H2'. by rewrite A4, A3, A2, written_other, A1.
Qed.

Lemma redis_hget_unexpired (key field : string) (st : LSMEngine) :
  engine_wf st → unexpired rc now st key →
  returns (RedisMore.redis_hget rc rf cfg now key field) st
    (fun reply st' =>
       reply = match answer st (RedisMore.get_hash_filed_key rf key field)
               with
               | Some v => Resp.bulk v
               | None => Resp.nil
               end
       ∧ engine_wf st' ∧ ∀ k, answer st' k = answer st k).
Proof.
  intros W L. unfold RedisMore.redis_hget.
  apply returns_bind, expire_hash_clean_unexpired; [done..|].
  intros st1 W1 A1. apply returns_bind, returns_get; [done|].
  intros st2 W2 A2. rewrite A1.
  assert (∀ k, answer st2 k = answer st k) as A
    by (intros k; by rewrite A2, A1).
  destruct (answer st _); by apply returns_ret.
Qed.

Lemma redis_hdel_unexpired (key field : string) (fields : list string)
    (st : LSMEngine) :
  engine_wf st → unexpired rc now st key → holds_hash rf st key fields →
  returns (RedisMore.redis_hdel rc rf cfg est build_ok now key field) st
    (fun reply st' =>
       reply = Resp.int
                 (match answer st (RedisMore.get_hash_filed_key rf key field)
                  with Some _ => 1 | None => 0 end)
       ∧ engine_wf st'
       ∧ holds_hash rf st' key
           (if bool_decide (field ∈ fields)
            then RedisMore.erase_first field fields else fields)
       ∧ answer st' (RedisMore.get_hash_filed_key rf key field) = None
       ∧ ∀ k, k ≠ key → k ≠ RedisMore.get_hash_filed_key rf key field →
              answer st' k = answer st k).
Proof using Wr.
  intros W L H. unfold RedisMore.redis_hdel.
  pose proof (hash_field_key_neq rf key field) as Hne.
  set (fk := RedisMore.get_hash_filed_key rf key field) in *.
  apply returns_bind, expire_hash_clean_unexpired; [done..|].
  intros st1 W1 A1. apply returns_bind, returns_get; [done|].
  intros st2 W2 A2. rewrite A1.
  assert (returns
            (match answer st fk with
             | Some _ => Engine.remove cfg fk ;;; ret 1%Z
             | None => ret 0%Z
             end%lsm) st2
            (fun n s => n = match answer st fk with Some _ => 1 | None => 0 end
                        ∧ engine_wf s ∧ answer s fk = None
                        ∧ ∀ k, k ≠ fk → answer s k = answer st k)%Z) as Hdel.
  { destruct (answer st fk) as [v|] eqn:Ev.
    - apply returns_bind, returns_remove; [done|]. intros st3 W3 A3.
      apply returns_ret. split_and!; try done.
      + by rewrite A3, written_same.
      + intros k Hk. by rewrite A3, written_other, A2, A1.
    - apply returns_ret. split_and!; try done.
      + by rewrite A2, A1.
      + intros k Hk. by rewrite A2, A1. }
  apply returns_bind. eapply returns_weaken; [exact Hdel|].
  intros n st3 (-> & W3 & A3 & A3'). cbn beta.
  apply returns_bind, returns_get; [done|]. intros st4 W4 A4.
  assert (holds_hash rf st3 key fields) as H3.
  { destruct H as [Hp E]. split; [done|]. by rewrite A3'. }
  apply returns_bind, (returns_fields rf st3 st4 key fields _ H3).
  destruct (bool_decide (field ∈ fields)) eqn:Ein.
  - destruct H as [Hp E].
    apply returns_bind, returns_store_hash;
      [done|by apply plain_erase_first|].
    intros st5 W5 H5 A5. apply returns_ret. split_and!; try done.
    + by rewrite A5, A4.
    + intros k H1 H2. by rewrite A5, A4, A3'.
  - apply returns_bind, returns_ret, returns_ret. split_and!; try done.
    + destruct H3 as [Hp E]. split; [done|]. by rewrite A4.
    + by rewrite A4.
    + intros k H1 H2. by rewrite A4, A3'.
Qed.

Lemma redis_hkeys_unexpired (key : string) (fields : list string)
    (st : LSMEngine) :
  engine_wf st → unexpired rc now st key → holds_hash rf st key fields →
  returns (RedisMore.redis_hkeys rc rf cfg now key) st
    (fun reply st' =>
       reply = foldl (fun res_str field => res_str +:+ Resp.bulk field)
                 ("*" +:+ pretty (length fields) +:+ crlf) fields
       ∧ engine_wf st' ∧ ∀ k, answer st' k = answer st k).
Proof.
  intros W L H. unfold RedisMore.redis_hkeys.
  apply returns_bind, expire_hash_clean_unexpired; [done..|].
  intros st1 W1 A1. apply returns_bind, returns_get; [done|].
  intros st2 W2 A2. rewrite A1.
  apply returns_bind, (returns_fields rf st st2 key fields _ H).
  apply returns_ret. split_and!; try done.
  intros k. by rewrite A2, A1.
Qed.

End Hashes.

Section Purge.
Context (rc : RedisConsts) (rf : RedisFormat).
Context (cfg : Consts) (est : list KV → N) (build_ok : nat → bool).
Context (now : Z).

(** A loop of [remove] over the keys [g x]. *)
Lemma returns_remove_all {A} (g : A → string) (l : list A)
    (st : LSMEngine) (Q : unit → LSMEngine → Prop) :
  engine_wf st →
  (∀ st', engine_wf st' →
          (∀ k, answer st' k
                = if bool_decide (k ∈ map g l) then None else answer st k) →
          Q tt st') →
  returns (for_each (fun x => Engine.remove cfg (g x)) l) st Q.
Proof.
  revert st Q. induction l as [|x l IH]; intros st Q W HQ.
  - apply returns_ret. by apply HQ.
  - cbn [for_each]. apply returns_bind, returns_remove; [done|].
    intros st1 W1 A1. apply IH; [done|]. intros st' W' A'.
    apply HQ; [done|]. intros k. rewrite A', A1. cbn [map].
    unfold written. destruct (String.eqb_spec (g x) k) as [->|Hne].
    + rewrite (bool_decide_eq_true_2 (k ∈ k :: map g l)) by left.
      by destruct (bool_decide _).
    + destruct (bool_decide (k ∈ map g l)) eqn:E.
      * apply bool_decide_eq_true in E.
        by rewrite bool_decide_eq_true_2 by by right.
      * apply bool_decide_eq_false in E.
        rewrite bool_decide_eq_false_2; [done|].
        intros [->|?]%elem_of_cons; done.
Qed.

(** An expired hash: [expire_hash_clean] removes the keys of the fields,
    the key and the expiry record. *)
Lemma expire_hash_clean_lapsed (key : string) (fields : list string)
    (st : LSMEngine) (Q : bool → LSMEngine → Prop) :
  engine_wf st → lapsed rc now st key → holds_hash rf st key fields →
  (∀ st', engine_wf st' →
          (∀ k, answer st' k
                = if bool_decide
                       (k ∈ Redis.get_explire_key rc key :: key
                            :: map (RedisMore.get_hash_filed_key rf key)
                                 fields)
                  then None else answer st k) →
          Q true st') →
  returns (RedisMore.expire_hash_clean rc rf cfg now key) st Q.
Proof.
  intros W (e & t & He & Ht & Hlt) H HQ.
  unfold RedisMore.expire_hash_clean.
  apply returns_bind, returns_get; [done|]. intros st1 W1 A1. rewrite He.
  apply returns_bind, (returns_is_expired now e t); [done|].
  rewrite (proj2 (Z.ltb_lt _ _) Hlt).
  apply returns_bind, returns_get; [done|]. intros st2 W2 A2.
  assert (holds_hash rf st1 key fields) as H1
    by (destruct H as [Hp E]; split; [done|by rewrite A1]).
  apply returns_bind, (returns_fields rf st1 st2 key fields _ H1).
  apply returns_bind, returns_remove_all; [done|]. intros st3 W3 A3.
  apply returns_bind, returns_remove; [done|]. intros st4 W4 A4.
  apply returns_bind, returns_remove; [done|]. intros st5 W5 A5.
  apply returns_ret. apply HQ; [done|]. intros k.
  rewrite A5. unfold written.
  destruct (String.eqb_spec (Redis.get_explire_key rc key) k) as [->|Hn1].
  { by rewrite bool_decide_eq_true_2 by left. }
  rewrite A4. unfold written.
  destruct (String.eqb_spec key k) as [->|Hn2].
  { by rewrite bool_decide_eq_true_2 by (right; left). }
  rewrite A3, A2, A1.
  destruct (bool_decide (k ∈ map _ fields)) eqn:E.
  - apply bool_decide_eq_true in E.
    by rewrite bool_decide_eq_true_2 by (by do 2 right).
  - apply bool_decide_eq_false in E.
    rewrite bool_decide_eq_false_2; [done|].
    intros [->|[->|?]%elem_of_cons]%elem_of_cons; done.
Qed.

Lemma redis_hget_lapsed (key field : string) (fields : list string)
    (st : LSMEngine) :
  engine_wf st → lapsed rc now st key → holds_hash rf st key fields →
  returns (RedisMore.redis_hget rc rf cfg now key field) st
    (fun reply st' =>
       reply = Resp.nil ∧ engine_wf st'
       ∧ ∀ k, answer st' k
              = if bool_decide
                     (k ∈ Redis.get_explire_key rc key :: key
                          :: map (RedisMore.get_hash_filed_key rf key)
                               fields)
                then None else answer st k).
Proof.
  intros W L H. unfold RedisMore.redis_hget.
  apply returns_bind, (expire_hash_clean_lapsed key fields); [done..|].
  intros st1 W1 A1. by apply returns_ret.
Qed.

End Purge.
(** ** [redis_del] *)

Section Del.
Context (rc : RedisConsts) (rf : RedisFormat).
Context (cfg : Consts) (est : list KV → N) (build_ok : nat → bool).
Context (now : Z).

Lemma prefix_length (p s : string) :
  String.prefix p s = true → String.length p ≤ String.length s.
Proof.
  revert s. induction p as [|c p IH]; intros s H; [cbn; lia|].
  destruct s as [|c' s]; [by simpl in H|]. simpl in H.
  destruct (Ascii.ascii_dec c c'); [|done].
  apply IH in H. cbn [String.length]. lia.
Qed.

(** A value with the prefix of hash values always decodes. *)
Lemma returns_fields_of_hash_value (v : string) (st : LSMEngine)
    (Q : list string → LSMEngine → Prop) :
  RedisMore.is_value_hash rf v = true →
  (∀ fields, Q fields st) →
  returns (RedisMore.get_fileds_from_hash_value rf (Some v)) st Q.
Proof.
  intros Hv HQ. unfold RedisMore.get_fileds_from_hash_value.
  cbn [default from_option]. unfold id.
  destruct (String.eqb v EmptyString); [by apply returns_ret|].
  apply prefix_length in Hv.
  rewrite (proj2 (Nat.ltb_ge _ _) Hv). by apply returns_ret.
Qed.

(** One round of the loop of [redis_del]. *)
Lemma del_one_key_spec (cur_key : string) (st : LSMEngine) :
  engine_wf st →
  returns (RedisMore.del_one_key rc rf cfg cur_key) st
    (fun counted st' =>
       counted = bool_decide (is_Some (answer st cur_key))
       ∧ engine_wf st'
       ∧ answer st' cur_key = None
       ∧ answer st' (Redis.get_explire_key rc cur_key) = None
       ∧ (∀ k, answer st' k = None ∨ answer st' k = answer st k)
       ∧ (match answer st cur_key with
          | Some v => RedisMore.is_value_hash rf v = false
          | None => True
          end →
          ∀ k, k ≠ cur_key → k ≠ Redis.get_explire_key rc cur_key →
               answer st' k = answer st k)).
Proof.
  intros W. unfold RedisMore.del_one_key.
  apply returns_bind, returns_get; [done|]. intros st1 W1 A1.
  (* the removal of the key and of its fields *)
  assert (returns
            (match answer st cur_key with
             | Some v =>
                 (if RedisMore.is_value_hash rf v
                  then
                    field_list <- RedisMore.get_fileds_from_hash_value rf
                                    (answer st cur_key) ;;
                    for_each
                      (fun field =>
                         Engine.remove cfg
                           (RedisMore.get_hash_filed_key rf cur_key field))
                      field_list
                  else ret tt) ;;;
                 Engine.remove cfg cur_key ;;;
                 ret true
             | None => ret false
             end%lsm) st1
            (fun counted st' =>
               counted = bool_decide (is_Some (answer st cur_key))
               ∧ engine_wf st'
               ∧ answer st' cur_key = None
               ∧ (∀ k, answer st' k = None ∨ answer st' k = answer st k)
               ∧ (match answer st cur_key with
                  | Some v => RedisMore.is_value_hash rf v = false
                  | None => True
                  end →
                  ∀ k, k ≠ cur_key → answer st' k = answer st k))) as Hkey.
  { destruct (answer st cur_key) as [v|] eqn:Ev.
    - destruct (RedisMore.is_value_hash rf v) eqn:Eh.
      + apply returns_bind, returns_bind, returns_fields_of_hash_value;
          [done|]. intros fields.
        apply returns_remove_all; [done|]. intros st2 W2 A2.
        apply returns_bind, returns_remove; [done|]. intros st3 W3 A3.
        apply returns_ret. split_and!; try done.
        * by rewrite A3, written_same.
        * intros k. rewrite A3. unfold written.
          destruct (String.eqb cur_key k); [by left|].
          rewrite A2. destruct (bool_decide _); [by left|].
          right. apply A1.
      + apply returns_bind, returns_ret.
        apply returns_bind, returns_remove; [done|]. intros st3 W3 A3.
        apply returns_ret. split_and!; try done.
        * by rewrite A3, written_same.
        * intros k. rewrite A3. unfold written.
          destruct (String.eqb cur_key k); [by left|]. right. apply A1.
        * intros _ k Hk. by rewrite A3, written_other, A1.
    - apply returns_ret. split_and!; try done.
      + by rewrite A1.
      + intros k. right. apply A1. }
  apply returns_bind. eapply returns_weaken; [exact Hkey|].
  intros counted st2 (-> & W2 & Ak & Am & Af). cbn beta.
  apply returns_bind, returns_get; [done|]. intros st3 W3 A3.
  destruct (answer st2 (Redis.get_explire_key rc cur_key)) as [e|] eqn:Ee.
  - apply returns_bind, returns_remove; [done|]. intros st4 W4 A4.
    apply returns_ret. split_and!; try done.
    + rewrite A4. unfold written.
      destruct (String.eqb _ cur_key); [done|]. by rewrite A3.
    + by rewrite A4, written_same.
    + intros k. rewrite A4. unfold written.
      destruct (String.eqb _ k); [by left|]. rewrite A3. apply Am.
    + intros Hv k H1 H2. rewrite A4, written_other, A3 by done.
      by apply Af.
  - apply returns_bind, returns_ret, returns_ret. split_and!; try done.
    + by rewrite A3.
    + by rewrite A3.
    + intros k. rewrite A3. apply Am.
    + intros Hv k H1 H2. rewrite A3. by apply Af.
Qed.

(** The loop: the named keys and their expiry records go, nothing else
    appears. *)
Lemma del_loop_spec (keys : list string) (del_count : nat)
    (st : LSMEngine) :
  engine_wf st →
  returns (RedisMore.del_loop rc rf cfg keys del_count) st
    (fun n st' =>
       del_count ≤ n ≤ del_count + length keys
       ∧ engine_wf st'
       ∧ (∀ k, k ∈ keys →
               answer st' k = None
               ∧ answer st' (Redis.get_explire_key rc k) = None)
       ∧ (∀ k, answer st' k = None ∨ answer st' k = answer st k)).
Proof.
  revert del_count st. induction keys as [|key keys IH];
    intros del_count st W.
  - apply returns_ret. split_and!; try done.
    + cbn. lia.
    + intros k Hk. by apply not_elem_of_nil in Hk.
    + intros k. by right.
  - cbn [RedisMore.del_loop]. apply returns_bind.
    eapply returns_weaken; [by apply del_one_key_spec|].
    intros counted st1 (_ & W1 & Ak & Ae & Am & _). cbn beta.
    eapply returns_weaken; [by apply IH|].
    intros n st2 (Hn & W2 & Hk & Hm). cbn beta. split_and!; try done.
    + destruct counted; lia.
    + cbn [length]. destruct counted; lia.
    + intros k [->|Hin]%elem_of_cons; [|by apply Hk].
      split.
      * destruct (Hm key) as [?|E]; [done|]. by rewrite E.
      * destruct (Hm (Redis.get_explire_key rc key)) as [?|E]; [done|].
        by rewrite E.
    + intros k. destruct (Hm k) as [?|E]; [by left|]. rewrite E. apply Am.
Qed.

End Del.

Section DelHash.
Context (rc : RedisConsts) (rf : RedisFormat).
Context (cfg : Consts).

Lemma prefix_app (p s : string) : String.prefix p (p +:+ s) = true.
Proof.
  induction p as [|c p IH]; [by destruct s|].
  rewrite string_app_cons. simpl. by destruct (Ascii.ascii_dec c c).
Qed.

(** [redis_del] of one key that holds a hash: the keys of the fields go
    with it. *)
Lemma redis_del_hash (cmd key : string) (fields : list string)
    (st : LSMEngine) :
  engine_wf st → holds_hash rf st key fields → fields ≠ [] →
  returns (RedisMore.redis_del rc rf cfg [cmd; key]) st
    (fun reply st' =>
       reply = Resp.int 1 ∧ engine_wf st'
       ∧ ∀ k, answer st' k
              = if bool_decide
                     (k ∈ Redis.get_explire_key rc key :: key
                          :: map (RedisMore.get_hash_filed_key rf key)
                               fields)
                then None else answer st k).
Proof.
  intros W [Hp E] Hne. unfold RedisMore.redis_del.
  cbn [tail RedisMore.del_loop]. unfold RedisMore.del_one_key.
  assert (answer st key
          = Some (RedisMore.get_hash_value_from_fields rf fields)) as Ek
    by (by destruct fields).
  apply returns_bind, returns_bind, returns_bind, returns_get; [done|].
  intros st1 W1 A1. rewrite Ek.
  unfold RedisMore.is_value_hash at 1.
  unfold RedisMore.get_hash_value_from_fields at 1. rewrite prefix_app.
  apply returns_bind, returns_bind, returns_bind.
  exists fields, st1. split.
  { by apply hash_value_round_trip, plain_splittable. }
  apply returns_remove_all; [done|]. intros st2 W2 A2.
  apply returns_bind, returns_remove; [done|]. intros st3 W3 A3.
  apply returns_ret, returns_bind, returns_get; [done|]. intros st4 W4 A4.
  assert (∀ k, k ≠ Redis.get_explire_key rc key →
               (if bool_decide
                     (k ∈ Redis.get_explire_key rc key :: key
                          :: map (RedisMore.get_hash_filed_key rf key)
                               fields)
                then None else answer st k) = answer st3 k) as Hform.
  { intros k Hk. rewrite A3. unfold written.
    destruct (String.eqb_spec key k) as [->|Hn2].
    { by rewrite bool_decide_eq_true_2 by (right; left). }
    rewrite A2, A1.
    destruct (bool_decide (k ∈ map _ fields)) eqn:Ein.
    - apply bool_decide_eq_true in Ein.
      by rewrite bool_decide_eq_true_2 by (by do 2 right).
    - apply bool_decide_eq_false in Ein.
      rewrite bool_decide_eq_false_2; [done|].
      intros [->|[->|?]%elem_of_cons]%elem_of_cons; done. }
  destruct (answer st3 (Redis.get_explire_key rc key)) as [e|] eqn:Ee.
  - apply returns_bind, returns_remove; [done|]. intros st5 W5 A5.
    apply returns_ret, returns_ret, returns_ret. split_and!; try done.
    intros k. rewrite A5. unfold written.
    destruct (String.eqb_spec (Redis.get_explire_key rc key) k) as [->|Hn].
    + by rewrite bool_decide_eq_true_2 by left.
    + rewrite A4. symmetry. by apply Hform.
  - apply returns_bind, returns_ret, returns_ret, returns_ret, returns_ret.
    split_and!; try done.
    intros k. rewrite A4.
    destruct (String.eqb_spec (Redis.get_explire_key rc key) k) as [<-|Hn].
    + by rewrite bool_decide_eq_true_2 by left.
    + symmetry. by apply Hform.
Qed.

End DelHash.
(** ** The sorted-set commands of the Redis wrapper *)

Section ZsetStore.
Context (rc : RedisConsts).
Context (cfg : Consts) (est : list KV → N) (build_ok : nat → bool).
Context (Wr : writable cfg est build_ok).
Context (now : Z).

Lemma zset_elem_key_not_set_key (key elem : string) :
  Redis.get_zset_key_elem rc key elem ≠ key.
Proof.
  unfold Redis.get_zset_key_elem. intros E.
  apply (f_equal String.length) in E.
  rewrite !string_length_app in E. cbn in E. lia.
Qed.

Lemma zset_elem_key_inj (key elem elem' : string) :
  Redis.get_zset_key_elem rc key elem = Redis.get_zset_key_elem rc key elem' →
  elem = elem'.
Proof.
  unfold Redis.get_zset_key_elem. intros E.
  by do 3 apply String.app_inj in E.
Qed.

(** [put_batch] in terms of answers. *)
Lemma returns_put_batch (kvs : list KV) (st : LSMEngine)
    (Q : unit → LSMEngine → Prop) :
  engine_wf st → kvs ≠ [] →
  (∀ st', engine_wf st' →
          (∀ k, answer st' k
                = match kv_lookup k (reverse kvs) with
                  | Some v => if String.eqb v EmptyString then None
                              else Some v
                  | None => answer st k
                  end) → Q tt st') →
  returns (Engine.put_batch cfg est build_ok kvs) st Q.
Proof using Wr.
  intros W Hne HQ. destruct Wr as [H1 H2 H3 H4 H5].
  destruct (put_batch_spec cfg est build_ok H1 H2 H3 H4 H5 kvs st W Hne)
    as (st' & E & W' & V).
  exists tt, st'. split; [done|]. apply HQ; [done|].
  intros k. rewrite !answer_view, V by done.
  destruct (kv_lookup k (reverse kvs)); [|done].
  cbn. apply not_deleted_eqb.
Qed.

(** A sorted set that is not expired: [expire_zset_clean] reads only. *)
Lemma expire_zset_clean_unexpired (key : string) (st : LSMEngine)
    (Q : bool → LSMEngine → Prop) :
  engine_wf st → unexpired rc now st key →
  (∀ st', engine_wf st' → (∀ k, answer st' k = answer st k) → Q false st') →
  returns (Redis.expire_zset_clean rc cfg now key) st Q.
Proof.
  intros W L HQ. unfold Redis.expire_zset_clean.
  apply returns_bind, returns_get; [done|]. intros st1 W1 A1.
  apply returns_bind, returns_is_expired_unexpired; [done|].
  apply returns_ret. by apply HQ.
Qed.

Lemma kv_lookup_cons_eq (k v : string) (l : list KV) :
  kv_lookup k ((k, v) :: l) = Some v.
Proof. unfold kv_lookup. cbn. by rewrite String.eqb_refl. Qed.

Lemma kv_lookup_cons_ne (k k' v : string) (l : list KV) :
  k' ≠ k → kv_lookup k ((k', v) :: l) = kv_lookup k l.
Proof.
  intros H. unfold kv_lookup. cbn.
  by rewrite (proj2 (String.eqb_neq _ _) H).
Qed.

(** [redis_zadd] of one pair whose element is not in the set. *)
Lemma redis_zadd_fresh (cmd key score elem : string) (st : LSMEngine) :
  engine_wf st → unexpired rc now st key →
  answer st (Redis.get_zset_key_elem rc key elem) = None →
  returns (Redis.redis_zadd rc cfg est build_ok now [cmd; key; score; elem])
    st
    (fun reply st' =>
       reply = Resp.int 1 ∧ engine_wf st'
       ∧ answer st' (Redis.get_zset_key_elem rc key elem)
         = (if String.eqb score EmptyString then None else Some score)
       ∧ answer st' (Redis.get_zset_key_socre rc key score)
         = (if String.eqb elem EmptyString then None else Some elem)
       ∧ ∀ k, k ≠ key → k ≠ Redis.get_zset_key_elem rc key elem →
              k ≠ Redis.get_zset_key_socre rc key score →
              answer st' k = answer st k).
Proof using Wr.
  intros W L Hfresh. unfold Redis.redis_zadd.
  apply returns_bind, expire_zset_clean_unexpired; [done..|].
  intros st1 W1 A1. apply returns_bind, returns_get; [done|].
  intros st2 W2 A2. cbn [Redis.zadd_loop].
  apply returns_bind, returns_bind, returns_get; [done|].
  intros st3 W3 A3. rewrite A2, !A1, Hfresh.
  apply returns_ret. cbn beta iota.
  apply returns_bind. exists tt, st3.
  split; [apply remove_batch_nil|]. cbn beta.
  pose proof (zset_score_key_not_elem_key rc key score elem) as Hse.
  set (ke := Redis.get_zset_key_elem rc key elem) in *.
  set (ks := Redis.get_zset_key_socre rc key score) in *.
  set (put_kvs := (_ ++ [(ks, elem); (ke, score)])).
  assert (put_kvs ≠ []) as Hne.
  { unfold put_kvs. intros E. apply app_eq_nil in E as [_ E]. discriminate. }
  assert (∃ pre, (pre = [] ∨ ∃ v, pre = [(key, v)])
                 ∧ reverse put_kvs = (ke, score) :: (ks, elem) :: pre)
    as (pre & Hpre & Hrev).
  { unfold put_kvs.
    destruct (answer st (Redis.get_zset_key_preffix rc key)).
    - exists []. split; [by left|reflexivity].
    - eexists [_]. split; [right; by eexists|reflexivity]. }
  apply returns_bind, returns_put_batch; [done..|].
  intros st4 W4 A4. apply returns_ret. split_and!; try done.
  - by rewrite A4, Hrev, kv_lookup_cons_eq.
  - rewrite A4, Hrev, kv_lookup_cons_ne, kv_lookup_cons_eq; done.
  - intros k H1 H2 H3. rewrite A4, Hrev.
    rewrite !kv_lookup_cons_ne by done.
    destruct Hpre as [->|[v ->]].
    + cbn. by rewrite A3, A2, A1.
    + rewrite kv_lookup_cons_ne by done. cbn. by rewrite A3, A2, A1.
Qed.

Lemma redis_zscore_unexpired (key elem : string) (st : LSMEngine) :
  engine_wf st → unexpired rc now st key →
  returns (RedisMore.redis_zscore rc cfg now key elem) st
    (fun reply st' =>
       reply = match answer st (Redis.get_zset_key_elem rc key elem) with
               | Some score => Resp.bulk score
               | None => Resp.nil
               end
       ∧ engine_wf st' ∧ ∀ k, answer st' k = answer st k).
Proof.
  intros W L. unfold RedisMore.redis_zscore.
  apply returns_bind, expire_zset_clean_unexpired; [done..|].
  intros st1 W1 A1. apply returns_bind, returns_get; [done|].
  intros st2 W2 A2. rewrite A1.
  assert (∀ k, answer st2 k = answer st k) as A
    by (intros k; by rewrite A2, A1).
  destruct (answer st _); by apply returns_ret.
Qed.

(** The loop of [redis_zrem]: the records of the named elements go,
    nothing else appears. *)
Lemma zrem_loop_spec (key : string) (elems : list string)
    (removed_count : nat) (st : LSMEngine) :
  engine_wf st →
  returns (RedisMore.zrem_loop rc cfg key elems removed_count) st
    (fun n st' =>
       removed_count ≤ n ≤ removed_count + length elems
       ∧ engine_wf st'
       ∧ (∀ e, e ∈ elems →
               answer st' (Redis.get_zset_key_elem rc key e) = None)
       ∧ (∀ k, answer st' k = None ∨ answer st' k = answer st k)).
Proof.
  revert removed_count st. induction elems as [|elem elems IH];
    intros removed_count st W.
  - apply returns_ret. split_and!; try done.
    + cbn. lia.
    + intros e He. by apply not_elem_of_nil in He.
    + intros k. by right.
  - cbn [RedisMore.zrem_loop].
    apply returns_bind, returns_get; [done|]. intros st1 W1 A1.
    destruct (answer st (Redis.get_zset_key_elem rc key elem))
      as [score|] eqn:Ee.
    + apply returns_bind, returns_remove; [done|]. intros st2 W2 A2.
      apply returns_bind, returns_remove; [done|]. intros st3 W3 A3.
      eapply returns_weaken; [by apply IH|].
      intros n st4 (Hn & W4 & He & Hm). cbn beta.
      assert (∀ k, answer st3 k = None ∨ answer st3 k = answer st k) as Hm3.
      { intros k. rewrite A3. unfold written.
        destruct (String.eqb _ k); [by left|]. rewrite A2. unfold written.
        destruct (String.eqb _ k); [by left|]. right. apply A1. }
      assert (answer st3 (Redis.get_zset_key_elem rc key elem) = None) as E3.
      { rewrite A3, written_other, A2, written_same; [done|].
        apply zset_score_key_not_elem_key. }
      split_and!; try done.
      * lia.
      * cbn [length]. lia.
      * intros e [->|Hin]%elem_of_cons; [|by apply He].
        destruct (Hm (Redis.get_zset_key_elem rc key elem)) as [?|E];
          [done|]. by rewrite E.
      * intros k. destruct (Hm k) as [?|E]; [by left|]. rewrite E.
        apply Hm3.
    + eapply returns_weaken; [by apply IH|].
      intros n st4 (Hn & W4 & He & Hm). cbn beta.
      split_and!; try done.
      * lia.
      * cbn [length]. lia.
      * intros e [->|Hin]%elem_of_cons; [|by apply He].
        destruct (Hm (Redis.get_zset_key_elem rc key elem)) as [?|E];
          [done|]. by rewrite E, A1.
      * intros k. destruct (Hm k) as [?|E]; [by left|]. rewrite E.
        right. apply A1.
Qed.

(** [redis_zrem] of one element of the set. *)
Lemma redis_zrem_one (cmd key elem score : string) (st : LSMEngine) :
  engine_wf st → unexpired rc now st key →
  answer st (Redis.get_zset_key_elem rc key elem) = Some score →
  returns (RedisMore.redis_zrem rc cfg now [cmd; key; elem]) st
    (fun reply st' =>
       reply = Resp.int 1 ∧ engine_wf st'
       ∧ answer st' (Redis.get_zset_key_elem rc key elem) = None
       ∧ answer st' (Redis.get_zset_key_socre rc key score) = None
       ∧ ∀ k, k ≠ Redis.get_zset_key_elem rc key elem →
              k ≠ Redis.get_zset_key_socre rc key score →
              answer st' k = answer st k).
Proof.
  intros W L He. unfold RedisMore.redis_zrem. cbn [length Nat.ltb Nat.leb].
  apply returns_bind, expire_zset_clean_unexpired; [done..|].
  intros st1 W1 A1. cbn [RedisMore.zrem_loop].
  apply returns_bind, returns_bind, returns_get; [done|].
  intros st2 W2 A2. rewrite A1, He.
  apply returns_bind, returns_remove; [done|]. intros st3 W3 A3.
  apply returns_bind, returns_remove; [done|]. intros st4 W4 A4.
  apply returns_ret, returns_ret. split_and!; try done.
  - rewrite A4, written_other, A3, written_same; [done|].
    apply zset_score_key_not_elem_key.
  - by rewrite A4, written_same.
  - intros k H1 H2. by rewrite A4, written_other, A3, written_other, A2, A1.
Qed.

End ZsetStore.

Section ZsetExample.

Lemma with_zset_wf : engine_wf States.with_zset.
Proof.
  assert (unexpired RedisExamples.consts 0 (Engine.init ∅) "z") as L
    by (vm_compute; exact I).
  assert (answer (Engine.init ∅)
            (Redis.get_zset_key_elem RedisExamples.consts "z" "a") = None)
    as Hfresh by (vm_compute; reflexivity).
  destruct (redis_zadd_fresh RedisExamples.consts Examples.roomy
              default_est Examples.io_fine roomy_writable 0 "ZADD" "z" "5"
              "a" (Engine.init ∅) (init_wf ∅) L Hfresh)
    as (r & st' & E & _ & W & _).
  unfold States.with_zset. rewrite E. exact W.
Qed.

End ZsetExample.
(** ** [redis_zadd] of any number of pairs *)

Lemma returns_eq {A} (m : M A) (st st' : LSMEngine) (a : A)
    (Q : A → LSMEngine → Prop) :
  returns m st Q → m st = Ok a st' → Q a st'.
Proof. intros (a' & st'' & E & HQ) E'. rewrite E in E'. by injection E' as <- <-. Qed.

(** A loop of calls that read only. *)
Lemma map_m_reads {A B} (f : A → M B) (l : list A) (st : LSMEngine) :
  (∀ x, x ∈ l → ∃ y, f x st = Ok y st) →
  ∃ ys, map_m f l st = Ok ys st.
Proof.
  induction l as [|x l IH]; intros H.
  - by exists [].
  - destruct (H x) as [y Ey]; [left|].
    destruct IH as [ys Eys]; [intros z Hz; apply H; by right|].
    exists (y :: ys). cbn [map_m]. by rewrite bind_unfold, Ey, bind_unfold, Eys.
Qed.

(** [lsm_iters_monotony_predicate] reads only. *)
Lemma monotony_predicate_reads (predicate : string → Z) (st : LSMEngine) :
  engine_wf st →
  ∃ r, Engine.lsm_iters_monotony_predicate predicate st = Ok r st.
Proof.
  intros W. unfold Engine.lsm_iters_monotony_predicate.
  rewrite bind_unfold. unfold gets at 1. rewrite bind_unfold. unfold gets at 1.
  rewrite bind_unfold.
  destruct (map_m_reads
              (fun l : nat * list nat =>
                 bind (map_m (Engine.range_items predicate l.1) l.2)
                   (fun vs => ret (concat vs)))
              (map_to_list (level_sst_ids st)) st) as [ys ->].
  { intros [l ids] Hl. apply elem_of_map_to_list in Hl. cbn [fst snd].
    destruct (map_m_reads (Engine.range_items predicate l) ids st) as [vs Evs].
    { intros id Hid.
      destruct (wf_resolve st W l id) as (s & Hs & _).
      { unfold level_ids. by rewrite Hl. }
      unfold Engine.range_items. rewrite bind_unfold. unfold sst_at.
      rewrite Hs. destruct (sst_iters_monotony_predicate s predicate);
        eauto. }
    exists (concat vs). by rewrite bind_unfold, Evs. }
  destruct (MemTable_iters_monotony_predicate predicate (memtable st)),
    (concat ys); eauto.
Qed.

Section ZaddAny.
Context (rc : RedisConsts).
Context (cfg : Consts) (est : list KV → N) (build_ok : nat → bool).
Context (Wr : writable cfg est build_ok).
Context (now : Z).

(** When [expire_zset_clean] returns, the engine is well formed, and
    nothing has changed unless the set was expired. *)
Lemma expire_zset_clean_wf (key : string) (st st1 : LSMEngine)
    (expired : bool) :
  engine_wf st →
  Redis.expire_zset_clean rc cfg now key st = Ok expired st1 →
  engine_wf st1 ∧ (expired = false → ∀ k, answer st1 k = answer st k).
Proof.
  intros W. unfold Redis.expire_zset_clean.
  rewrite bind_unfold.
  destruct (returns_get (Redis.get_explire_key rc key) st
              (fun r st' => r = answer st (Redis.get_explire_key rc key)
                            ∧ engine_wf st'
                            ∧ ∀ k, answer st' k = answer st k) W)
    as (r & st0 & -> & -> & W0 & A0); [done|].
  rewrite bind_unfold.
  assert (∀ st2 b,
            (if b : bool
             then bind (Engine.remove cfg key) (fun _ =>
                  bind (Engine.remove cfg (Redis.get_explire_key rc key))
                    (fun _ =>
                  bind (Engine.lsm_iters_monotony_predicate
                          (Redis.prefix_predicate
                             (Redis.get_zset_key_preffix rc key)))
                    (fun result_elem =>
                       bind match result_elem with
                            | Some elem_begin =>
                                Engine.remove_batch cfg
                                  (map fst (drain elem_begin))
                            | None => ret tt
                            end
                         (fun _ => ret true))))
             else ret false) st0 = Ok expired st2 →
            engine_wf st2
            ∧ (expired = false → ∀ k, answer st2 k = answer st k)) as Hrest.
  { intros st2 [|].
    - intros E.
      assert (returns
                (bind (Engine.remove cfg key) (fun _ =>
                 bind (Engine.remove cfg (Redis.get_explire_key rc key))
                   (fun _ =>
                 bind (Engine.lsm_iters_monotony_predicate
                         (Redis.prefix_predicate
                            (Redis.get_zset_key_preffix rc key)))
                   (fun result_elem =>
                      bind match result_elem with
                           | Some elem_begin =>
                               Engine.remove_batch cfg
                                 (map fst (drain elem_begin))
                           | None => ret tt
                           end
                        (fun _ => ret true))))) st0
                (fun b st' => b = true ∧ engine_wf st')) as R.
      { apply returns_bind, returns_remove; [done|]. intros s1 W1 _.
        apply returns_bind, returns_remove; [done|]. intros s2 W2 _.
        apply returns_bind.
        destruct (monotony_predicate_reads
                    (Redis.prefix_predicate
                       (Redis.get_zset_key_preffix rc key)) s2 W2) as [r Er].
        exists r, s2. split; [done|].
        destruct r as [it|].
        - destruct (remove_batch_spec cfg (map fst (drain it)) s2 W2)
            as (s3 & E3 & W3 & _).
          apply returns_bind. exists tt, s3. split; [done|].
          by apply returns_ret.
        - apply returns_bind, returns_ret. by apply returns_ret. }
      destruct (returns_eq _ _ _ _ _ R E) as [-> W2]. done.
    - intros [= <- <-]. done. }
  unfold Redis.is_expired.
  destruct (answer st (Redis.get_explire_key rc key)) as [e|].
  - destruct (Redis.stoll e) as [t|]; [|done].
    intros E. exact (Hrest st1 (t <? now)%Z E).
  - intros E. exact (Hrest st1 false E).
Qed.

(** The loop of [redis_zadd] on the pairs of its arguments: it only
    reads. *)
Lemma zadd_loop_spec (ans : string → option string) (key : string)
    (pairs : list (string * string)) :
  ∀ (put_kvs : list KV) (remove_keys : list string) (added_count : nat)
    (st : LSMEngine) (Q : list KV * list string * nat → LSMEngine → Prop),
    engine_wf st → (∀ k, answer st k = ans k) →
    (∀ st', engine_wf st' → (∀ k, answer st' k = ans k) →
            Q (put_kvs ++ zadd_put_kvs rc ans key pairs,
               remove_keys ++ zadd_remove_keys rc ans key pairs,
               added_count + length (List.filter (zadd_writes rc ans key) pairs))
              st') →
    returns (Redis.zadd_loop rc key (zadd_args pairs) put_kvs remove_keys
               added_count) st Q.
Proof.
  induction pairs as [|[score elem] pairs IH];
    intros put_kvs remove_keys added_count st Q W A HQ.
  - apply returns_ret. specialize (HQ st W A).
    unfold zadd_put_kvs, zadd_remove_keys in HQ. cbn in HQ.
    by rewrite !app_nil_r, Nat.add_0_r in HQ.
  - change (zadd_args ((score, elem) :: pairs))
      with (score :: elem :: zadd_args pairs).
    cbn [Redis.zadd_loop].
    apply returns_bind, returns_get; [done|]. intros st1 W1 A1.
    assert (∀ k, answer st1 k = ans k) as A1'
      by (intros k; by rewrite A1).
    rewrite A.
    assert (∀ st', engine_wf st' → (∀ k, answer st' k = ans k) →
              Q (put_kvs
                 ++ (if zadd_writes rc ans key (score, elem)
                     then [(Redis.get_zset_key_socre rc key score, elem);
                           (Redis.get_zset_key_elem rc key elem, score)]
                     else []) ++ zadd_put_kvs rc ans key pairs,
                 remove_keys
                 ++ match ans (Redis.get_zset_key_elem rc key elem) with
                    | Some o => if String.eqb o score then []
                                else [Redis.get_zset_key_socre rc key o]
                    | None => []
                    end ++ zadd_remove_keys rc ans key pairs,
                 added_count
                 + ((if zadd_writes rc ans key (score, elem) then 1 else 0)
                    + length (List.filter (zadd_writes rc ans key) pairs)))
                st') as HQ'.
    { intros st' W' A'. specialize (HQ st' W' A').
      unfold zadd_put_kvs, zadd_remove_keys in *.
      cbn [List.filter flat_map fst snd] in HQ.
      destruct (zadd_writes rc ans key (score, elem)); exact HQ. }
    clear HQ. unfold zadd_writes at 1 2 in HQ'. cbn [fst snd] in HQ'.
    destruct (ans (Redis.get_zset_key_elem rc key elem)) as [o|].
    + destruct (String.eqb o score); cbn [negb] in HQ'.
      * apply IH; [done..|]. intros st' W' A'.
        specialize (HQ' st' W' A'). cbn [app] in HQ'. exact HQ'.
      * apply IH; [done..|]. intros st' W' A'.
        specialize (HQ' st' W' A'). rewrite <- !app_assoc.
        replace (S added_count + _)
          with (added_count + (1 + length
                  (List.filter (zadd_writes rc ans key) pairs))) by lia.
        exact HQ'.
    + apply IH; [done..|]. intros st' W' A'.
      specialize (HQ' st' W' A'). rewrite <- !app_assoc.
      replace (S added_count + _)
        with (added_count + (1 + length
                (List.filter (zadd_writes rc ans key) pairs))) by lia.
      cbn [app] in HQ'. exact HQ'.
Qed.

(** The keys [put_kvs] holds. *)
Lemma zadd_put_kvs_elem (ans : string → option string) (key : string)
    (pairs : list (string * string)) (k v : string) :
  (k, v) ∈ zadd_put_kvs rc ans key pairs →
  ∃ s e, (s, e) ∈ pairs ∧ zadd_writes rc ans key (s, e) = true
         ∧ ((k = Redis.get_zset_key_socre rc key s ∧ v = e)
            ∨ (k = Redis.get_zset_key_elem rc key e ∧ v = s)).
Proof.
  unfold zadd_put_kvs. intros H.
  apply list_elem_of_In, in_flat_map in H as ([s e] & Hin & Hkv).
  apply filter_In in Hin as [Hin Hw]. apply list_elem_of_In in Hin.
  exists s, e. split_and!; [done..|].
  cbn in Hkv. destruct Hkv as [[= <- <-]|[[= <- <-]|[]]]; eauto.
Qed.

Lemma zadd_remove_keys_elem (ans : string → option string) (key : string)
    (pairs : list (string * string)) (score elem original : string) :
  (score, elem) ∈ pairs →
  ans (Redis.get_zset_key_elem rc key elem) = Some original →
  original ≠ score →
  Redis.get_zset_key_socre rc key original
    ∈ zadd_remove_keys rc ans key pairs.
Proof.
  intros Hin Ho Hne. unfold zadd_remove_keys.
  apply list_elem_of_In, in_flat_map. exists (score, elem).
  split; [by apply list_elem_of_In|]. cbn [fst snd]. rewrite Ho.
  apply eqb_false in Hne. rewrite Hne. by left.
Qed.

Lemma kv_lookup_elem (k v : string) (l : list KV) :
  kv_lookup k l = Some v → (k, v) ∈ l.
Proof.
  induction l as [|[k' v'] l IH]; [done|].
  destruct (String.eqb_spec k' k) as [->|Hne].
  - rewrite kv_lookup_cons_eq. intros [= ->]. left.
  - rewrite kv_lookup_cons_ne by done. intros H. right. by apply IH.
Qed.

Lemma kv_lookup_absent (k : string) (l : list KV) :
  (∀ v, (k, v) ∉ l) → kv_lookup k l = None.
Proof.
  intros H. destruct (kv_lookup k l) as [v|] eqn:E; [|done].
  apply kv_lookup_elem in E. by destruct (H v).
Qed.

End ZaddAny.

Section ZaddRecords.
Context (rc : RedisConsts).

Lemma zadd_put_kvs_score (ans : string → option string) (key : string)
    (pairs : list (string * string)) (s e : string) :
  (s, e) ∈ pairs → zadd_writes rc ans key (s, e) = true →
  (Redis.get_zset_key_socre rc key s, e) ∈ zadd_put_kvs rc ans key pairs.
Proof.
  intros Hin Hw. unfold zadd_put_kvs.
  apply list_elem_of_In, in_flat_map. exists (s, e). split.
  - apply filter_In. split; [by apply list_elem_of_In|done].
  - by left.
Qed.

(** A key of a score record in [put_kvs] comes from a pair that is
    written. *)
Lemma zadd_score_key_written (ans : string → option string)
    (key : string) (pairs : list (string * string)) (score v : string) :
  (Redis.get_zset_key_socre rc key score, v)
    ∈ zadd_set_record rc ans key ++ zadd_put_kvs rc ans key pairs →
  ∃ s, (s, v) ∈ pairs ∧ zadd_writes rc ans key (s, v) = true
       ∧ Redis.get_zset_key_socre rc key s
         = Redis.get_zset_key_socre rc key score.
Proof.
  intros [Hv|Hv]%elem_of_app.
  - unfold zadd_set_record in Hv.
    destruct (ans (Redis.get_zset_key_preffix rc key));
      [by apply elem_of_nil in Hv|].
    apply list_elem_of_singleton in Hv. injection Hv as Hk _.
    by apply zset_score_key_not_set_key in Hk.
  - apply zadd_put_kvs_elem in Hv as (s & e & Hse & Hw & [[Hk ->]|[Hk _]]).
    + by exists s.
    + by apply zset_score_key_not_elem_key in Hk.
Qed.

End ZaddRecords.
(** ** [redis_zincrby]: the conversion of the sum *)




Section Zincrby.
Context (rc : RedisConsts).
Context (cfg : Consts) (est : list KV → N) (build_ok : nat → bool).
Context (Wr : writable cfg est build_ok).
Context (now : Z).
Context (stod : string → option Double.double).




End Zincrby.

(* ================================================================== *)
(** * Part III: the claims                                             *)
(* ================================================================== *)

(** ** C4: [remove(k)] against [put(k, empty)] *)

(** C4 (as amended).  [LSMEngine::remove(k)] applies to the memtable the
    update that [put(k, empty)] applies and does nothing else: it returns
    in every state, and SSTs, levels, files, counters and trace stay as
    they are, so it never flushes.  [put(k, empty)] makes the same update
    and then compares the total size of the memtable with
    [LSM_TOL_MEM_SIZE_LIMIT]: below the watermark it returns in the state
    that [remove(k)] leaves, and at or above it it goes on with [flush()]
    in that state. *)
Theorem C4_remove_is_put_without_the_flush
    (cfg : Consts) (est : list KV → N) (build_ok : nat → bool)
    (k : string) (st : LSMEngine) :
  let updated :=
    set_memtable (Mem.put cfg k EmptyString (memtable st)) st in
  Engine.remove cfg k st = Ok tt updated
  ∧ (ssts updated = ssts st ∧ level_sst_ids updated = level_sst_ids st
     ∧ disk updated = disk st ∧ trace updated = trace st
     ∧ cur_max_sst_id updated = cur_max_sst_id st
     ∧ cur_max_level updated = cur_max_level st)
  ∧ ((Mem.get_total_size (memtable updated) < LSM_TOL_MEM_SIZE_LIMIT cfg)%N →
     Engine.put cfg est build_ok k EmptyString st = Ok tt updated
     ∧ Engine.put cfg est build_ok k EmptyString st = Engine.remove cfg k st)
  ∧ ((LSM_TOL_MEM_SIZE_LIMIT cfg ≤ Mem.get_total_size (memtable updated))%N →
     Engine.put cfg est build_ok k EmptyString st
     = Engine.flush cfg est build_ok updated).
Proof.
  intros updated.
  assert (Engine.remove cfg k st = Ok tt updated) as Er by done.
  pose proof (put_tombstone_unfold cfg est build_ok k st) as Ep.
  rewrite Er in Ep. cbn [state_of] in Ep. cbv zeta in Ep.
  split_and!; try done.
  - intros Hlt. rewrite Er, Ep.
    by destruct (N.leb_spec (LSM_TOL_MEM_SIZE_LIMIT cfg)
                   (Mem.get_total_size (memtable updated))); [lia|].
  - intros Hge. rewrite Ep.
    by destruct (N.leb_spec (LSM_TOL_MEM_SIZE_LIMIT cfg)
                   (Mem.get_total_size (memtable updated))); [|lia].
Qed.

Lemma C4_remove_is_put_without_the_flush_witness :
  Engine.remove Examples.roomy "k" (Engine.init ∅)
  = Engine.put Examples.roomy default_est Examples.io_fine "k" EmptyString
      (Engine.init ∅)
  ∧ Engine.put Examples.tiny default_est Examples.io_fine "key1" EmptyString
      (Engine.init ∅)
    = Engine.flush Examples.tiny default_est Examples.io_fine
        (set_memtable
           (Mem.put Examples.tiny "key1" EmptyString
              (memtable (Engine.init ∅)))
           (Engine.init ∅)).
Proof.
  assert (Mem.get_total_size
            (Mem.put Examples.roomy "k" EmptyString
               (memtable (Engine.init ∅)))
          < LSM_TOL_MEM_SIZE_LIMIT Examples.roomy)%N as H1
    by (vm_compute; reflexivity).
  assert (LSM_TOL_MEM_SIZE_LIMIT Examples.tiny
          ≤ Mem.get_total_size
              (Mem.put Examples.tiny "key1" EmptyString
                 (memtable (Engine.init ∅))))%N as H2
    by (vm_compute; discriminate).
  destruct (C4_remove_is_put_without_the_flush Examples.roomy default_est
              Examples.io_fine "k" (Engine.init ∅)) as (_ & _ & Hb & _).
  destruct (C4_remove_is_put_without_the_flush Examples.tiny default_est
              Examples.io_fine "key1" (Engine.init ∅)) as (_ & _ & _ & Ha).
  split; [symmetry; exact (proj2 (Hb H1))|exact (Ha H2)].
Defined.

(** C4 as stated fails: at the watermark [put(k, empty)] flushes the frozen
    table into an SST and [remove(k)] does not. *)
Lemma C4_remove_differs_from_put_at_watermark :
  ¬ (∀ (cfg : Consts) (est : list KV → N) (build_ok : nat → bool)
       (k : string) (st : LSMEngine),
       Engine.remove cfg k st = Engine.put cfg est build_ok k EmptyString st).
Proof.
  intros H.
  specialize (H Examples.tiny default_est Examples.io_fine "key1"%string
                (Engine.init ∅)).
  apply (f_equal (fun r => cur_max_sst_id (state_of r))) in H.
  vm_compute in H. discriminate H.
Qed.

(** ** C3: [flush] and the frozen list *)

(** C3 (the code at the failing input).  On a fresh engine, [put("a","1")]
    followed by [flush()] enters the flush path with a non-empty memtable
    and an empty frozen list: [flush_last] is invoked and panics. *)
Theorem C3_flush_reaches_flush_last_without_frozen_table :
  ∃ st st',
    Engine.put Examples.roomy default_est Examples.io_fine "a" "1" (Engine.init ∅)
      = Ok tt st
    ∧ frozen_tables (memtable st) = []
    ∧ (0 < Mem.get_total_size (memtable st))%N
    ∧ Engine.flush Examples.roomy default_est Examples.io_fine st
      = Throw NoFrozenTable st'.
Proof.
  eexists _, _. split; [vm_compute; reflexivity|].
  split; [reflexivity|]. split; [vm_compute; reflexivity|].
  vm_compute. reflexivity.
Qed.

(** ** C5: the order of level 0 *)

(** C5 (the code at the failing input).  Re-opening a directory that holds
    the level-0 SST 0 leaves [cur_max_sst_id = 0]; the next flush mints the
    identifier 0 again, level 0 becomes [0; 0], and the record of the old
    SST is lost. *)
Theorem C5_flush_after_reopen_reuses_sst_id :
  ∃ st0 st1,
    Engine.open Examples.one_sst_dir = Ok tt st0
    ∧ level_ids 0 st0 = [0] ∧ cur_max_sst_id st0 = 0
    ∧ value_of (Engine.get "a" st0) = Some (Some "1"%string)
    ∧ Engine.put Examples.tiny default_est Examples.io_fine "k1" "v1" st0
      = Ok tt st1
    ∧ level_ids 0 st1 = [0; 0]
    ∧ size (ssts st1) = 1
    ∧ value_of (Engine.get "a" st1) = Some None.
Proof.
  eexists _, _. split; [vm_compute; reflexivity|].
  repeat split; vm_compute; reflexivity.
Qed.

(** ** C8: the cuts of [gen_sst_from_iter] and the target sizes *)

(** C8.  When every file can be written, [gen_sst_from_iter] returns SSTs
    whose records partition the input of the cursor (a remainder is left out
    only if its estimated size is 0); every SST but the last was closed by
    the test [estimated_size() >= target_size] at the first [add] that
    reached the target, and the last one either was closed in this way or
    is what the builder held at the end of the input.  [get_sst_size(0)] is
    the per-memtable limit and, where the product fits in [size_t] and the
    power is exact on [double]s, the compaction into [level >= 1] calls
    [gen_sst_from_iter] with the per-memtable limit times the ratio to the
    power of the level. *)
Theorem C8_rollover_and_target_sizes
    (cfg : Consts) (est : list KV → N) (build_ok : nat → bool)
    {T : Type} `{LawfulIterator T}
    (iter : T) (target_size : N) (target_level : nat) (st : LSMEngine)
    (lx_ids ly_ids : list nat) (level_y : nat) :
  (∀ id, build_ok id = true) →
  1 ≤ level_y →
  (LSM_SST_LEVEL_RATIO cfg ^ N.of_nat level_y < 2 ^ 53)%N →
  (LSM_PER_MEM_SIZE_LIMIT cfg * LSM_SST_LEVEL_RATIO cfg ^ N.of_nat level_y
   < 2 ^ 64)%N →
  (∃ new_ssts st',
     Engine.gen_sst_from_iter est build_ok iter target_size target_level st
       = Ok new_ssts st'
     ∧ (∃ dropped,
          concat (map sst_entries new_ssts) ++ dropped = drain iter
          ∧ (dropped = [] ∨ est dropped = 0%N))
     ∧ (∀ i s, new_ssts !! i = Some s → S i < length new_ssts →
               closed_at est target_size (sst_entries s))
     ∧ (∀ s, last new_ssts = Some s →
             closed_at est target_size (sst_entries s)
             ∨ left_open est target_size (sst_entries s)))
  ∧ Engine.get_sst_size cfg 0 = LSM_PER_MEM_SIZE_LIMIT cfg
  ∧ Engine.get_sst_size cfg level_y
    = (LSM_PER_MEM_SIZE_LIMIT cfg * LSM_SST_LEVEL_RATIO cfg ^ N.of_nat level_y)%N
  ∧ Engine.full_common_compact cfg est build_ok lx_ids ly_ids level_y st
    = bind (map_m sst_at lx_ids) (fun lx_iters =>
      bind (map_m sst_at ly_ids) (fun ly_iters =>
        Engine.gen_sst_from_iter est build_ok
          (mkTwoMerge (Concat.make lx_iters) (Concat.make ly_iters))
          (LSM_PER_MEM_SIZE_LIMIT cfg * LSM_SST_LEVEL_RATIO cfg ^ N.of_nat level_y)%N
          level_y)) st
  ∧ (level_y = 1 →
     Engine.full_l0_l1_compact cfg est build_ok lx_ids ly_ids st
     = bind (map_m (fun id => bind (sst_at id)
                                (fun sst => ret (SstIter.begin sst))) lx_ids)
         (fun l0_iters =>
      bind (map_m sst_at ly_ids) (fun l1_ssts =>
        Engine.gen_sst_from_iter est build_ok
          (mkTwoMerge (SstIter.merge_sst_iterator l0_iters) (Concat.make l1_ssts))
          (LSM_PER_MEM_SIZE_LIMIT cfg * LSM_SST_LEVEL_RATIO cfg ^ N.of_nat level_y)%N
          level_y)) st).
Proof.
  intros Hio Hlevel Hexact Hfit.
  split; [|split; [|split; [|split]]].
  - eexists _, _. split; [by apply gen_sst_from_iter_spec|].
    destruct (chunks_spec est target_size (drain iter)) as (Hpart & Hclosed & Hlast).
    set (cs := chunks est target_size (drain iter)) in *.
    pose proof (build_all_entries (cur_max_sst_id st) target_level cs) as Hmap.
    split; [by rewrite Hmap|]. split.
    + intros i s Hs Hlen. rewrite build_all_length in Hlen.
      apply build_all_lookup in Hs as (c & Hc & ->). simpl. by eapply Hclosed.
    + intros s Hs. apply Hlast. rewrite <- Hmap.
      change (map sst_entries ?l) with (sst_entries <$> l).
      by rewrite fmap_last, Hs.
  - apply get_sst_size_0.
  - by apply get_sst_size_pow.
  - unfold Engine.full_common_compact. by rewrite get_sst_size_pow.
  - intros ->. unfold Engine.full_l0_l1_compact.
    by rewrite l0_l1_target_pow.
Qed.

Lemma C8_rollover_and_target_sizes_witness :
  let iter :=
    mkTwoMerge
      (Concat.make [mkSST 7 (Engine.get_sst_path 7 0)
                      [("a", "1"); ("c", "3")]%string])
      (Concat.make [mkSST 8 (Engine.get_sst_path 8 1)
                      [("b", "2"); ("c", "0"); ("d", "4")]%string]) in
  (∀ id, Examples.io_fine id = true)
  ∧ 1 ≤ 1
  ∧ (LSM_SST_LEVEL_RATIO Examples.tiny ^ N.of_nat 1 < 2 ^ 53)%N
  ∧ (LSM_PER_MEM_SIZE_LIMIT Examples.tiny
     * LSM_SST_LEVEL_RATIO Examples.tiny ^ N.of_nat 1 < 2 ^ 64)%N
  ∧ Engine.get_sst_size Examples.tiny 1 = 8%N
  ∧ ∃ new_ssts st',
      Engine.gen_sst_from_iter default_est Examples.io_fine iter 8 1
        (Engine.init ∅) = Ok new_ssts st'
      ∧ ∀ i s, new_ssts !! i = Some s → S i < length new_ssts →
               closed_at default_est 8 (sst_entries s).
Proof.
  intros iter.
  assert (∀ id, Examples.io_fine id = true) as H1 by reflexivity.
  assert (1 ≤ 1) as H2 by lia.
  assert (LSM_SST_LEVEL_RATIO Examples.tiny ^ N.of_nat 1 < 2 ^ 53)%N as H3
    by (vm_compute; reflexivity).
  assert (LSM_PER_MEM_SIZE_LIMIT Examples.tiny
          * LSM_SST_LEVEL_RATIO Examples.tiny ^ N.of_nat 1 < 2 ^ 64)%N as H4
    by (vm_compute; reflexivity).
  destruct (C8_rollover_and_target_sizes Examples.tiny default_est
              Examples.io_fine iter 8%N 1 (Engine.init ∅) [] [] 1 H1 H2 H3 H4)
    as ((new_ssts & st' & E & _ & Hclosed & _) & _ & Hsize & _).
  split_and!; try done.
  by exists new_ssts, st'.
Defined.

(** ** C1: reading back a sequence of writes *)

(** C1 (as amended).  On a fresh engine, with files that can be written, a
    per-table limit no larger than the total limit and a level ratio of at
    least 1, every finite sequence of [put] and [remove] returns, and a
    subsequent [get(k)] returns the value of the last [put(k, v)] when [v]
    is not empty; it returns nothing when the last operation on [k] was
    [remove(k)] or [put(k, empty)], and for a key never written. *)
Theorem C1_get_reads_back_last_write
    (cfg : Consts) (est : list KV → N) (build_ok : nat → bool)
    (Hio : ∀ id, build_ok id = true)
    (Hest_nil : est [] = 0%N)
    (Hest_pos : ∀ c, c ≠ [] → (0 < est c)%N)
    (Hratio : (1 ≤ LSM_SST_LEVEL_RATIO cfg)%N)
    (Hlimits : (LSM_PER_MEM_SIZE_LIMIT cfg ≤ LSM_TOL_MEM_SIZE_LIMIT cfg)%N)
    (ops : list op) (k : string) :
  ∃ st st',
    run cfg est build_ok ops (Engine.init ∅) = Ok tt st
    ∧ Engine.get k st = Ok (reads_back k ops) st'.
Proof.
  destruct (run_spec cfg est build_ok Hio Hest_nil Hest_pos Hratio Hlimits
              ops (Engine.init ∅) (init_wf ∅)) as (st & Erun & W & V).
  destruct (get_spec k st (wf_readable st W)) as (st' & Eget & _).
  exists st, st'. split; [done|].
  rewrite Eget. f_equal.
  rewrite (consulted_view k st (wf_readable st W)), V, init_view.
  unfold reads_back.
  destruct (last_on k ops) as [[k' v|k']|]; cbn; try done.
  apply not_deleted_eqb.
Qed.

Lemma C1_get_reads_back_last_write_witness :
  ∃ st st',
    run Examples.tiny default_est Examples.io_fine
      [Put "a" "1"; Put "b" "2"; Put "c" "3"; Remove "a"; Put "d" "4";
       Put "b" "5"; Put "e" EmptyString; Put "f" "6"]%string
      (Engine.init ∅) = Ok tt st
    ∧ Engine.get "b" st
      = Ok (reads_back "b"
              [Put "a" "1"; Put "b" "2"; Put "c" "3"; Remove "a"; Put "d" "4";
               Put "b" "5"; Put "e" EmptyString; Put "f" "6"]%string) st'.
Proof.
  apply (C1_get_reads_back_last_write Examples.tiny default_est Examples.io_fine).
  - reflexivity.
  - reflexivity.
  - exact default_est_pos.
  - vm_compute. discriminate.
  - vm_compute. discriminate.
Defined.

(** C1 as stated fails: after [put(k, empty)] the value of the last [put]
    is the empty string, and [get(k)] returns nothing. *)
Lemma C1_empty_put_reads_back_nothing :
  ¬ (∀ (ops : list op) (k : string),
       ∃ st st' r,
         run Examples.roomy default_est Examples.io_fine ops (Engine.init ∅)
           = Ok tt st
         ∧ Engine.get k st = Ok r st'
         ∧ match last_on k ops with
           | Some (Put _ v) => r = Some v
           | Some (Remove _) => r = None
           | None => True
           end).
Proof.
  intros H.
  destruct (H [Put "k" EmptyString]%string "k"%string)
    as (st & st' & r & Erun & Eget & Hr).
  vm_compute in Erun. injection Erun as <-.
  vm_compute in Eget. injection Eget as <- <-.
  vm_compute in Hr. discriminate Hr.
Qed.

(** ** C2: the order of the lookups of [get] *)

(** C2.  In a state whose levels can be searched, [get(k)] returns, and
    what it returns is decided by the first hit among: the memtable; the
    level-0 SSTs in stored order; for each level from 1 to [cur_max_level]
    the SST whose range [first_key, last_key] contains [k], asked with
    [sst.get(k)].  A first hit with a value that is not empty is returned
    with that value; a first hit with the empty value is returned as
    nothing, as is no hit at all; an empty value is never returned.  The
    stored order of level 0 is largest [sst_id] first: under the invariant
    of the engine the identifiers of the level-0 SSTs descend strictly in
    the order of the lookups, so that the hit of level 0 is the record of
    the SST with the largest identifier that holds the key; and every
    state that [put] and [remove] reach from a fresh engine satisfies the
    invariant and can be searched. *)
Theorem C2_get_consults_layers_in_order (key : string) (st : LSMEngine) :
  readable st →
  ∃ st',
    same_data st st'
    ∧ (∀ v, first_some (consulted key st) = Some v → v ≠ EmptyString →
            Engine.get key st = Ok (Some v) st')
    ∧ (first_some (consulted key st) = Some EmptyString →
       Engine.get key st = Ok None st')
    ∧ (first_some (consulted key st) = None →
       Engine.get key st = Ok None st')
    ∧ (∀ st'', Engine.get key st ≠ Ok (Some EmptyString) st'')
    ∧ (engine_wf st →
       StronglySorted (fun a b => b < a) (map sst_id (level_ssts 0 st))
       ∧ ∀ v, first_some (map (sst_value key) (level_ssts 0 st)) = Some v
              ↔ ∃ s, s ∈ level_ssts 0 st ∧ (key, v) ∈ sst_entries s
                     ∧ ∀ s' v', s' ∈ level_ssts 0 st →
                                (key, v') ∈ sst_entries s' →
                                sst_id s' ≤ sst_id s)
    ∧ (∀ (cfg : Consts) (est : list KV → N) (build_ok : nat → bool)
         (dir : gmap string (list KV)) (ops : list op),
         writable cfg est build_ok →
         ∃ st1,
           run cfg est build_ok ops (Engine.init dir) = Ok tt st1
           ∧ engine_wf st1 ∧ readable st1
           ∧ StronglySorted (fun a b => b < a)
               (map sst_id (level_ssts 0 st1))).
Proof.
  intros R. destruct (get_spec key st R) as (st' & Eget & Hsame).
  exists st'. split_and!; try done.
  - intros v E Hv. rewrite Eget, E. cbn. rewrite not_deleted_eqb.
    by rewrite (proj2 (String.eqb_neq _ _) Hv).
  - intros E. by rewrite Eget, E.
  - intros E. by rewrite Eget, E.
  - intros st'' E. rewrite Eget in E.
    assert (first_some (consulted key st) ≫= Engine.not_deleted
            = Some EmptyString) as E' by congruence.
    destruct (first_some (consulted key st)) as [v|]; [|done].
    cbn in E'. rewrite not_deleted_eqb in E'.
    destruct (String.eqb v EmptyString) eqn:Ev; [done|].
    injection E' as ->. done.
  - intros W.
    assert (StronglySorted (fun a b => b < a)
              (map sst_id (level_ssts 0 st))) as Hsort.
    { rewrite (level_ssts_ids 0 st W). apply (wf_l0_order st W). }
    split; [done|]. intros v.
    rewrite <- (app_nil_r (map (sst_value key) (level_ssts 0 st))).
    rewrite l0_first_some. cbn [first_some].
    assert (∀ o : option string,
              match o with Some a => Some a | None => None end = o) as Hid
      by (by intros []).
    rewrite Hid.
    apply l0_lookup_largest_id; [done|]. apply (wf_l0_entries st W).
  - intros cfg est build_ok dir ops [H1 H2 H3 H4 H5].
    destruct (run_spec cfg est build_ok H1 H2 H3 H4 H5 ops (Engine.init dir)
                (init_wf dir)) as (st1 & E & W1 & _).
    exists st1. split_and!; try done.
    + by apply wf_readable.
    + rewrite (level_ssts_ids 0 st1 W1). apply (wf_l0_order st1 W1).
Qed.

Lemma C2_get_consults_layers_in_order_witness :
  let st := state_of
    (run Examples.tiny default_est Examples.io_fine
       [Put "a" "1"; Put "b" "2"; Put "c" "3"; Remove "a"; Put "d" "4";
        Put "b" "5"; Put "e" EmptyString; Put "f" "6"]%string
       (Engine.init ∅)) in
  readable st
  ∧ (∃ st', Engine.get "b" st = Ok (Some "5"%string) st')
  ∧ (∃ st', Engine.get "a" st = Ok None st').
Proof.
  intros st.
  assert (readable st) as R.
  { subst st.
    destruct (run_spec Examples.tiny default_est Examples.io_fine
                (fun _ => eq_refl) default_est_nil default_est_pos
                ltac:(vm_compute; discriminate) ltac:(vm_compute; discriminate)
                [Put "a" "1"; Put "b" "2"; Put "c" "3"; Remove "a"; Put "d" "4";
                 Put "b" "5"; Put "e" EmptyString; Put "f" "6"]%string
                (Engine.init ∅) (init_wf ∅)) as (st' & E & W & _).
    rewrite E. by apply wf_readable. }
  assert (first_some (consulted "b" st) = Some "5"%string) as Hb
    by (vm_compute; reflexivity).
  assert ("5"%string ≠ EmptyString) as H5 by discriminate.
  assert (first_some (consulted "a" st) = Some EmptyString) as Ha
    by (vm_compute; reflexivity).
  split; [exact R|].
  destruct (C2_get_consults_layers_in_order "b" st R)
    as (st1 & _ & E1 & _).
  destruct (C2_get_consults_layers_in_order "a" st R)
    as (st2 & _ & _ & E2 & _).
  split; [exists st1; exact (E1 _ Hb H5)|exists st2; exact (E2 Ha)].
Defined.
(** ** C7: old SSTs and replacements in a compaction *)


(** A run of two steps that fails in the second.  Level 1 of the state is
    full, so that [full_compact(0)] first merges level 1 into level 2;
    the build of the SST 8, a replacement of the step of level 0, then
    fails.  The SST of level 0 is still registered and its file is there,
    while the old SSTs 2, 3 and 4 of level 1 are deleted and the SSTs 6
    and 7 stand in for them at level 2. *)
Lemma full_compact_fails_in_the_second_step :
  let build_ok := fun id : nat => negb (id =? 8) in
  let st := States.two_levels in
  let r := Engine.full_compact Examples.tiny default_est build_ok 5 0 st in
  (level_ids 0 st = [5] ∧ level_ids 1 st = [2; 3; 4])
  ∧ r = Throw (IOError (Engine.get_sst_path 8 1)) (state_of r)
  ∧ trace (state_of r)
    = trace st ++ [EvBuild 6 2; EvBuild 7 2; EvDelete 2; EvErase 2;
                   EvDelete 3; EvErase 3; EvDelete 4; EvErase 4;
                   EvRegister 6; EvRegister 7]
  ∧ (level_ids 0 (state_of r) = [5] ∧ is_Some (ssts (state_of r) !! 5)
     ∧ is_Some (disk (state_of r) !! Engine.get_sst_path 5 0))
  ∧ (level_ids 1 (state_of r) = [] ∧ level_ids 2 (state_of r) = [6; 7]
     ∧ Forall (fun id => ssts (state_of r) !! id = None
                         ∧ disk (state_of r) !! Engine.get_sst_path id 1
                           = None) [2; 3; 4]).
Proof.
  intros build_ok st r. split_and!.
  - vm_compute. reflexivity.
  - vm_compute. reflexivity.
  - vm_compute. reflexivity.
  - vm_compute. reflexivity.
  - vm_compute. reflexivity.
  - vm_compute. eexists. reflexivity.
  - vm_compute. eexists. reflexivity.
  - vm_compute. reflexivity.
  - vm_compute. reflexivity.
  - repeat constructor; vm_compute; reflexivity.
Qed.


(** ** C6: the merged cursors *)

(** C6.  In a well-formed engine the three merged cursors emit strictly
    ascending keys, each paired with the newest value among the inputs.
    The heap over the skiplists of the memtable pairs a key with the value
    of the active table, else of the table frozen last that holds it (what
    the memtable's [get] finds).  The heap over the level-0 SSTs pairs a key
    with the value in the SST of largest [sst_id] that holds it.  The
    two-merge cursor returned by [LSMEngine::begin] pairs a key with the
    value of the memtable side when that side holds it, else with the value
    of the level-0 side. *)
Theorem C6_merged_cursors_ascend_and_newest_wins (st : LSMEngine) :
  engine_wf st →
  let mem_iter := MemTable_begin (memtable st) in
  let l0_iter :=
    SstIter.merge_sst_iterator (map SstIter.begin (level_ssts 0 st)) in
  (ascending (drain mem_iter)
   ∧ ∀ k, kv_lookup k (drain mem_iter) = Mem.get k (memtable st))
  ∧ (ascending (drain l0_iter)
     ∧ ∀ k v, kv_lookup k (drain l0_iter) = Some v
        ↔ ∃ s, s ∈ level_ssts 0 st ∧ (k, v) ∈ sst_entries s
               ∧ ∀ s' v', s' ∈ level_ssts 0 st → (k, v') ∈ sst_entries s' →
                          sst_id s' ≤ sst_id s)
  ∧ ∃ it st',
      Engine.begin st = Ok it st'
      ∧ same_data st st'
      ∧ ascending (drain it)
      ∧ ∀ k, kv_lookup k (drain it)
             = match Mem.get k (memtable st) with
               | Some v => Some v
               | None => kv_lookup k (drain l0_iter)
               end.
Proof.
  intros W mem_iter l0_iter.
  assert (StronglySorted (fun a b => b < a) (map sst_id (level_ssts 0 st)))
    as Hsort.
  { rewrite (level_ssts_ids 0 st W). apply (wf_l0_order st W). }
  pose proof (wf_l0_entries st W) as Hentries.
  destruct (mem_begin_spec (memtable st) (wf_mem st W)) as [Hmasc Hmlk].
  destruct (l0_heap_spec _ Hsort Hentries) as [Hlasc Hllk].
  destruct (l0_positions_spec _ Hsort Hentries) as [Hpasc Hplk].
  split; [done|]. split.
  { split; [done|]. intros k v. subst l0_iter. rewrite Hllk.
    by apply l0_lookup_largest_id. }
  eexists _, _. split.
  { apply begin_eq. intros id Hid.
    destruct (wf_resolve st W 0 id Hid) as (s & -> & _). done. }
  split; [apply same_data_touch|].
  rewrite two_merge_drain. split.
  - by apply merge2_ascending.
  - intros k. rewrite merge2_lookup by done.
    subst mem_iter l0_iter. by rewrite Hmlk, Hplk, Hllk.
Qed.

Lemma C6_merged_cursors_ascend_and_newest_wins_witness :
  let cfg := Build_Consts 4096 4 12 4 in
  let st := state_of
    (run cfg default_est Examples.io_fine
       [Put "b" "1"; Put "a" "2"; Put "c" "3"; Put "a" "4"; Put "d" "5";
        Remove "c"; Put "a" "7"]%string
       (Engine.init ∅)) in
  engine_wf st
  ∧ ∃ it st', Engine.begin st = Ok it st' ∧ ascending (drain it)
      ∧ ∀ k, kv_lookup k (drain it)
             = match Mem.get k (memtable st) with
               | Some v => Some v
               | None =>
                   kv_lookup k
                     (drain (SstIter.merge_sst_iterator
                               (map SstIter.begin (level_ssts 0 st))))
               end.
Proof.
  intros cfg st.
  assert (engine_wf st) as W.
  { subst st.
    destruct (run_spec cfg default_est Examples.io_fine
                (fun _ => eq_refl) default_est_nil default_est_pos
                ltac:(vm_compute; discriminate) ltac:(vm_compute; discriminate)
                [Put "b" "1"; Put "a" "2"; Put "c" "3"; Put "a" "4";
                 Put "d" "5"; Remove "c"; Put "a" "7"]%string
                (Engine.init ∅) (init_wf ∅)) as (st' & E & W & _).
    by rewrite E. }
  split; [exact W|].
  destruct (C6_merged_cursors_ascend_and_newest_wins st W)
    as (_ & _ & it & st' & E & _ & Hasc & Hlk).
  by exists it, st'.
Defined.
(** ** C9: [redis_zadd] and the record of the old score *)

(** C9 (as amended).  Let [redis_zadd] be called with any number of pairs
    of a score and an element, and let one of them give another score to
    an element that is in the sorted set when [expire_zset_clean] has
    returned (this call purges a set that is expired).  The call returns.
    The key of the record of the old score is collected in [remove_keys],
    which is not used again: [remove_batch] is given the empty [del_keys]
    and changes nothing, and the store changes by [put_batch(put_kvs)]
    alone.  So the record of the old score is read back unchanged when no
    pair that the call writes has a score with the same score key.
    Otherwise the call itself overwrites the record: the score key then
    holds the element of such a pair, or nothing when that element is
    the empty string. *)
Theorem C9_zadd_never_removes_old_score_record
    (rc : RedisConsts) (cfg : Consts) (est : list KV → N)
    (build_ok : nat → bool) (Wr : writable cfg est build_ok) (now : Z)
    (cmd key : string) (pairs : list (string * string))
    (score elem original_score : string)
    (st st1 : LSMEngine) (expired : bool) :
  engine_wf st →
  Redis.expire_zset_clean rc cfg now key st = Ok expired st1 →
  (score, elem) ∈ pairs →
  answer st1 (Redis.get_zset_key_elem rc key elem) = Some original_score →
  original_score ≠ score →
  let old := Redis.get_zset_key_socre rc key original_score in
  let put_kvs := zadd_set_record rc (answer st1) key
                 ++ zadd_put_kvs rc (answer st1) key pairs in
  let remove_keys := zadd_remove_keys rc (answer st1) key pairs in
  let added_count :=
    length (List.filter (zadd_writes rc (answer st1) key) pairs) in
  (expired = false → ∀ k, answer st1 k = answer st k)
  ∧ value_of (Redis.zadd_loop rc key (zadd_args pairs)
                (zadd_set_record rc (answer st1) key) [] 0 st1)
    = Some (put_kvs, remove_keys, added_count)
  ∧ old ∈ remove_keys
  ∧ (∀ s, Engine.remove_batch cfg [] s = Ok tt s)
  ∧ ∃ st',
      Redis.redis_zadd rc cfg est build_ok now
        (cmd :: key :: zadd_args pairs) st
      = Ok (":" +:+ pretty added_count +:+ crlf) st'
      ∧ engine_wf st'
      ∧ (∀ k, answer st' k
              = match kv_lookup k (reverse put_kvs) with
                | Some v => if String.eqb v EmptyString then None else Some v
                | None => answer st1 k
                end)
      ∧ ((∀ s e, (s, e) ∈ pairs →
                 zadd_writes rc (answer st1) key (s, e) = true →
                 Redis.get_zset_key_socre rc key s ≠ old) →
         answer st' old = answer st1 old)
      ∧ (answer st' old = answer st1 old
         ∨ ∃ s e, (s, e) ∈ pairs
                  ∧ zadd_writes rc (answer st1) key (s, e) = true
                  ∧ Redis.get_zset_key_socre rc key s = old
                  ∧ answer st' old
                    = if String.eqb e EmptyString then None else Some e).
Proof.
  intros W E1 Hin Ho Hne old put_kvs remove_keys added_count.
  destruct (expire_zset_clean_wf rc cfg now key st st1 expired W E1)
    as [W1 A1].
  assert (zadd_writes rc (answer st1) key (score, elem) = true) as Hw.
  { unfold zadd_writes. cbn [fst snd]. rewrite Ho.
    apply eqb_false in Hne. by rewrite Hne. }
  split_and!.
  - exact A1.
  - destruct (zadd_loop_spec rc (answer st1) key pairs
                (zadd_set_record rc (answer st1) key) [] 0 st1
                (fun r _ => r = (put_kvs, remove_keys, added_count)) W1
                (fun _ => eq_refl)) as (r & st2 & E & ->); [done|].
    by rewrite E.
  - by apply (zadd_remove_keys_elem rc (answer st1) key pairs score elem).
  - intros s. apply remove_batch_nil.
  - assert (returns
              (Redis.redis_zadd rc cfg est build_ok now
                 (cmd :: key :: zadd_args pairs)) st
              (fun reply st' =>
                 reply = ":" +:+ pretty added_count +:+ crlf
                 ∧ engine_wf st'
                 ∧ ∀ k, answer st' k
                        = match kv_lookup k (reverse put_kvs) with
                          | Some v => if String.eqb v EmptyString
                                      then None else Some v
                          | None => answer st1 k
                          end)) as (reply & st' & E & -> & W' & A').
    { unfold Redis.redis_zadd. apply returns_bind.
      exists expired, st1. split; [done|].
      apply returns_bind, returns_get; [done|]. intros st2 W2 A2.
      apply returns_bind.
      apply (zadd_loop_spec rc (answer st1) key pairs); [done..|].
      intros st3 W3 A3.
      change (match answer st1 (Redis.get_zset_key_preffix rc key) with
              | Some _ => []
              | None => [] ++ [(key, Redis.get_zset_key_preffix rc key)]
              end) with (zadd_set_record rc (answer st1) key).
      fold put_kvs. cbn [app Nat.add]. fold added_count.
      apply returns_bind. exists tt, st3.
      split; [apply remove_batch_nil|].
      apply returns_bind, returns_put_batch; [done..| |].
      - intros Hnil.
        pose proof (zadd_put_kvs_score rc (answer st1) key pairs score elem
                      Hin Hw) as Hmem.
        assert ((Redis.get_zset_key_socre rc key score, elem) ∈ put_kvs)
          as Hmem' by (apply elem_of_app; by right).
        rewrite Hnil in Hmem'. by apply elem_of_nil in Hmem'.
      - intros st4 W4 A4. apply returns_ret. split_and!; [done..|].
        intros k. rewrite A4. destruct (kv_lookup k _); [done|].
        apply A3. }
    exists st'. split_and!; [done..| |].
    + intros Hno. rewrite A'.
      rewrite kv_lookup_absent; [done|]. intros v Hv.
      rewrite elem_of_reverse in Hv.
      apply zadd_score_key_written in Hv as (s & Hs & Hws & Hk).
      by apply (Hno s v).
    + destruct (kv_lookup old (reverse put_kvs)) as [v|] eqn:Ek.
      * right. pose proof (kv_lookup_elem _ _ _ Ek) as Hv.
        rewrite elem_of_reverse in Hv.
        apply zadd_score_key_written in Hv as (s & Hs & Hws & Hk).
        exists s, v. split_and!; [done..|]. by rewrite A', Ek.
      * left. by rewrite A', Ek.
Qed.

Lemma C9_zadd_never_removes_old_score_record_witness :
  let rc := RedisExamples.consts in
  let st := States.with_zset in
  let st1 := state_of (Redis.expire_zset_clean rc Examples.roomy 0 "z" st) in
  writable Examples.roomy default_est Examples.io_fine
  ∧ engine_wf st
  ∧ Redis.expire_zset_clean rc Examples.roomy 0 "z" st = Ok false st1
  ∧ ("7", "a")%string ∈ [("7", "a"); ("5", "b")]%string
  ∧ answer st1 (Redis.get_zset_key_elem rc "z" "a") = Some "5"%string
  ∧ "5"%string ≠ "7"%string
  ∧ ∃ st',
      Redis.redis_zadd rc Examples.roomy default_est Examples.io_fine 0
        ["ZADD"; "z"; "7"; "a"; "5"; "b"]%string st
      = Ok (":2" +:+ crlf) st'
      ∧ answer st' (Redis.get_zset_key_elem rc "z" "a") = Some "7"%string
      ∧ answer st' (Redis.get_zset_key_socre rc "z" "5") = Some "b"%string.
Proof.
  intros rc st st1.
  assert (Redis.expire_zset_clean rc Examples.roomy 0 "z" st = Ok false st1)
    as H1 by (vm_compute; reflexivity).
  assert (("7", "a")%string ∈ [("7", "a"); ("5", "b")]%string) as H2
    by left.
  assert (answer st1 (Redis.get_zset_key_elem rc "z" "a") = Some "5"%string)
    as H3 by (vm_compute; reflexivity).
  assert ("5"%string ≠ "7"%string) as H4 by discriminate.
  split; [apply roomy_writable|]. split; [apply with_zset_wf|].
  split; [exact H1|]. split; [exact H2|]. split; [exact H3|].
  split; [exact H4|].
  destruct (C9_zadd_never_removes_old_score_record rc Examples.roomy
              default_est Examples.io_fine roomy_writable 0 "ZADD" "z"
              [("7", "a"); ("5", "b")]%string "7" "a" "5" st st1 false
              with_zset_wf H1 H2 H3 H4)
    as (_ & _ & _ & _ & st' & E & _ & A & _).
  exists st'. split; [|split].
  - change ["ZADD"; "z"; "7"; "a"; "5"; "b"]%string
      with ("ZADD" :: "z" :: zadd_args [("7", "a"); ("5", "b")])%string.
    rewrite E. vm_compute. reflexivity.
  - rewrite A. vm_compute. reflexivity.
  - rewrite A. vm_compute. reflexivity.
Defined.

(** C9 as stated fails: the record of the old score does not always
    survive.  In a set where [a] has the score 5, [ZADD z 7 a 5 b] gives
    [a] the score 7 and overwrites the record of the score 5 with [b]. *)
Lemma C9_zadd_overwrites_old_score_record :
  ¬ (∀ (rc : RedisConsts) (cfg : Consts) (est : list KV → N)
       (build_ok : nat → bool) (now : Z) (cmd key : string)
       (pairs : list (string * string)) (score elem original_score : string)
       (reply : string) (st st' : LSMEngine),
       engine_wf st →
       answer st (Redis.get_explire_key rc key) = None →
       answer st (Redis.get_zset_key_elem rc key elem)
       = Some original_score →
       answer st (Redis.get_zset_key_socre rc key original_score)
       = Some elem →
       (score, elem) ∈ pairs →
       original_score ≠ score →
       Redis.redis_zadd rc cfg est build_ok now
         (cmd :: key :: zadd_args pairs) st = Ok reply st' →
       answer st' (Redis.get_zset_key_socre rc key original_score)
       = Some elem).
Proof.
  intros H.
  pose (st' := state_of
          (Redis.redis_zadd RedisExamples.consts Examples.roomy default_est
             Examples.io_fine 0 ["ZADD"; "z"; "7"; "a"; "5"; "b"]%string
             States.with_zset)).
  specialize (H RedisExamples.consts Examples.roomy default_est
                Examples.io_fine 0%Z "ZADD"%string "z"%string
                [("7", "a"); ("5", "b")]%string "7"%string "a"%string
                "5"%string (":2" +:+ crlf) States.with_zset st'
                with_zset_wf).
  assert (answer st' (Redis.get_zset_key_socre RedisExamples.consts "z" "5")
          = Some "b"%string) as Hb by (vm_compute; reflexivity).
  rewrite Hb in H.
  assert (Some "b"%string = Some "a"%string) as Habs; [|discriminate Habs].
  apply H.
  - vm_compute. reflexivity.
  - vm_compute. reflexivity.
  - vm_compute. reflexivity.
  - left.
  - discriminate.
  - vm_compute. reflexivity.
Qed.
(** ** C10: the new score of [redis_zincrby] *)



(** The conversion at work: a fraction is cut off; 2^53 + 1 is not a
    [double] and the sum is rounded to 2^53; -0.5 truncates to 0; -2 and
    2^64 have no [uint64_t]. *)
Lemma sum_conversions :
  Double.to_uint64
    (PrimFloat.add (Double.of_long 5) (Double.of_ratio false 15 10))
  = Some 6%Z
  ∧ Double.to_uint64
      (PrimFloat.add (Double.of_long (2 ^ 53)) (Double.of_ratio false 1 1))
    = Some (2 ^ 53)%Z
  ∧ Double.to_uint64
      (PrimFloat.add (Double.of_long 0) (Double.of_ratio true 5 10))
    = Some 0%Z
  ∧ Double.to_uint64
      (PrimFloat.add (Double.of_long 5) (Double.of_ratio true 7 1))
    = None
  ∧ Double.to_uint64
      (PrimFloat.add (Double.of_long (2 ^ 63 - 1))
         (Double.of_ratio false (2 ^ 63) 1))
    = None.
Proof. split_and!; vm_compute; reflexivity. Qed.


(* ================================================================== *)
(** * Part IV: further properties of the code                          *)
(* ================================================================== *)

(** ** The order on [SearchItem] *)

(** X1.  [operator>] is the converse of [operator<]; [operator<] is a
    strict order (irreflexive, asymmetric, transitive) that compares the
    key first and [idx] second; [operator==] holds exactly for the items
    that [operator<] does not separate, which are those with the same key
    and the same [idx], whatever their values and levels. *)
Theorem X1_search_item_operators_agree (a b c : SearchItem.t) :
  SearchItem.gt a b = SearchItem.lt b a
  ∧ SearchItem.lt a a = false
  ∧ (SearchItem.lt a b = true → SearchItem.lt b a = false)
  ∧ (SearchItem.lt a b = true → SearchItem.lt b c = true →
     SearchItem.lt a c = true)
  ∧ (SearchItem.eq a b = true
     ↔ SearchItem.lt a b = false ∧ SearchItem.lt b a = false)
  ∧ (SearchItem.eq a b = true
     ↔ SearchItem.key a = SearchItem.key b
       ∧ SearchItem.idx a = SearchItem.idx b).
Proof.
  destruct a as [ka va ia la], b as [kb vb ib lb], c as [kc vc ic lc].
  unfold SearchItem.gt, SearchItem.lt, SearchItem.eq. cbn.
  assert (∀ x y, String.eqb x y = String.eqb y x) as Hsym
    by apply String.eqb_sym.
  split_and!.
  - by rewrite (Hsym ka kb).
  - rewrite String.eqb_refl. cbn. lia.
  - rewrite (Hsym kb ka).
    destruct (String.eqb ka kb) eqn:E; cbn.
    + lia.
    + intros H. by apply ltb_asym.
  - destruct (String.eqb ka kb) eqn:E1, (String.eqb kb kc) eqn:E2; cbn.
    + apply eqb_true in E1 as ->. rewrite E2. cbn. lia.
    + apply eqb_true in E1 as ->. rewrite E2. cbn. done.
    + apply eqb_true in E2 as ->. rewrite E1. cbn. done.
    + intros H1 H2. pose proof (ltb_trans _ _ _ H1 H2) as H3.
      rewrite (proj2 (String.eqb_neq ka kc)); [done|].
      intros ->. by rewrite ltb_irrefl in H3.
  - rewrite (Hsym kb ka).
    destruct (String.eqb ka kb) eqn:E; cbn.
    + rewrite andb_true_r. split; [intros ?%Z.eqb_eq; lia|].
      intros [? ?]. apply Z.eqb_eq. lia.
    + rewrite andb_false_r. split; [done|]. intros [H1 H2].
      apply eqb_false in E.
      destruct (trichotomy ka kb) as [H|[H|H]]; congruence.
  - rewrite andb_true_iff, Z.eqb_eq. split.
    + intros [-> ->%eqb_true]. done.
    + intros [-> ->]. by rewrite String.eqb_refl.
Qed.

(** ** The invariant of the engine *)

(** X2.  From a well-formed state every sequence of [put] and [remove]
    returns and leaves a well-formed state, through all the flushes and
    compactions it causes: level 0 lists its SSTs by strictly descending
    [sst_id]; every listed identifier is registered under its own id and
    lies below [cur_max_sst_id]; no identifier is listed in two levels; from
    level 1 on the records of a level ascend strictly along the level. *)
Theorem X2_writes_keep_the_invariant
    (cfg : Consts) (est : list KV → N) (build_ok : nat → bool)
    (ops : list op) (st : LSMEngine) :
  writable cfg est build_ok →
  engine_wf st →
  ∃ st',
    run cfg est build_ok ops st = Ok tt st'
    ∧ engine_wf st'
    ∧ StronglySorted (fun a b => b < a) (level_ids 0 st')
    ∧ (∀ level id, id ∈ level_ids level st' →
         id < cur_max_sst_id st'
         ∧ ∃ s, ssts st' !! id = Some s ∧ sst_id s = id)
    ∧ (∀ l1 l2 id, id ∈ level_ids l1 st' → id ∈ level_ids l2 st' → l1 = l2)
    ∧ (∀ level, 1 ≤ level → ascending (level_records level st')).
Proof.
  intros [H1 H2 H3 H4 H5] W.
  destruct (run_spec cfg est build_ok H1 H2 H3 H4 H5 ops st W)
    as (st' & E & W' & _).
  exists st'. split_and!; try done.
  - apply (wf_l0_order st' W').
  - intros level id Hid. split.
    + by apply (wf_fresh st' W' level).
    + by apply (wf_resolve st' W' level).
  - apply (wf_disjoint st' W').
  - intros level Hl. by apply (wf_levels st' W').
Qed.

Lemma X2_writes_keep_the_invariant_witness :
  writable Examples.tiny default_est Examples.io_fine
  ∧ engine_wf (Engine.init ∅)
  ∧ ∃ st',
      run Examples.tiny default_est Examples.io_fine States.eight_writes
        (Engine.init ∅) = Ok tt st'
      ∧ StronglySorted (fun a b => b < a) (level_ids 0 st').
Proof.
  split; [apply tiny_writable|]. split; [apply init_wf|].
  destruct (X2_writes_keep_the_invariant Examples.tiny default_est
              Examples.io_fine States.eight_writes (Engine.init ∅)
              tiny_writable (init_wf ∅)) as (st' & E & _ & Hs & _).
  exists st'. exact (conj E Hs).
Defined.

(** ** [flush] *)

(** X3.  In a well-formed state with data in the memtable and a frozen
    table at hand, [flush] returns: the oldest frozen table leaves the
    memtable and is the SST at the head of level 0, which has the largest
    identifier of the level; the active table and the other frozen tables
    stay; and [get] answers for every key what it answered before, also
    when the flush compacts level 0 first. *)
Theorem X3_flush_moves_oldest_table_and_keeps_reads
    (cfg : Consts) (est : list KV → N) (build_ok : nat → bool)
    (st : LSMEngine) (rest : list SkipList.t) (t : SkipList.t) :
  writable cfg est build_ok →
  engine_wf st →
  frozen_tables (memtable st) = rest ++ [t] →
  (0 < Mem.get_total_size (memtable st))%N →
  ∃ st',
    Engine.flush cfg est build_ok st = Ok tt st'
    ∧ engine_wf st'
    ∧ (∀ k, answer st' k = answer st k)
    ∧ memtable st' = mkMem (current_table (memtable st)) rest
    ∧ ∃ s, head (level_ssts 0 st') = Some s ∧ sst_entries s = t
           ∧ ∀ id, id ∈ level_ids 0 st' → id ≤ sst_id s.
Proof.
  intros Wr W Efr Hpos.
  destruct (flush_detail cfg est build_ok Wr st rest t W Efr Hpos)
    as (st' & E & W' & V & M & Hs).
  exists st'. split_and!; try done.
  intros k. by rewrite !answer_view, V.
Qed.

Lemma X3_flush_moves_oldest_table_and_keeps_reads_witness :
  writable MoreExamples.three_tables default_est Examples.io_fine
  ∧ engine_wf States.with_frozen
  ∧ frozen_tables (memtable States.with_frozen)
    = [[("a", "7"); ("c", EmptyString); ("d", "5")]]%string
      ++ [[("a", "4"); ("c", "3")]%string]
  ∧ (0 < Mem.get_total_size (memtable States.with_frozen))%N
  ∧ ∃ st',
      Engine.flush MoreExamples.three_tables default_est Examples.io_fine
        States.with_frozen = Ok tt st'
      ∧ ∀ k, answer st' k = answer States.with_frozen k.
Proof.
  assert (frozen_tables (memtable States.with_frozen)
          = [[("a", "7"); ("c", EmptyString); ("d", "5")]]%string
            ++ [[("a", "4"); ("c", "3")]%string]) as H1
    by (vm_compute; reflexivity).
  assert (0 < Mem.get_total_size (memtable States.with_frozen))%N as H2
    by (vm_compute; reflexivity).
  split_and!;
    [apply three_tables_writable|apply with_frozen_wf|exact H1|exact H2|].
  destruct (X3_flush_moves_oldest_table_and_keeps_reads
              MoreExamples.three_tables default_est Examples.io_fine
              States.with_frozen _ _ three_tables_writable with_frozen_wf
              H1 H2) as (st' & E & _ & V & _).
  exists st'. exact (conj E V).
Defined.

(** ** [full_compact] *)

(** X4.  In a well-formed state [full_compact(src)] returns (the recursion
    stops within [cur_max_level] steps), keeps the invariant and the
    memtable, leaves level [src] empty, and [get] answers for every key
    what it answered before. *)
Theorem X4_full_compact_empties_level_and_keeps_reads
    (cfg : Consts) (est : list KV → N) (build_ok : nat → bool)
    (fuel src : nat) (st : LSMEngine) :
  writable cfg est build_ok →
  engine_wf st →
  0 < fuel → cur_max_level st < src + fuel →
  ∃ st',
    Engine.full_compact cfg est build_ok fuel src st = Ok tt st'
    ∧ engine_wf st'
    ∧ (∀ k, answer st' k = answer st k)
    ∧ memtable st' = memtable st
    ∧ level_ids src st' = [].
Proof.
  intros [H1 H2 H3 H4 H5] W Hf Hlvl.
  destruct (full_compact_spec cfg est build_ok H1 H2 H3 H4 fuel src st W Hf Hlvl)
    as (st' & E & W' & V & M & L).
  exists st'. split_and!; try done.
  intros k. by rewrite !answer_view, V.
Qed.

Lemma X4_full_compact_empties_level_and_keeps_reads_witness :
  writable Examples.tiny default_est Examples.io_fine
  ∧ engine_wf States.two_levels
  ∧ 0 < 2 ∧ cur_max_level States.two_levels < 0 + 2
  ∧ ∃ st',
      Engine.full_compact Examples.tiny default_est Examples.io_fine 2 0
        States.two_levels = Ok tt st'
      ∧ level_ids 0 st' = []
      ∧ ∀ k, answer st' k = answer States.two_levels k.
Proof.
  assert (cur_max_level States.two_levels < 0 + 2) as H
    by (vm_compute; lia).
  split_and!; [apply tiny_writable|apply two_levels_wf|lia|exact H|].
  destruct (X4_full_compact_empties_level_and_keeps_reads Examples.tiny
              default_est Examples.io_fine 2 0 States.two_levels
              tiny_writable two_levels_wf ltac:(lia) H)
    as (st' & E & _ & V & _ & L).
  exists st'. exact (conj E (conj L V)).
Defined.

(** ** [put_batch] and [remove_batch] *)

(** X5.  In a well-formed state [put_batch] of at least one pair returns
    and keeps the invariant; afterwards [get] answers for a key of the
    batch the value of the last pair with this key (nothing if that value
    is empty), and for every other key what it answered before. *)
Theorem X5_put_batch_reads_back_last_pair
    (cfg : Consts) (est : list KV → N) (build_ok : nat → bool)
    (kvs : list KV) (st : LSMEngine) :
  writable cfg est build_ok →
  engine_wf st →
  kvs ≠ [] →
  ∃ st',
    Engine.put_batch cfg est build_ok kvs st = Ok tt st'
    ∧ engine_wf st'
    ∧ ∀ k, answer st' k
           = match kv_lookup k (reverse kvs) with
             | Some v => if String.eqb v EmptyString then None else Some v
             | None => answer st k
             end.
Proof.
  intros [H1 H2 H3 H4 H5] W Hne.
  destruct (put_batch_spec cfg est build_ok H1 H2 H3 H4 H5 kvs st W Hne)
    as (st' & E & W' & V).
  exists st'. split_and!; try done.
  intros k. rewrite !answer_view, V by done.
  destruct (kv_lookup k (reverse kvs)); [|done].
  cbn. apply not_deleted_eqb.
Qed.

Lemma X5_put_batch_reads_back_last_pair_witness :
  writable Examples.tiny default_est Examples.io_fine
  ∧ engine_wf States.two_levels
  ∧ [("b", "8"); ("b", "9"); ("a", "0")]%string ≠ []
  ∧ ∃ st',
      Engine.put_batch Examples.tiny default_est Examples.io_fine
        [("b", "8"); ("b", "9"); ("a", "0")]%string States.two_levels
      = Ok tt st'
      ∧ answer st' "b" = Some "9"%string.
Proof.
  split_and!; [apply tiny_writable|apply two_levels_wf|discriminate|].
  destruct (X5_put_batch_reads_back_last_pair Examples.tiny default_est
              Examples.io_fine [("b", "8"); ("b", "9"); ("a", "0")]%string
              States.two_levels tiny_writable two_levels_wf
              ltac:(discriminate))
    as (st' & E & _ & V).
  exists st'. split; [exact E|]. rewrite V. reflexivity.
Defined.

(** X6.  In a well-formed state [remove_batch] returns; afterwards [get]
    answers nothing for the keys of the batch and what it answered before
    for every other key.  It writes to the memtable alone: whatever the
    size of the memtable, no SST is built, no level changes and no file
    is touched. *)
Theorem X6_remove_batch_only_writes_tombstones
    (cfg : Consts) (ks : list string) (st : LSMEngine) :
  engine_wf st →
  ∃ st',
    Engine.remove_batch cfg ks st = Ok tt st'
    ∧ engine_wf st'
    ∧ (∀ k, answer st' k = if decide (k ∈ ks) then None else answer st k)
    ∧ ssts st' = ssts st ∧ level_sst_ids st' = level_sst_ids st
    ∧ disk st' = disk st ∧ trace st' = trace st.
Proof.
  intros W.
  destruct (remove_batch_spec cfg ks st W)
    as (st' & E & W' & V & Hs & Hl & Hd & Ht & _).
  exists st'. split_and!; try done.
  intros k. rewrite !answer_view, V by done.
  by destruct (decide (k ∈ ks)).
Qed.

Lemma X6_remove_batch_only_writes_tombstones_witness :
  engine_wf States.two_levels
  ∧ ∃ st',
      Engine.remove_batch Examples.tiny ["b"; "c"; "x"]%string
        States.two_levels = Ok tt st'
      ∧ answer st' "c" = None
      ∧ trace st' = trace States.two_levels.
Proof.
  split; [apply two_levels_wf|].
  destruct (X6_remove_batch_only_writes_tombstones Examples.tiny
              ["b"; "c"; "x"]%string States.two_levels two_levels_wf)
    as (st' & E & _ & V & _ & _ & _ & Ht).
  exists st'. split; [exact E|]. split; [|exact Ht].
  rewrite V. reflexivity.
Defined.

(** ** [clear] *)

(** X7.  [clear] returns in every state, well-formed or not.  Afterwards
    [get] answers nothing for every key and the engine serves writes like
    a fresh one: after any sequence of [put] and [remove], [get(k)] returns
    the value of the last [put] on [k] unless that value is empty.  The
    counter [cur_max_sst_id] is not reset. *)
Theorem X7_clear_leaves_a_usable_empty_engine
    (cfg : Consts) (est : list KV → N) (build_ok : nat → bool)
    (st : LSMEngine) (ops : list op) (k : string) :
  writable cfg est build_ok →
  ∃ st1 st2 st3,
    Engine.clear st = Ok tt st1
    ∧ (∀ k', answer st1 k' = None)
    ∧ cur_max_sst_id st1 = cur_max_sst_id st
    ∧ run cfg est build_ok ops st1 = Ok tt st2
    ∧ Engine.get k st2 = Ok (reads_back k ops) st3.
Proof.
  intros [H1 H2 H3 H4 H5].
  set (st1 := mkEngine Mem.empty ∅ ∅ (cur_max_sst_id st) (cur_max_level st)
                ∅ (trace st)).
  pose proof (cleared_wf (cur_max_sst_id st) (cur_max_level st) (trace st))
    as W1. fold st1 in W1.
  destruct (run_spec cfg est build_ok H1 H2 H3 H4 H5 ops st1 W1)
    as (st2 & Erun & W2 & V2).
  destruct (get_view k st2 W2) as (st3 & Eget & _).
  exists st1, st2, st3. split_and!; try done.
  - intros k'. rewrite answer_view by done. unfold st1.
    by rewrite cleared_view.
  - rewrite Eget. f_equal. rewrite V2. unfold st1 at 1.
    rewrite cleared_view. unfold reads_back.
    destruct (last_on k ops) as [[k' v|k']|]; cbn; try done.
    apply not_deleted_eqb.
Qed.

Lemma X7_clear_leaves_a_usable_empty_engine_witness :
  writable Examples.tiny default_est Examples.io_fine
  ∧ ∃ st1 st2 st3,
      Engine.clear States.two_levels = Ok tt st1
      ∧ run Examples.tiny default_est Examples.io_fine States.eight_writes st1
        = Ok tt st2
      ∧ Engine.get "b" st2 = Ok (Some "5"%string) st3.
Proof.
  split; [apply tiny_writable|].
  destruct (X7_clear_leaves_a_usable_empty_engine Examples.tiny default_est
              Examples.io_fine States.two_levels States.eight_writes "b"
              tiny_writable) as (st1 & st2 & st3 & E1 & _ & _ & E2 & E3).
  exists st1, st2, st3. exact (conj E1 (conj E2 E3)).
Defined.

(** ** [flush_all] *)

(** X8.  In a well-formed state whose active table holds no bytes,
    [flush_all] returns: it writes frozen tables out until the memtable
    holds no bytes, keeps the invariant, and [get] answers for every key
    what it answered before. *)
Theorem X8_flush_all_drains_the_frozen_tables
    (cfg : Consts) (est : list KV → N) (build_ok : nat → bool)
    (st : LSMEngine) :
  writable cfg est build_ok →
  engine_wf st →
  SkipList.get_size (current_table (memtable st)) = 0%N →
  ∃ st',
    Engine.flush_all cfg est build_ok st = Ok tt st'
    ∧ engine_wf st'
    ∧ (∀ k, answer st' k = answer st k)
    ∧ Mem.get_total_size (memtable st') = 0%N.
Proof.
  intros Wr W Hcur. unfold Engine.flush_all.
  rewrite bind_unfold. unfold gets at 1.
  destruct (flush_all_loop_drains cfg est build_ok Wr
              (S (length (frozen_tables (memtable st)))) st W Hcur)
    as (st' & E & W' & V & T & _); [lia|].
  exists st'. split_and!; try done.
  intros k. by rewrite !answer_view, V.
Qed.

Lemma X8_flush_all_drains_the_frozen_tables_witness :
  writable MoreExamples.three_tables default_est Examples.io_fine
  ∧ engine_wf States.with_frozen
  ∧ SkipList.get_size (current_table (memtable States.with_frozen)) = 0%N
  ∧ ∃ st',
      Engine.flush_all MoreExamples.three_tables default_est Examples.io_fine
        States.with_frozen = Ok tt st'
      ∧ Mem.get_total_size (memtable st') = 0%N.
Proof.
  assert (SkipList.get_size (current_table (memtable States.with_frozen))
          = 0%N) as H by (vm_compute; reflexivity).
  split_and!; [apply three_tables_writable|apply with_frozen_wf|exact H|].
  destruct (X8_flush_all_drains_the_frozen_tables MoreExamples.three_tables
              default_est Examples.io_fine States.with_frozen
              three_tables_writable with_frozen_wf H)
    as (st' & E & _ & _ & T).
  exists st'. exact (conj E T).
Defined.

(** X9.  In a well-formed state whose active table holds bytes,
    [flush_all] does not return normally: once the frozen tables are
    written out, [flush] calls [flush_last] without a frozen table, and
    the call ends in its panic. *)
Theorem X9_flush_all_panics_on_a_filled_active_table
    (cfg : Consts) (est : list KV → N) (build_ok : nat → bool)
    (st : LSMEngine) :
  writable cfg est build_ok →
  engine_wf st →
  (0 < SkipList.get_size (current_table (memtable st)))%N →
  ∃ st', Engine.flush_all cfg est build_ok st = Throw NoFrozenTable st'.
Proof.
  intros Wr W Hcur. unfold Engine.flush_all.
  rewrite bind_unfold. unfold gets at 1.
  apply (flush_all_loop_panics cfg est build_ok Wr); [done|done|lia].
Qed.

Lemma X9_flush_all_panics_on_a_filled_active_table_witness :
  writable MoreExamples.three_tables default_est Examples.io_fine
  ∧ engine_wf States.with_active
  ∧ (0 < SkipList.get_size (current_table (memtable States.with_active)))%N
  ∧ ∃ st',
      Engine.flush_all MoreExamples.three_tables default_est Examples.io_fine
        States.with_active = Throw NoFrozenTable st'.
Proof.
  assert (0 < SkipList.get_size (current_table (memtable States.with_active)))%N
    as H by (vm_compute; reflexivity).
  split_and!; [apply three_tables_writable|apply with_active_wf|exact H|].
  exact (X9_flush_all_panics_on_a_filled_active_table
           MoreExamples.three_tables default_est Examples.io_fine
           States.with_active three_tables_writable with_active_wf H).
Defined.

(** ** File names of SSTs *)

(** X10.  A file name written by [get_sst_path] determines the identifier
    and the level it was written for.  The loop of the constructor, given
    such a name of a file of the directory (identifier and level within
    [size_t]), cuts it at the first dot, parses both numbers back, opens
    the file, registers the SST under its identifier, appends the
    identifier to the list of its level and raises [cur_max_sst_id] and
    [cur_max_level] to at least these numbers. *)
Theorem X10_constructor_reads_back_own_file_names
    (id level : nat) (recs : list KV) (st : LSMEngine) :
  (N.of_nat id < 2 ^ 64)%N →
  (N.of_nat level < 2 ^ 64)%N →
  disk st !! Engine.get_sst_path id level = Some recs →
  (∀ id' level',
     Engine.get_sst_path id' level' = Engine.get_sst_path id level →
     id' = id ∧ level' = level)
  ∧ ∃ st',
      Engine.scan_entry (Engine.get_sst_path id level) st = Ok tt st'
      ∧ ssts st'
        = <[id := mkSST id (Engine.get_sst_path id level) recs]> (ssts st)
      ∧ (∀ l, level_ids l st'
              = if decide (l = level) then level_ids level st ++ [id]
                else level_ids l st)
      ∧ cur_max_sst_id st' = id `max` cur_max_sst_id st
      ∧ cur_max_level st' = level `max` cur_max_level st
      ∧ memtable st' = memtable st ∧ disk st' = disk st.
Proof.
  intros Hid Hlevel Hfile. split.
  - intros id' level'. apply sst_path_inj.
  - by apply scan_entry_own_name.
Qed.

Lemma X10_constructor_reads_back_own_file_names_witness :
  (N.of_nat 7 < 2 ^ 64)%N
  ∧ (N.of_nat 2 < 2 ^ 64)%N
  ∧ disk (Engine.init {[ Engine.get_sst_path 7 2 := [("a", "1")]%string ]})
      !! Engine.get_sst_path 7 2 = Some [("a", "1")]%string
  ∧ ∃ st',
      Engine.scan_entry (Engine.get_sst_path 7 2)
        (Engine.init {[ Engine.get_sst_path 7 2 := [("a", "1")]%string ]})
      = Ok tt st'
      ∧ cur_max_sst_id st' = 7 ∧ cur_max_level st' = 2.
Proof.
  assert (N.of_nat 7 < 2 ^ 64)%N as H1 by (vm_compute; reflexivity).
  assert (N.of_nat 2 < 2 ^ 64)%N as H2 by (vm_compute; reflexivity).
  assert (disk (Engine.init
                  {[ Engine.get_sst_path 7 2 := [("a", "1")]%string ]})
            !! Engine.get_sst_path 7 2 = Some [("a", "1")]%string) as H3
    by apply lookup_singleton_eq.
  split_and!; [exact H1|exact H2|exact H3|].
  destruct (X10_constructor_reads_back_own_file_names 7 2 _ _ H1 H2 H3)
    as (_ & st' & E & _ & _ & Hi & Hl & _).
  exists st'. exact (conj E (conj Hi Hl)).
Defined.

(** ** The Redis wrapper: encodings *)

(** X11.  [split] undoes [join] on every vector whose elements hold no
    delimiter and whose last element is not empty; [join] undoes [split]
    up to one delimiter at the end of the string, which [split] drops;
    and an empty last element does not survive the round trip. *)
Theorem X11_split_and_join_round_trip (d : ascii) :
  (∀ l, splittable d l → Wire.split (Wire.join l d) d = l)
  ∧ (∀ s, Wire.join (Wire.split s d) d = chop_delimiter d s)
  ∧ (∀ l, Forall (fun e => free_of d e = true) l →
          Wire.split (Wire.join (l ++ [EmptyString]) d) d = l).
Proof.
  split_and!.
  - apply split_join.
  - apply join_split.
  - apply split_join_empty_last.
Qed.

(** X12.  The field list of a hash: decoding the value made by
    [get_hash_value_from_fields] gives the fields back, for fields without
    the separator and a non-empty last field; a missing value decodes to
    no field; and a non-empty value shorter than the prefix makes [substr]
    throw. *)
Theorem X12_hash_value_decodes_to_its_fields (rf : RedisFormat)
    (st : LSMEngine) :
  (∀ fields,
     splittable (REDIS_FIELD_SEPARATOR rf) fields →
     RedisMore.get_fileds_from_hash_value rf
       (Some (RedisMore.get_hash_value_from_fields rf fields)) st
     = Ok fields st)
  ∧ RedisMore.get_fileds_from_hash_value rf None st = Ok [] st
  ∧ (∀ v, v ≠ EmptyString →
          String.length v < String.length (REDIS_HASH_VALUE_PREFFIX rf) →
          RedisMore.get_fileds_from_hash_value rf (Some v) st
          = Throw (BadIndex (String.length (REDIS_HASH_VALUE_PREFFIX rf))) st).
Proof.
  split_and!.
  - intros fields Hs. by apply hash_value_round_trip.
  - done.
  - intros v Hv Hlen. unfold RedisMore.get_fileds_from_hash_value.
    cbn [default from_option]. unfold id.
    rewrite (proj2 (String.eqb_neq _ _) Hv).
    by rewrite (proj2 (Nat.ltb_lt _ _) Hlen).
Qed.

(** ** The Redis wrapper: strings and expiry *)

(** X13.  [redis_set] followed by [redis_get] of the same key: the first
    replies [+OK], drops an expiry of the key and touches no other key;
    the second replies the value as a bulk string, whatever the clock
    shows, except that an empty value reads as a missing key. *)
Theorem X13_set_then_get_returns_the_value
    (rc : RedisConsts) (cfg : Consts) (est : list KV → N)
    (build_ok : nat → bool) (now : Z) (key value : string)
    (st : LSMEngine) :
  writable cfg est build_ok →
  engine_wf st →
  REDIS_EXPIRE_HEADER rc ≠ EmptyString →
  ∃ st1 st2,
    RedisMore.redis_set rc cfg est build_ok key value st = Ok Resp.ok st1
    ∧ RedisMore.redis_get rc cfg now key st1
      = Ok (if String.eqb value EmptyString then Resp.nil
            else Resp.bulk value) st2
    ∧ answer st1 (Redis.get_explire_key rc key) = None
    ∧ (∀ k, k ≠ key → k ≠ Redis.get_explire_key rc key →
            answer st2 k = answer st k).
Proof.
  intros Wr W Hh. pose proof (expire_key_neq rc key Hh) as Hne.
  destruct (redis_set_spec rc cfg est build_ok Wr key value st W Hne)
    as (r1 & st1 & E1 & -> & W1 & Ak & Ae & Ao).
  destruct (redis_get_plain rc cfg now key st1 W1 Ae)
    as (r2 & st2 & E2 & -> & W2 & A2).
  exists st1, st2. split_and!; try done.
  - rewrite E2, Ak. by destruct (String.eqb value EmptyString).
  - intros k H1 H2. by rewrite A2, Ao.
Qed.

Lemma X13_set_then_get_returns_the_value_witness :
  writable Examples.roomy default_est Examples.io_fine
  ∧ engine_wf States.with_strings
  ∧ REDIS_EXPIRE_HEADER RedisExamples.consts ≠ EmptyString
  ∧ ∃ st1 st2,
      RedisMore.redis_set RedisExamples.consts Examples.roomy default_est
        Examples.io_fine "k" "new" States.with_strings = Ok Resp.ok st1
      ∧ RedisMore.redis_get RedisExamples.consts Examples.roomy 200 "k" st1
        = Ok (Resp.bulk "new") st2.
Proof.
  assert (REDIS_EXPIRE_HEADER RedisExamples.consts ≠ EmptyString) as H
    by discriminate.
  split; [apply roomy_writable|]. split; [apply with_strings_wf|].
  split; [exact H|].
  destruct (X13_set_then_get_returns_the_value RedisExamples.consts
              Examples.roomy default_est Examples.io_fine 200 "k" "new"
              States.with_strings roomy_writable with_strings_wf H)
    as (st1 & st2 & E1 & E2 & _).
  exists st1, st2. exact (conj E1 E2).
Defined.

(** X14.  [redis_get] of a stored key with an expiry record that parses
    to the time [t]: when [t] is before the clock, the reply is the nil
    bulk string and both the key and its expiry record are removed;
    otherwise the reply is the value and both stay.  No other key
    changes. *)
Theorem X14_get_purges_an_expired_key
    (rc : RedisConsts) (cfg : Consts) (now : Z) (key v e : string) (t : Z)
    (st : LSMEngine) :
  engine_wf st →
  REDIS_EXPIRE_HEADER rc ≠ EmptyString →
  answer st key = Some v →
  answer st (Redis.get_explire_key rc key) = Some e →
  Redis.stoll e = Some t →
  ∃ st',
    RedisMore.redis_get rc cfg now key st
    = Ok (if (t <? now)%Z then Resp.nil else Resp.bulk v) st'
    ∧ engine_wf st'
    ∧ answer st' key = (if (t <? now)%Z then None else Some v)
    ∧ answer st' (Redis.get_explire_key rc key)
      = (if (t <? now)%Z then None else Some e)
    ∧ (∀ k, k ≠ key → k ≠ Redis.get_explire_key rc key →
            answer st' k = answer st k).
Proof.
  intros W Hh Hk He Ht. pose proof (expire_key_neq rc key Hh) as Hne.
  destruct (redis_get_expiring rc cfg now key v e t st W Hne Hk He Ht)
    as (r & st' & E & W' & Ao & H).
  exists st'. rewrite E.
  destruct (t <? now)%Z; destruct H as (-> & ? & ?); done.
Qed.

Lemma X14_get_purges_an_expired_key_witness :
  engine_wf States.with_strings
  ∧ REDIS_EXPIRE_HEADER RedisExamples.consts ≠ EmptyString
  ∧ answer States.with_strings "k" = Some "v"%string
  ∧ answer States.with_strings
      (Redis.get_explire_key RedisExamples.consts "k") = Some "100"%string
  ∧ Redis.stoll "100" = Some 100%Z
  ∧ ∃ st',
      RedisMore.redis_get RedisExamples.consts Examples.roomy 200 "k"
        States.with_strings = Ok Resp.nil st'
      ∧ answer st' "k" = None.
Proof.
  assert (REDIS_EXPIRE_HEADER RedisExamples.consts ≠ EmptyString) as H
    by discriminate.
  assert (answer States.with_strings "k" = Some "v"%string) as Hk
    by (vm_compute; reflexivity).
  assert (answer States.with_strings
            (Redis.get_explire_key RedisExamples.consts "k")
          = Some "100"%string) as He by (vm_compute; reflexivity).
  assert (Redis.stoll "100" = Some 100%Z) as Ht by (vm_compute; reflexivity).
  split; [apply with_strings_wf|].
  split; [exact H|]. split; [exact Hk|]. split; [exact He|].
  split; [exact Ht|].
  destruct (X14_get_purges_an_expired_key RedisExamples.consts
              Examples.roomy 200 "k" "v" "100" 100 States.with_strings
              with_strings_wf H Hk He Ht)
    as (st' & E & _ & A & _).
  exists st'. exact (conj E A).
Defined.

(** X15.  [redis_expire] at the time [now] with a count of [t] seconds
    stores [now + t] in decimal under the expiry key and replies [:1];
    [redis_ttl] at a later time [later] then replies the seconds left,
    or [:-2] once [now + t] is before [later], and changes no answer of
    the engine: it removes nothing. *)
Theorem X15_expire_then_ttl_counts_down
    (rc : RedisConsts) (cfg : Consts) (est : list KV → N)
    (build_ok : nat → bool) (now later : Z) (key v seconds_count : string)
    (t : Z) (st : LSMEngine) :
  writable cfg est build_ok →
  engine_wf st →
  REDIS_EXPIRE_HEADER rc ≠ EmptyString →
  answer st key = Some v →
  Redis.stoll seconds_count = Some t →
  (- 2 ^ 63 ≤ now + t < 2 ^ 63)%Z →
  (0 ≤ later)%Z →
  ∃ st1 st2,
    RedisMore.redis_expire rc cfg est build_ok now key seconds_count st
    = Ok (Resp.int 1) st1
    ∧ answer st1 (Redis.get_explire_key rc key) = Some (pretty (now + t)%Z)
    ∧ (∀ k, k ≠ Redis.get_explire_key rc key → answer st1 k = answer st k)
    ∧ RedisMore.redis_ttl rc later key st1
      = Ok (if (now + t <? later)%Z then Resp.int (-2)
            else Resp.int (now + t - later)) st2
    ∧ (∀ k, answer st2 k = answer st1 k).
Proof.
  intros Wr W Hh Hk Hs Hr Hl. pose proof (expire_key_neq rc key Hh) as Hne.
  destruct (redis_expire_spec rc cfg est build_ok Wr now key seconds_count
              t st W Hs Hr) as (r1 & st1 & E1 & -> & W1 & Ae & Ao).
  assert (answer st1 key = Some v) as Hk1 by (rewrite Ao; done).
  destruct (redis_ttl_expiring rc later key v _ (now + t) st1 W1 Hk1 Ae
              (stoll_pretty _ Hr) Hl) as (r2 & st2 & E2 & W2 & A2 & ->).
  exists st1, st2. split_and!; done.
Qed.

Lemma X15_expire_then_ttl_counts_down_witness :
  writable Examples.roomy default_est Examples.io_fine
  ∧ engine_wf States.with_strings
  ∧ REDIS_EXPIRE_HEADER RedisExamples.consts ≠ EmptyString
  ∧ answer States.with_strings "w" = Some "x"%string
  ∧ Redis.stoll "60" = Some 60%Z
  ∧ (- 2 ^ 63 ≤ 1000 + 60 < 2 ^ 63)%Z
  ∧ (0 ≤ 1010)%Z
  ∧ ∃ st1 st2,
      RedisMore.redis_expire RedisExamples.consts Examples.roomy default_est
        Examples.io_fine 1000 "w" "60" States.with_strings
      = Ok (Resp.int 1) st1
      ∧ RedisMore.redis_ttl RedisExamples.consts 1010 "w" st1
        = Ok (Resp.int 50) st2.
Proof.
  assert (REDIS_EXPIRE_HEADER RedisExamples.consts ≠ EmptyString) as H
    by discriminate.
  assert (answer States.with_strings "w" = Some "x"%string) as Hk
    by (vm_compute; reflexivity).
  assert (Redis.stoll "60" = Some 60%Z) as Hs by (vm_compute; reflexivity).
  assert (- 2 ^ 63 ≤ 1000 + 60 < 2 ^ 63)%Z as Hr by lia.
  assert (0 ≤ 1010)%Z as Hl by lia.
  split; [apply roomy_writable|]. split; [apply with_strings_wf|].
  split; [exact H|]. split; [exact Hk|]. split; [exact Hs|].
  split; [exact Hr|]. split; [exact Hl|].
  destruct (X15_expire_then_ttl_counts_down RedisExamples.consts
              Examples.roomy default_est Examples.io_fine 1000 1010 "w" "x"
              "60" 60 States.with_strings roomy_writable with_strings_wf
              H Hk Hs Hr Hl)
    as (st1 & st2 & E1 & _ & _ & E2 & _).
  exists st1, st2. exact (conj E1 E2).
Defined.

(** X16.  [redis_incr]: a missing key is stored as [1]; a stored decimal
    number [n] below the largest [long long] is replaced by [n + 1], which
    is the reply and parses back to [n + 1]; a stored value that [stoll]
    rejects makes the call throw and leaves every answer as it was.  No
    other key changes. *)
Theorem X16_incr_counts_from_the_stored_number
    (cfg : Consts) (est : list KV → N) (build_ok : nat → bool)
    (key : string) (st : LSMEngine) :
  writable cfg est build_ok →
  engine_wf st →
  (answer st key = None →
   ∃ st', RedisMore.redis_incr cfg est build_ok key st = Ok "1"%string st'
          ∧ answer st' key = Some "1"%string
          ∧ ∀ k, k ≠ key → answer st' k = answer st k)
  ∧ (∀ v n, answer st key = Some v → Redis.stoll v = Some n →
            (n + 1 < 2 ^ 63)%Z →
            ∃ st', RedisMore.redis_incr cfg est build_ok key st
                   = Ok (pretty (n + 1)%Z) st'
                   ∧ answer st' key = Some (pretty (n + 1)%Z)
                   ∧ Redis.stoll (pretty (n + 1)%Z) = Some (n + 1)%Z
                   ∧ ∀ k, k ≠ key → answer st' k = answer st k)
  ∧ (∀ v, answer st key = Some v → Redis.stoll v = None →
          ∃ st', RedisMore.redis_incr cfg est build_ok key st
                 = Throw (BadNumber v) st'
                 ∧ ∀ k, answer st' k = answer st k).
Proof.
  intros Wr W. split_and!.
  - intros Hk.
    destruct (redis_incr_missing cfg est build_ok Wr key st W Hk)
      as (r & st' & E & -> & _ & A & Ao).
    by exists st'.
  - intros v n Hk Hv Hn.
    destruct (redis_incr_number cfg est build_ok Wr key v n st W Hk Hv Hn)
      as (r & st' & E & -> & _ & A & Ao).
    exists st'. split_and!; try done.
    apply stoll_pretty. pose proof (stoll_range _ _ Hv). lia.
  - intros v Hk Hv. by apply redis_incr_not_a_number.
Qed.

Lemma X16_incr_counts_from_the_stored_number_witness :
  writable Examples.roomy default_est Examples.io_fine
  ∧ engine_wf States.with_strings
  ∧ (∃ st', RedisMore.redis_incr Examples.roomy default_est Examples.io_fine
              "n" States.with_strings = Ok "42"%string st')
  ∧ (∃ st', RedisMore.redis_incr Examples.roomy default_est Examples.io_fine
              "k" States.with_strings = Throw (BadNumber "v") st').
Proof.
  assert (answer States.with_strings "n" = Some "41"%string) as Hn
    by (vm_compute; reflexivity).
  assert (Redis.stoll "41" = Some 41%Z) as Hs by (vm_compute; reflexivity).
  assert (41 + 1 < 2 ^ 63)%Z as Hr by lia.
  assert (answer States.with_strings "k" = Some "v"%string) as Hk
    by (vm_compute; reflexivity).
  assert (Redis.stoll "v" = None) as Hv by (vm_compute; reflexivity).
  split; [apply roomy_writable|]. split; [apply with_strings_wf|].
  destruct (X16_incr_counts_from_the_stored_number Examples.roomy
              default_est Examples.io_fine "n" States.with_strings
              roomy_writable with_strings_wf) as (_ & H2 & _).
  destruct (H2 "41"%string 41%Z Hn Hs Hr) as (st' & E & _).
  destruct (X16_incr_counts_from_the_stored_number Examples.roomy
              default_est Examples.io_fine "k" States.with_strings
              roomy_writable with_strings_wf) as (_ & _ & H3).
  destruct (H3 "v"%string Hk Hv) as (st'' & E' & _).
  split; [exists st'; exact E|exists st''; exact E'].
Defined.

(** X17.  [redis_decr] undoes [redis_incr] on a stored number: after
    both, the key holds the decimal form of the number it parsed to
    before, which is the reply of [redis_decr].  On a missing key
    [redis_decr] stores and replies [-1]. *)
Theorem X17_decr_undoes_incr
    (cfg : Consts) (est : list KV → N) (build_ok : nat → bool)
    (key : string) (st : LSMEngine) :
  writable cfg est build_ok →
  engine_wf st →
  (answer st key = None →
   ∃ st', RedisMore.redis_decr cfg est build_ok key st = Ok "-1"%string st'
          ∧ answer st' key = Some "-1"%string
          ∧ ∀ k, k ≠ key → answer st' k = answer st k)
  ∧ (∀ v n, answer st key = Some v → Redis.stoll v = Some n →
            (n + 1 < 2 ^ 63)%Z →
            ∃ st1 st2,
              RedisMore.redis_incr cfg est build_ok key st
              = Ok (pretty (n + 1)%Z) st1
              ∧ RedisMore.redis_decr cfg est build_ok key st1
                = Ok (pretty n) st2
              ∧ answer st2 key = Some (pretty n)
              ∧ ∀ k, k ≠ key → answer st2 k = answer st k).
Proof.
  intros Wr W. split.
  - intros Hk.
    destruct (redis_decr_missing cfg est build_ok Wr key st W Hk)
      as (r & st' & E & -> & _ & A & Ao).
    by exists st'.
  - intros v n Hk Hv Hn. pose proof (stoll_range _ _ Hv) as Hr.
    destruct (redis_incr_number cfg est build_ok Wr key v n st W Hk Hv Hn)
      as (r1 & st1 & E1 & -> & W1 & A1 & Ao1).
    assert (Redis.stoll (pretty (n + 1)%Z) = Some (n + 1)%Z) as Hp
      by (apply stoll_pretty; lia).
    destruct (redis_decr_number cfg est build_ok Wr key _ (n + 1) st1 W1 A1
                Hp ltac:(lia)) as (r2 & st2 & E2 & -> & W2 & A2 & Ao2).
    replace (n + 1 - 1)%Z with n in * by lia.
    exists st1, st2. split_and!; try done.
    intros k Hne. by rewrite Ao2, Ao1.
Qed.

Lemma X17_decr_undoes_incr_witness :
  writable Examples.roomy default_est Examples.io_fine
  ∧ engine_wf States.with_strings
  ∧ ∃ st1 st2,
      RedisMore.redis_incr Examples.roomy default_est Examples.io_fine
        "n" States.with_strings = Ok "42"%string st1
      ∧ RedisMore.redis_decr Examples.roomy default_est Examples.io_fine
          "n" st1 = Ok "41"%string st2.
Proof.
  assert (answer States.with_strings "n" = Some "41"%string) as Hn
    by (vm_compute; reflexivity).
  assert (Redis.stoll "41" = Some 41%Z) as Hs by (vm_compute; reflexivity).
  assert (41 + 1 < 2 ^ 63)%Z as Hr by lia.
  split; [apply roomy_writable|]. split; [apply with_strings_wf|].
  destruct (X17_decr_undoes_incr Examples.roomy default_est
              Examples.io_fine "n" States.with_strings
              roomy_writable with_strings_wf) as (_ & H2).
  destruct (H2 "41"%string 41%Z Hn Hs Hr) as (st1 & st2 & E1 & E2 & _).
  exists st1, st2. exact (conj E1 E2).
Defined.

(** ** The Redis wrapper: lists *)

(** X18.  On a list that is not expired, [redis_rpush] appends the value
    at the end and [redis_lpush] puts it in front; both reply the new
    length and change no other key.  The elements and the value are not
    empty and hold no separator. *)
Theorem X18_push_adds_one_element
    (rc : RedisConsts) (rf : RedisFormat) (cfg : Consts)
    (est : list KV → N) (build_ok : nat → bool) (now : Z)
    (key value : string) (els : list string) (st : LSMEngine) :
  writable cfg est build_ok →
  engine_wf st →
  unexpired rc now st key →
  holds_list rf st key els →
  value ≠ EmptyString →
  free_of (REDIS_LIST_SEPARATOR rf) value = true →
  (∃ st',
     RedisMore.redis_rpush rc rf cfg est build_ok now key value st
     = Ok (Resp.int (Z.of_nat (length els + 1))) st'
     ∧ holds_list rf st' key (els ++ [value])
     ∧ ∀ k, k ≠ key → answer st' k = answer st k)
  ∧ (∃ st',
       RedisMore.redis_lpush rc rf cfg est build_ok now key value st
       = Ok (Resp.int (Z.of_nat (length els + 1))) st'
       ∧ holds_list rf st' key (value :: els)
       ∧ ∀ k, k ≠ key → answer st' k = answer st k).
Proof.
  intros Wr W L H Hv Hf. split.
  - destruct (redis_rpush_unexpired rc rf cfg est build_ok Wr now key value
                els st W L H Hv Hf) as (r & st' & E & -> & _ & H' & A).
    by exists st'.
  - destruct (redis_lpush_unexpired rc rf cfg est build_ok Wr now key value
                els st W L H Hv Hf) as (r & st' & E & -> & _ & H' & A).
    by exists st'.
Qed.

Lemma X18_push_adds_one_element_witness :
  writable Examples.roomy default_est Examples.io_fine
  ∧ engine_wf States.with_lists
  ∧ unexpired RedisExamples.consts 200 States.with_lists "l"
  ∧ holds_list MoreExamples.format States.with_lists "l"
      ["a"; "b"; "c"]%string
  ∧ "d"%string ≠ EmptyString
  ∧ free_of (REDIS_LIST_SEPARATOR MoreExamples.format) "d" = true
  ∧ ∃ st',
      RedisMore.redis_rpush RedisExamples.consts MoreExamples.format
        Examples.roomy default_est Examples.io_fine 200 "l" "d"
        States.with_lists
      = Ok (Resp.int 4) st'
      ∧ holds_list MoreExamples.format st' "l" ["a"; "b"; "c"; "d"]%string.
Proof.
  assert (unexpired RedisExamples.consts 200 States.with_lists "l") as L
    by (vm_compute; exact I).
  assert (holds_list MoreExamples.format States.with_lists "l"
            ["a"; "b"; "c"]%string) as H.
  { split; [|vm_compute; reflexivity].
    repeat constructor; discriminate. }
  assert ("d"%string ≠ EmptyString) as Hv by discriminate.
  assert (free_of (REDIS_LIST_SEPARATOR MoreExamples.format) "d" = true)
    as Hf by reflexivity.
  split; [apply roomy_writable|]. split; [apply with_lists_wf|].
  split; [exact L|]. split; [exact H|]. split; [exact Hv|].
  split; [exact Hf|].
  destruct (X18_push_adds_one_element RedisExamples.consts
              MoreExamples.format Examples.roomy default_est
              Examples.io_fine 200 "l" "d" ["a"; "b"; "c"]%string
              States.with_lists roomy_writable with_lists_wf L H Hv Hf)
    as ((st' & E & H' & _) & _).
  exists st'. exact (conj E H').
Defined.

(** X19.  On a list that is not expired, [redis_lpop] replies the first
    element and [redis_rpop] the last one, and the key holds the rest
    afterwards; when the last element goes the key is removed.  On a
    missing list both reply the nil bulk string.  No other key changes. *)
Theorem X19_pop_takes_one_element
    (rc : RedisConsts) (rf : RedisFormat) (cfg : Consts)
    (est : list KV → N) (build_ok : nat → bool) (now : Z)
    (key : string) (els : list string) (st : LSMEngine) :
  writable cfg est build_ok →
  engine_wf st →
  unexpired rc now st key →
  holds_list rf st key els →
  (∃ st',
     RedisMore.redis_lpop rc rf cfg est build_ok now key st
     = Ok (match els with [] => Resp.nil | x :: _ => Resp.bulk x end) st'
     ∧ holds_list rf st' key (tail els)
     ∧ ∀ k, k ≠ key → answer st' k = answer st k)
  ∧ (∃ st',
       RedisMore.redis_rpop rc rf cfg est build_ok now key st
       = Ok (match last els with None => Resp.nil | Some x => Resp.bulk x end)
           st'
       ∧ holds_list rf st' key (removelast els)
       ∧ ∀ k, k ≠ key → answer st' k = answer st k).
Proof.
  intros Wr W L H. split.
  - destruct (redis_lpop_unexpired rc rf cfg est build_ok Wr now key
                els st W L H) as (r & st' & E & -> & _ & H' & A).
    by exists st'.
  - destruct (redis_rpop_unexpired rc rf cfg est build_ok Wr now key
                els st W L H) as (r & st' & E & -> & _ & H' & A).
    by exists st'.
Qed.

Lemma X19_pop_takes_one_element_witness :
  writable Examples.roomy default_est Examples.io_fine
  ∧ engine_wf States.with_lists
  ∧ unexpired RedisExamples.consts 200 States.with_lists "l"
  ∧ holds_list MoreExamples.format States.with_lists "l"
      ["a"; "b"; "c"]%string
  ∧ ∃ st',
      RedisMore.redis_rpop RedisExamples.consts MoreExamples.format
        Examples.roomy default_est Examples.io_fine 200 "l"
        States.with_lists
      = Ok (Resp.bulk "c") st'
      ∧ holds_list MoreExamples.format st' "l" ["a"; "b"]%string.
Proof.
  assert (unexpired RedisExamples.consts 200 States.with_lists "l") as L
    by (vm_compute; exact I).
  assert (holds_list MoreExamples.format States.with_lists "l"
            ["a"; "b"; "c"]%string) as H.
  { split; [|vm_compute; reflexivity].
    repeat constructor; discriminate. }
  split; [apply roomy_writable|]. split; [apply with_lists_wf|].
  split; [exact L|]. split; [exact H|].
  destruct (X19_pop_takes_one_element RedisExamples.consts
              MoreExamples.format Examples.roomy default_est
              Examples.io_fine 200 "l" ["a"; "b"; "c"]%string
              States.with_lists roomy_writable with_lists_wf L H)
    as (_ & st' & E & H' & _).
  exists st'. exact (conj E H').
Defined.

(** X20.  [redis_llen] and [redis_lrange] on a list that is not expired
    only read.  [redis_llen] replies the number of elements.  For a list
    of [size] elements, [0 < size < 2^31], [redis_lrange] counts a
    negative index from the end, raises a start that is still negative to
    0, and lowers a stop from [size] on to [size - 1]; a stop that is
    still negative after the shift (below [-size]) wraps around in the
    comparison with the unsigned size and becomes [size - 1] as well.
    The reply is the empty array when the stop is then before the start,
    and the elements from start to stop otherwise: no index leaves the
    vector. *)
Theorem X20_llen_and_lrange_read_the_list
    (rc : RedisConsts) (rf : RedisFormat) (cfg : Consts) (now : Z)
    (key : string) (els : list string) (start stop : Z) (st : LSMEngine) :
  engine_wf st →
  unexpired rc now st key →
  holds_list rf st key els →
  els ≠ [] →
  (Z.of_nat (length els) < 2 ^ 31)%Z →
  (- 2 ^ 31 ≤ start < 2 ^ 31)%Z →
  (- 2 ^ 31 ≤ stop < 2 ^ 31)%Z →
  (∃ st',
     RedisMore.redis_llen rc rf cfg now key st
     = Ok (Resp.int (Z.of_nat (length els))) st'
     ∧ ∀ k, answer st' k = answer st k)
  ∧ (∃ st',
       RedisMore.redis_lrange rc rf cfg now key start stop st
       = Ok (let size := Z.of_nat (length els) in
             let lo := if (start <? 0)%Z then Z.max 0 (start + size)
                       else start in
             let hi0 := if (stop <? 0)%Z then (stop + size)%Z else stop in
             let hi := if ((hi0 <? 0) || (size <=? hi0))%Z then (size - 1)%Z
                       else hi0 in
             if (hi <? lo)%Z then Resp.empty_array
             else "*" +:+ pretty (hi - lo + 1)%Z +:+ crlf
                  +:+ String.concat EmptyString
                        (map Resp.bulk (take (Z.to_nat (hi - lo + 1))
                                          (drop (Z.to_nat lo) els)))) st'
       ∧ ∀ k, answer st' k = answer st k).
Proof.
  intros W L H Hne Hsize Hstart Hstop. split.
  - destruct (redis_llen_unexpired rc rf cfg now key els st W L H)
      as (r & st' & E & -> & _ & A).
    by exists st'.
  - destruct (redis_lrange_unexpired rc rf cfg now key els start stop st
                W L H Hne Hsize Hstart Hstop) as (r & st' & E & _ & A & ->).
    exists st'. split; [|done]. rewrite E. f_equal.
    rewrite clamp_range_spec;
      [|destruct els; [done|cbn [length] in *; lia]|done..].
    cbv zeta. by destruct (_ <? _)%Z.
Qed.

Lemma X20_llen_and_lrange_read_the_list_witness :
  engine_wf States.with_lists
  ∧ unexpired RedisExamples.consts 200 States.with_lists "l"
  ∧ holds_list MoreExamples.format States.with_lists "l"
      ["a"; "b"; "c"]%string
  ∧ ["a"; "b"; "c"]%string ≠ []
  ∧ (Z.of_nat (length ["a"; "b"; "c"]%string) < 2 ^ 31)%Z
  ∧ (- 2 ^ 31 ≤ 1 < 2 ^ 31)%Z
  ∧ (- 2 ^ 31 ≤ -7 < 2 ^ 31)%Z
  ∧ ∃ st',
      RedisMore.redis_lrange RedisExamples.consts MoreExamples.format
        Examples.roomy 200 "l" 1 (-7) States.with_lists
      = Ok ("*2" +:+ crlf +:+ Resp.bulk "b" +:+ Resp.bulk "c") st'.
Proof.
  assert (unexpired RedisExamples.consts 200 States.with_lists "l") as L
    by (vm_compute; exact I).
  assert (holds_list MoreExamples.format States.with_lists "l"
            ["a"; "b"; "c"]%string) as H.
  { split; [|vm_compute; reflexivity].
    repeat constructor; discriminate. }
  assert (["a"; "b"; "c"]%string ≠ []) as Hne by discriminate.
  assert (Z.of_nat (length ["a"; "b"; "c"]%string) < 2 ^ 31)%Z as Hsize
    by (vm_compute; reflexivity).
  assert (- 2 ^ 31 ≤ 1 < 2 ^ 31)%Z as Hstart by lia.
  assert (- 2 ^ 31 ≤ -7 < 2 ^ 31)%Z as Hstop by lia.
  split; [apply with_lists_wf|]. split; [exact L|]. split; [exact H|].
  split; [exact Hne|]. split; [exact Hsize|]. split; [exact Hstart|].
  split; [exact Hstop|].
  destruct (X20_llen_and_lrange_read_the_list RedisExamples.consts
              MoreExamples.format Examples.roomy 200 "l"
              ["a"; "b"; "c"]%string 1 (-7) States.with_lists
              with_lists_wf L H Hne Hsize Hstart Hstop)
    as (_ & st' & E & _).
  exists st'. exact E.
Defined.

(** X21.  The first command on an expired list purges it.  [redis_llen]
    replies 0 and removes the key and its expiry record; [redis_rpush]
    starts a new list of one element, without expiry, and replies 1.  No
    other key changes. *)
Theorem X21_expired_list_is_purged
    (rc : RedisConsts) (rf : RedisFormat) (cfg : Consts)
    (est : list KV → N) (build_ok : nat → bool) (now : Z)
    (key value : string) (st : LSMEngine) :
  writable cfg est build_ok →
  engine_wf st →
  REDIS_EXPIRE_HEADER rc ≠ EmptyString →
  lapsed rc now st key →
  value ≠ EmptyString →
  free_of (REDIS_LIST_SEPARATOR rf) value = true →
  (∃ st',
     RedisMore.redis_llen rc rf cfg now key st = Ok (Resp.int 0) st'
     ∧ answer st' key = None
     ∧ answer st' (Redis.get_explire_key rc key) = None
     ∧ ∀ k, k ≠ key → k ≠ Redis.get_explire_key rc key →
            answer st' k = answer st k)
  ∧ (∃ st',
       RedisMore.redis_rpush rc rf cfg est build_ok now key value st
       = Ok (Resp.int 1) st'
       ∧ holds_list rf st' key [value]
       ∧ answer st' (Redis.get_explire_key rc key) = None
       ∧ ∀ k, k ≠ key → k ≠ Redis.get_explire_key rc key →
              answer st' k = answer st k).
Proof.
  intros Wr W Hh L Hv Hf. pose proof (expire_key_neq rc key Hh) as Hne.
  split.
  - destruct (redis_llen_lapsed rc rf cfg now key st W L)
      as (r & st' & E & -> & _ & A1 & A2 & A3).
    by exists st'.
  - destruct (redis_rpush_lapsed rc rf cfg est build_ok Wr now key value st
                W L Hne Hv Hf) as (r & st' & E & -> & _ & A1 & A2 & A3).
    by exists st'.
Qed.

Lemma X21_expired_list_is_purged_witness :
  writable Examples.roomy default_est Examples.io_fine
  ∧ engine_wf States.with_lists
  ∧ REDIS_EXPIRE_HEADER RedisExamples.consts ≠ EmptyString
  ∧ lapsed RedisExamples.consts 200 States.with_lists "old"
  ∧ "z"%string ≠ EmptyString
  ∧ free_of (REDIS_LIST_SEPARATOR MoreExamples.format) "z" = true
  ∧ ∃ st',
      RedisMore.redis_rpush RedisExamples.consts MoreExamples.format
        Examples.roomy default_est Examples.io_fine 200 "old" "z"
        States.with_lists
      = Ok (Resp.int 1) st'
      ∧ holds_list MoreExamples.format st' "old" ["z"]%string.
Proof.
  assert (REDIS_EXPIRE_HEADER RedisExamples.consts ≠ EmptyString) as Hh
    by discriminate.
  assert (lapsed RedisExamples.consts 200 States.with_lists "old") as L.
  { exists "100"%string, 100%Z.
    split; [vm_compute; reflexivity|]. split; [vm_compute; reflexivity|].
    lia. }
  assert ("z"%string ≠ EmptyString) as Hv by discriminate.
  assert (free_of (REDIS_LIST_SEPARATOR MoreExamples.format) "z" = true)
    as Hf by reflexivity.
  split; [apply roomy_writable|]. split; [apply with_lists_wf|].
  split; [exact Hh|]. split; [exact L|]. split; [exact Hv|].
  split; [exact Hf|].
  destruct (X21_expired_list_is_purged RedisExamples.consts
              MoreExamples.format Examples.roomy default_est
              Examples.io_fine 200 "old" "z" States.with_lists
              roomy_writable with_lists_wf Hh L Hv Hf)
    as (_ & st' & E & H' & _).
  exists st'. exact (conj E H').
Defined.

(** ** The Redis wrapper: hashes *)

(** X22.  [redis_hset] on a hash that is not expired stores the value
    under the key of the field and appends the field to the field list of
    the hash unless it is listed already; no other key changes.
    [redis_hget] of the field then replies the value and [redis_hkeys]
    lists the fields in the order of their first [redis_hset].  The field
    is not empty and holds no separator, the value is not empty, and the
    expiry record of the hash is not the key of the field. *)
Theorem X22_hset_then_hget_and_hkeys
    (rc : RedisConsts) (rf : RedisFormat) (cfg : Consts)
    (est : list KV → N) (build_ok : nat → bool) (now : Z)
    (key field value : string) (fields : list string) (st : LSMEngine) :
  writable cfg est build_ok →
  engine_wf st →
  REDIS_EXPIRE_HEADER rc ≠ EmptyString →
  Redis.get_explire_key rc key ≠ RedisMore.get_hash_filed_key rf key field →
  unexpired rc now st key →
  holds_hash rf st key fields →
  field ≠ EmptyString →
  free_of (REDIS_FIELD_SEPARATOR rf) field = true →
  value ≠ EmptyString →
  ∃ st1 st2 st3,
    RedisMore.redis_hset rc rf cfg est build_ok now key field value st
    = Ok Resp.ok st1
    ∧ holds_hash rf st1 key
        (if bool_decide (field ∈ fields) then fields else fields ++ [field])
    ∧ (∀ k, k ≠ key → k ≠ RedisMore.get_hash_filed_key rf key field →
            answer st1 k = answer st k)
    ∧ RedisMore.redis_hget rc rf cfg now key field st1
      = Ok (Resp.bulk value) st2
    ∧ RedisMore.redis_hkeys rc rf cfg now key st2
      = Ok (foldl (fun res_str f => res_str +:+ Resp.bulk f)
              ("*" +:+ pretty (length (if bool_decide (field ∈ fields)
                                       then fields else fields ++ [field]))
               +:+ crlf)
              (if bool_decide (field ∈ fields) then fields
               else fields ++ [field])) st3
    ∧ (∀ k, answer st3 k = answer st1 k).
Proof.
  intros Wr W Hh Hapart L H Hfld Hfree Hv.
  pose proof (expire_key_neq rc key Hh) as Hne.
  destruct (redis_hset_unexpired rc rf cfg est build_ok Wr now key field
              value fields st W L H Hfld Hfree)
    as (r1 & st1 & E1 & -> & W1 & H1 & Af & Ao).
  rewrite (proj2 (String.eqb_neq _ _) Hv) in Af.
  assert (unexpired rc now st1 key) as L1.
  { unfold unexpired in *. by rewrite Ao. }
  destruct (redis_hget_unexpired rc rf cfg now key field st1 W1 L1)
    as (r2 & st2 & E2 & -> & W2 & A2).
  rewrite Af in E2.
  assert (unexpired rc now st2 key) as L2.
  { unfold unexpired in *. by rewrite A2. }
  assert (holds_hash rf st2 key
            (if bool_decide (field ∈ fields) then fields
             else fields ++ [field])) as H2.
  { destruct H1 as [Hp E]. split; [done|]. by rewrite A2. }
  destruct (redis_hkeys_unexpired rc rf cfg now key _ st2 W2 L2 H2)
    as (r3 & st3 & E3 & -> & W3 & A3).
  exists st1, st2, st3. split_and!; try done.
  intros k. by rewrite A3, A2.
Qed.

Lemma X22_hset_then_hget_and_hkeys_witness :
  writable Examples.roomy default_est Examples.io_fine
  ∧ engine_wf States.with_hashes
  ∧ REDIS_EXPIRE_HEADER RedisExamples.consts ≠ EmptyString
  ∧ Redis.get_explire_key RedisExamples.consts "h"
    ≠ RedisMore.get_hash_filed_key MoreExamples.format "h" "x"
  ∧ unexpired RedisExamples.consts 200 States.with_hashes "h"
  ∧ holds_hash MoreExamples.format States.with_hashes "h" ["f"; "g"]%string
  ∧ "x"%string ≠ EmptyString
  ∧ free_of (REDIS_FIELD_SEPARATOR MoreExamples.format) "x" = true
  ∧ "9"%string ≠ EmptyString
  ∧ ∃ st1 st2,
      RedisMore.redis_hset RedisExamples.consts MoreExamples.format
        Examples.roomy default_est Examples.io_fine 200 "h" "x" "9"
        States.with_hashes = Ok Resp.ok st1
      ∧ holds_hash MoreExamples.format st1 "h" ["f"; "g"; "x"]%string
      ∧ RedisMore.redis_hget RedisExamples.consts MoreExamples.format
          Examples.roomy 200 "h" "x" st1 = Ok (Resp.bulk "9") st2.
Proof.
  assert (REDIS_EXPIRE_HEADER RedisExamples.consts ≠ EmptyString) as Hh
    by discriminate.
  assert (Redis.get_explire_key RedisExamples.consts "h"
          ≠ RedisMore.get_hash_filed_key MoreExamples.format "h" "x")
    as Hapart by discriminate.
  assert (unexpired RedisExamples.consts 200 States.with_hashes "h") as L
    by (vm_compute; exact I).
  assert (holds_hash MoreExamples.format States.with_hashes "h"
            ["f"; "g"]%string) as H.
  { split; [|vm_compute; reflexivity].
    repeat constructor; discriminate. }
  assert ("x"%string ≠ EmptyString) as Hfld by discriminate.
  assert (free_of (REDIS_FIELD_SEPARATOR MoreExamples.format) "x" = true)
    as Hfree by reflexivity.
  assert ("9"%string ≠ EmptyString) as Hv by discriminate.
  split; [apply roomy_writable|]. split; [apply with_hashes_wf|].
  split; [exact Hh|]. split; [exact Hapart|]. split; [exact L|].
  split; [exact H|]. split; [exact Hfld|]. split; [exact Hfree|].
  split; [exact Hv|].
  destruct (X22_hset_then_hget_and_hkeys RedisExamples.consts
              MoreExamples.format Examples.roomy default_est
              Examples.io_fine 200 "h" "x" "9" ["f"; "g"]%string
              States.with_hashes roomy_writable with_hashes_wf Hh Hapart
              L H Hfld Hfree Hv)
    as (st1 & st2 & st3 & E1 & H1 & _ & E2 & _).
  exists st1, st2. exact (conj E1 (conj H1 E2)).
Defined.

(** X23.  [redis_hdel] on a hash that is not expired removes the key of
    the field and replies 1 if it held a value and 0 otherwise; the first
    entry of the field in the field list goes, and when the list gets
    empty the key of the hash is removed.  No other key changes. *)
Theorem X23_hdel_removes_the_field
    (rc : RedisConsts) (rf : RedisFormat) (cfg : Consts)
    (est : list KV → N) (build_ok : nat → bool) (now : Z)
    (key field : string) (fields : list string) (st : LSMEngine) :
  writable cfg est build_ok →
  engine_wf st →
  unexpired rc now st key →
  holds_hash rf st key fields →
  ∃ st',
    RedisMore.redis_hdel rc rf cfg est build_ok now key field st
    = Ok (Resp.int
            (match answer st (RedisMore.get_hash_filed_key rf key field)
             with Some _ => 1 | None => 0 end)) st'
    ∧ holds_hash rf st' key
        (if bool_decide (field ∈ fields)
         then RedisMore.erase_first field fields else fields)
    ∧ answer st' (RedisMore.get_hash_filed_key rf key field) = None
    ∧ (fields = [field] → answer st' key = None)
    ∧ (∀ k, k ≠ key → k ≠ RedisMore.get_hash_filed_key rf key field →
            answer st' k = answer st k).
Proof.
  intros Wr W L H.
  destruct (redis_hdel_unexpired rc rf cfg est build_ok Wr now key field
              fields st W L H) as (r & st' & E & -> & W' & H' & Af & Ao).
  exists st'. split_and!; try done.
  intros ->. destruct H' as [_ E'].
  rewrite bool_decide_eq_true_2 in E' by left.
  cbn [RedisMore.erase_first] in E'. by rewrite String.eqb_refl in E'.
Qed.

Lemma X23_hdel_removes_the_field_witness :
  writable Examples.roomy default_est Examples.io_fine
  ∧ engine_wf States.with_hashes
  ∧ unexpired RedisExamples.consts 200 States.with_hashes "h"
  ∧ holds_hash MoreExamples.format States.with_hashes "h" ["f"; "g"]%string
  ∧ ∃ st',
      RedisMore.redis_hdel RedisExamples.consts MoreExamples.format
        Examples.roomy default_est Examples.io_fine 200 "h" "f"
        States.with_hashes = Ok (Resp.int 1) st'
      ∧ holds_hash MoreExamples.format st' "h" ["g"]%string.
Proof.
  assert (unexpired RedisExamples.consts 200 States.with_hashes "h") as L
    by (vm_compute; exact I).
  assert (holds_hash MoreExamples.format States.with_hashes "h"
            ["f"; "g"]%string) as H.
  { split; [|vm_compute; reflexivity].
    repeat constructor; discriminate. }
  assert (answer States.with_hashes
            (RedisMore.get_hash_filed_key MoreExamples.format "h" "f")
          = Some "1"%string) as A by (vm_compute; reflexivity).
  split; [apply roomy_writable|]. split; [apply with_hashes_wf|].
  split; [exact L|]. split; [exact H|].
  destruct (X23_hdel_removes_the_field RedisExamples.consts
              MoreExamples.format Examples.roomy default_est
              Examples.io_fine 200 "h" "f" ["f"; "g"]%string
              States.with_hashes roomy_writable with_hashes_wf L H)
    as (st' & E & H' & _).
  rewrite A in E.
  exists st'. exact (conj E H').
Defined.

(** X24.  The first command on an expired hash purges it: [redis_hget]
    replies the nil bulk string, whatever the field holds, and removes the
    keys of all listed fields, the key of the hash and its expiry record.
    No other key changes. *)
Theorem X24_expired_hash_is_purged
    (rc : RedisConsts) (rf : RedisFormat) (cfg : Consts) (now : Z)
    (key field : string) (fields : list string) (st : LSMEngine) :
  engine_wf st →
  lapsed rc now st key →
  holds_hash rf st key fields →
  ∃ st',
    RedisMore.redis_hget rc rf cfg now key field st = Ok Resp.nil st'
    ∧ answer st' key = None
    ∧ answer st' (Redis.get_explire_key rc key) = None
    ∧ (∀ f, f ∈ fields →
            answer st' (RedisMore.get_hash_filed_key rf key f) = None)
    ∧ (∀ k, k ≠ key → k ≠ Redis.get_explire_key rc key →
            (∀ f, f ∈ fields → k ≠ RedisMore.get_hash_filed_key rf key f) →
            answer st' k = answer st k).
Proof.
  intros W L H.
  destruct (redis_hget_lapsed rc rf cfg now key field fields st W L H)
    as (r & st' & E & -> & W' & A).
  exists st'. split_and!; try done.
  - by rewrite A, bool_decide_eq_true_2 by (right; left).
  - by rewrite A, bool_decide_eq_true_2 by left.
  - intros f Hf. rewrite A, bool_decide_eq_true_2; [done|].
    do 2 right. apply elem_of_map. by exists f.
  - intros k H1 H2 H3. rewrite A, bool_decide_eq_false_2; [done|].
    intros [->|[->|(f & -> & Hf)%elem_of_map]%elem_of_cons]%elem_of_cons;
      try done.
    by apply (H3 f).
Qed.

Lemma X24_expired_hash_is_purged_witness :
  engine_wf States.with_hashes
  ∧ lapsed RedisExamples.consts 200 States.with_hashes "oh"
  ∧ holds_hash MoreExamples.format States.with_hashes "oh" ["f"]%string
  ∧ ∃ st',
      RedisMore.redis_hget RedisExamples.consts MoreExamples.format
        Examples.roomy 200 "oh" "f" States.with_hashes = Ok Resp.nil st'
      ∧ answer st' "oh" = None.
Proof.
  assert (lapsed RedisExamples.consts 200 States.with_hashes "oh") as L.
  { exists "100"%string, 100%Z.
    split; [vm_compute; reflexivity|]. split; [vm_compute; reflexivity|].
    lia. }
  assert (holds_hash MoreExamples.format States.with_hashes "oh"
            ["f"]%string) as H.
  { split; [|vm_compute; reflexivity].
    repeat constructor; discriminate. }
  split; [apply with_hashes_wf|]. split; [exact L|]. split; [exact H|].
  destruct (X24_expired_hash_is_purged RedisExamples.consts
              MoreExamples.format Examples.roomy 200 "oh" "f" ["f"]%string
              States.with_hashes with_hashes_wf L H)
    as (st' & E & A & _).
  exists st'. exact (conj E A).
Defined.

(** ** [redis_del] *)

(** X25.  [redis_del] returns in every well-formed state, whatever the
    named keys hold.  Afterwards every key named after the command word
    and its expiry record are gone, every other key is gone or answers as
    before, and the reply counts at most one per named key.  For a single
    key the reply is 1 if the key held a value and 0 otherwise, and when
    that value does not start with the prefix of hash values no other key
    changes. *)
Theorem X25_del_removes_the_named_keys
    (rc : RedisConsts) (rf : RedisFormat) (cfg : Consts)
    (args : list string) (st : LSMEngine) :
  engine_wf st →
  (∃ n st',
     RedisMore.redis_del rc rf cfg args st = Ok (Resp.int (Z.of_nat n)) st'
     ∧ n ≤ length (tail args)
     ∧ (∀ k, k ∈ tail args →
             answer st' k = None
             ∧ answer st' (Redis.get_explire_key rc k) = None)
     ∧ (∀ k, answer st' k = None ∨ answer st' k = answer st k))
  ∧ (∀ cmd key, args = [cmd; key] →
       ∃ st',
         RedisMore.redis_del rc rf cfg args st
         = Ok (Resp.int (match answer st key with Some _ => 1 | None => 0 end))
             st'
         ∧ (match answer st key with
            | Some v => RedisMore.is_value_hash rf v = false
            | None => True
            end →
            ∀ k, k ≠ key → k ≠ Redis.get_explire_key rc key →
                 answer st' k = answer st k)).
Proof.
  intros W. split.
  - destruct (del_loop_spec rc rf cfg (tail args) 0 st W)
      as (n & st' & E & Hn & _ & Hk & Hm).
    exists n, st'. split_and!; try done; [|lia].
    unfold RedisMore.redis_del. by rewrite bind_unfold, E.
  - intros cmd key ->.
    destruct (del_one_key_spec rc rf cfg key st W)
      as (counted & st' & E & -> & _ & _ & _ & _ & Hf).
    exists st'. split; [|done].
    unfold RedisMore.redis_del. cbn [tail RedisMore.del_loop].
    rewrite !bind_unfold, E. cbn.
    by destruct (answer st key).
Qed.

Lemma X25_del_removes_the_named_keys_witness :
  engine_wf States.with_hashes
  ∧ ∃ st',
      RedisMore.redis_del RedisExamples.consts MoreExamples.format
        Examples.roomy ["DEL"; "h"]%string States.with_hashes
      = Ok (Resp.int 1) st'.
Proof.
  assert (answer States.with_hashes "h" = Some "REDIS_HASH_VALUE_f$g"%string)
    as A by (vm_compute; reflexivity).
  split; [apply with_hashes_wf|].
  destruct (X25_del_removes_the_named_keys RedisExamples.consts
              MoreExamples.format Examples.roomy ["DEL"; "h"]%string
              States.with_hashes with_hashes_wf) as (_ & H).
  destruct (H "DEL"%string "h"%string eq_refl) as (st' & E & _).
  rewrite A in E. exists st'. exact E.
Defined.

(** ** The Redis wrapper: sorted sets *)

(** X26.  [redis_zadd] of one pair whose element is not yet in the set,
    on a set that is not expired: the reply is 1, the score is stored
    under the key of the element and the element under the key of the
    padded score, and apart from the key of the set no other key changes.
    [redis_zscore] of the element then replies the score as it was
    given.  The score is not empty and the expiry record of the set is
    none of the two keys written. *)
Theorem X26_zadd_then_zscore_returns_the_score
    (rc : RedisConsts) (cfg : Consts) (est : list KV → N)
    (build_ok : nat → bool) (now : Z) (cmd key score elem : string)
    (st : LSMEngine) :
  writable cfg est build_ok →
  engine_wf st →
  REDIS_EXPIRE_HEADER rc ≠ EmptyString →
  Redis.get_explire_key rc key ≠ Redis.get_zset_key_elem rc key elem →
  Redis.get_explire_key rc key ≠ Redis.get_zset_key_socre rc key score →
  unexpired rc now st key →
  answer st (Redis.get_zset_key_elem rc key elem) = None →
  score ≠ EmptyString →
  ∃ st1 st2,
    Redis.redis_zadd rc cfg est build_ok now [cmd; key; score; elem] st
    = Ok (Resp.int 1) st1
    ∧ answer st1 (Redis.get_zset_key_elem rc key elem) = Some score
    ∧ answer st1 (Redis.get_zset_key_socre rc key score)
      = (if String.eqb elem EmptyString then None else Some elem)
    ∧ (∀ k, k ≠ key → k ≠ Redis.get_zset_key_elem rc key elem →
            k ≠ Redis.get_zset_key_socre rc key score →
            answer st1 k = answer st k)
    ∧ RedisMore.redis_zscore rc cfg now key elem st1
      = Ok (Resp.bulk score) st2
    ∧ (∀ k, answer st2 k = answer st1 k).
Proof.
  intros Wr W Hh Hke Hks L Hfresh Hscore.
  pose proof (expire_key_neq rc key Hh) as Hne.
  destruct (redis_zadd_fresh rc cfg est build_ok Wr now cmd key score elem
              st W L Hfresh) as (r1 & st1 & E1 & -> & W1 & Ae & As & Ao).
  rewrite (proj2 (String.eqb_neq _ _) Hscore) in Ae.
  assert (unexpired rc now st1 key) as L1.
  { unfold unexpired in *. by rewrite Ao. }
  destruct (redis_zscore_unexpired rc cfg now key elem st1 W1 L1)
    as (r2 & st2 & E2 & -> & W2 & A2).
  rewrite Ae in E2. by exists st1, st2.
Qed.

Lemma X26_zadd_then_zscore_returns_the_score_witness :
  writable Examples.roomy default_est Examples.io_fine
  ∧ engine_wf (Engine.init ∅)
  ∧ REDIS_EXPIRE_HEADER RedisExamples.consts ≠ EmptyString
  ∧ Redis.get_explire_key RedisExamples.consts "z"
    ≠ Redis.get_zset_key_elem RedisExamples.consts "z" "a"
  ∧ Redis.get_explire_key RedisExamples.consts "z"
    ≠ Redis.get_zset_key_socre RedisExamples.consts "z" "5"
  ∧ unexpired RedisExamples.consts 0 (Engine.init ∅) "z"
  ∧ answer (Engine.init ∅)
      (Redis.get_zset_key_elem RedisExamples.consts "z" "a") = None
  ∧ "5"%string ≠ EmptyString
  ∧ ∃ st1 st2,
      Redis.redis_zadd RedisExamples.consts Examples.roomy default_est
        Examples.io_fine 0 ["ZADD"; "z"; "5"; "a"]%string (Engine.init ∅)
      = Ok (Resp.int 1) st1
      ∧ RedisMore.redis_zscore RedisExamples.consts Examples.roomy 0 "z" "a"
          st1 = Ok (Resp.bulk "5") st2.
Proof.
  assert (REDIS_EXPIRE_HEADER RedisExamples.consts ≠ EmptyString) as Hh
    by discriminate.
  assert (Redis.get_explire_key RedisExamples.consts "z"
          ≠ Redis.get_zset_key_elem RedisExamples.consts "z" "a") as Hke
    by discriminate.
  assert (Redis.get_explire_key RedisExamples.consts "z"
          ≠ Redis.get_zset_key_socre RedisExamples.consts "z" "5") as Hks
    by discriminate.
  assert (unexpired RedisExamples.consts 0 (Engine.init ∅) "z") as L
    by (vm_compute; exact I).
  assert (answer (Engine.init ∅)
            (Redis.get_zset_key_elem RedisExamples.consts "z" "a") = None)
    as Hfresh by (vm_compute; reflexivity).
  assert ("5"%string ≠ EmptyString) as Hscore by discriminate.
  split; [apply roomy_writable|]. split; [apply init_wf|].
  split; [exact Hh|]. split; [exact Hke|]. split; [exact Hks|].
  split; [exact L|]. split; [exact Hfresh|]. split; [exact Hscore|].
  destruct (X26_zadd_then_zscore_returns_the_score RedisExamples.consts
              Examples.roomy default_est Examples.io_fine 0 "ZADD" "z" "5"
              "a" (Engine.init ∅) roomy_writable (init_wf ∅) Hh Hke Hks L
              Hfresh Hscore)
    as (st1 & st2 & E1 & _ & _ & _ & E2 & _).
  exists st1, st2. exact (conj E1 E2).
Defined.

(** X27.  [redis_zrem] with fewer than three arguments replies an error
    and leaves the state alone.  Otherwise, on a set that is not expired,
    it returns; afterwards no named element has a score, every key is
    gone or answers as before, and the reply counts at most one per named
    element.  For one element with a score the reply is 1, the key of the
    element and the key of its score are removed and no other key
    changes. *)
Theorem X27_zrem_removes_both_records
    (rc : RedisConsts) (cfg : Consts) (now : Z) (args : list string)
    (st : LSMEngine) :
  engine_wf st →
  (length args < 3 →
   RedisMore.redis_zrem rc cfg now args st
   = Ok ("-ERR wrong number of arguments for 'zrem' command" +:+ crlf) st)
  ∧ (∀ cmd key elems,
       args = cmd :: key :: elems → elems ≠ [] →
       unexpired rc now st key →
       ∃ n st',
         RedisMore.redis_zrem rc cfg now args st
         = Ok (Resp.int (Z.of_nat n)) st'
         ∧ n ≤ length elems
         ∧ (∀ e, e ∈ elems →
                 answer st' (Redis.get_zset_key_elem rc key e) = None)
         ∧ (∀ k, answer st' k = None ∨ answer st' k = answer st k))
  ∧ (∀ cmd key elem score,
       args = [cmd; key; elem] →
       unexpired rc now st key →
       answer st (Redis.get_zset_key_elem rc key elem) = Some score →
       ∃ st',
         RedisMore.redis_zrem rc cfg now args st = Ok (Resp.int 1) st'
         ∧ answer st' (Redis.get_zset_key_elem rc key elem) = None
         ∧ answer st' (Redis.get_zset_key_socre rc key score) = None
         ∧ (∀ k, k ≠ Redis.get_zset_key_elem rc key elem →
                 k ≠ Redis.get_zset_key_socre rc key score →
                 answer st' k = answer st k)).
Proof.
  intros W. split_and!.
  - intros Hlen. unfold RedisMore.redis_zrem.
    by rewrite (proj2 (Nat.ltb_lt _ _) Hlen).
  - intros cmd key elems -> Hne L.
    assert (returns (RedisMore.redis_zrem rc cfg now (cmd :: key :: elems))
              st
              (fun reply st' =>
                 ∃ n, reply = Resp.int (Z.of_nat n) ∧ n ≤ length elems
                      ∧ (∀ e, e ∈ elems →
                              answer st' (Redis.get_zset_key_elem rc key e)
                              = None)
                      ∧ (∀ k, answer st' k = None
                              ∨ answer st' k = answer st k))) as H.
    { unfold RedisMore.redis_zrem.
      rewrite (proj2 (Nat.ltb_ge _ _))
        by (destruct elems; [done|cbn [length]; lia]).
      apply returns_bind, expire_zset_clean_unexpired; [done..|].
      intros st1 W1 A1. apply returns_bind.
      eapply returns_weaken; [by apply zrem_loop_spec|].
      intros n st2 (Hn & W2 & He & Hm). cbn beta. apply returns_ret.
      exists n. split_and!; try done; [lia|].
      intros k. destruct (Hm k) as [?|E]; [by left|]. rewrite E.
      right. apply A1. }
    destruct H as (r & st' & E & n & -> & H).
    by exists n, st'.
  - intros cmd key elem score -> L He.
    destruct (redis_zrem_one rc cfg now cmd key elem score st W L He)
      as (r & st' & E & -> & _ & H).
    by exists st'.
Qed.

Lemma X27_zrem_removes_both_records_witness :
  engine_wf States.with_zset
  ∧ ∃ st',
      RedisMore.redis_zrem RedisExamples.consts Examples.roomy 0
        ["ZREM"; "z"; "a"]%string States.with_zset = Ok (Resp.int 1) st'
      ∧ answer st' (Redis.get_zset_key_socre RedisExamples.consts "z" "5")
        = None.
Proof.
  assert (unexpired RedisExamples.consts 0 States.with_zset "z") as L
    by (vm_compute; exact I).
  assert (answer States.with_zset
            (Redis.get_zset_key_elem RedisExamples.consts "z" "a")
          = Some "5"%string) as He by (vm_compute; reflexivity).
  split; [apply with_zset_wf|].
  destruct (X27_zrem_removes_both_records RedisExamples.consts
              Examples.roomy 0 ["ZREM"; "z"; "a"]%string States.with_zset
              with_zset_wf) as (_ & _ & H).
  destruct (H "ZREM"%string "z"%string "a"%string "5"%string eq_refl L He)
    as (st' & E & _ & A & _).
  exists st'. exact (conj E A).
Defined.

(** ** [begin] *)

(** X28.  The cursor of [LSMEngine::begin] is built from the memtable and
    the SSTs of level 0 and from nothing else.  In a well-formed state
    [begin] returns and changes no answer of [get]; its cursor ascends
    strictly; and every key it yields is held by the memtable or by an
    SST of level 0.  A key whose records all live in the levels from 1 on
    is left out, whatever [get] answers for it. *)
Theorem X28_begin_covers_memtable_and_level_0_only (st : LSMEngine) :
  engine_wf st →
  ∃ it st',
    Engine.begin st = Ok it st'
    ∧ (∀ k, answer st' k = answer st k)
    ∧ ascending (drain it)
    ∧ (∀ e, e ∈ drain it →
            is_Some (Mem.get e.1 (memtable st))
            ∨ is_Some (kv_lookup e.1 (level_records 0 st)))
    ∧ (∀ k, Mem.get k (memtable st) = None →
            kv_lookup k (level_records 0 st) = None →
            ∀ e, e ∈ drain it → e.1 ≠ k).
Proof.
  intros W.
  assert (StronglySorted (fun a b => b < a) (map sst_id (level_ssts 0 st)))
    as Hsort.
  { rewrite (level_ssts_ids 0 st W). apply (wf_l0_order st W). }
  pose proof (wf_l0_entries st W) as Hentries.
  destruct (mem_begin_spec (memtable st) (wf_mem st W)) as [Hmasc Hmlk].
  destruct (l0_positions_spec _ Hsort Hentries) as [Hpasc Hplk].
  assert (∀ k, kv_lookup k
                 (drain (mkTwoMerge (MemTable_begin (memtable st))
                    (SstIter.merge_sst_iterator
                       (concat (map (fun s => Engine.positions s
                                                (sst_entries s))
                                  (level_ssts 0 st))))))
               = match Mem.get k (memtable st) with
                 | Some v => Some v
                 | None => kv_lookup k (level_records 0 st)
                 end) as Hlk.
  { intros k. rewrite two_merge_drain, merge2_lookup by done.
    by rewrite Hmlk, Hplk. }
  assert (∀ k, Mem.get k (memtable st) = None →
               kv_lookup k (level_records 0 st) = None →
               ∀ e, e ∈ drain (mkTwoMerge (MemTable_begin (memtable st))
                    (SstIter.merge_sst_iterator
                       (concat (map (fun s => Engine.positions s
                                                (sst_entries s))
                                  (level_ssts 0 st))))) → e.1 ≠ k) as Hout.
  { intros k Hm Hl e He Hk. subst k.
    specialize (Hlk e.1). rewrite Hm, Hl in Hlk.
    rewrite kv_lookup_None in Hlk. apply (Hlk e.2). by destruct e. }
  eexists _, _. split.
  { apply begin_eq. intros id Hid.
    destruct (wf_resolve st W 0 id Hid) as (s & -> & _). done. }
  split_and!.
  - intros k. apply answer_same_data; [done|]. apply same_data_touch.
  - rewrite two_merge_drain. by apply merge2_ascending.
  - intros e He.
    destruct (Mem.get e.1 (memtable st)) as [v|] eqn:Hm; [by left|].
    destruct (kv_lookup e.1 (level_records 0 st)) as [v|] eqn:Hl;
      [by right|].
    exfalso. by apply (Hout e.1 Hm Hl e He).
  - exact Hout.
Qed.

Lemma X28_begin_covers_memtable_and_level_0_only_witness :
  engine_wf States.two_levels
  ∧ answer States.two_levels "c" = Some "3"%string
  ∧ ∃ it st',
      Engine.begin States.two_levels = Ok it st'
      ∧ ∀ e, e ∈ drain it → e.1 ≠ "c"%string.
Proof.
  assert (answer States.two_levels "c" = Some "3"%string) as A
    by (vm_compute; reflexivity).
  assert (Mem.get "c" (memtable States.two_levels) = None) as Hm
    by (vm_compute; reflexivity).
  assert (kv_lookup "c" (level_records 0 States.two_levels) = None) as Hl
    by (vm_compute; reflexivity).
  split; [apply two_levels_wf|]. split; [exact A|].
  destruct (X28_begin_covers_memtable_and_level_0_only States.two_levels
              two_levels_wf) as (it & st' & E & _ & _ & _ & H).
  exists it, st'. exact (conj E (H "c"%string Hm Hl)).
Defined.

(** ** Other files in the data directory *)

(** X29.  The loop of the constructor over the directory passes over an
    entry whose name does not start with [sst_], has no dot, or has its
    first dot at the end.  For an entry [sst_<digits>.<digits>] it parses
    both numbers and opens the file that [get_sst_path] names for them,
    not the entry at hand: when that file is missing the constructor
    ends in an I/O error, and when it is there its records are registered
    under the identifier.  So a directory that holds an SST file and the
    same numbers under a name without the padding lists the identifier
    twice in its level. *)
Theorem X29_constructor_opens_the_padded_name (st : LSMEngine) :
  (∀ filename,
     String.substring 0 4 filename ≠ "sst_"%string
     ∨ String.index 0 "." filename = None
     ∨ String.index 0 "." filename = Some (String.length filename - 1) →
     Engine.scan_entry filename st = Ok tt st)
  ∧ (∀ id_str level_str,
       digit_string id_str → digit_string level_str →
       (Engine.digits 0 id_str < 2 ^ 64)%N →
       (Engine.digits 0 level_str < 2 ^ 64)%N →
       let id := N.to_nat (Engine.digits 0 id_str) in
       let level := N.to_nat (Engine.digits 0 level_str) in
       let filename := "sst_" +:+ id_str +:+ "." +:+ level_str in
       (disk st !! Engine.get_sst_path id level = None →
        ∃ st', Engine.scan_entry filename st
               = Throw (IOError (Engine.get_sst_path id level)) st')
       ∧ (∀ recs,
            disk st !! Engine.get_sst_path id level = Some recs →
            ∃ st', Engine.scan_entry filename st = Ok tt st'
                   ∧ ssts st'
                     = <[id := mkSST id (Engine.get_sst_path id level) recs]>
                         (ssts st)
                   ∧ level_ids level st' = level_ids level st ++ [id]
                   ∧ disk st' = disk st))
  ∧ (∀ id level recs,
       (N.of_nat id < 2 ^ 64)%N → (N.of_nat level < 2 ^ 64)%N →
       disk st !! Engine.get_sst_path id level = Some recs →
       ∃ st',
         for_each Engine.scan_entry
           [Engine.get_sst_path id level;
            "sst_" +:+ pretty id +:+ "." +:+ pretty level] st
         = Ok tt st'
         ∧ level_ids level st' = level_ids level st ++ [id; id]).
Proof.
  split_and!.
  - intros filename. apply scan_entry_skips.
  - intros id_str level_str Di Dl Hid Hlevel id level filename.
    pose proof (scan_entry_digits id_str level_str st Di Dl Hid Hlevel)
      as E. cbv zeta in E. fold id level filename in E.
    split.
    + intros Hnone. rewrite Hnone in E. by eexists.
    + intros recs Hsome. rewrite Hsome in E. eexists. split; [exact E|].
      split_and!; try done.
      by rewrite level_ids_set_level, decide_True.
  - intros id level recs Hid Hlevel Hfile.
    destruct (scan_entry_own_name id level recs st Hid Hlevel Hfile)
      as (st1 & E1 & _ & Hl1 & _ & _ & _ & Hd1).
    pose proof (scan_entry_digits (pretty id) (pretty level) st1
                  (pretty_nat_digit_string id)
                  (pretty_nat_digit_string level)) as E2.
    rewrite !digits_pretty_nat, !Nat2N.id in E2.
    specialize (E2 Hid Hlevel). cbv zeta in E2.
    rewrite Hd1, Hfile in E2.
    eexists. split.
    + cbn [for_each]. rewrite bind_unfold, E1, bind_unfold, E2. reflexivity.
    + rewrite level_ids_set_level, decide_True by done.
      cbn [level_ids]. unfold level_ids at 1.
      cbn [level_sst_ids log set_ssts set_cur_max_level set_cur_max_sst_id].
      fold (level_ids level st1). rewrite Hl1, decide_True by done.
      by rewrite <- app_assoc.
Qed.

Lemma X29_constructor_opens_the_padded_name_witness :
  ∃ st',
    for_each Engine.scan_entry
      [Engine.get_sst_path 7 2; "sst_7.2"%string]
      (Engine.init {[ Engine.get_sst_path 7 2 := [("a", "1")]%string ]})
    = Ok tt st'
    ∧ level_ids 2 st' = [7; 7].
Proof.
  assert (N.of_nat 7 < 2 ^ 64)%N as H1 by (vm_compute; reflexivity).
  assert (N.of_nat 2 < 2 ^ 64)%N as H2 by (vm_compute; reflexivity).
  assert (disk (Engine.init
                  {[ Engine.get_sst_path 7 2 := [("a", "1")]%string ]})
            !! Engine.get_sst_path 7 2 = Some [("a", "1")]%string) as H3
    by apply lookup_singleton_eq.
  destruct (X29_constructor_opens_the_padded_name
              (Engine.init
                 {[ Engine.get_sst_path 7 2 := [("a", "1")]%string ]}))
    as (_ & _ & H).
  destruct (H 7 2 _ H1 H2 H3) as (st' & E & Hl).
  exists st'. exact (conj E Hl).
Defined.

(** ** [redis_del] of a hash *)

(** X30.  [redis_del] of one key that holds a hash leaves no field
    behind: the reply is 1, and the key of the hash, the keys of all
    listed fields and the expiry record are removed.  No other key
    changes. *)
Theorem X30_del_of_a_hash_removes_its_fields
    (rc : RedisConsts) (rf : RedisFormat) (cfg : Consts)
    (cmd key : string) (fields : list string) (st : LSMEngine) :
  engine_wf st →
  holds_hash rf st key fields →
  fields ≠ [] →
  ∃ st',
    RedisMore.redis_del rc rf cfg [cmd; key] st = Ok (Resp.int 1) st'
    ∧ holds_hash rf st' key []
    ∧ (∀ f, f ∈ fields →
            answer st' (RedisMore.get_hash_filed_key rf key f) = None)
    ∧ answer st' (Redis.get_explire_key rc key) = None
    ∧ (∀ k, k ≠ key → k ≠ Redis.get_explire_key rc key →
            (∀ f, f ∈ fields → k ≠ RedisMore.get_hash_filed_key rf key f) →
            answer st' k = answer st k).
Proof.
  intros W H Hne.
  destruct (redis_del_hash rc rf cfg cmd key fields st W H Hne)
    as (r & st' & E & -> & W' & A).
  exists st'. split_and!; try done.
  - split; [constructor|].
    by rewrite A, bool_decide_eq_true_2 by (right; left).
  - intros f Hf. rewrite A, bool_decide_eq_true_2; [done|].
    do 2 right. apply elem_of_map. by exists f.
  - by rewrite A, bool_decide_eq_true_2 by left.
  - intros k H1 H2 H3. rewrite A, bool_decide_eq_false_2; [done|].
    intros [->|[->|(f & -> & Hf)%elem_of_map]%elem_of_cons]%elem_of_cons;
      try done.
    by apply (H3 f).
Qed.

Lemma X30_del_of_a_hash_removes_its_fields_witness :
  engine_wf States.with_hashes
  ∧ holds_hash MoreExamples.format States.with_hashes "h" ["f"; "g"]%string
  ∧ ["f"; "g"]%string ≠ []
  ∧ ∃ st',
      RedisMore.redis_del RedisExamples.consts MoreExamples.format
        Examples.roomy ["DEL"; "h"]%string States.with_hashes
      = Ok (Resp.int 1) st'
      ∧ answer st' (RedisMore.get_hash_filed_key MoreExamples.format "h" "g")
        = None.
Proof.
  assert (holds_hash MoreExamples.format States.with_hashes "h"
            ["f"; "g"]%string) as H.
  { split; [|vm_compute; reflexivity].
    repeat constructor; discriminate. }
  assert (["f"; "g"]%string ≠ []) as Hne by discriminate.
  assert ("g"%string ∈ ["f"; "g"]%string) as Hg by (right; left).
  split; [apply with_hashes_wf|]. split; [exact H|]. split; [exact Hne|].
  destruct (X30_del_of_a_hash_removes_its_fields RedisExamples.consts
              MoreExamples.format Examples.roomy "DEL" "h"
              ["f"; "g"]%string States.with_hashes with_hashes_wf H Hne)
    as (st' & E & _ & Hf & _).
  exists st'. exact (conj E (Hf "g"%string Hg)).
Defined.
